(** * CardForge front-end state management: store.js and undo_redo.js

    A shallow embedding of the utilities of [store.js] ([deepClone],
    [deepEqual], [getByPath], [setByPath], [createEmptyCard]), of the two
    registrations of the [history] store ([initStores] in store.js,
    [initHistoryStore] in undo_redo.js), of the [card] store with its
    debounced dirty flag, of the [ui] and [toast] stores, and of the
    toolbar and [recordState] of undo_redo.js.

    JavaScript values live in an explicit heap: objects and arrays are cells
    addressed by references, so in-place mutation and aliasing are visible.
    Every function of the source becomes a computation in a state monad whose
    result is a normal return, a thrown exception, or an explicit marker that
    the run left the fragment of JavaScript covered here.

    The fragment: values are [undefined], [null], booleans, numbers, strings
    and references to plain objects and arrays, and an object has own
    enumerable data properties only. The prototype of an object is not
    recorded in its cell. Every object is taken to have the prototype the
    language gives it: a read of a name that the object does not own and
    that [Object.prototype] or [Array.prototype] defines ([constructor],
    [toString], [__proto__], ...) reaches a built-in function or accessor,
    and is marked as leaving the fragment; so is the conversion of a string
    or an object to a number. An assignment to [__proto__] on an object
    that does not own that name runs the setter of [Object.prototype] and
    makes no property; where the setter installs another prototype, the
    cell stays as it is, and what the object would inherit from that
    prototype is not followed. Accessors of the program's own and proxies
    are left out. [structuredClone] and the timers belong to the platform: the first
    is a parameter of [deepClone], the timers are a clock and a list of
    pending timeouts.

    The embedding comes first, the properties after it. *)

From Stdlib Require Import ZArith NArith List String Ascii Bool Lia.
From Stdlib Require Import Floats.SpecFloat DecimalString DecimalN.
From stdpp Require Import base list option.

Local Open Scope string_scope.
Local Open Scope list_scope.

(* ================================================================== *)
(** * JavaScript values and the heap *)
(* ================================================================== *)

Abbreviation loc := nat (only parsing).

(** A JavaScript value. Numbers are IEEE binary64 values in the
    representation of [SpecFloat]. A string is its sequence of code units,
    one character of [string] for each, so the strings covered are those
    whose code units are below 256. The two messages of the toolbar are
    outside that range: they are written as the bytes of their UTF-8 form
    and stand for themselves only, nothing reads their length or their code
    units. *)
Inductive val : Type :=
| VUndefined
| VNull
| VBool (b : bool)
| VNum (x : spec_float)
| VStr (s : string)
| VRef (l : loc).

(** Plain objects and arrays. An array carries its [length]; its elements
    are the properties whose key is an array index. *)
Inductive obj_kind : Type :=
| KObject
| KArray (len : N).

(** Own enumerable string-keyed data properties, in enumeration order.
    The prototype chain, accessors and symbols are not part of the model. *)
Record jsobj : Type := JsObj {
  kind : obj_kind;
  props : list (string * val)
}.

Abbreviation heap := (list jsobj) (only parsing).

Definition is_array (o : jsobj) : bool :=
  match kind o with KArray _ => true | KObject => false end.

Definition empty_object : jsobj := JsObj KObject [].
Definition empty_array : jsobj := JsObj (KArray 0) [].

(** [binary64] number of a natural number below 2^53. *)
Definition num_of_N (n : N) : spec_float :=
  binary_normalize 53 1024 (Z.of_N n) 0 false.

Definition num_is_finite (x : spec_float) : bool :=
  match x with S754_zero _ | S754_finite _ _ _ => true | _ => false end.

(** ToNumber on the values whose conversion needs no parsing; the
    conversion of a string or an object is outside this embedding. *)
Definition to_number (v : val) : option spec_float :=
  match v with
  | VUndefined => Some S754_nan
  | VNull => Some (S754_zero false)
  | VBool b => Some (if b then num_of_N 1 else S754_zero false)
  | VNum x => Some x
  | VStr _ | VRef _ => None
  end.

(** The array length a number denotes: the number itself when it is an
    integer from 0 to 2^32 - 1 (ToUint32 gives it back), and none
    otherwise. *)
Definition array_length (x : spec_float) : option N :=
  match x with
  | S754_zero _ => Some 0%N
  | S754_finite false m e =>
      let whole :=
        if (0 <=? e)%Z then Some (Z.pos m * 2 ^ e)%Z
        else if (Z.pos m mod 2 ^ (- e) =? 0)%Z then Some (Z.pos m / 2 ^ (- e))%Z
        else None in
      match whole with
      | Some z => if (z <? 4294967296)%Z then Some (Z.to_N z) else None
      | None => None
      end
  | _ => None
  end.

(* ================================================================== *)
(** * How a call ends *)
(* ================================================================== *)

Inductive js_error : Type := TypeError | RangeError.

(** How a call ends. [Unsupported] marks a run that leaves the embedded
    fragment: a dangling reference, a read that reaches a built-in
    prototype, the conversion of a string or an object to a number.
    [OutOfFuel] marks a recursion deeper than the bound given to it. The
    program has no bound of its own: its bound is the stack of the engine,
    and a recursion that uses it up, as any recursion on a cyclic value
    does, ends with a [RangeError]. *)
Inductive outcome (A : Type) : Type :=
| Ret (a : A)
| Throw (e : js_error)
| Unsupported
| OutOfFuel.
Arguments Ret {A} a.
Arguments Throw {A} e.
Arguments Unsupported {A}.
Arguments OutOfFuel {A}.

(** [a === b] *)
Definition strict_eq (a b : val) : bool :=
  match a, b with
  | VUndefined, VUndefined => true
  | VNull, VNull => true
  | VBool x, VBool y => Bool.eqb x y
  | VNum x, VNum y => SFeqb x y
  | VStr x, VStr y => String.eqb x y
  | VRef x, VRef y => Nat.eqb x y
  | _, _ => false
  end.

(** [typeof v === 'object'] (true for [null]; there are no functions here). *)
Definition typeof_object (v : val) : bool :=
  match v with VNull | VRef _ => true | _ => false end.

Definition is_nullish (v : val) : bool :=
  match v with VUndefined | VNull => true | _ => false end.

Definition is_ref (v : val) : bool :=
  match v with VRef _ => true | _ => false end.

(* ================================================================== *)
(** * Property keys *)
(* ================================================================== *)

(** [\d] *)
Definition is_digit (c : ascii) : bool :=
  (48 <=? nat_of_ascii c)%nat && (nat_of_ascii c <=? 57)%nat.

(** [/^\d+$/.test(s)] *)
Definition all_digits (s : string) : bool :=
  match s with
  | EmptyString => false
  | _ => forallb is_digit (list_ascii_of_string s)
  end.

(** An array index is a canonical decimal numeral (the numeral of the number
    it denotes) below 2^32 - 1. *)
Definition array_index (key : string) : option N :=
  match NilEmpty.uint_of_string key with
  | Some d =>
      if Decimal.uint_beq (Decimal.unorm d) d then
        let n := N.of_uint d in
        if (n <? 4294967295)%N then Some n else None
      else None
  | None => None
  end.

(** The key of index [i]: its decimal numeral. *)
Definition index_key (i : N) : string :=
  NilEmpty.string_of_uint (N.to_uint i).

(** The keys ["0"], ..., ["len - 1"]. *)
Definition index_keys (len : N) : list string :=
  map (fun i => index_key (N.of_nat i)) (seq 0 (N.to_nat len)).

(* ================================================================== *)
(** * Own properties *)
(* ================================================================== *)

Fixpoint prop_lookup (key : string) (ps : list (string * val)) : option val :=
  match ps with
  | [] => None
  | (k, v) :: r => if String.eqb key k then Some v else prop_lookup key r
  end.

Fixpoint prop_replace (key : string) (v : val) (ps : list (string * val))
  : list (string * val) :=
  match ps with
  | [] => []
  | (k, w) :: r =>
      if String.eqb key k then (k, v) :: r else (k, w) :: prop_replace key v r
  end.

(** A new index key goes after the smaller index keys and before every
    other key: index keys enumerate first, in ascending order. *)
Fixpoint prop_insert_index (i : N) (key : string) (v : val)
  (ps : list (string * val)) : list (string * val) :=
  match ps with
  | [] => [(key, v)]
  | (k, w) :: r =>
      match array_index k with
      | Some j => if (j <? i)%N then (k, w) :: prop_insert_index i key v r
                  else (key, v) :: ps
      | None => (key, v) :: ps
      end
  end.

(** Assignment to an own data property: an existing key keeps its place, a
    new index key is sorted in, any other new key is appended. *)
Definition prop_store (key : string) (v : val) (ps : list (string * val))
  : list (string * val) :=
  match prop_lookup key ps with
  | Some _ => prop_replace key v ps
  | None =>
      match array_index key with
      | Some i => prop_insert_index i key v ps
      | None => ps ++ [(key, v)]
      end
  end.

(** [Object.keys(o)] *)
Definition own_keys (o : jsobj) : list string := map fst (props o).

(** [Object.hasOwn(o, key)]: the properties of the cell and, for an array,
    its [length], which [Object.keys] does not list. *)
Definition has_own (o : jsobj) (key : string) : bool :=
  match prop_lookup key (props o) with
  | Some _ => true
  | None => is_array o && String.eqb key "length"
  end.

(** The value of the own property [key] of [o], [undefined] when [o] has
    no such property. *)
Definition obj_get (o : jsobj) (key : string) : val :=
  match kind o with
  | KArray len =>
      if String.eqb key "length" then VNum (num_of_N len)
      else default VUndefined (prop_lookup key (props o))
  | KObject => default VUndefined (prop_lookup key (props o))
  end.

(** The string-keyed properties of the built-in prototypes, as ECMAScript
    2025 defines them (Annex B included). All of them hold functions,
    except [__proto__], which is an accessor. *)
Definition Object_prototype : list string :=
  [ "constructor"; "__defineGetter__"; "__defineSetter__"; "hasOwnProperty";
    "__lookupGetter__"; "__lookupSetter__"; "isPrototypeOf";
    "propertyIsEnumerable"; "toString"; "valueOf"; "__proto__";
    "toLocaleString" ].

Definition Array_prototype : list string :=
  [ "at"; "concat"; "constructor"; "copyWithin"; "entries"; "every"; "fill";
    "filter"; "find"; "findIndex"; "findLast"; "findLastIndex"; "flat";
    "flatMap"; "forEach"; "includes"; "indexOf"; "join"; "keys";
    "lastIndexOf"; "map"; "pop"; "push"; "reduce"; "reduceRight"; "reverse";
    "shift"; "slice"; "some"; "sort"; "splice"; "toLocaleString";
    "toReversed"; "toSorted"; "toSpliced"; "toString"; "unshift"; "values";
    "with" ].

Definition String_prototype : list string :=
  [ "at"; "charAt"; "charCodeAt"; "codePointAt"; "concat"; "constructor";
    "endsWith"; "includes"; "indexOf"; "isWellFormed"; "lastIndexOf";
    "localeCompare"; "match"; "matchAll"; "normalize"; "padEnd"; "padStart";
    "repeat"; "replace"; "replaceAll"; "search"; "slice"; "split";
    "startsWith"; "substring"; "toLocaleLowerCase"; "toLocaleUpperCase";
    "toLowerCase"; "toString"; "toUpperCase"; "toWellFormed"; "trim";
    "trimEnd"; "trimStart"; "valueOf";
    "substr"; "anchor"; "big"; "blink"; "bold"; "fixed"; "fontcolor";
    "fontsize"; "italics"; "link"; "small"; "strike"; "sub"; "sup";
    "trimLeft"; "trimRight" ].

Definition Number_prototype : list string :=
  [ "constructor"; "toExponential"; "toFixed"; "toLocaleString";
    "toPrecision"; "toString"; "valueOf" ].

Definition Boolean_prototype : list string :=
  [ "constructor"; "toString"; "valueOf" ].

Definition named_in (names : list string) (key : string) : bool :=
  existsb (String.eqb key) names.

(** The names an object or array inherits. *)
Definition prototype_names (o : jsobj) : list string :=
  match kind o with
  | KObject => Object_prototype
  | KArray _ => Array_prototype ++ Object_prototype
  end.

(** [o[key]] is found on the prototype chain of [o], not on [o]. *)
Definition reads_prototype (o : jsobj) (key : string) : bool :=
  negb (has_own o key) && named_in (prototype_names o) key.

(** A name that one of the built-in prototypes defines. *)
Definition prototype_name (key : string) : bool :=
  named_in (Object_prototype ++ Array_prototype ++ String_prototype
            ++ Number_prototype ++ Boolean_prototype) key.

(** What is left of the properties of an array when its [length] is set to
    [n]: the elements at [n] and above are deleted. *)
Definition truncate (n : N) (ps : list (string * val)) : list (string * val) :=
  List.filter (fun kv => match array_index (fst kv) with
                         | Some i => (i <? n)%N
                         | None => true
                         end) ps.

(** An assignment [o[key] = v] that runs the setter of [__proto__]: [o]
    does not own the name, so it is found on [Object.prototype]. *)
Definition proto_write (o : jsobj) (key : string) : bool :=
  String.eqb key "__proto__" && negb (has_own o key).

(** An assignment to the [length] of an array. *)
Definition length_write (o : jsobj) (key : string) : bool :=
  is_array o && String.eqb key "length".

(** Writing an index at or past the end of an array moves its [length]. *)
Definition kind_with (k : obj_kind) (key : string) : obj_kind :=
  match k, array_index key with
  | KArray len, Some i => KArray (N.max len (i + 1))
  | _, _ => k
  end.

(** What [o[key] = v] makes of an object or array [o].

    For the key [__proto__] on an object that does not own that name no
    property is made: a value that is an object or [null] becomes the
    prototype, which the cell does not record, and any other value is
    ignored.

    Assignment to the [length] of an array converts the value to a number:
    a number that is no array length is a [RangeError], a smaller length
    deletes the elements from it on; the conversion of a string or an
    object is outside this embedding.

    Any other assignment makes or changes an own data property. *)
Definition obj_set (o : jsobj) (key : string) (v : val) : outcome jsobj :=
  if proto_write o key then Ret o
  else if length_write o key then
    match to_number v with
    | Some x =>
        match array_length x with
        | Some n => Ret (JsObj (KArray n) (truncate n (props o)))
        | None => Throw RangeError
        end
    | None => Unsupported
    end
  else Ret (JsObj (kind_with (kind o) key) (prop_store key v (props o))).

(** [s[key]] for a primitive string, for its own properties: its code units
    and its length. *)
Definition string_get (s : string) (key : string) : val :=
  if String.eqb key "length" then VNum (num_of_N (N.of_nat (String.length s)))
  else
    match array_index key with
    | Some i =>
        match String.get (N.to_nat i) s with
        | Some c => VStr (String c EmptyString)
        | None => VUndefined
        end
    | None => VUndefined
    end.

(* ================================================================== *)
(** * Computations *)
(* ================================================================== *)

(** A computation over a state [S]; the state reached is kept also when the
    call fails, as it is in JavaScript. *)
Definition M (S A : Type) : Type := S -> outcome A * S.

Definition ret {S A} (a : A) : M S A := fun s => (Ret a, s).

Definition bind {S A B} (m : M S A) (f : A -> M S B) : M S B :=
  fun s =>
    match m s with
    | (Ret a, s') => f a s'
    | (Throw e, s') => (Throw e, s')
    | (Unsupported, s') => (Unsupported, s')
    | (OutOfFuel, s') => (OutOfFuel, s')
    end.

Definition fail {S A} (o : outcome A) : M S A := fun s => (o, s).

Definition gets {S A} (f : S -> A) : M S A := fun s => (Ret (f s), s).

Definition modify {S} (f : S -> S) : M S unit := fun s => (Ret tt, f s).

(** Run a computation on a component of the state. *)
Definition zoom {S T A} (get : S -> T) (put : T -> S -> S) (m : M T A) : M S A :=
  fun s => let (r, t) := m (get s) in (r, put t s).

Declare Scope js_scope.
Delimit Scope js_scope with js.
Notation "x <- m ;; k" := (bind m (fun x => k))
  (at level 100, m at next level, right associativity) : js_scope.
Notation "m ;;; k" := (bind m (fun _ => k))
  (at level 100, right associativity) : js_scope.
Local Open Scope js_scope.

Fixpoint for_each {S A} (l : list A) (body : A -> M S unit) : M S unit :=
  match l with
  | [] => ret tt
  | x :: r => body x ;;; for_each r body
  end.

(** An outcome that is not a normal return, at another type. *)
Definition rethrow {A B} (r : outcome A) (default : B) : outcome B :=
  match r with
  | Ret _ => Ret default
  | Throw e => Throw e
  | Unsupported => Unsupported
  | OutOfFuel => OutOfFuel
  end.

(** [base[key]] is found on a built-in prototype and not on [base]. The
    own properties of a primitive string are its length and its code
    units, of which no prototype has the name. *)
Definition inherited_read (h : heap) (base : val) (key : string) : bool :=
  match base with
  | VUndefined | VNull => false
  | VBool _ => named_in (Boolean_prototype ++ Object_prototype) key
  | VNum _ => named_in (Number_prototype ++ Object_prototype) key
  | VStr _ => named_in (String_prototype ++ Object_prototype) key
  | VRef l =>
      match h !! l with
      | Some o => reads_prototype o key
      | None => false
      end
  end.

(** [base[key]] as an expression. A name that [base] does not own is looked
    up on its prototype chain: it is [undefined] unless a built-in
    prototype defines it, and then the read gives a function, or runs the
    getter of [__proto__]: both are outside the fragment. *)
Definition get_prop (base : val) (key : string) : M heap val :=
  fun h =>
    if inherited_read h base key then (Unsupported, h)
    else
      match base with
      | VUndefined | VNull => (Throw TypeError, h)
      | VBool _ | VNum _ => (Ret VUndefined, h)
      | VStr s => (Ret (string_get s key), h)
      | VRef l =>
          match h !! l with
          | Some o => (Ret (obj_get o key), h)
          | None => (Unsupported, h)
          end
      end.

(** [base[key] = v]. The module is strict-mode code, so assignment to a
    property of a primitive throws, except for [__proto__], whose setter
    returns without doing anything when [base] is not an object. The same
    setter throws when an object is to become its own prototype. *)
Definition set_prop (base : val) (key : string) (v : val) : M heap unit :=
  fun h =>
    match base with
    | VUndefined | VNull => (Throw TypeError, h)
    | VBool _ | VNum _ | VStr _ =>
        if String.eqb key "__proto__" then (Ret tt, h) else (Throw TypeError, h)
    | VRef l =>
        match h !! l with
        | Some o =>
            if proto_write o key && strict_eq v (VRef l)
            then (Throw TypeError, h)
            else
              match obj_set o key v with
              | Ret o' => (Ret tt, <[l := o']> h)
              | r => (rethrow r tt, h)
              end
        | None => (Unsupported, h)
        end
    end.

(** [{}] and [[]]: a fresh cell at the end of the heap. *)
Definition alloc (o : jsobj) : M heap val :=
  fun h => (Ret (VRef (length h)), h ++ [o]).

(** The cell a reference addresses. *)
Definition deref (v : val) : M heap jsobj :=
  fun h =>
    match v with
    | VRef l =>
        match h !! l with
        | Some o => (Ret o, h)
        | None => (Unsupported, h)
        end
    | _ => (Unsupported, h)
    end.

(** [key in obj] for an own property. *)
Definition has_prop (base : val) (key : string) : M heap bool :=
  o <- deref base ;;
  ret (match prop_lookup key (props o) with Some _ => true | None => false end).

(* ================================================================== *)
(** * Paths *)
(* ================================================================== *)

(** [path.replace(/\[(\d+)\]/g, '.$1')], as a scan. [pending] holds the
    digits read since an opening bracket; a bracket that is not closed
    after at least one digit is copied unchanged, and since none of the
    characters read after it is an opening bracket, no match can start
    among them. *)
Fixpoint replace_brackets (pending : option string) (s : string) : string :=
  match s with
  | EmptyString =>
      match pending with
      | Some ds => String "[" ds
      | None => EmptyString
      end
  | String c r =>
      match pending with
      | None =>
          if Ascii.eqb c "[" then replace_brackets (Some EmptyString) r
          else String c (replace_brackets None r)
      | Some ds =>
          if is_digit c then replace_brackets (Some (ds ++ String c EmptyString)%string) r
          else if Ascii.eqb c "]" && negb (String.eqb ds EmptyString)
          then (String "." ds ++ replace_brackets None r)%string
          else if Ascii.eqb c "["
          then (String "[" ds ++ replace_brackets (Some EmptyString) r)%string
          else (String "[" ds ++ String c (replace_brackets None r))%string
      end
  end.

(** [s.split('.')], with [cur] the segment being read. *)
Fixpoint split_dots (cur : string) (s : string) : list string :=
  match s with
  | EmptyString => [cur]
  | String c r =>
      if Ascii.eqb c "." then cur :: split_dots EmptyString r
      else split_dots (cur ++ String c EmptyString)%string r
  end.

Definition path_keys (path : string) : list string :=
  split_dots EmptyString (replace_brackets None path).

(** [keys.join('.')] *)
Definition join_dots (keys : list string) : string :=
  String.concat "." keys.

(* ================================================================== *)
(** * store.js: getByPath and setByPath *)
(* ================================================================== *)

(** The state [setByPath] acts on: the heap and the lines written with
    [console.warn]. *)
Record env : Type := Env {
  env_heap : heap;
  env_console : list string
}.

Definition on_heap {A} (m : M heap A) : M env A :=
  zoom env_heap (fun h e => Env h (env_console e)) m.

Definition console_warn (msg : string) : M env unit :=
  modify (fun e => Env (env_heap e) (env_console e ++ [msg])).

(** The loop of [getByPath] over the remaining keys. *)
Fixpoint getByPath_loop (keys : list string) (current : val) : M heap val :=
  match keys with
  | [] => ret current
  | key :: rest =>
      if strict_eq current VNull || strict_eq current VUndefined
      then ret VUndefined
      else
        next <- get_prop current key ;;
        getByPath_loop rest next
  end.

Definition getByPath (obj : val) (path : string) : M heap val :=
  getByPath_loop (path_keys path) obj.

(** [/^\d+$/.test(nextKey) ? [] : {}] *)
Definition container_for (nextKey : string) : jsobj :=
  if all_digits nextKey then empty_array else empty_object.

(** One iteration of the loop of [setByPath] at index [i], where [upto] is
    [keys.slice(0, i + 1)]. The result is [None] when the iteration executes
    [return], and the next value of [current] otherwise. *)
Definition setByPath_step (upto : list string) (key nextKey : string)
  (current : val) (autoCreate : bool) : M env (option val) :=
  c <- on_heap (get_prop current key) ;;
  go_on <-
    (if negb (strict_eq c VUndefined) && negb (strict_eq c VNull)
        && negb (typeof_object c)
     then
       if negb autoCreate
       then
         console_warn ("[store] Cannot traverse path at " ++ join_dots upto)%string ;;;
         ret false
       else
         console_warn ("[store] Overwriting primitive value at " ++ join_dots upto)%string ;;;
         fresh <- on_heap (alloc (container_for nextKey)) ;;
         on_heap (set_prop current key fresh) ;;;
         ret true
     else ret true) ;;
  if negb go_on then ret None
  else
    c <- on_heap (get_prop current key) ;;
    go_on <-
      (if strict_eq c VUndefined || strict_eq c VNull
       then
         if negb autoCreate
         then
           console_warn ("[store] Path does not exist: " ++ join_dots upto)%string ;;;
           ret false
         else
           fresh <- on_heap (alloc (container_for nextKey)) ;;
           on_heap (set_prop current key fresh) ;;;
           ret true
       else ret true) ;;
    if negb go_on then ret None
    else
      next <- on_heap (get_prop current key) ;;
      ret (Some next).

(** The loop of [setByPath] followed by the final assignment. [done] holds
    the keys already passed, [keys] the keys from index [i] on. *)
Fixpoint setByPath_loop (done keys : list string) (current value : val)
  (autoCreate : bool) : M env unit :=
  match keys with
  | [] => on_heap (set_prop current "undefined" value)
  | key :: rest =>
      match rest with
      | [] => on_heap (set_prop current key value)
      | nextKey :: _ =>
          r <- setByPath_step (done ++ [key]) key nextKey current autoCreate ;;
          match r with
          | None => ret tt
          | Some next =>
              setByPath_loop (done ++ [key]) rest next value autoCreate
          end
      end
  end.

Definition setByPath (obj : val) (path : string) (value : val)
  (autoCreate : bool) : M env unit :=
  setByPath_loop [] (path_keys path) obj value autoCreate.

(* ================================================================== *)
(** * store.js: deepClone and deepEqual *)
(* ================================================================== *)

(** The platform's [structuredClone]: from the heap and a value it gives a
    copy and the cells it allocates for it, or throws ([None]). It is not
    part of the repository and is a parameter of [deepClone]; [None] for the
    parameter itself is a platform without [structuredClone]. *)
Definition native_clone : Type := heap -> val -> option (val * list jsobj).

(** [try { return structuredClone(obj) } catch {}], guarded by
    [typeof structuredClone === 'function']: the copy, or [None] when the
    fallback has to run. *)
Definition try_structuredClone (sc : option native_clone) (obj : val)
  : M heap (option val) :=
  fun h =>
    match sc with
    | Some f =>
        match f h obj with
        | Some (copy, cells) => (Ret (Some copy), h ++ cells)
        | None => (Ret None, h)
        end
    | None => (Ret None, h)
    end.

(** [obj.map(callback)] on an array: a new array of the same length, with
    the image of every element that is present. *)
Definition array_map (callback : val -> M heap val) (obj : val) (len : N)
  : M heap val :=
  result <- alloc (JsObj (KArray len) []) ;;
  for_each (index_keys len) (fun key =>
    present <- has_prop obj key ;;
    if present then
      item <- get_prop obj key ;;
      mapped <- callback item ;;
      set_prop result key mapped
    else ret tt) ;;;
  ret result.

(** [deepClone(obj)]; [fuel] bounds the depth of the recursion. *)
Fixpoint deepClone (sc : option native_clone) (fuel : nat) (obj : val)
  : M heap val :=
  match fuel with
  | 0 => fail OutOfFuel
  | S fuel' =>
      native <- try_structuredClone sc obj ;;
      match native with
      | Some copy => ret copy
      | None =>
          if strict_eq obj VNull || negb (typeof_object obj) then ret obj
          else
            o <- deref obj ;;
            match kind o with
            | KArray len => array_map (deepClone sc fuel') obj len
            | KObject =>
                cloned <- alloc empty_object ;;
                for_each (own_keys o) (fun key =>
                  item <- get_prop obj key ;;
                  copy <- deepClone sc fuel' item ;;
                  set_prop cloned key copy) ;;;
                ret cloned
            end
      end
  end.

(** [dst[key] = clone(src[key])], the body of the loops of [deepClone]. *)
Definition copy_prop (clone : val -> M heap val) (src dst : val) (key : string)
  : M heap unit :=
  item <- get_prop src key ;;
  copy <- clone item ;;
  set_prop dst key copy.

(** The loop of [deepEqual] over [keysA]. *)
Fixpoint keys_equal (equal : val -> val -> M heap bool) (keysB : list string)
  (a b : val) (keysA : list string) : M heap bool :=
  match keysA with
  | [] => ret true
  | key :: rest =>
      if negb (existsb (String.eqb key) keysB) then ret false
      else
        x <- get_prop a key ;;
        y <- get_prop b key ;;
        same <- equal x y ;;
        if negb same then ret false
        else keys_equal equal keysB a b rest
  end.

(** [deepEqual(a, b)]; [fuel] bounds the depth of the recursion. *)
Fixpoint deepEqual (fuel : nat) (a b : val) : M heap bool :=
  match fuel with
  | 0 => fail OutOfFuel
  | S fuel' =>
      if strict_eq a b then ret true
      else if strict_eq a VNull || strict_eq b VNull then ret (strict_eq a b)
      else if negb (typeof_object a) || negb (typeof_object b) then ret false
      else
        oa <- deref a ;;
        ob <- deref b ;;
        if negb (Bool.eqb (is_array oa) (is_array ob)) then ret false
        else
          let keysA := own_keys oa in
          let keysB := own_keys ob in
          if negb (Nat.eqb (length keysA) (length keysB)) then ret false
          else keys_equal (deepEqual fuel') keysB a b keysA
  end.

(* ================================================================== *)
(** * JSON documents *)
(* ================================================================== *)

(** A JSON document as a tree, with the fields of an object in
    enumeration order. *)
#[warnings="-register-all"]
Inductive json : Type :=
| JNull
| JBool (b : bool)
| JNum (x : spec_float)
| JStr (s : string)
| JArr (items : list json)
| JObj (fields : list (string * json)).

Definition is_leaf (t : json) : bool :=
  match t with JArr _ | JObj _ => false | _ => true end.

Fixpoint keys_eqb (xs ys : list string) : bool :=
  match xs, ys with
  | [], [] => true
  | x :: xs', y :: ys' => String.eqb x y && keys_eqb xs' ys'
  | _, _ => false
  end.

Fixpoint keys_nodup (ks : list string) : bool :=
  match ks with
  | [] => true
  | k :: r => negb (existsb (String.eqb k) r) && keys_nodup r
  end.

(** Enumeration order: index keys first, in ascending order, then the
    other keys. *)
Fixpoint keys_ordered (ks : list string) : bool :=
  match ks with
  | [] => true
  | k :: r =>
      match array_index k with
      | Some i =>
          forallb (fun k' => match array_index k' with
                             | Some j => (i <? j)%N
                             | None => true
                             end) r
      | None =>
          forallb (fun k' => match array_index k' with
                             | Some _ => false
                             | None => true
                             end) r
      end && keys_ordered r
  end.

(** The JSON document a value stands for in heap [h], reading only cells at
    or above [base] and at most [depth] levels of objects and arrays. There
    is none when the value contains [undefined], a number that is not
    finite, a dangling reference, an array that is not dense or has other
    properties, or when it is nested deeper than [depth] (as every cyclic
    value is). *)
Fixpoint reify_from (base : loc) (depth : nat) (h : heap) (v : val)
  : option json :=
  match v with
  | VUndefined => None
  | VNull => Some JNull
  | VBool b => Some (JBool b)
  | VNum x => if num_is_finite x then Some (JNum x) else None
  | VStr s => Some (JStr s)
  | VRef l =>
      match depth with
      | 0 => None
      | S depth' =>
          if Nat.ltb l base then None
          else
            match h !! l with
            | None => None
            | Some o =>
                let keys := own_keys o in
                match mapM (reify_from base depth' h) (map snd (props o)) with
                | None => None
                | Some ts =>
                    match kind o with
                    | KArray len =>
                        if (len <? 4294967296)%N && keys_eqb keys (index_keys len)
                        then Some (JArr ts) else None
                    | KObject =>
                        if keys_nodup keys && keys_ordered keys
                        then Some (JObj (combine keys ts)) else None
                    end
                end
            end
      end
  end.

Definition reify (depth : nat) (h : heap) (v : val) : option json :=
  reify_from 0 depth h v.

(* ================================================================== *)
(** * Well-formed heaps and the platform *)
(* ================================================================== *)

(** A reference is closed in [h] when it addresses a cell of [h]. *)
Definition val_closed (h : heap) (v : val) : bool :=
  match v with VRef l => Nat.ltb l (length h) | _ => true end.

Definition obj_closed (h : heap) (o : jsobj) : bool :=
  forallb (fun kv => val_closed h (snd kv)) (props o).

(** No cell holds a dangling reference. *)
Definition heap_closed (h : heap) : bool := forallb (obj_closed h) h.

(** The value [v] is nested at most [depth] levels deep in [h]: every
    reference met in it addresses a cell, and after [depth] objects and
    arrays, one inside the other, only primitive values are left. No
    cyclic value is. *)
Fixpoint within_depth (depth : nat) (h : heap) (v : val) {struct depth} : bool :=
  match v with
  | VRef l =>
      match depth with
      | 0 => false
      | S depth' =>
          match h !! l with
          | Some o => forallb (fun kv => within_depth depth' h (snd kv)) (props o)
          | None => false
          end
      end
  | _ => true
  end.

(** A segment that is neither [length] nor the name of a property of
    [Object.prototype] or [Array.prototype]: on an object or array it
    names an own property, or none. *)
Definition data_key (k : string) : bool :=
  negb (String.eqb k "length")
  && negb (named_in (Object_prototype ++ Array_prototype) k).

(** No object contains itself: references go down a rank. *)
Definition acyclic (h : heap) : Prop :=
  exists rank : loc -> nat,
    forall l o k c, h !! l = Some o -> In (k, VRef c) (props o) -> rank c < rank l.

(** What is assumed of the platform's [structuredClone] on a JSON document:
    when it returns, its result stands for the same document and lives in
    the cells it allocated. *)
Definition structuredClone_sound (sc : option native_clone) : Prop :=
  forall f (h : heap) v copy cells depth t,
    sc = Some f -> f h v = Some (copy, cells) ->
    reify depth h v = Some t ->
    reify_from (length h) depth (h ++ cells) copy = Some t.

(** [structuredClone] is there and returns on every value that stands for
    a JSON document. *)
Definition structuredClone_total (sc : option native_clone) : Prop :=
  exists f, sc = Some f /\
    forall (h : heap) v depth t, reify depth h v = Some t -> is_Some (f h v).

(** A key other than [__proto__]. *)
Definition not_proto (key : string) : bool := negb (String.eqb key "__proto__").

(** A document none of whose objects has a field named [__proto__]. *)
Fixpoint proto_free (t : json) : bool :=
  match t with
  | JArr items => forallb proto_free items
  | JObj fields =>
      forallb (fun kv => match kv with
                         | (k, v) => not_proto k && proto_free v
                         end) fields
  | _ => true
  end.

(** The documents that [deepClone] copies in full: every document when
    [structuredClone] does the work, and otherwise the documents without a
    field named [__proto__]. The loop of the fallback copies such a field
    with [cloned[key] = ...], which runs the setter of [Object.prototype]
    and leaves the copy without the field. *)
Definition copied_in_full (sc : option native_clone) (t : json) : Prop :=
  structuredClone_total sc \/ proto_free t = true.

(** The value [v] stands for a document that [deepClone] copies in full. *)
Definition document_in_full (sc : option native_clone) (depth : nat) (h : heap)
  (v : val) : Prop :=
  exists t, reify depth h v = Some t /\ copied_in_full sc t.

(* ================================================================== *)
(** * The history store *)
(* ================================================================== *)

(** The data of [Alpine.store('history')]. *)
Record history : Type := History {
  stack : list val;
  index : Z;
  maxSize : Z
}.

(** The state the history store acts on: its own fields and the heap. *)
Record hworld : Type := HWorld {
  hw_history : history;
  hw_heap : heap
}.

Definition in_heap {A} (m : M heap A) : M hworld A :=
  zoom hw_heap (fun h w => HWorld (hw_history w) h) m.

Definition this : M hworld history := gets hw_history.

Definition set_stack (l : list val) : M hworld unit :=
  modify (fun w => HWorld (History l (index (hw_history w)) (maxSize (hw_history w)))
                          (hw_heap w)).

Definition set_index (i : Z) : M hworld unit :=
  modify (fun w => HWorld (History (stack (hw_history w)) i (maxSize (hw_history w)))
                          (hw_heap w)).

(** [l.length] *)
Definition len (l : list val) : Z := Z.of_nat (length l).

(** [l.slice(0, e)] for an integer [e]: a negative end counts from the end
    of the array. *)
Definition slice_to (e : Z) (l : list val) : list val :=
  firstn (Z.to_nat (if (e <? 0)%Z then Z.max (len l + e) 0 else Z.min e (len l))) l.

(** [l[i]] for an integer [i]. *)
Definition at_index (l : list val) (i : Z) : val :=
  if (i <? 0)%Z then VUndefined else nth (Z.to_nat i) l VUndefined.

(** [l.shift()], for its effect on [l]. *)
Definition shift (l : list val) : list val := tl l.

(** The operations of a history store, as an interface of the two
    registrations. The natural number bounds the depth of [deepClone]. *)
Record history_store : Type := HistoryStore {
  hs_initial : history;
  hs_push : option native_clone -> nat -> val -> M hworld unit;
  hs_undo : option native_clone -> nat -> M hworld val;
  hs_redo : option native_clone -> nat -> M hworld val;
  hs_clear : M hworld unit;
  hs_init : option native_clone -> nat -> val -> M hworld unit;
  hs_canUndo : history -> bool;
  hs_canRedo : history -> bool
}.

(** [Alpine.store('history', ...)] in [initStores] of store.js. *)
Module StoreHistory.

Definition initial : history := History [] (-1) 10.

Definition canUndo (s : history) : bool := (index s >? 0)%Z.

Definition canRedo (s : history) : bool := (index s <? len (stack s) - 1)%Z.

Definition push (sc : option native_clone) (fuel : nat) (state : val)
  : M hworld unit :=
  s <- this ;;
  (if (index s <? len (stack s) - 1)%Z
   then set_stack (slice_to (index s + 1) (stack s))
   else ret tt) ;;;
  copy <- in_heap (deepClone sc fuel state) ;;
  s <- this ;;
  set_stack (stack s ++ [copy]) ;;;
  s <- this ;;
  set_index (len (stack s) - 1) ;;;
  s <- this ;;
  if (len (stack s) >? maxSize s)%Z
  then
    set_stack (shift (stack s)) ;;;
    s <- this ;;
    set_index (index s - 1)
  else ret tt.

Definition undo (sc : option native_clone) (fuel : nat) : M hworld val :=
  s <- this ;;
  if negb (canUndo s) then ret VNull
  else
    set_index (index s - 1) ;;;
    s <- this ;;
    in_heap (deepClone sc fuel (at_index (stack s) (index s))).

Definition redo (sc : option native_clone) (fuel : nat) : M hworld val :=
  s <- this ;;
  if negb (canRedo s) then ret VNull
  else
    set_index (index s + 1) ;;;
    s <- this ;;
    in_heap (deepClone sc fuel (at_index (stack s) (index s))).

Definition clear : M hworld unit :=
  set_stack [] ;;;
  set_index (-1).

Definition init (sc : option native_clone) (fuel : nat) (initialState : val)
  : M hworld unit :=
  clear ;;;
  push sc fuel initialState.

Definition store : history_store :=
  HistoryStore initial push undo redo clear init canUndo canRedo.

End StoreHistory.

(** [Alpine.store('history', ...)] in [initHistoryStore] of undo_redo.js. *)
Module UndoRedoHistory.

Definition initial : history := History [] (-1) 10.

Definition canUndo (s : history) : bool := (index s >? 0)%Z.

Definition canRedo (s : history) : bool := (index s <? len (stack s) - 1)%Z.

Definition push (sc : option native_clone) (fuel : nat) (state : val)
  : M hworld unit :=
  s <- this ;;
  (if (index s <? len (stack s) - 1)%Z
   then set_stack (slice_to (index s + 1) (stack s))
   else ret tt) ;;;
  copy <- in_heap (deepClone sc fuel state) ;;
  s <- this ;;
  set_stack (stack s ++ [copy]) ;;;
  s <- this ;;
  set_index (len (stack s) - 1) ;;;
  s <- this ;;
  if (len (stack s) >? maxSize s)%Z
  then
    set_stack (shift (stack s)) ;;;
    s <- this ;;
    set_index (index s - 1)
  else ret tt.

Definition undo (sc : option native_clone) (fuel : nat) : M hworld val :=
  s <- this ;;
  if negb (canUndo s) then ret VNull
  else
    set_index (index s - 1) ;;;
    s <- this ;;
    in_heap (deepClone sc fuel (at_index (stack s) (index s))).

Definition redo (sc : option native_clone) (fuel : nat) : M hworld val :=
  s <- this ;;
  if negb (canRedo s) then ret VNull
  else
    set_index (index s + 1) ;;;
    s <- this ;;
    in_heap (deepClone sc fuel (at_index (stack s) (index s))).

Definition clear : M hworld unit :=
  set_stack [] ;;;
  set_index (-1).

Definition init (sc : option native_clone) (fuel : nat) (initialState : val)
  : M hworld unit :=
  clear ;;;
  push sc fuel initialState.

Definition store : history_store :=
  HistoryStore initial push undo redo clear init canUndo canRedo.

End UndoRedoHistory.

(** A call on a history store, and what it returns to its caller. *)
Inductive history_op : Type :=
| OpPush (state : val)
| OpUndo
| OpRedo
| OpClear
| OpInit (initialState : val).

Definition run_op (hs : history_store) (sc : option native_clone) (fuel : nat)
  (op : history_op) : M hworld val :=
  match op with
  | OpPush state => hs_push hs sc fuel state ;;; ret VUndefined
  | OpUndo => hs_undo hs sc fuel
  | OpRedo => hs_redo hs sc fuel
  | OpClear => hs_clear hs ;;; ret VUndefined
  | OpInit state => hs_init hs sc fuel state ;;; ret VUndefined
  end.

(** A sequence of calls, each made whatever the outcome of the calls before
    it; the outcomes are collected. *)
Fixpoint run_ops (hs : history_store) (sc : option native_clone) (fuel : nat)
  (ops : list history_op) (w : hworld) : list (outcome val) * hworld :=
  match ops with
  | [] => ([], w)
  | op :: rest =>
      let (r, w1) := run_op hs sc fuel op w in
      let (rs, w2) := run_ops hs sc fuel rest w1 in
      (r :: rs, w2)
  end.

(** [push] before the call of [deepClone]: the redo branch is dropped. *)
Definition truncated (s : history) : history :=
  if (index s <? len (stack s) - 1)%Z
  then History (slice_to (index s + 1) (stack s)) (index s) (maxSize s)
  else s.

(** [push] after the call of [deepClone]: the copy is appended and the
    oldest entry is evicted when the stack is too long. *)
Definition appended (s : history) (copy : val) : history :=
  let entries := stack s ++ [copy] in
  if (len entries >? maxSize s)%Z
  then History (shift entries) (len entries - 1 - 1) (maxSize s)
  else History entries (len entries - 1) (maxSize s).

Definition history_inv (s : history) : Prop :=
  (-1 <= index s < len (stack s))%Z /\
  (index s = (-1)%Z <-> stack s = []) /\
  (len (stack s) <= maxSize s)%Z.




(* ================================================================== *)
(** * The card store: the debounced change check *)
(* ================================================================== *)

(** The fields of [Alpine.store('card')] that [checkChanges] reads and
    writes. [_checkChangesTimer] is [null] or the identifier of a timeout;
    identifiers are positive, hence truthy. *)
Record card : Type := Card {
  data : val;
  originalData : val;
  hasChanges : bool;
  _checkChangesTimer : option positive
}.

(** A timeout: its identifier and the time in milliseconds at which it is
    due (or, once it has run, at which it ran). *)
Record timer : Type := Timer {
  timer_id : positive;
  timer_due : N
}.

(** The state [checkChanges] acts on: the store, the heap, and the timers of
    the platform: the clock, the pending timeouts, the next identifier and
    the timeouts that have run. The only callback ever scheduled here is the
    one of [checkChanges], so a timeout does not name its callback. *)
Record cworld : Type := CWorld {
  cw_card : card;
  cw_heap : heap;
  cw_now : N;
  cw_timers : list timer;
  cw_next_timer : positive;
  cw_fired : list timer
}.

Definition set_card (c : card) : M cworld unit :=
  modify (fun w => CWorld c (cw_heap w) (cw_now w) (cw_timers w)
                          (cw_next_timer w) (cw_fired w)).

Definition set_hasChanges (b : bool) : M cworld unit :=
  c <- gets cw_card ;;
  set_card (Card (data c) (originalData c) b (_checkChangesTimer c)).

Definition set_checkChangesTimer (t : option positive) : M cworld unit :=
  c <- gets cw_card ;;
  set_card (Card (data c) (originalData c) (hasChanges c) t).

Definition in_card_heap {A} (m : M heap A) : M cworld A :=
  zoom cw_heap
       (fun h w => CWorld (cw_card w) h (cw_now w) (cw_timers w)
                          (cw_next_timer w) (cw_fired w)) m.

(** [setTimeout(callback, delay)]: a new pending timeout, due [delay]
    milliseconds from now. *)
Definition setTimeout (delay : N) : M cworld positive :=
  fun w =>
    (Ret (cw_next_timer w),
     CWorld (cw_card w) (cw_heap w) (cw_now w)
            (cw_timers w ++ [Timer (cw_next_timer w) (cw_now w + delay)])
            (Pos.succ (cw_next_timer w)) (cw_fired w)).

(** [clearTimeout(id)] *)
Definition clearTimeout (id : positive) : M cworld unit :=
  modify (fun w =>
    CWorld (cw_card w) (cw_heap w) (cw_now w)
           (List.filter (fun t => negb (Pos.eqb (timer_id t) id)) (cw_timers w))
           (cw_next_timer w) (cw_fired w)).

(** The callback that [checkChanges] schedules; [fuel] bounds the depth of
    its comparison. *)
Definition checkChanges_callback (fuel : nat) : M cworld unit :=
  c <- gets cw_card ;;
  same <- in_card_heap (deepEqual fuel (data c) (originalData c)) ;;
  set_hasChanges (negb same) ;;;
  set_checkChangesTimer None.

(** [checkChanges()] *)
Definition checkChanges : M cworld unit :=
  set_hasChanges true ;;;
  c <- gets cw_card ;;
  match _checkChangesTimer c with
  | Some id => clearTimeout id
  | None => ret tt
  end ;;;
  id <- setTimeout 500 ;;
  set_checkChangesTimer (Some id).

(** The pending timeout that is due first and, among those, set first. *)
Fixpoint next_due (ts : list timer) : option timer :=
  match ts with
  | [] => None
  | t :: r =>
      match next_due r with
      | Some u => if (timer_due u <? timer_due t)%N then Some u else Some t
      | None => Some t
      end
  end.

Definition remove_timer (id : positive) (ts : list timer) : list timer :=
  List.filter (fun t => negb (Pos.eqb (timer_id t) id)) ts.

(** The event loop up to time [until]: the timeouts that are due run in
    order, each at the time it is due, and each as a task of its own, so
    that a callback that fails does not stop the next one. The callback
    schedules nothing, so at most [n] timeouts run when [n] are pending. *)
Fixpoint run_timers (fuel : nat) (n : nat) (until : N) (w : cworld) : cworld :=
  match n with
  | 0 => w
  | S n' =>
      match next_due (cw_timers w) with
      | Some t =>
          if (timer_due t <=? until)%N then
            let at_time := N.max (cw_now w) (timer_due t) in
            let w1 := CWorld (cw_card w) (cw_heap w) at_time
                             (remove_timer (timer_id t) (cw_timers w))
                             (cw_next_timer w)
                             (cw_fired w ++ [Timer (timer_id t) at_time]) in
            run_timers fuel n' until (snd (checkChanges_callback fuel w1))
          else w
      | None => w
      end
  end.

(** [dt] milliseconds pass. *)
Definition wait (fuel : nat) (dt : N) (w : cworld) : cworld :=
  let until := (cw_now w + dt)%N in
  let w' := run_timers fuel (length (cw_timers w)) until w in
  CWorld (cw_card w') (cw_heap w') until (cw_timers w') (cw_next_timer w')
         (cw_fired w').

Inductive card_event : Type :=
| CallCheckChanges
| Wait (dt : N).

Definition run_event (fuel : nat) (ev : card_event) (w : cworld) : cworld :=
  match ev with
  | CallCheckChanges => snd (checkChanges w)
  | Wait dt => wait fuel dt w
  end.

Definition run_events (fuel : nat) (evs : list card_event) (w : cworld) : cworld :=
  fold_left (fun w ev => run_event fuel ev w) evs w.

(** Calls of [checkChanges] separated by the given gaps. *)
Definition burst (gaps : list N) : list card_event :=
  CallCheckChanges :: flat_map (fun g => [Wait g; CallCheckChanges]) gaps.

(** No timeout is pending but the one the store remembers, if it has not
    run yet. *)
Definition timers_consistent (w : cworld) : Prop :=
  match _checkChangesTimer (cw_card w) with
  | Some id => cw_timers w = [] \/ exists due, cw_timers w = [Timer id due]
  | None => cw_timers w = []
  end.

(** The state right after a call of [checkChanges]: the flag is set and one
    timeout is pending, due in 500 ms. *)
Definition armed (w : cworld) : Prop :=
  hasChanges (cw_card w) = true /\
  exists id, _checkChangesTimer (cw_card w) = Some id /\
             cw_timers w = [Timer id (cw_now w + 500)].

(** What [checkChanges] and the passing of time leave alone. *)
Definition same_documents (w w' : cworld) : Prop :=
  data (cw_card w') = data (cw_card w) /\
  originalData (cw_card w') = originalData (cw_card w) /\
  cw_heap w' = cw_heap w /\
  cw_fired w' = cw_fired w.

(* ================================================================== *)
(** * Sample documents *)
(* ================================================================== *)

Definition num (n : N) : val := VNum (num_of_N n).

(** [{name: "A", tags: ["x"]}] at reference 0. *)
Definition sample_heap : heap :=
  [ JsObj KObject [("name", VStr "A"); ("tags", VRef 1)];
    JsObj (KArray 1) [("0", VStr "x")] ].

Definition sample_env : env := Env sample_heap [].

(** [{a: [1, {b: null}], "0": "z"}] at reference 0; enumeration puts the
    index key first. *)
Definition nested_heap : heap :=
  [ JsObj KObject [("0", VStr "z"); ("a", VRef 1)];
    JsObj (KArray 2) [("0", num 1); ("1", VRef 2)];
    JsObj KObject [("b", VNull)] ].

Definition sample_hworld : hworld := HWorld StoreHistory.initial nested_heap.

(** A history with two entries, the current one being the second. *)
Definition two_entries : hworld :=
  HWorld (History [VRef 2; VRef 1] 1 10) nested_heap.

(** The store after [loadCard] of the sample document, then an edit of
    [tags], at time 0. *)
Definition sample_cworld : cworld :=
  CWorld (Card (VRef 0) (VRef 2) false None)
         [ JsObj KObject [("name", VStr "A"); ("tags", VRef 1)];
           JsObj (KArray 2) [("0", VStr "x"); ("1", VStr "y")];
           JsObj KObject [("name", VStr "A"); ("tags", VRef 3)];
           JsObj (KArray 1) [("0", VStr "x")] ]
         0 [] 1 [].

(** A computation that leaves the cells of [h] alone: run on a heap that
    starts with [h], it ends on a heap that starts with [h], and what it
    returns satisfies [P]. *)
Definition extends_heap {A} (h : heap) (m : M heap A) (P : A -> Prop) : Prop :=
  forall ext r s', m (h ++ ext) = (r, s') ->
    (exists ext', s' = h ++ ext') /\ (forall a, r = Ret a -> P a).

(** Two JSON documents that differ at most in the order of the fields of
    their objects and in the sign of a zero. The keys of an object of a
    document are distinct, so that two objects with as many fields are
    related when every field of the first is a field of the second. *)
#[warnings="-register-all"]
Inductive json_equiv : json -> json -> Prop :=
| json_equiv_null : json_equiv JNull JNull
| json_equiv_bool b : json_equiv (JBool b) (JBool b)
| json_equiv_num x y : SFeqb x y = true -> json_equiv (JNum x) (JNum y)
| json_equiv_str s : json_equiv (JStr s) (JStr s)
| json_equiv_arr xs ys :
    Forall2 json_equiv xs ys -> json_equiv (JArr xs) (JArr ys)
| json_equiv_obj fs gs :
    length fs = length gs ->
    (forall k x, In (k, x) fs -> exists y, In (k, y) gs /\ json_equiv x y) ->
    json_equiv (JObj fs) (JObj gs).

(** Whether the character [c] occurs in [s]. *)
Fixpoint occurs (c : ascii) (s : string) : bool :=
  match s with
  | EmptyString => false
  | String d r => Ascii.eqb c d || occurs c r
  end.

(** A key that can be written in a path as it is: it holds no dot and no
    opening bracket. *)
Definition plain_key (k : string) : bool :=
  negb (occurs "." k) && negb (occurs "[" k).

(* ================================================================== *)
(** * The card store: its other methods *)
(* ================================================================== *)

(** Whether a value is truthy, as [if (v)] and [!v] test it. *)
Definition truthy (v : val) : bool :=
  match v with
  | VUndefined | VNull => false
  | VBool b => b
  | VNum (S754_zero _) | VNum S754_nan => false
  | VNum _ => true
  | VStr s => negb (String.eqb s "")
  | VRef _ => true
  end.

(** A parameter with a default value: the default replaces [undefined]. *)
Definition default_arg (v dflt : val) : val :=
  if strict_eq v VUndefined then dflt else v.

(** [createEmptyCard()]: the object literal, evaluated in source order. *)
Definition createEmptyCard : M heap val :=
  card <- alloc empty_object ;;
  set_prop card "spec" (VStr "chara_card_v3") ;;;
  set_prop card "spec_version" (VStr "3.0") ;;;
  d <- alloc empty_object ;;
  set_prop d "name" (VStr "") ;;;
  set_prop d "description" (VStr "") ;;;
  set_prop d "personality" (VStr "") ;;;
  set_prop d "scenario" (VStr "") ;;;
  set_prop d "first_mes" (VStr "") ;;;
  set_prop d "mes_example" (VStr "") ;;;
  set_prop d "creator_notes" (VStr "") ;;;
  set_prop d "system_prompt" (VStr "") ;;;
  set_prop d "post_history_instructions" (VStr "") ;;;
  tags <- alloc empty_array ;;
  set_prop d "tags" tags ;;;
  set_prop d "creator" (VStr "") ;;;
  set_prop d "character_version" (VStr "") ;;;
  alternate_greetings <- alloc empty_array ;;
  set_prop d "alternate_greetings" alternate_greetings ;;;
  group_only_greetings <- alloc empty_array ;;
  set_prop d "group_only_greetings" group_only_greetings ;;;
  set_prop d "character_book" VNull ;;;
  extensions <- alloc empty_object ;;
  set_prop d "extensions" extensions ;;;
  assets <- alloc empty_array ;;
  set_prop d "assets" assets ;;;
  set_prop d "nickname" (VStr "") ;;;
  source <- alloc empty_array ;;
  set_prop d "source" source ;;;
  set_prop card "data" d ;;;
  ret card.

(** The fields of [Alpine.store('card')] besides those of [card].
    [lastSaved] is [null] or a [Date], kept as its time in milliseconds. *)
Record card_source : Type := CardSource {
  sourceFile : val;
  sourceFormat : val;
  imageDataUrl : val;
  imageFile : val;
  lastSaved : option N
}.

(** The state the methods of the card store act on: the store and the
    platform as [checkChanges] sees them, the other fields of the store,
    and the lines written with [console.warn]. *)
Record sworld : Type := SWorld {
  sw_world : cworld;
  sw_source : card_source;
  sw_console : list string
}.

Definition in_store {A} (m : M cworld A) : M sworld A :=
  zoom sw_world (fun c s => SWorld c (sw_source s) (sw_console s)) m.

Definition store_heap {A} (m : M heap A) : M sworld A :=
  in_store (in_card_heap m).

Definition store_env {A} (m : M env A) : M sworld A :=
  zoom (fun s => Env (cw_heap (sw_world s)) (sw_console s))
       (fun e s =>
          let c := sw_world s in
          SWorld (CWorld (cw_card c) (env_heap e) (cw_now c) (cw_timers c)
                         (cw_next_timer c) (cw_fired c))
                 (sw_source s) (env_console e))
       m.

Definition set_data (v : val) : M sworld unit :=
  in_store (c <- gets cw_card ;;
            set_card (Card v (originalData c) (hasChanges c) (_checkChangesTimer c))).

Definition set_originalData (v : val) : M sworld unit :=
  in_store (c <- gets cw_card ;;
            set_card (Card (data c) v (hasChanges c) (_checkChangesTimer c))).

Definition set_source (f : card_source -> card_source) : M sworld unit :=
  modify (fun s => SWorld (sw_world s) (f (sw_source s)) (sw_console s)).

Definition set_sourceFile (v : val) : M sworld unit :=
  set_source (fun x => CardSource v (sourceFormat x) (imageDataUrl x)
                                  (imageFile x) (lastSaved x)).

Definition set_sourceFormat (v : val) : M sworld unit :=
  set_source (fun x => CardSource (sourceFile x) v (imageDataUrl x)
                                  (imageFile x) (lastSaved x)).

Definition set_imageDataUrl (v : val) : M sworld unit :=
  set_source (fun x => CardSource (sourceFile x) (sourceFormat x) v
                                  (imageFile x) (lastSaved x)).

Definition set_imageFile (v : val) : M sworld unit :=
  set_source (fun x => CardSource (sourceFile x) (sourceFormat x)
                                  (imageDataUrl x) v (lastSaved x)).

Definition set_lastSaved (d : option N) : M sworld unit :=
  set_source (fun x => CardSource (sourceFile x) (sourceFormat x)
                                  (imageDataUrl x) (imageFile x) d).

(** [file?.type?.startsWith('image/')], as the condition it is used for.
    A [type] that is neither nullish nor a string has no [startsWith] to
    call. *)
Definition file_is_image (file : val) : M heap bool :=
  if is_nullish file then ret false
  else
    t <- get_prop file "type" ;;
    if is_nullish t then ret false
    else
      match t with
      | VStr s => ret (String.prefix "image/" s)
      | _ => fail (Throw TypeError)
      end.

Module CardStore.

Definition initNew (sc : option native_clone) (fuel : nat) : M sworld unit :=
  d <- store_heap createEmptyCard ;;
  set_data d ;;;
  c <- in_store (gets cw_card) ;;
  o <- store_heap (deepClone sc fuel (data c)) ;;
  set_originalData o ;;;
  set_sourceFile VNull ;;;
  set_sourceFormat VNull ;;;
  set_imageDataUrl VNull ;;;
  set_imageFile VNull ;;;
  in_store (set_hasChanges false) ;;;
  set_lastSaved None.

Definition loadCard (sc : option native_clone) (fuel : nat)
  (parseResult file imageDataUrl : val) : M sworld unit :=
  let file := default_arg file VNull in
  let imageDataUrl := default_arg imageDataUrl VNull in
  d <- store_heap (get_prop parseResult "card") ;;
  set_data d ;;;
  d' <- store_heap (get_prop parseResult "card") ;;
  o <- store_heap (deepClone sc fuel d') ;;
  set_originalData o ;;;
  set_sourceFile file ;;;
  fmt <- store_heap (get_prop parseResult "source_format") ;;
  set_sourceFormat fmt ;;;
  set_imageDataUrl imageDataUrl ;;;
  image <- store_heap (file_is_image file) ;;
  set_imageFile (if image then file else VNull) ;;;
  in_store (set_hasChanges false) ;;;
  set_lastSaved None.

Definition updateField (path : string) (value : val) : M sworld unit :=
  c <- in_store (gets cw_card) ;;
  if negb (truthy (data c)) then ret tt
  else
    store_env (setByPath (data c) path value true) ;;;
    in_store checkChanges.

Definition getField (path : string) : M sworld val :=
  c <- in_store (gets cw_card) ;;
  if negb (truthy (data c)) then ret VUndefined
  else store_heap (getByPath (data c) path).

Definition markSaved (sc : option native_clone) (fuel : nat) : M sworld unit :=
  c <- in_store (gets cw_card) ;;
  o <- store_heap (deepClone sc fuel (data c)) ;;
  set_originalData o ;;;
  in_store (set_hasChanges false) ;;;
  now <- in_store (gets cw_now) ;;
  set_lastSaved (Some now).

Definition reset (sc : option native_clone) (fuel : nat) : M sworld unit :=
  c <- in_store (gets cw_card) ;;
  if truthy (originalData c) then
    d <- store_heap (deepClone sc fuel (originalData c)) ;;
    set_data d ;;;
    in_store (set_hasChanges false)
  else ret tt.

Definition clear : M sworld unit :=
  set_data VNull ;;;
  set_originalData VNull ;;;
  set_sourceFile VNull ;;;
  set_sourceFormat VNull ;;;
  set_imageDataUrl VNull ;;;
  set_imageFile VNull ;;;
  in_store (set_hasChanges false) ;;;
  set_lastSaved None.

End CardStore.

(** A call of one of the methods that set [hasChanges] to [false]. *)
Inductive card_settle : Type :=
| InitNew
| LoadCard (parseResult file imageDataUrl : val)
| MarkSaved
| Reset
| Clear.

Definition run_settle (sc : option native_clone) (fuel : nat) (op : card_settle)
  : M sworld unit :=
  match op with
  | InitNew => CardStore.initNew sc fuel
  | LoadCard parseResult file imageDataUrl =>
      CardStore.loadCard sc fuel parseResult file imageDataUrl
  | MarkSaved => CardStore.markSaved sc fuel
  | Reset => CardStore.reset sc fuel
  | Clear => CardStore.clear
  end.

(** Time passing for the store. *)
Definition store_wait (fuel : nat) (dt : N) (s : sworld) : sworld :=
  SWorld (wait fuel dt (sw_world s)) (sw_source s) (sw_console s).

(** The document of a new card. *)
Definition empty_card_json : json :=
  JObj [("spec", JStr "chara_card_v3");
        ("spec_version", JStr "3.0");
        ("data",
         JObj [("name", JStr ""); ("description", JStr "");
               ("personality", JStr ""); ("scenario", JStr "");
               ("first_mes", JStr ""); ("mes_example", JStr "");
               ("creator_notes", JStr ""); ("system_prompt", JStr "");
               ("post_history_instructions", JStr "");
               ("tags", JArr []); ("creator", JStr "");
               ("character_version", JStr "");
               ("alternate_greetings", JArr []);
               ("group_only_greetings", JArr []);
               ("character_book", JNull); ("extensions", JObj []);
               ("assets", JArr []); ("nickname", JStr "");
               ("source", JArr [])])].

(** What a method that settles the store needs in order to return: the
    document it copies is a JSON document. [loadCard] is taken without a
    file, a [File] being an object of the platform; [reset] does nothing
    unless there is an original. *)
Definition settle_ready (depth : nat) (s : sworld) (op : card_settle) : Prop :=
  let w := sw_world s in
  match op with
  | InitNew | Clear => True
  | LoadCard parseResult file _ =>
      is_nullish (default_arg file VNull) = true /\
      exists l o, parseResult = VRef l /\ cw_heap w !! l = Some o /\
                  is_Some (reify depth (cw_heap w) (obj_get o "card"))
  | MarkSaved => is_Some (reify depth (cw_heap w) (data (cw_card w)))
  | Reset =>
      truthy (originalData (cw_card w)) = true /\
      is_Some (reify depth (cw_heap w) (originalData (cw_card w)))
  end.

(** The current and the original value stand for the documents [tc] and
    [to] and share no cell: one is read from the first cells of the heap,
    the other from the cells after them. *)
Definition separated (depth : nat) (h : heap) (current original : val)
  (tc to : json) : Prop :=
  exists h0 ext, h = h0 ++ ext /\
    ((reify depth h0 current = Some tc /\
      reify_from (length h0) depth h original = Some to) \/
     (reify depth h0 original = Some to /\
      reify_from (length h0) depth h current = Some tc)).

(** The documents that [settle_ready] asks for are documents that
    [deepClone] copies in full. *)
Definition settle_in_full (sc : option native_clone) (depth : nat) (s : sworld)
  (op : card_settle) : Prop :=
  let w := sw_world s in
  match op with
  | InitNew | Clear => True
  | LoadCard parseResult _ _ =>
      forall l o, parseResult = VRef l -> cw_heap w !! l = Some o ->
                  document_in_full sc depth (cw_heap w) (obj_get o "card")
  | MarkSaved => document_in_full sc depth (cw_heap w) (data (cw_card w))
  | Reset => document_in_full sc depth (cw_heap w) (originalData (cw_card w))
  end.

(** The sample store of [sample_cworld], with no source file. *)
Definition sample_sworld : sworld :=
  SWorld sample_cworld (CardSource VNull VNull VNull VNull None) [].

(* ================================================================== *)
(** * The ui store *)
(* ================================================================== *)

Definition num_is_nan (x : spec_float) : bool :=
  match x with S754_nan => true | _ => false end.

(** [Math.max(a, b)] on numbers: [NaN] if either is, and [+0] above [-0]. *)
Definition math_max (a b : spec_float) : spec_float :=
  if num_is_nan a || num_is_nan b then S754_nan
  else
    match a, b with
    | S754_zero true, S754_zero false => S754_zero false
    | _, _ => if SFltb a b then b else a
    end.

(** [Math.min(a, b)] on numbers: [NaN] if either is, and [-0] below [+0]. *)
Definition math_min (a b : spec_float) : spec_float :=
  if num_is_nan a || num_is_nan b then S754_nan
  else
    match a, b with
    | S754_zero false, S754_zero true => S754_zero true
    | _, _ => if SFltb b a then b else a
    end.

(** The fields of [Alpine.store('ui')]. *)
Record ui : Type := Ui {
  currentPage : val;
  sidebarOpen : val;
  mobileMenuOpen : val;
  globalLoading : val;
  loadingMessage : val;
  loadingProgress : val;
  modalOpen : val;
  modalType : val;
  modalData : val
}.

Module UiStore.

Definition initial : ui :=
  Ui (VStr "workshop") (VBool true) (VBool false)
     (VBool false) (VStr "") (VNum (S754_zero false))
     (VBool false) VNull VNull.

Definition setLoading (loading message : val) : M ui unit :=
  let message := default_arg message (VStr "") in
  modify (fun u => Ui (currentPage u) (sidebarOpen u) (mobileMenuOpen u)
                      loading (loadingMessage u) (loadingProgress u)
                      (modalOpen u) (modalType u) (modalData u)) ;;;
  modify (fun u => Ui (currentPage u) (sidebarOpen u) (mobileMenuOpen u)
                      (globalLoading u) message (loadingProgress u)
                      (modalOpen u) (modalType u) (modalData u)) ;;;
  modify (fun u => Ui (currentPage u) (sidebarOpen u) (mobileMenuOpen u)
                      (globalLoading u) (loadingMessage u) (VNum (S754_zero false))
                      (modalOpen u) (modalType u) (modalData u)).

Definition setProgress (progress : val) : M ui unit :=
  match to_number progress with
  | Some p =>
      let clamped := math_min (num_of_N 100) (math_max (S754_zero false) p) in
      modify (fun u => Ui (currentPage u) (sidebarOpen u) (mobileMenuOpen u)
                          (globalLoading u) (loadingMessage u) (VNum clamped)
                          (modalOpen u) (modalType u) (modalData u))
  | None => fail Unsupported
  end.

Definition openModal (type data : val) : M ui unit :=
  let data := default_arg data VNull in
  modify (fun u => Ui (currentPage u) (sidebarOpen u) (mobileMenuOpen u)
                      (globalLoading u) (loadingMessage u) (loadingProgress u)
                      (modalOpen u) type (modalData u)) ;;;
  modify (fun u => Ui (currentPage u) (sidebarOpen u) (mobileMenuOpen u)
                      (globalLoading u) (loadingMessage u) (loadingProgress u)
                      (modalOpen u) (modalType u) data) ;;;
  modify (fun u => Ui (currentPage u) (sidebarOpen u) (mobileMenuOpen u)
                      (globalLoading u) (loadingMessage u) (loadingProgress u)
                      (VBool true) (modalType u) (modalData u)).

Definition closeModal : M ui unit :=
  modify (fun u => Ui (currentPage u) (sidebarOpen u) (mobileMenuOpen u)
                      (globalLoading u) (loadingMessage u) (loadingProgress u)
                      (VBool false) (modalType u) (modalData u)) ;;;
  modify (fun u => Ui (currentPage u) (sidebarOpen u) (mobileMenuOpen u)
                      (globalLoading u) (loadingMessage u) (loadingProgress u)
                      (modalOpen u) VNull (modalData u)) ;;;
  modify (fun u => Ui (currentPage u) (sidebarOpen u) (mobileMenuOpen u)
                      (globalLoading u) (loadingMessage u) (loadingProgress u)
                      (modalOpen u) (modalType u) VNull).

End UiStore.

(* ================================================================== *)
(** * The toast store *)
(* ================================================================== *)

(** An element of [items]: [{ id, message, type, duration }]. Identifiers
    and durations are numbers; here they are whole numbers, the
    identifiers as [nextId] counts them and the durations as whole
    milliseconds. *)
Record toast_item : Type := ToastItem {
  item_id : N;
  item_message : val;
  item_type : val;
  item_duration : N
}.

(** The fields of [Alpine.store('toast')]. *)
Record toast : Type := Toast {
  items : list toast_item;
  nextId : N
}.

(** A pending timeout of the toast store: its callback is
    [() => this.dismiss(id)], kept as the [id] it closes over. *)
Record toast_timer : Type := ToastTimer {
  tt_id : positive;
  tt_due : N;
  tt_toast : N
}.

(** The state the toast store acts on: the store and the timers of the
    platform. *)
Record tworld : Type := TWorld {
  tw_toast : toast;
  tw_now : N;
  tw_timers : list toast_timer;
  tw_next_timer : positive
}.

(** [n + 1] on a number that is a whole number up to 2^53, as [nextId] is:
    2^53 + 1 is not a number and rounds back to 2^53. *)
Definition next_id (n : N) : N :=
  if (n <? 9007199254740992)%N then (n + 1)%N else n.

(** [items.findIndex(item => item.id === id)] followed by
    [items.splice(index, 1)] when an index is found. *)
Fixpoint remove_first (id : N) (l : list toast_item) : list toast_item :=
  match l with
  | [] => []
  | it :: r => if (item_id it =? id)%N then r else it :: remove_first id r
  end.

(** The assignments of [update] to the item that
    [items.find(item => item.id === id)] returns, if any. *)
Fixpoint update_first (id : N) (message type : val) (l : list toast_item)
  : list toast_item :=
  match l with
  | [] => []
  | it :: r =>
      if (item_id it =? id)%N then
        let m := if negb (strict_eq message VUndefined) then message
                 else item_message it in
        let t := if negb (strict_eq type VUndefined) then type
                 else item_type it in
        ToastItem (item_id it) m t (item_duration it) :: r
      else it :: update_first id message type r
  end.

Module ToastStore.

Definition initial : toast := Toast [] 1.

Definition dismiss (id : N) : M tworld unit :=
  modify (fun w =>
    TWorld (Toast (remove_first id (items (tw_toast w))) (nextId (tw_toast w)))
           (tw_now w) (tw_timers w) (tw_next_timer w)).

(** [setTimeout(() => this.dismiss(id), duration)] *)
Definition schedule_dismiss (id duration : N) : M tworld positive :=
  fun w =>
    (Ret (tw_next_timer w),
     TWorld (tw_toast w) (tw_now w)
            (tw_timers w ++ [ToastTimer (tw_next_timer w) (tw_now w + duration) id])
            (Pos.succ (tw_next_timer w))).

(** [show({ message, type = 'info', duration = 3000 })]; an absent
    [duration] is [None]. *)
Definition show (message type : val) (duration : option N) : M tworld N :=
  let type := default_arg type (VStr "info") in
  let duration := default 3000%N duration in
  id <- gets (fun w => nextId (tw_toast w)) ;;
  modify (fun w => TWorld (Toast (items (tw_toast w)) (next_id id))
                          (tw_now w) (tw_timers w) (tw_next_timer w)) ;;;
  modify (fun w =>
    TWorld (Toast (items (tw_toast w) ++ [ToastItem id message type duration])
                  (nextId (tw_toast w)))
           (tw_now w) (tw_timers w) (tw_next_timer w)) ;;;
  (if (0 <? duration)%N then schedule_dismiss id duration ;;; ret tt else ret tt) ;;;
  ret id.

Definition success (message : val) (duration : option N) : M tworld N :=
  show message (VStr "success") (Some (default 3000%N duration)).

Definition error (message : val) (duration : option N) : M tworld N :=
  show message (VStr "error") (Some (default 5000%N duration)).

Definition loading (message : val) : M tworld N :=
  show message (VStr "loading") (Some 0%N).

Definition info (message : val) (duration : option N) : M tworld N :=
  show message (VStr "info") (Some (default 3000%N duration)).

Definition update (id : N) (message type : val) : M tworld unit :=
  modify (fun w =>
    TWorld (Toast (update_first id message type (items (tw_toast w)))
                  (nextId (tw_toast w)))
           (tw_now w) (tw_timers w) (tw_next_timer w)).

Definition clear : M tworld unit :=
  modify (fun w => TWorld (Toast [] (nextId (tw_toast w)))
                          (tw_now w) (tw_timers w) (tw_next_timer w)).

End ToastStore.

(** The pending timeout that is due first and, among those, set first. *)
Fixpoint next_toast_timer (ts : list toast_timer) : option toast_timer :=
  match ts with
  | [] => None
  | t :: r =>
      match next_toast_timer r with
      | Some u => if (tt_due u <? tt_due t)%N then Some u else Some t
      | None => Some t
      end
  end.

(** The event loop up to time [until]: the timeouts that are due run in
    order; none of them schedules another. *)
Fixpoint run_toast_timers (n : nat) (until : N) (w : tworld) : tworld :=
  match n with
  | 0 => w
  | S n' =>
      match next_toast_timer (tw_timers w) with
      | Some t =>
          if (tt_due t <=? until)%N then
            let w1 := TWorld (tw_toast w) (N.max (tw_now w) (tt_due t))
                        (List.filter (fun u => negb (Pos.eqb (tt_id u) (tt_id t)))
                                     (tw_timers w))
                        (tw_next_timer w) in
            run_toast_timers n' until (snd (ToastStore.dismiss (tt_toast t) w1))
          else w
      | None => w
      end
  end.

(** [dt] milliseconds pass. *)
Definition toast_wait (dt : N) (w : tworld) : tworld :=
  let until := (tw_now w + dt)%N in
  let w' := run_toast_timers (length (tw_timers w)) until w in
  TWorld (tw_toast w') until (tw_timers w') (tw_next_timer w').

(** A call on the toast store, or time passing. *)
Inductive toast_op : Type :=
| TShow (message type : val) (duration : option N)
| TSuccess (message : val) (duration : option N)
| TError (message : val) (duration : option N)
| TLoading (message : val)
| TInfo (message : val) (duration : option N)
| TDismiss (id : N)
| TUpdate (id : N) (message type : val)
| TClear
| TWait (dt : N).

Definition run_toast_op (op : toast_op) (w : tworld) : tworld :=
  match op with
  | TShow message type duration => snd (ToastStore.show message type duration w)
  | TSuccess message duration => snd (ToastStore.success message duration w)
  | TError message duration => snd (ToastStore.error message duration w)
  | TLoading message => snd (ToastStore.loading message w)
  | TInfo message duration => snd (ToastStore.info message duration w)
  | TDismiss id => snd (ToastStore.dismiss id w)
  | TUpdate id message type => snd (ToastStore.update id message type w)
  | TClear => snd (ToastStore.clear w)
  | TWait dt => toast_wait dt w
  end.

Definition run_toast_ops (ops : list toast_op) (w : tworld) : tworld :=
  fold_left (fun w op => run_toast_op op w) ops w.

(** The toasts have distinct identifiers, all below [nextId], and so have
    the toasts that pending timeouts will dismiss. *)
Definition toast_inv (w : tworld) : Prop :=
  List.NoDup (map item_id (items (tw_toast w))) /\
  Forall (fun it => (item_id it < nextId (tw_toast w))%N) (items (tw_toast w)) /\
  Forall (fun t => (tt_toast t < nextId (tw_toast w))%N) (tw_timers w) /\
  List.NoDup (map tt_id (tw_timers w)) /\
  Forall (fun t => (tt_id t < tw_next_timer w)%positive) (tw_timers w).

(** Neither [clear] nor a [dismiss] of [id]. *)
Definition keeps_toast (id : N) (op : toast_op) : bool :=
  match op with
  | TClear => false
  | TDismiss id' => negb (id' =? id)%N
  | _ => true
  end.

Definition sample_tworld : tworld := TWorld ToastStore.initial 0 [] 1.

(* ================================================================== *)
(** * undo_redo.js: the toolbar and recordState *)
(* ================================================================== *)

(** The stores the toolbar works on: the card store, the history store
    and the toast store. The documents of the card store and the entries
    of the history live in one heap, the heap of the card store. The
    timeouts of the toast store are kept with it: their callbacks touch
    nothing but its [items]. *)
Record aworld : Type := AWorld {
  aw_card : sworld;
  aw_history : history;
  aw_toast : tworld
}.

Definition app_heap (a : aworld) : heap := cw_heap (sw_world (aw_card a)).

Definition app_card (a : aworld) : card := cw_card (sw_world (aw_card a)).

(** [Alpine.store('card')] *)
Definition on_card {A} (m : M sworld A) : M aworld A :=
  zoom aw_card (fun s a => AWorld s (aw_history a) (aw_toast a)) m.

(** [Alpine.store('history')]: the history store with the heap, and the
    stores once the history store has run. *)
Definition history_world (a : aworld) : hworld :=
  HWorld (aw_history a) (app_heap a).

Definition put_history_world (w : hworld) (a : aworld) : aworld :=
  let s := aw_card a in
  let c := sw_world s in
  AWorld (SWorld (CWorld (cw_card c) (hw_heap w) (cw_now c) (cw_timers c)
                         (cw_next_timer c) (cw_fired c))
                 (sw_source s) (sw_console s))
         (hw_history w) (aw_toast a).

Definition on_history {A} (m : M hworld A) : M aworld A :=
  zoom history_world put_history_world m.

(** [Alpine.store('toast')] *)
Definition on_toast {A} (m : M tworld A) : M aworld A :=
  zoom aw_toast (fun t a => AWorld (aw_card a) (aw_history a) t) m.

(** The object that [undoRedoToolbar()] returns, over the history store
    that is registered. The messages of the toasts are kept in UTF-8. *)
Module Toolbar.

Definition canUndo (hs : history_store) : M aworld bool :=
  gets (fun a => hs_canUndo hs (aw_history a)).

Definition canRedo (hs : history_store) : M aworld bool :=
  gets (fun a => hs_canRedo hs (aw_history a)).

Definition currentIndex : M aworld Z := gets (fun a => index (aw_history a)).

Definition stackLength : M aworld Z := gets (fun a => len (stack (aw_history a))).

Definition undo (hs : history_store) (sc : option native_clone) (fuel : nat)
  : M aworld unit :=
  can <- canUndo hs ;;
  if negb can then ret tt
  else
    state <- on_history (hs_undo hs sc fuel) ;;
    if truthy state then
      on_card (set_data state) ;;;
      on_card (in_store checkChanges) ;;;
      on_toast (ToastStore.info (VStr "已撤销") None) ;;;
      ret tt
    else ret tt.

Definition redo (hs : history_store) (sc : option native_clone) (fuel : nat)
  : M aworld unit :=
  can <- canRedo hs ;;
  if negb can then ret tt
  else
    state <- on_history (hs_redo hs sc fuel) ;;
    if truthy state then
      on_card (set_data state) ;;;
      on_card (in_store checkChanges) ;;;
      on_toast (ToastStore.info (VStr "已重做") None) ;;;
      ret tt
    else ret tt.

End Toolbar.

(** [recordState()]; the card store is an object, hence truthy. *)
Definition recordState (hs : history_store) (sc : option native_clone)
  (fuel : nat) : M aworld unit :=
  c <- gets app_card ;;
  if truthy (data c) then on_history (hs_push hs sc fuel (data c))
  else ret tt.

(** The entries of a history as the toolbar needs them: truthy values
    that stand for JSON documents. *)
Definition documents (depth : nat) (h : heap) (entries : list val) : Prop :=
  Forall (fun e => truthy e = true /\ is_Some (reify depth h e)) entries.

(** The three stores with the sample card on display and the history
    empty, as [clear()] leaves it. *)
Definition sample_aworld : aworld :=
  AWorld sample_sworld StoreHistory.initial sample_tworld.

(* ================================================================== *)
(** * Properties *)
(* ================================================================== *)

(* ================================================================== *)
(** * Reasoning about computations *)
(* ================================================================== *)

Lemma bind_ret_inv {S A B} (m : M S A) (f : A -> M S B) s b s' :
  bind m f s = (Ret b, s') ->
  exists a s1, m s = (Ret a, s1) /\ f a s1 = (Ret b, s').
Proof.
  unfold bind. destruct (m s) as [[a| | |] s1]; try discriminate.
  intros H. exists a, s1. auto.
Qed.

Lemma bind_ret_intro {S A B} (m : M S A) (f : A -> M S B) s a s1 :
  m s = (Ret a, s1) -> bind m f s = f a s1.
Proof. unfold bind. intros ->. reflexivity. Qed.

Lemma on_heap_ret_inv {A} (m : M heap A) e a e' :
  on_heap m e = (Ret a, e') ->
  exists h', m (env_heap e) = (Ret a, h') /\ e' = Env h' (env_console e).
Proof.
  unfold on_heap, zoom. destruct (m (env_heap e)) as [r h'].
  intros H. injection H as -> <-. eauto.
Qed.

Lemma on_heap_intro {A} (m : M heap A) e r h' :
  m (env_heap e) = (r, h') -> on_heap m e = (r, Env h' (env_console e)).
Proof. unfold on_heap, zoom. intros ->. reflexivity. Qed.

(* ================================================================== *)
(** * Own properties: reading after writing *)
(* ================================================================== *)

Lemma prop_lookup_replace_eq k v ps :
  is_Some (prop_lookup k ps) -> prop_lookup k (prop_replace k v ps) = Some v.
Proof.
  induction ps as [|[k' w] r IH]; simpl.
  - intros [? ?]. discriminate.
  - destruct (String.eqb_spec k k') as [->|Hne]; simpl.
    + intros _. now rewrite String.eqb_refl.
    + intros H. apply String.eqb_neq in Hne. rewrite Hne. auto.
Qed.

Lemma prop_lookup_replace_ne k k' v ps :
  k' <> k -> prop_lookup k' (prop_replace k v ps) = prop_lookup k' ps.
Proof.
  intros Hne. induction ps as [|[k0 w] r IH]; simpl; [reflexivity|].
  destruct (String.eqb_spec k k0) as [->|Hk]; simpl.
  - apply String.eqb_neq in Hne. now rewrite Hne.
  - now rewrite IH.
Qed.

Lemma prop_lookup_insert_index_eq i k v ps :
  array_index k = Some i -> prop_lookup k (prop_insert_index i k v ps) = Some v.
Proof.
  intros Hk. induction ps as [|[k' w] r IH]; simpl.
  - now rewrite String.eqb_refl.
  - destruct (array_index k') as [j|] eqn:Hj; simpl.
    + destruct (N.ltb_spec j i) as [Hlt|Hge]; simpl.
      * destruct (String.eqb_spec k k') as [->|Hne]; [|exact IH].
        rewrite Hk in Hj. injection Hj as ->. lia.
      * now rewrite String.eqb_refl.
    + now rewrite String.eqb_refl.
Qed.

Lemma prop_lookup_insert_index_ne i k k' v ps :
  k' <> k -> prop_lookup k' (prop_insert_index i k v ps) = prop_lookup k' ps.
Proof.
  intros Hne. apply String.eqb_neq in Hne.
  induction ps as [|[k0 w] r IH]; simpl.
  - now rewrite Hne.
  - destruct (array_index k0) as [j|]; simpl; [|now rewrite Hne].
    destruct (j <? i)%N; simpl; [now rewrite IH | now rewrite Hne].
Qed.

Lemma prop_lookup_app k ps qs :
  prop_lookup k (ps ++ qs) =
  match prop_lookup k ps with Some v => Some v | None => prop_lookup k qs end.
Proof.
  induction ps as [|[k0 w] r IH]; simpl; [reflexivity|].
  destruct (String.eqb k k0); auto.
Qed.

Lemma prop_lookup_store_eq k v ps : prop_lookup k (prop_store k v ps) = Some v.
Proof.
  unfold prop_store. destruct (prop_lookup k ps) as [w|] eqn:Hl.
  - apply prop_lookup_replace_eq. rewrite Hl. eauto.
  - destruct (array_index k) as [i|] eqn:Hi.
    + now apply prop_lookup_insert_index_eq.
    + rewrite prop_lookup_app, Hl. simpl. now rewrite String.eqb_refl.
Qed.

Lemma prop_lookup_store_ne k k' v ps :
  k' <> k -> prop_lookup k' (prop_store k v ps) = prop_lookup k' ps.
Proof.
  intros Hne. unfold prop_store. destruct (prop_lookup k ps) as [w|] eqn:Hl.
  - now apply prop_lookup_replace_ne.
  - destruct (array_index k) as [i|] eqn:Hi.
    + now apply prop_lookup_insert_index_ne.
    + rewrite prop_lookup_app. simpl.
      apply String.eqb_neq in Hne. rewrite Hne.
      now destruct (prop_lookup k' ps).
Qed.

Lemma has_own_lookup o k v : prop_lookup k (props o) = Some v -> has_own o k = true.
Proof. unfold has_own. now intros ->. Qed.

Lemma has_own_length o : is_array o = true -> has_own o "length" = true.
Proof.
  unfold has_own. intros ->. now destruct (prop_lookup "length" (props o)).
Qed.

Lemma named_in_In names k : named_in names k = true <-> In k names.
Proof.
  unfold named_in. rewrite existsb_exists. split.
  - intros (x & Hin & Heq). apply String.eqb_eq in Heq. now subst.
  - intros Hin. exists k. split; [exact Hin|apply String.eqb_refl].
Qed.

(** An index key is the name of no built-in property. *)
Lemma named_in_index names k i :
  forallb (fun n => match array_index n with Some _ => false | None => true end)
          names = true ->
  array_index k = Some i -> named_in names k = false.
Proof.
  intros Hall Hk. destruct (named_in names k) eqn:Hn; [|reflexivity].
  apply named_in_In in Hn. rewrite forallb_forall in Hall.
  specialize (Hall _ Hn). now rewrite Hk in Hall.
Qed.

Lemma reads_prototype_own o k : has_own o k = true -> reads_prototype o k = false.
Proof. unfold reads_prototype. now intros ->. Qed.

Lemma reads_prototype_index o k i : array_index k = Some i -> reads_prototype o k = false.
Proof.
  intros Hk. unfold reads_prototype, prototype_names.
  rewrite (named_in_index _ k i); [apply andb_false_r| |exact Hk].
  now destruct (kind o).
Qed.

Lemma reads_prototype_name o k : prototype_name k = false -> reads_prototype o k = false.
Proof.
  unfold prototype_name, reads_prototype, prototype_names, named_in.
  rewrite !existsb_app. intros H.
  apply orb_false_elim in H as [Ho H]. apply orb_false_elim in H as [Ha _].
  destruct (kind o); rewrite ?existsb_app, ?Ho, ?Ha; apply andb_false_r.
Qed.

Lemma proto_write_reads o k : proto_write o k = true -> reads_prototype o k = true.
Proof.
  unfold proto_write, reads_prototype. intros H.
  apply andb_prop in H as [Hk ->]. apply String.eqb_eq in Hk as ->.
  unfold prototype_names. now destruct (kind o).
Qed.

Lemma proto_write_ne o k : k <> "__proto__" -> proto_write o k = false.
Proof. intros Hk. apply String.eqb_neq in Hk. unfold proto_write. now rewrite Hk. Qed.

Lemma length_write_ne o k : k <> "length" -> length_write o k = false.
Proof.
  intros Hk. apply String.eqb_neq in Hk. unfold length_write. rewrite Hk.
  apply andb_false_r.
Qed.

(** An assignment that is neither to [__proto__] from the prototype nor to
    the [length] of an array stores an own property. *)
Lemma obj_set_store o k v :
  proto_write o k = false -> length_write o k = false ->
  obj_set o k v = Ret (JsObj (kind_with (kind o) k) (prop_store k v (props o))).
Proof. unfold obj_set. now intros -> ->. Qed.

Lemma obj_get_stored o k v :
  length_write o k = false ->
  obj_get (JsObj (kind_with (kind o) k) (prop_store k v (props o))) k = v.
Proof.
  unfold length_write, is_array, obj_get, kind_with. cbn [kind props].
  destruct (kind o) as [|len]; cbn [andb].
  - intros _. now rewrite prop_lookup_store_eq.
  - intros ->. destruct (array_index k); now rewrite prop_lookup_store_eq.
Qed.

Lemma has_own_stored o k v :
  has_own (JsObj (kind_with (kind o) k) (prop_store k v (props o))) k = true.
Proof. unfold has_own. cbn [props]. now rewrite prop_lookup_store_eq. Qed.

(** What was assigned is what is read back. *)
Lemma obj_get_set_eq o k v o' :
  proto_write o k = false -> length_write o k = false ->
  obj_set o k v = Ret o' -> obj_get o' k = v /\ has_own o' k = true.
Proof.
  intros Hp Hl. rewrite obj_set_store by assumption. intros H. injection H as <-.
  split; [now apply obj_get_stored|apply has_own_stored].
Qed.

(** Assignment returns except on the [length] of an array. *)
Lemma obj_set_defined o k v : k <> "length" -> exists o', obj_set o k v = Ret o'.
Proof.
  intros Hk. unfold obj_set. rewrite (length_write_ne _ _ Hk).
  destruct (proto_write o k); eauto.
Qed.

(* ================================================================== *)
(** * Well-formed heaps *)
(* ================================================================== *)

Lemma prop_lookup_In k v ps : prop_lookup k ps = Some v -> In (k, v) ps.
Proof.
  induction ps as [|[k' w] r IH]; simpl; [discriminate|].
  destruct (String.eqb_spec k k') as [->|_].
  - intros H. injection H as ->. now left.
  - intros H. right. auto.
Qed.

Lemma obj_get_ref_In o k c : obj_get o k = VRef c -> In (k, VRef c) (props o).
Proof.
  unfold obj_get. intros H. apply prop_lookup_In.
  destruct (kind o); [|destruct (String.eqb k "length"); [discriminate|]];
    destruct (prop_lookup k (props o)); simpl in H; congruence.
Qed.

Lemma heap_closed_lookup h l o :
  heap_closed h = true -> h !! l = Some o -> obj_closed h o = true.
Proof.
  unfold heap_closed. rewrite forallb_forall. intros Hc Hl.
  apply Hc. apply list_elem_of_In. eapply list_elem_of_lookup_2; eauto.
Qed.

Lemma obj_get_closed h o k :
  obj_closed h o = true -> val_closed h (obj_get o k) = true.
Proof.
  intros Hc. destruct (obj_get o k) eqn:Hg; try reflexivity.
  apply obj_get_ref_In in Hg. unfold obj_closed in Hc.
  rewrite forallb_forall in Hc. exact (Hc _ Hg).
Qed.

(* ================================================================== *)
(** * getByPath returns *)
(* ================================================================== *)


Lemma getByPath_loop_undefined keys h :
  getByPath_loop keys VUndefined h = (Ret VUndefined, h).
Proof. destruct keys; reflexivity. Qed.

Lemma get_prop_heap base key h r h' : get_prop base key h = (r, h') -> h' = h.
Proof.
  unfold get_prop. destruct (inherited_read h base key); [intros H; now injection H|].
  destruct base; try (intros H; now injection H).
  destruct (h !! l); intros H; now injection H.
Qed.

Lemma get_prop_ref h l o k :
  h !! l = Some o -> reads_prototype o k = false ->
  get_prop (VRef l) k h = (Ret (obj_get o k), h).
Proof. intros Hl Hk. unfold get_prop, inherited_read. now rewrite Hl, Hk. Qed.

Lemma get_prop_own h l o k :
  h !! l = Some o -> has_own o k = true ->
  get_prop (VRef l) k h = (Ret (obj_get o k), h).
Proof. intros Hl Hk. apply get_prop_ref; [exact Hl|now apply reads_prototype_own]. Qed.

Lemma get_prop_inherited h base k :
  inherited_read h base k = true -> get_prop base k h = (Unsupported, h).
Proof. unfold get_prop. now intros ->. Qed.

(** A read that returns returns an own property, or [undefined]. *)
Lemma get_prop_ref_inv h l k c h' :
  get_prop (VRef l) k h = (Ret c, h') ->
  exists o, h !! l = Some o /\ reads_prototype o k = false /\ c = obj_get o k /\ h' = h.
Proof.
  unfold get_prop, inherited_read. destruct (h !! l) as [o|]; [|discriminate].
  destruct (reads_prototype o k) eqn:Hr; [discriminate|].
  intros H. injection H as <- <-. exists o. auto.
Qed.









(* ================================================================== *)
(** * setByPath without auto-creation *)
(* ================================================================== *)

(** One iteration with [autoCreate = false]: it goes on into an object or
    array, and otherwise warns and returns. *)
Lemma setByPath_step_no_create upto key nextKey cur e c :
  get_prop cur key (env_heap e) = (Ret c, env_heap e) ->
  setByPath_step upto key nextKey cur false e =
    match c with
    | VRef _ => (Ret (Some c), e)
    | VUndefined | VNull =>
        (Ret None,
         Env (env_heap e)
             (env_console e ++ [("[store] Path does not exist: " ++ join_dots upto)%string]))
    | _ =>
        (Ret None,
         Env (env_heap e)
             (env_console e ++ [("[store] Cannot traverse path at " ++ join_dots upto)%string]))
    end.
Proof.
  destruct e as [h con]. cbn [env_heap env_console]. intros Hg.
  unfold setByPath_step, bind, on_heap, zoom. cbn [env_heap env_console].
  rewrite Hg. destruct c; cbn; rewrite ?Hg; cbn; rewrite ?Hg; reflexivity.
Qed.

Lemma get_prop_ret_inv base key h c h' :
  get_prop base key h = (Ret c, h') -> h' = h /\ is_nullish base = false.
Proof.
  intros H. split; [eapply get_prop_heap; eauto|].
  destruct base; try reflexivity; discriminate.
Qed.

Lemma setByPath_loop_no_create ks1 : forall done obj k ks2 c value e,
  ks2 <> [] ->
  is_nullish obj = false ->
  getByPath_loop (ks1 ++ [k]) obj (env_heap e) = (Ret c, env_heap e) ->
  is_ref c = false ->
  exists msg,
    setByPath_loop done (ks1 ++ k :: ks2) obj value false e
    = (Ret tt, Env (env_heap e) (env_console e ++ [msg])).
Proof.
  induction ks1 as [|k0 r IH]; intros done obj k ks2 c value e Hne Hobj Hget Hc.
  - destruct ks2 as [|k2 ks2]; [congruence|].
    cbn [app getByPath_loop] in Hget. cbn [app setByPath_loop].
    assert (Hn : strict_eq obj VNull || strict_eq obj VUndefined = false)
      by (destruct obj; try reflexivity; discriminate).
    rewrite Hn in Hget. unfold bind in Hget.
    destruct (get_prop obj k (env_heap e)) as [[a| | |] h1] eqn:Hg; try discriminate.
    pose proof (get_prop_heap _ _ _ _ _ Hg) as ->.
    unfold ret in Hget. injection Hget as ->.
    unfold bind at 1. rewrite (setByPath_step_no_create _ _ _ _ _ _ Hg).
    destruct c; try discriminate; eexists; reflexivity.
  - cbn [app getByPath_loop] in Hget.
    assert (Hn : strict_eq obj VNull || strict_eq obj VUndefined = false)
      by (destruct obj; try reflexivity; discriminate).
    rewrite Hn in Hget. unfold bind in Hget.
    destruct (get_prop obj k0 (env_heap e)) as [[a| | |] h1] eqn:Hg; try discriminate.
    pose proof (get_prop_heap _ _ _ _ _ Hg) as ->.
    replace ((k0 :: r) ++ k :: ks2) with (k0 :: (r ++ k :: ks2)) by reflexivity.
    cbn [setByPath_loop].
    destruct (r ++ k :: ks2) as [|k1 rest] eqn:Hrest; [now destruct r|].
    unfold bind at 1. rewrite (setByPath_step_no_create _ _ _ _ _ _ Hg).
    destruct a as [| |b|x|s|l]; try (eexists; reflexivity).
    rewrite <- Hrest. apply (IH _ _ _ _ c); auto.
Qed.

(** A read from a primitive gives a primitive. *)
Lemma get_prop_leaf cur key (h : heap) c h' :
  is_ref cur = false -> get_prop cur key h = (Ret c, h') -> is_ref c = false.
Proof.
  unfold get_prop. destruct (inherited_read h cur key); [discriminate|].
  destruct cur as [| |b|x|s|l]; try discriminate; intros _ H;
    injection H as <- _; try reflexivity.
  unfold string_get. destruct (String.eqb key "length"); [reflexivity|].
  destruct (array_index key); [|reflexivity].
  now destruct (String.get (N.to_nat n) s).
Qed.

(** No path leads from a primitive to an object. *)
Lemma getByPath_loop_leaf ks : forall v (h : heap) c h',
  is_ref v = false -> getByPath_loop ks v h = (Ret c, h') -> is_ref c = false.
Proof.
  induction ks as [|k r IH]; intros v h c h' Hv; cbn [getByPath_loop].
  - unfold ret. intros H. now injection H as <- _.
  - destruct (strict_eq v VNull || strict_eq v VUndefined).
    + unfold ret. intros H. now injection H as <- _.
    + unfold bind. destruct (get_prop v k h) as [[a| | |] h1] eqn:Hg;
        try discriminate.
      apply IH. eapply get_prop_leaf; eauto.
Qed.

(** With [autoCreate = false], along segments that are objects or arrays
    the loop does nothing but read, and the call ends with the last
    assignment. *)
Lemma setByPath_loop_no_create_assign ks1 : forall done obj k c value e,
  getByPath_loop ks1 obj (env_heap e) = (Ret c, env_heap e) ->
  (ks1 <> [] -> is_ref c = true) ->
  setByPath_loop done (ks1 ++ [k]) obj value false e
  = on_heap (set_prop c k value) e.
Proof.
  induction ks1 as [|k0 r IH]; intros done obj k c value e Hget Hc.
  - cbn [getByPath_loop] in Hget. unfold ret in Hget. injection Hget as <-.
    reflexivity.
  - specialize (Hc ltac:(discriminate)).
    cbn [getByPath_loop] in Hget.
    destruct (strict_eq obj VNull || strict_eq obj VUndefined).
    { unfold ret in Hget. injection Hget as <-. discriminate. }
    unfold bind in Hget.
    destruct (get_prop obj k0 (env_heap e)) as [[a| | |] h1] eqn:Hg;
      try discriminate.
    pose proof (get_prop_heap _ _ _ _ _ Hg) as ->.
    assert (Ha : is_ref a = true).
    { destruct (is_ref a) eqn:Ea; [reflexivity|].
      rewrite (getByPath_loop_leaf _ _ _ _ _ Ea Hget) in Hc. discriminate. }
    replace ((k0 :: r) ++ [k]) with (k0 :: (r ++ [k])) by reflexivity.
    cbn [setByPath_loop].
    destruct (r ++ [k]) as [|k1 rest] eqn:Hrest; [now destruct r|].
    unfold bind at 1. rewrite (setByPath_step_no_create _ _ _ _ _ _ Hg).
    destruct a as [| |b|x|s|l]; try discriminate.
    rewrite <- Hrest. apply IH; [exact Hget|].
    intros _. exact Hc.
Qed.

(** C5 (amended). With [autoCreate = false], on a document that is not
    [null] or [undefined]: when the value reached at some segment before
    the last one is missing, [null] or a primitive, the call returns
    without changing the heap and writes exactly one warning; and when
    every segment before the last one leads to an object or array, the
    call is the assignment of the value to the last segment in the object
    reached, whether the last segment exists there or not, and writes no
    warning. *)
Theorem setByPath_no_autoCreate
  (e : env) (obj : val) (path : string) (value : val) :
  is_nullish obj = false ->
  (forall ks1 k ks2 c,
     path_keys path = ks1 ++ k :: ks2 -> ks2 <> [] ->
     getByPath_loop (ks1 ++ [k]) obj (env_heap e) = (Ret c, env_heap e) ->
     is_ref c = false ->
     exists msg,
       setByPath obj path value false e
       = (Ret tt, Env (env_heap e) (env_console e ++ [msg]))) /\
  (forall ks1 k c,
     path_keys path = ks1 ++ [k] ->
     getByPath_loop ks1 obj (env_heap e) = (Ret c, env_heap e) ->
     (ks1 <> [] -> is_ref c = true) ->
     setByPath obj path value false e = on_heap (set_prop c k value) e /\
     env_console (snd (setByPath obj path value false e)) = env_console e).
Proof.
  intros Hobj. split.
  - intros ks1 k ks2 c Hk Hne Hget Hc. unfold setByPath. rewrite Hk.
    eapply setByPath_loop_no_create; eauto.
  - intros ks1 k c Hk Hget Hc. unfold setByPath. rewrite Hk.
    rewrite (setByPath_loop_no_create_assign _ _ _ _ _ _ _ Hget Hc).
    split; [reflexivity|].
    unfold on_heap, zoom. now destruct (set_prop c k value (env_heap e)).
Qed.

(** On [{name: "A", tags: ["x"]}]: [meta.count] is not set, since [meta] is
    missing, and one warning is written; [tags[1]] is set, though it does
    not exist, since [tags] is an array. *)
Lemma setByPath_no_autoCreate_witness :
  (exists msg,
     setByPath (VRef 0) "meta.count" (num 3) false sample_env
     = (Ret tt, Env sample_heap [msg])) /\
  setByPath (VRef 0) "tags[1]" (VStr "y") false sample_env
  = (Ret tt,
     Env [ JsObj KObject [("name", VStr "A"); ("tags", VRef 1)];
           JsObj (KArray 2) [("0", VStr "x"); ("1", VStr "y")] ] []).
Proof.
  split.
  - apply (proj1 (setByPath_no_autoCreate sample_env (VRef 0) "meta.count"
                    (num 3) eq_refl) [] "meta" ["count"] VUndefined);
      [reflexivity | discriminate | reflexivity | reflexivity].
  - rewrite (proj1 (proj2 (setByPath_no_autoCreate sample_env (VRef 0) "tags[1]"
                             (VStr "y") eq_refl) ["tags"] "1" (VRef 1)
                      eq_refl eq_refl (fun _ => eq_refl))).
    reflexivity.
Defined.

(** C5 as stated fails: on [{}] the path [x] does not exist, and the call
    with [autoCreate = false] still assigns it. *)
Lemma setByPath_no_autoCreate_assigns_last :
  let e := Env [empty_object] [] in
  getByPath (VRef 0) "x" (env_heap e) = (Ret VUndefined, env_heap e) /\
  setByPath (VRef 0) "x" (num 1) false e
    = (Ret tt, Env [JsObj KObject [("x", num 1)]] []) /\
  [JsObj KObject [("x", num 1)]] <> env_heap e.
Proof. repeat split. discriminate. Qed.

(* ================================================================== *)
(** * setByPath with auto-creation *)
(* ================================================================== *)

Lemma set_prop_ref h l o key v :
  h !! l = Some o ->
  set_prop (VRef l) key v h =
    if proto_write o key && strict_eq v (VRef l) then (Throw TypeError, h)
    else
      match obj_set o key v with
      | Ret o' => (Ret tt, <[l := o']> h)
      | r => (rethrow r tt, h)
      end.
Proof. intros Hl. unfold set_prop. now rewrite Hl. Qed.

Lemma reads_prototype_proto_write o key :
  reads_prototype o key = false -> proto_write o key = false.
Proof.
  intros Hr. destruct (proto_write o key) eqn:Hp; [|reflexivity].
  apply proto_write_reads in Hp. congruence.
Qed.

(** A container is stored under a key that was read from the object
    itself: it is read back from there. *)
Lemma obj_set_ref_inv o key c o' :
  reads_prototype o key = false -> obj_set o key (VRef c) = Ret o' ->
  obj_get o' key = VRef c /\ has_own o' key = true.
Proof.
  intros Hr Hs. pose proof (reads_prototype_proto_write _ _ Hr) as Hp.
  destruct (length_write o key) eqn:Hl.
  - unfold obj_set in Hs. rewrite Hp, Hl in Hs. discriminate.
  - now apply (obj_get_set_eq o key (VRef c) o').
Qed.

Lemma bind_fail {S A B} (m : M S A) (f : A -> M S B) s r s1 (d : B) :
  m s = (r, s1) -> (forall a, r <> Ret a) -> bind m f s = (rethrow r d, s1).
Proof.
  unfold bind. intros -> Hr. destruct r as [a| | |]; [|reflexivity..].
  now destruct (Hr a).
Qed.

(** One iteration with [autoCreate = true] at an object or array [o]: it
    goes on into an object or array already there, and otherwise stores a
    fresh container under [key] and goes on into it. *)
Lemma setByPath_step_create upto key nextKey l o e :
  env_heap e !! l = Some o ->
  setByPath_step upto key nextKey (VRef l) true e =
    if reads_prototype o key then (Unsupported, e)
    else
      match obj_get o key with
      | VRef c => (Ret (Some (VRef c)), e)
      | c =>
          let fresh := length (env_heap e) in
          let con :=
            if is_nullish c then env_console e
            else env_console e ++
                   [("[store] Overwriting primitive value at " ++ join_dots upto)%string] in
          match obj_set o key (VRef fresh) with
          | Ret o' =>
              (Ret (Some (VRef fresh)),
               Env (<[l := o']> (env_heap e ++ [container_for nextKey])) con)
          | r => (rethrow r None, Env (env_heap e ++ [container_for nextKey]) con)
          end
      end.
Proof.
  destruct e as [h con]. cbn [env_heap env_console]. intros Hl.
  destruct (reads_prototype o key) eqn:Hr.
  { unfold setByPath_step, bind, on_heap, zoom. cbn [env_heap env_console].
    rewrite (get_prop_inherited h (VRef l) key); [reflexivity|].
    unfold inherited_read. now rewrite Hl. }
  pose proof (reads_prototype_proto_write _ _ Hr) as Hp.
  assert (Hl' : forall x, (h ++ [x]) !! l = Some o)
    by (intros x; now apply lookup_app_l_Some).
  assert (Hlt : l < length (h ++ [container_for nextKey]))
    by (rewrite length_app; apply lookup_lt_Some in Hl; simpl; lia).
  assert (Hne : Nat.eqb (length h) l = false)
    by (apply Nat.eqb_neq; apply lookup_lt_Some in Hl; lia).
  assert (Hg : get_prop (VRef l) key h = (Ret (obj_get o key), h))
    by now apply get_prop_ref.
  assert (Hset : set_prop (VRef l) key (VRef (length h)) (h ++ [container_for nextKey])
                 = match obj_set o key (VRef (length h)) with
                   | Ret o' => (Ret tt, <[l := o']> (h ++ [container_for nextKey]))
                   | r => (rethrow r tt, h ++ [container_for nextKey])
                   end).
  { rewrite (set_prop_ref _ _ o) by apply Hl'. now rewrite Hp. }
  assert (Hg' : forall o', obj_set o key (VRef (length h)) = Ret o' ->
            get_prop (VRef l) key (<[l := o']> (h ++ [container_for nextKey]))
            = (Ret (VRef (length h)), <[l := o']> (h ++ [container_for nextKey]))).
  { intros o' Hs. destruct (obj_set_ref_inv _ _ _ _ Hr Hs) as [Hv Ho].
    rewrite (get_prop_own _ _ o');
      [now rewrite Hv|now apply list_lookup_insert_eq|exact Ho]. }
  unfold setByPath_step, bind, on_heap, zoom, alloc, console_warn, modify, ret.
  destruct (obj_get o key) eqn:Hc;
    destruct (obj_set o key (VRef (length h))) as [o'| | |] eqn:Hs;
    try specialize (Hg' _ eq_refl);
    repeat first
      [ progress cbn [strict_eq typeof_object negb andb orb is_nullish rethrow
                      env_heap env_console SFeqb Bool.eqb String.eqb]
      | rewrite Hg | rewrite Hset | rewrite Hg' ];
    reflexivity.
Qed.

Lemma setByPath_step_create_inv upto key nextKey l o e r e1 :
  env_heap e !! l = Some o ->
  setByPath_step upto key nextKey (VRef l) true e = (Ret r, e1) ->
  reads_prototype o key = false /\
  ((exists c, obj_get o key = VRef c /\ r = Some (VRef c) /\ e1 = e) \/
   (is_ref (obj_get o key) = false /\
    exists o', obj_set o key (VRef (length (env_heap e))) = Ret o' /\
               obj_get o' key = VRef (length (env_heap e)) /\
               has_own o' key = true /\
               r = Some (VRef (length (env_heap e))) /\
               env_heap e1 = <[l := o']> (env_heap e ++ [container_for nextKey]))).
Proof.
  intros Hl. rewrite (setByPath_step_create _ _ _ _ _ _ Hl).
  destruct (reads_prototype o key) eqn:Hr; [discriminate|].
  intros H. split; [reflexivity|].
  destruct (obj_get o key) eqn:Hc;
    try (cbn zeta in H;
         destruct (obj_set o key (VRef (length (env_heap e)))) as [o'| | |] eqn:Hs;
         try discriminate;
         injection H as <- <-; right; split; [reflexivity|];
         destruct (obj_set_ref_inv _ _ _ _ Hr Hs) as [Hv Ho];
         exists o'; repeat split; auto).
  injection H as <- <-. left. eauto.
Qed.

Lemma set_prop_last_inv l key value e e' :
  on_heap (set_prop (VRef l) key value) e = (Ret tt, e') ->
  exists o o', env_heap e !! l = Some o /\ obj_set o key value = Ret o' /\
               e' = Env (<[l := o']> (env_heap e)) (env_console e).
Proof.
  intros H. apply on_heap_ret_inv in H as (h' & H & ->).
  unfold set_prop in H. destruct (env_heap e !! l) as [o|]; [|discriminate].
  destruct (proto_write o key && strict_eq value (VRef l)); [discriminate|].
  destruct (obj_set o key value) as [o'| | |] eqn:Hs; try discriminate.
  injection H as <-. eauto.
Qed.

(** The last assignment, to a key other than [length] and [__proto__]. *)
Lemma set_prop_last_get l key value e e' :
  key <> "length" -> key <> "__proto__" ->
  on_heap (set_prop (VRef l) key value) e = (Ret tt, e') ->
  exists o', l < length (env_heap e) /\
             e' = Env (<[l := o']> (env_heap e)) (env_console e) /\
             obj_get o' key = value /\ has_own o' key = true.
Proof.
  intros Hlen Hproto H. apply set_prop_last_inv in H as (o & o' & Hl & Hs & ->).
  exists o'. split; [eapply lookup_lt_Some; eauto|]. split; [reflexivity|].
  apply (obj_get_set_eq o key value o');
    [now apply proto_write_ne|now apply length_write_ne|exact Hs].
Qed.

Lemma getByPath_loop_cons_ref h l o k r :
  h !! l = Some o -> reads_prototype o k = false ->
  getByPath_loop (k :: r) (VRef l) h = getByPath_loop r (obj_get o k) h.
Proof.
  intros Hl Hk. cbn [getByPath_loop strict_eq orb].
  now rewrite (bind_ret_intro _ _ _ _ _ (get_prop_ref _ _ _ _ Hl Hk)).
Qed.

Lemma getByPath_loop_cons_own h l o k r :
  h !! l = Some o -> has_own o k = true ->
  getByPath_loop (k :: r) (VRef l) h = getByPath_loop r (obj_get o k) h.
Proof.
  intros Hl Hk. apply getByPath_loop_cons_ref; [exact Hl|].
  now apply reads_prototype_own.
Qed.

Lemma obj_get_empty o key : props o = [] -> is_ref (obj_get o key) = false.
Proof.
  unfold obj_get. intros ->. destruct (kind o); [reflexivity|].
  now destruct (String.eqb key "length").
Qed.

Lemma container_for_props nextKey : props (container_for nextKey) = [].
Proof. unfold container_for. now destruct (all_digits nextKey). Qed.

Lemma lookup_snoc_last {A} (h : list A) (x : A) : (h ++ [x]) !! length h = Some x.
Proof. now apply list_lookup_middle. Qed.

Lemma last_cons2 (k k' : string) (r : list string) d :
  last (k :: k' :: r) d = last (k' :: r) d.
Proof. reflexivity. Qed.

(** Below a fresh, empty container every further container is fresh too:
    the assigned value is read back along the keys, and no cell that was
    there before, other than the container, is changed. *)
Lemma setByPath_loop_fresh keys : forall done f o value e e',
  env_heap e !! f = Some o -> props o = [] -> keys <> [] ->
  last keys "" <> "length" -> last keys "" <> "__proto__" ->
  setByPath_loop done keys (VRef f) value true e = (Ret tt, e') ->
  getByPath_loop keys (VRef f) (env_heap e') = (Ret value, env_heap e') /\
  (forall l0, l0 < length (env_heap e) -> l0 <> f ->
              env_heap e' !! l0 = env_heap e !! l0) /\
  length (env_heap e) <= length (env_heap e').
Proof.
  induction keys as [|key rest IH];
    intros done f o value e e' Hf Hprops Hne Hlast1 Hlast2 Hrun; [congruence|].
  pose proof (lookup_lt_Some _ _ _ Hf) as Hflt.
  destruct rest as [|nextKey rest'].
  - cbn [setByPath_loop] in Hrun. cbn [last] in Hlast1, Hlast2.
    apply set_prop_last_get in Hrun as (o' & _ & -> & Hv & Ho); [|assumption..].
    cbn [env_heap]. repeat split.
    + rewrite (getByPath_loop_cons_own _ _ o');
        [now rewrite Hv|now apply list_lookup_insert_eq|exact Ho].
    + intros l0 _ Hl0. now apply list_lookup_insert_ne.
    + now rewrite length_insert.
  - cbn [setByPath_loop] in Hrun. rewrite last_cons2 in Hlast1, Hlast2.
    apply bind_ret_inv in Hrun as (r & e1 & Hstep & Hrun).
    apply (setByPath_step_create_inv _ _ _ _ _ _ _ _ Hf) in Hstep
      as (_ & [(c & Hc & _)|(_ & o' & Hs & Hv & Ho & -> & He1)]).
    { pose proof (obj_get_empty o key Hprops) as Hn. rewrite Hc in Hn. discriminate. }
    set (h := env_heap e) in *.
    assert (Hfresh : env_heap e1 !! length h = Some (container_for nextKey)).
    { rewrite He1, list_lookup_insert_ne by lia. apply lookup_snoc_last. }
    assert (Hlen1 : length (env_heap e1) = S (length h)).
    { rewrite He1, length_insert, length_app. simpl. lia. }
    destruct (IH _ _ _ _ _ _ Hfresh (container_for_props _) ltac:(discriminate)
                Hlast1 Hlast2 Hrun) as (Hget & Hframe & Hlen).
    assert (Hf1 : env_heap e' !! f = Some o').
    { rewrite Hframe by lia. rewrite He1. apply list_lookup_insert_eq.
      rewrite length_app. simpl. lia. }
    repeat split.
    + rewrite (getByPath_loop_cons_own _ _ _ _ _ Hf1 Ho). now rewrite Hv.
    + intros l0 Hl0 Hl0f. rewrite Hframe by lia.
      rewrite He1, list_lookup_insert_ne by auto. now apply lookup_app_l.
    + lia.
Qed.

Lemma within_depth_mono d : forall d' h v,
  within_depth d h v = true -> d <= d' -> within_depth d' h v = true.
Proof.
  induction d as [|d IH]; intros d' h v Hv Hle.
  - destruct v; now destruct d'.
  - destruct v as [| | | | |l]; try (now destruct d').
    destruct d' as [|d']; [lia|]. cbn [within_depth] in *.
    destruct (h !! l) as [o|]; [|discriminate].
    rewrite forallb_forall in *. intros kv Hin. apply IH; [auto|lia].
Qed.

(** The depth at which a reference is nested, exactly. *)
Lemma within_depth_exact d : forall h l,
  within_depth d h (VRef l) = true ->
  exists d0, d0 < d /\ within_depth (S d0) h (VRef l) = true /\
             within_depth d0 h (VRef l) = false.
Proof.
  induction d as [|d IH]; intros h l Hd; [discriminate|].
  destruct (within_depth d h (VRef l)) eqn:Hd'.
  - destruct (IH _ _ Hd') as (d0 & Hlt & H1 & H2). exists d0. auto with lia.
  - exists d. auto.
Qed.

Lemma within_depth_child d h l o k c :
  within_depth (S d) h (VRef l) = true -> h !! l = Some o ->
  obj_get o k = VRef c -> within_depth d h (VRef c) = true.
Proof.
  cbn [within_depth]. intros Hd Hl Hc. rewrite Hl in Hd.
  rewrite forallb_forall in Hd. apply obj_get_ref_In in Hc.
  exact (Hd _ Hc).
Qed.

(** The same along objects that exist already, in a document without
    cycles: cells that are not nested within the depth of the current
    object are not changed. *)
Lemma setByPath_loop_existing keys :
  forall depth done l value e e',
  within_depth depth (env_heap e) (VRef l) = true ->
  keys <> [] ->
  last keys "" <> "length" -> last keys "" <> "__proto__" ->
  setByPath_loop done keys (VRef l) value true e = (Ret tt, e') ->
  getByPath_loop keys (VRef l) (env_heap e') = (Ret value, env_heap e') /\
  (forall l0, l0 < length (env_heap e) ->
              within_depth depth (env_heap e) (VRef l0) = false ->
              env_heap e' !! l0 = env_heap e !! l0) /\
  length (env_heap e) <= length (env_heap e').
Proof.
  induction keys as [|key rest IH];
    intros depth done l value e e' Hdepth Hne Hlast1 Hlast2 Hrun; [congruence|].
  destruct rest as [|nextKey rest'].
  - cbn [setByPath_loop] in Hrun. cbn [last] in Hlast1, Hlast2.
    apply set_prop_last_get in Hrun as (o' & Hlt & -> & Hv & Ho); [|assumption..].
    cbn [env_heap]. repeat split.
    + rewrite (getByPath_loop_cons_own _ _ o');
        [now rewrite Hv|now apply list_lookup_insert_eq|exact Ho].
    + intros l0 _ Hl0. apply list_lookup_insert_ne. intros ->. congruence.
    + now rewrite length_insert.
  - cbn [setByPath_loop] in Hrun. rewrite last_cons2 in Hlast1, Hlast2.
    apply bind_ret_inv in Hrun as (r & e1 & Hstep & Hrun).
    destruct (within_depth_exact _ _ _ Hdepth) as (d0 & Hd0 & Hin & Hout).
    assert (exists o, env_heap e !! l = Some o) as [o Hl].
    { cbn [within_depth] in Hin. destruct (env_heap e !! l); [eauto|discriminate]. }
    pose proof (lookup_lt_Some _ _ _ Hl) as Hlt.
    apply (setByPath_step_create_inv _ _ _ _ _ _ _ _ Hl) in Hstep
      as (Hr & [(c & Hc & -> & ->)|(_ & o' & Hs & Hv & Ho & -> & He1)]).
    + pose proof (within_depth_child _ _ _ _ _ _ Hin Hl Hc) as Hchild.
      destruct (IH _ _ _ _ _ _ Hchild ltac:(discriminate) Hlast1 Hlast2 Hrun)
        as (Hget & Hframe & Hlen).
      repeat split; [| |exact Hlen].
      * rewrite (getByPath_loop_cons_ref _ _ o);
          [now rewrite Hc|rewrite Hframe by assumption; exact Hl|exact Hr].
      * intros l0 Hl0 Hl0d. apply Hframe; [exact Hl0|].
        destruct (within_depth d0 (env_heap e) (VRef l0)) eqn:Hw; [|reflexivity].
        rewrite (within_depth_mono _ depth _ _ Hw) in Hl0d by lia. discriminate.
    + set (h := env_heap e) in *.
      assert (Hfresh : env_heap e1 !! length h = Some (container_for nextKey)).
      { rewrite He1, list_lookup_insert_ne by lia. apply lookup_snoc_last. }
      assert (Hlen1 : length (env_heap e1) = S (length h)).
      { rewrite He1, length_insert, length_app. simpl. lia. }
      destruct (setByPath_loop_fresh (nextKey :: rest') _ _ _ _ _ _ Hfresh
                  (container_for_props _) ltac:(discriminate) Hlast1 Hlast2 Hrun)
        as (Hget & Hframe & Hlen).
      assert (Hl1 : env_heap e' !! l = Some o').
      { rewrite Hframe by lia. rewrite He1. apply list_lookup_insert_eq.
        rewrite length_app. simpl. lia. }
      repeat split.
      * rewrite (getByPath_loop_cons_own _ _ _ _ _ Hl1 Ho). now rewrite Hv.
      * intros l0 Hl0 Hl0d. rewrite Hframe by lia.
        rewrite He1, list_lookup_insert_ne by (intros ->; congruence).
        now apply lookup_app_l.
      * lia.
Qed.

Lemma data_key_inv k :
  data_key k = true ->
  k <> "length" /\ k <> "__proto__" /\ forall o, reads_prototype o k = false.
Proof.
  unfold data_key, named_in. rewrite existsb_app. intros H.
  apply andb_prop in H as [Hlen H]. apply negb_true_iff in Hlen, H.
  apply orb_false_elim in H as [Ho Ha].
  split; [now apply String.eqb_neq|]. split.
  - intros ->. discriminate.
  - intros o. unfold reads_prototype, prototype_names, named_in.
    destruct (kind o); rewrite ?existsb_app, ?Ho, ?Ha; apply andb_false_r.
Qed.

Lemma set_prop_last_total l o key value e :
  env_heap e !! l = Some o -> key <> "length" -> key <> "__proto__" ->
  exists e', on_heap (set_prop (VRef l) key value) e = (Ret tt, e').
Proof.
  intros Hl Hk1 Hk2. eexists. apply on_heap_intro.
  rewrite (set_prop_ref _ _ _ _ _ Hl), (proto_write_ne _ _ Hk2).
  rewrite obj_set_store;
    [reflexivity|now apply proto_write_ne|now apply length_write_ne].
Qed.

Lemma obj_get_empty_undefined o key :
  props o = [] -> key <> "length" -> obj_get o key = VUndefined.
Proof.
  unfold obj_get. intros -> Hk. apply String.eqb_neq in Hk. rewrite Hk.
  now destruct (kind o).
Qed.

Lemma setByPath_loop_fresh_total keys : forall done f o value e,
  env_heap e !! f = Some o -> props o = [] -> forallb data_key keys = true ->
  exists e', setByPath_loop done keys (VRef f) value true e = (Ret tt, e').
Proof.
  induction keys as [|key rest IH]; intros done f o value e Hf Hprops Hkeys.
  - cbn [setByPath_loop]. eapply set_prop_last_total; [eassumption|discriminate..].
  - cbn [forallb] in Hkeys. apply andb_prop in Hkeys as [Hkey Hrest].
    apply data_key_inv in Hkey as (Hk1 & Hk2 & Hk3).
    pose proof (lookup_lt_Some _ _ _ Hf) as Hflt.
    destruct rest as [|nextKey rest'].
    + cbn [setByPath_loop]. eapply set_prop_last_total; eassumption.
    + cbn [setByPath_loop]. unfold bind at 1.
      rewrite (setByPath_step_create _ _ _ _ _ _ Hf), Hk3.
      rewrite (obj_get_empty_undefined _ _ Hprops Hk1). cbn zeta.
      rewrite obj_set_store by
        (first [now apply proto_write_ne|now apply length_write_ne]).
      eapply (IH _ (length (env_heap e))); [|apply container_for_props|exact Hrest].
      cbn [env_heap]. rewrite list_lookup_insert_ne by lia.
      apply lookup_snoc_last.
Qed.

Lemma setByPath_loop_total keys : forall depth done l value e,
  within_depth depth (env_heap e) (VRef l) = true ->
  forallb data_key keys = true ->
  exists e', setByPath_loop done keys (VRef l) value true e = (Ret tt, e').
Proof.
  induction keys as [|key rest IH]; intros depth done l value e Hdepth Hkeys;
    (destruct depth as [|depth]; [discriminate|]);
    (assert (exists o, env_heap e !! l = Some o) as [o Ho]
      by (cbn [within_depth] in Hdepth; destruct (env_heap e !! l);
          [eauto|discriminate])).
  - cbn [setByPath_loop]. eapply set_prop_last_total; [eassumption|discriminate..].
  - cbn [forallb] in Hkeys. apply andb_prop in Hkeys as [Hkey Hrest].
    apply data_key_inv in Hkey as (Hk1 & Hk2 & Hk3).
    pose proof (lookup_lt_Some _ _ _ Ho) as Hlt.
    destruct rest as [|nextKey rest'].
    + cbn [setByPath_loop]. eapply set_prop_last_total; eassumption.
    + cbn [setByPath_loop]. unfold bind at 1.
      rewrite (setByPath_step_create _ _ _ _ _ _ Ho), Hk3.
      destruct (obj_get o key) eqn:Hg; lazy beta iota zeta;
        rewrite ?obj_set_store by
          (first [now apply proto_write_ne|now apply length_write_ne]);
        try (eapply (setByPath_loop_fresh_total (nextKey :: rest') _
                       (length (env_heap e)));
             [cbn [env_heap]; rewrite list_lookup_insert_ne by lia;
              apply lookup_snoc_last
             |apply container_for_props|exact Hrest]).
      eapply IH; [|exact Hrest].
      eapply within_depth_child; eauto.
Qed.

Lemma path_keys_nonempty path : path_keys path <> [].
Proof.
  unfold path_keys. generalize (replace_brackets None path) EmptyString.
  induction s as [|c r IH]; intros cur; simpl; [discriminate|].
  destruct (Ascii.eqb c "."); [discriminate|apply IH].
Qed.



Example setByPath_scenario :
  setByPath (VRef 0) "tags[1]" (VStr "y") true sample_env
  = (Ret tt,
     Env [ JsObj KObject [("name", VStr "A"); ("tags", VRef 1)];
           JsObj (KArray 2) [("0", VStr "x"); ("1", VStr "y")] ] []).
Proof. reflexivity. Qed.

(** Why the document has to be without cycles: when [d.a] is [d] itself,
    the last assignment of [setByPath(d, "a.a", 5)] overwrites the link it
    came by. *)
Example setByPath_cyclic_document :
  let e := Env [JsObj KObject [("a", VRef 0)]] [] in
  setByPath (VRef 0) "a.a" (num 5) true e
    = (Ret tt, Env [JsObj KObject [("a", num 5)]] []) /\
  getByPath (VRef 0) "a.a" [JsObj KObject [("a", num 5)]]
    = (Ret VUndefined, [JsObj KObject [("a", num 5)]]).
Proof. split; reflexivity. Qed.

(** Why the last segment must not be [__proto__]: on [{}] the assignment
    runs the setter of [Object.prototype], which ignores a number, and the
    document is left as it was. *)
Example setByPath_proto_ignored :
  let e := Env [empty_object] [] in
  setByPath (VRef 0) "__proto__" (num 5) true e = (Ret tt, e) /\
  has_own empty_object "__proto__" = false.
Proof. split; reflexivity. Qed.



(* ================================================================== *)
(** * Keys *)
(* ================================================================== *)

Lemma existsb_eqb_In k ks : existsb (String.eqb k) ks = true <-> In k ks.
Proof.
  rewrite existsb_exists. split.
  - intros (x & Hin & Heq). apply String.eqb_eq in Heq. now subst.
  - intros Hin. exists k. split; [exact Hin|apply String.eqb_refl].
Qed.

Lemma keys_eqb_eq xs : forall ys, keys_eqb xs ys = true -> xs = ys.
Proof.
  induction xs as [|x xs IH]; intros [|y ys]; simpl; try discriminate; auto.
  intros H. apply andb_prop in H as [Hx Hr]. apply String.eqb_eq in Hx.
  f_equal; auto.
Qed.

Lemma keys_eqb_refl xs : keys_eqb xs xs = true.
Proof. induction xs; simpl; [reflexivity|]. now rewrite String.eqb_refl. Qed.

Lemma keys_nodup_NoDup ks : keys_nodup ks = true -> List.NoDup ks.
Proof.
  induction ks as [|k r IH]; simpl; intros H; constructor.
  - apply andb_prop in H as [H _]. intros Hin.
    apply existsb_eqb_In in Hin. rewrite Hin in H. discriminate.
  - apply andb_prop in H as [_ H]. auto.
Qed.

Lemma prop_lookup_nodup ps : forall k v,
  List.NoDup (map fst ps) -> In (k, v) ps -> prop_lookup k ps = Some v.
Proof.
  induction ps as [|[k' w] r IH]; intros k v Hnd Hin; [contradiction|].
  simpl in *. inversion Hnd as [|? ? Hnotin Hnd']; subst.
  destruct Hin as [Heq|Hin].
  - injection Heq as -> ->. now rewrite String.eqb_refl.
  - destruct (String.eqb_spec k k') as [->|_]; [|auto].
    exfalso. apply Hnotin. apply in_map_iff. exists (k', v). auto.
Qed.

Lemma prop_lookup_None k ps : ~ In k (map fst ps) -> prop_lookup k ps = None.
Proof.
  induction ps as [|[k' w] r IH]; simpl; [reflexivity|].
  intros H. destruct (String.eqb_spec k k') as [->|_].
  - exfalso. apply H. now left.
  - apply IH. intros Hin. apply H. now right.
Qed.

(** The numeral of an index is that index. *)
Lemma array_index_index_key (i : N) :
  (i < 4294967295)%N -> array_index (index_key i) = Some i.
Proof.
  intros Hi. unfold array_index, index_key. rewrite NilEmpty.usu.
  assert (Hn : Decimal.unorm (N.to_uint i) = N.to_uint i).
  { rewrite <- DecimalN.Unsigned.to_of. now rewrite DecimalN.Unsigned.of_to. }
  rewrite Hn, (Decimal.internal_uint_dec_lb _ _ eq_refl).
  rewrite DecimalN.Unsigned.of_to.
  apply N.ltb_lt in Hi. cbn zeta. now rewrite Hi.
Qed.

Lemma index_key_not_length (i : N) : index_key i <> "length".
Proof.
  unfold index_key. destruct (N.to_uint i); simpl; discriminate.
Qed.

Lemma In_index_keys key len :
  In key (index_keys len) -> exists i, (i < len)%N /\ key = index_key i.
Proof.
  unfold index_keys. rewrite in_map_iff. intros (j & <- & Hj).
  apply in_seq in Hj. exists (N.of_nat j). split; [lia|reflexivity].
Qed.

Lemma index_keys_ordered_from (s n : nat) :
  (N.of_nat (s + n) <= 4294967295)%N ->
  keys_ordered (map (fun i => index_key (N.of_nat i)) (seq s n)) = true /\
  List.NoDup (map (fun i => index_key (N.of_nat i)) (seq s n)).
Proof.
  revert s. induction n as [|n IH]; intros s Hb; simpl.
  - split; [reflexivity|constructor].
  - destruct (IH (S s)) as [Hord Hnd]; [lia|].
    rewrite array_index_index_key by lia. split.
    + rewrite Hord, andb_true_r. apply forallb_forall. intros k Hk.
      apply in_map_iff in Hk as (j & <- & Hj). apply in_seq in Hj.
      rewrite array_index_index_key by lia. apply N.ltb_lt. lia.
    + constructor; [|exact Hnd]. intros Hk.
      apply in_map_iff in Hk as (j & Heq & Hj). apply in_seq in Hj.
      assert (Some (N.of_nat j) = Some (N.of_nat s)) as Hs.
      { rewrite <- (array_index_index_key (N.of_nat j)) by lia.
        rewrite <- (array_index_index_key (N.of_nat s)) by lia.
        now rewrite Heq. }
      injection Hs as Hs. lia.
Qed.

Lemma index_keys_ordered len :
  (len < 4294967296)%N ->
  keys_ordered (index_keys len) = true /\ List.NoDup (index_keys len).
Proof. intros H. apply index_keys_ordered_from. lia. Qed.

(* ================================================================== *)
(** * Documents in the heap *)
(* ================================================================== *)

(** A primitive stands for the same document in every heap. *)
Lemma reify_from_prim v b b' n n' (h h' : heap) :
  is_ref v = false -> reify_from b n h v = reify_from b' n' h' v.
Proof. destruct v; try discriminate; intros _; now destruct n, n'. Qed.

(** A document read from [h] above [b] is read as well from any heap that
    agrees with [h] above [b], from a lower base and with a larger depth. *)
Lemma reify_from_weaken n : forall m b b' (h h' : heap) v t,
  n <= m -> b' <= b ->
  (forall l o, b <= l -> h !! l = Some o -> h' !! l = Some o) ->
  reify_from b n h v = Some t -> reify_from b' m h' v = Some t.
Proof.
  induction n as [|n IH]; intros m b b' h h' v t Hnm Hb Hagree Hr.
  - destruct v; try (destruct m; exact Hr). discriminate.
  - destruct v; try (destruct m; exact Hr).
    destruct m as [|m]; [lia|]. cbn [reify_from] in *.
    destruct (Nat.ltb_spec l b) as [|Hlb]; [discriminate|].
    destruct (Nat.ltb_spec l b') as [|_]; [lia|].
    destruct (h !! l) as [o|] eqn:Hl; [|discriminate].
    rewrite (Hagree _ _ Hlb Hl).
    destruct (mapM (reify_from b n h) (map snd (props o))) as [ts|] eqn:Hm;
      [|discriminate].
    assert (Hm' : mapM (reify_from b' m h') (map snd (props o)) = Some ts).
    { apply mapM_Some. apply mapM_Some in Hm.
      eapply List.Forall2_impl; [|exact Hm].
      intros x y Hxy. eapply IH; eauto. lia. }
    rewrite Hm'. exact Hr.
Qed.

Lemma reify_from_app b n (h ext : heap) v t :
  reify_from b n h v = Some t -> reify_from b n (h ++ ext) v = Some t.
Proof.
  apply reify_from_weaken; auto.
  intros l o _ Hl. now apply lookup_app_l_Some.
Qed.

(** What a reference to a document addresses. *)
Lemma reify_from_ref_inv b n (h : heap) l t :
  reify_from b (S n) h (VRef l) = Some t ->
  b <= l /\
  exists o ts,
    h !! l = Some o /\
    Forall2 (fun p t' => reify_from b n h (snd p) = Some t') (props o) ts /\
    List.NoDup (own_keys o) /\ keys_ordered (own_keys o) = true /\
    ((exists len, kind o = KArray len /\ (len < 4294967296)%N /\
                  own_keys o = index_keys len /\ t = JArr ts) \/
     (kind o = KObject /\ t = JObj (combine (own_keys o) ts))).
Proof.
  cbn [reify_from].
  destruct (Nat.ltb_spec l b) as [|Hlb]; [discriminate|].
  destruct (h !! l) as [o|] eqn:Hl; [|discriminate].
  destruct (mapM (reify_from b n h) (map snd (props o))) as [ts|] eqn:Hm;
    [|discriminate].
  intros Hk. split; [exact Hlb|]. exists o, ts. split; [reflexivity|].
  apply mapM_Some in Hm. apply Forall2_fmap_l in Hm. split; [exact Hm|].
  destruct (kind o) as [|len] eqn:Hkind.
  - destruct (keys_nodup (own_keys o)) eqn:Hnd; [|discriminate].
    destruct (keys_ordered (own_keys o)) eqn:Hord; [|discriminate].
    injection Hk as <-. split; [now apply keys_nodup_NoDup|].
    split; [reflexivity|]. right. auto.
  - destruct (N.ltb_spec len 4294967296) as [Hlen|]; [|discriminate].
    destruct (keys_eqb (own_keys o) (index_keys len)) eqn:Hkeys; [|discriminate].
    injection Hk as <-. apply keys_eqb_eq in Hkeys.
    destruct (index_keys_ordered len Hlen) as [Hord Hnd].
    rewrite Hkeys. split; [exact Hnd|]. split; [exact Hord|].
    left. exists len. auto.
Qed.

(** The converse: a well-formed cell whose values stand for documents
    stands for the document made of them. *)
Lemma reify_from_ref_intro b n (h : heap) l o ts :
  b <= l -> h !! l = Some o ->
  Forall2 (fun p t' => reify_from b n h (snd p) = Some t') (props o) ts ->
  reify_from b (S n) h (VRef l) =
    match kind o with
    | KArray len =>
        if (len <? 4294967296)%N && keys_eqb (own_keys o) (index_keys len)
        then Some (JArr ts) else None
    | KObject =>
        if keys_nodup (own_keys o) && keys_ordered (own_keys o)
        then Some (JObj (combine (own_keys o) ts)) else None
    end.
Proof.
  intros Hb Hl Hts. cbn [reify_from].
  destruct (Nat.ltb_spec l b) as [|_]; [lia|]. rewrite Hl.
  assert (Hm : mapM (reify_from b n h) (map snd (props o)) = Some ts)
    by (apply mapM_Some, Forall2_fmap_l; exact Hts).
  now rewrite Hm.
Qed.

(** In a well-formed cell a key reads the value stored with it. *)
Lemma obj_get_In o k v :
  List.NoDup (own_keys o) ->
  (is_array o = true -> k <> "length") ->
  In (k, v) (props o) -> obj_get o k = v.
Proof.
  intros Hnd Hlen Hin. unfold obj_get, is_array in *.
  rewrite (prop_lookup_nodup _ _ _ Hnd Hin).
  destruct (kind o); [reflexivity|].
  destruct (String.eqb_spec k "length") as [Hk|_]; [|reflexivity].
  now destruct Hlen.
Qed.

(* ================================================================== *)
(** * deepEqual on documents *)
(* ================================================================== *)

Lemma SFeqb_refl_finite x : num_is_finite x = true -> SFeqb x x = true.
Proof.
  destruct x as [s|s| |s m e]; try discriminate; intros _; unfold SFeqb; simpl.
  - reflexivity.
  - rewrite Z.compare_refl, Pos.compare_cont_refl. now destruct s.
Qed.

Lemma combine_inj {A B} (ks ks' : list A) (ts ts' : list B) :
  length ks = length ts -> length ks' = length ts' ->
  combine ks ts = combine ks' ts' -> ks = ks' /\ ts = ts'.
Proof.
  revert ks' ts ts'. induction ks as [|k ks IH];
    intros [|k' ks'] [|t ts] [|t' ts']; simpl; try discriminate; auto.
  intros H1 H2 H. injection H as -> -> H. injection H1 as H1. injection H2 as H2.
  destruct (IH _ _ _ H1 H2 H) as [-> ->]. auto.
Qed.

Lemma Forall2_In_impl {A B} (P Q : A -> B -> Prop) l k :
  Forall2 P l k -> (forall x y, In x l -> P x y -> Q x y) -> Forall2 Q l k.
Proof.
  induction 1 as [|x y l k Hxy _ IH]; intros Himp; constructor.
  - apply Himp; [now left|exact Hxy].
  - apply IH. intros x' y' Hin. apply Himp. now right.
Qed.

Lemma Forall2_and {A B} (P Q : A -> B -> Prop) l k :
  Forall2 P l k -> Forall2 Q l k -> Forall2 (fun x y => P x y /\ Q x y) l k.
Proof.
  induction 1; intros HQ; inversion HQ; subst; constructor; auto.
Qed.

(** The values of a well-formed cell, read through its keys. *)
Lemma reify_from_fields b n (h : heap) o ts :
  List.NoDup (own_keys o) ->
  (is_array o = true -> forall k, In k (own_keys o) -> k <> "length") ->
  Forall2 (fun p t => reify_from b n h (snd p) = Some t) (props o) ts ->
  Forall2 (fun k t => reify_from b n h (obj_get o k) = Some t) (own_keys o) ts.
Proof.
  intros Hnd Hlen Hts. unfold own_keys. apply Forall2_fmap_l.
  eapply Forall2_In_impl; [exact Hts|].
  intros [k v] t Hin Hr. cbn [fst snd compose] in *.
  rewrite (obj_get_In o k v); auto.
  intros Ha. apply Hlen; [exact Ha|]. apply in_map_iff. exists (k, v). auto.
Qed.

Lemma array_keys_not_length o len :
  own_keys o = index_keys len ->
  forall k, In k (own_keys o) -> k <> "length".
Proof.
  intros -> k Hk. apply In_index_keys in Hk as (i & _ & ->).
  apply index_key_not_length.
Qed.

(** What [reify_from_ref_inv] gives, with the values read through the keys. *)
Lemma reify_from_ref_fields b n (h : heap) l t :
  reify_from b (S n) h (VRef l) = Some t ->
  exists o ts,
    h !! l = Some o /\ b <= l /\
    Forall2 (fun p t' => reify_from b n h (snd p) = Some t') (props o) ts /\
    Forall2 (fun k t' => reify_from b n h (obj_get o k) = Some t') (own_keys o) ts /\
    List.NoDup (own_keys o) /\ keys_ordered (own_keys o) = true /\
    ((exists len, kind o = KArray len /\ (len < 4294967296)%N /\
                  own_keys o = index_keys len /\ t = JArr ts) \/
     (kind o = KObject /\ t = JObj (combine (own_keys o) ts))).
Proof.
  intros Hr. apply reify_from_ref_inv in Hr as (Hb & o & ts & Hl & Hts & Hnd & Hord & Hk).
  exists o, ts. repeat split; auto.
  apply reify_from_fields; auto.
  intros Ha. destruct Hk as [(len & _ & _ & Hkeys & _)|[Hkind _]].
  - eapply array_keys_not_length; eauto.
  - unfold is_array in Ha. rewrite Hkind in Ha. discriminate.
Qed.

Lemma has_own_In o k : In k (own_keys o) -> has_own o k = true.
Proof.
  unfold has_own, own_keys. intros Hin.
  destruct (prop_lookup k (props o)) eqn:Hl; [reflexivity|].
  exfalso. revert Hl. induction (props o) as [|[k' w] r IH]; [contradiction|].
  cbn [prop_lookup]. destruct (String.eqb_spec k k') as [->|Hne]; [discriminate|].
  destruct Hin as [Heq|Hin]; [now destruct Hne|auto].
Qed.

(** The two reads of [deepEqual] at a key both objects own. *)
Lemma get_prop_pair (h : heap) la lb oa ob k :
  h !! la = Some oa -> h !! lb = Some ob ->
  has_own oa k = true -> has_own ob k = true ->
  forall {B} (f : val -> val -> M heap B),
    (x <- get_prop (VRef la) k ;; y <- get_prop (VRef lb) k ;; f x y) h
    = f (obj_get oa k) (obj_get ob k) h.
Proof.
  intros Ha Hb Hoa Hob B f.
  rewrite (bind_ret_intro _ _ _ _ _ (get_prop_own _ _ _ _ Ha Hoa)).
  now rewrite (bind_ret_intro _ _ _ _ _ (get_prop_own _ _ _ _ Hb Hob)).
Qed.

Lemma keys_equal_true (fuel : nat) (h : heap) la lb oa ob keysB :
  (forall a b t n, n < fuel -> reify n h a = Some t -> reify n h b = Some t ->
                   deepEqual fuel a b h = (Ret true, h)) ->
  h !! la = Some oa -> h !! lb = Some ob ->
  (forall k, In k keysB -> has_own oa k = true /\ has_own ob k = true) ->
  forall n ks ts, n < fuel ->
    Forall2 (fun k t => In k keysB /\
                        reify n h (obj_get oa k) = Some t /\
                        reify n h (obj_get ob k) = Some t) ks ts ->
    keys_equal (deepEqual fuel) keysB (VRef la) (VRef lb) ks h = (Ret true, h).
Proof.
  intros IH Ha Hb Hown n ks ts Hn Hks.
  induction Hks as [|k t ks ts (Hin & Hra & Hrb) _ IHks]; [reflexivity|].
  cbn [keys_equal]. destruct (Hown _ Hin) as [Hoa Hob].
  apply existsb_eqb_In in Hin. rewrite Hin. cbn [negb].
  rewrite (get_prop_pair h la lb oa ob k Ha Hb Hoa Hob).
  rewrite (bind_ret_intro _ _ _ _ _ (IH _ _ _ _ Hn Hra Hrb)). exact IHks.
Qed.

Lemma reify_from_prim_eq v b n (h : heap) :
  is_ref v = false ->
  reify_from b n h v =
    match v with
    | VNull => Some JNull
    | VBool x => Some (JBool x)
    | VNum x => if num_is_finite x then Some (JNum x) else None
    | VStr x => Some (JStr x)
    | _ => None
    end.
Proof. destruct v; try discriminate; intros _; now destruct n. Qed.

Lemma reify_from_prim_leaf v b n (h : heap) t :
  is_ref v = false -> reify_from b n h v = Some t -> is_leaf t = true.
Proof.
  intros Hv. rewrite (reify_from_prim_eq _ _ _ _ Hv).
  destruct v; try discriminate; try (intros H; now injection H as <-).
  destruct (num_is_finite x); [|discriminate]. intros H. now injection H as <-.
Qed.

Lemma reify_from_ref_leaf l b n (h : heap) t :
  reify_from b n h (VRef l) = Some t -> is_leaf t = false.
Proof.
  destruct n; [discriminate|]. intros H.
  apply reify_from_ref_inv in H
    as (_ & o & ts & _ & _ & _ & _ & [(len & _ & _ & _ & ->)|[_ ->]]);
    reflexivity.
Qed.

(** Two primitives that stand for the same document are identical. *)
Lemma strict_eq_reify_prim a b n (h : heap) t :
  is_ref a = false -> is_ref b = false ->
  reify n h a = Some t -> reify n h b = Some t -> strict_eq a b = true.
Proof.
  unfold reify. intros Ha Hb.
  rewrite (reify_from_prim_eq _ _ _ _ Ha), (reify_from_prim_eq _ _ _ _ Hb).
  destruct a, b; try discriminate;
    repeat match goal with
           | |- context [num_is_finite ?x] => destruct (num_is_finite x) eqn:?
           end;
    try discriminate; intros H1 H2; simplify_eq; cbn.
  - reflexivity.
  - apply Bool.eqb_reflx.
  - now apply SFeqb_refl_finite.
  - apply String.eqb_refl.
Qed.

(** Two values that stand for the same document are [deepEqual]. *)
Lemma deepEqual_reify fuel : forall (h : heap) a b t n,
  n < fuel -> reify n h a = Some t -> reify n h b = Some t ->
  deepEqual fuel a b h = (Ret true, h).
Proof.
  induction fuel as [|fuel IH]; intros h a b t n Hn Ha Hb; [lia|].
  destruct (is_ref a) eqn:Hra; destruct (is_ref b) eqn:Hrb.
  - destruct a as [| | | | |la]; try discriminate.
    destruct b as [| | | | |lb]; try discriminate.
    unfold reify in *. destruct n as [|n]; [discriminate|].
    apply reify_from_ref_fields in Ha
      as (oa & tsa & Hla & _ & Hpa & Hfa & Hnda & _ & Hka).
    apply reify_from_ref_fields in Hb
      as (ob & tsb & Hlb & _ & Hpb & Hfb & Hndb & _ & Hkb).
    cbn [deepEqual]. cbn [strict_eq].
    destruct (Nat.eqb la lb); [reflexivity|].
    cbn [orb typeof_object negb]. unfold bind at 1, deref. rewrite Hla.
    unfold bind at 1. rewrite Hlb.
    assert (Hlena : length (own_keys oa) = length tsa)
      by (eapply Forall2_length; exact Hfa).
    assert (Hlenb : length (own_keys ob) = length tsb)
      by (eapply Forall2_length; exact Hfb).
    assert (Hsame : is_array oa = is_array ob /\ own_keys oa = own_keys ob /\ tsa = tsb).
    { unfold is_array.
      destruct Hka as [(lena & -> & _ & Hkeysa & ->)|[-> ->]];
        destruct Hkb as [(lenb & -> & _ & Hkeysb & Ht)|[-> Ht]];
        try discriminate.
      - injection Ht as <-. split; [reflexivity|]. split; [|reflexivity].
        rewrite Hkeysa, Hkeysb in *. unfold index_keys in *.
        rewrite !length_map, !length_seq in Hlena, Hlenb.
        now rewrite Hlena, Hlenb.
      - injection Ht as Ht. split; [reflexivity|].
        apply combine_inj in Ht as [? ?]; auto. }
    destruct Hsame as (-> & Hkeys & <-). rewrite Bool.eqb_reflx. cbn [negb].
    rewrite Hkeys, Nat.eqb_refl. cbn [negb].
    eapply (keys_equal_true fuel h la lb oa ob (own_keys ob)) with (n := n) (ts := tsa);
      eauto;
      [intros k Hk; split; apply has_own_In; [rewrite Hkeys|]; exact Hk|lia|].
    rewrite Hkeys in Hfa.
    apply Forall2_and; [|apply Forall2_and; [exact Hfa|exact Hfb]].
    apply Forall2_In_impl with (P := fun _ _ => True); [|auto].
    clear -Hlenb. revert tsa Hlenb.
    induction (own_keys ob); intros [|? ?] ?; try discriminate; constructor; auto.
  - destruct a as [| | | | |la]; try discriminate.
    apply reify_from_ref_leaf in Ha. apply reify_from_prim_leaf in Hb; congruence.
  - apply reify_from_prim_leaf in Ha; [|exact Hra].
    destruct b as [| | | | |lb]; try discriminate.
    apply reify_from_ref_leaf in Hb. congruence.
  - cbn [deepEqual]. now rewrite (strict_eq_reify_prim _ _ _ _ _ Hra Hrb Ha Hb).
Qed.

(* ================================================================== *)
(** * deepClone on documents *)
(* ================================================================== *)

Lemma keys_nodup_complete ks : List.NoDup ks -> keys_nodup ks = true.
Proof.
  induction 1 as [|k r Hnotin _ IH]; simpl; [reflexivity|].
  rewrite IH, andb_true_r. apply negb_true_iff.
  destruct (existsb (String.eqb k) r) eqn:He; [|reflexivity].
  apply existsb_eqb_In in He. contradiction.
Qed.

Lemma prop_lookup_is_Some k ps :
  In k (map fst ps) -> exists v, prop_lookup k ps = Some v.
Proof.
  induction ps as [|[k' w] r IH]; simpl; [contradiction|].
  destruct (String.eqb_spec k k') as [->|Hne]; [eauto|].
  intros [H|H]; [congruence|auto].
Qed.

Lemma prop_insert_index_append i key v ps :
  (forall k, In k (map fst ps) -> exists j, array_index k = Some j /\ (j < i)%N) ->
  prop_insert_index i key v ps = ps ++ [(key, v)].
Proof.
  induction ps as [|[k w] r IH]; intros H; simpl; [reflexivity|].
  destruct (H k) as (j & -> & Hj); [now left|].
  apply N.ltb_lt in Hj. rewrite Hj. f_equal. apply IH.
  intros k' Hk'. apply H. now right.
Qed.

(** In enumeration order, the keys before an index key are smaller index
    keys. *)
Lemma keys_ordered_before pre : forall key post i,
  keys_ordered (pre ++ key :: post) = true -> array_index key = Some i ->
  forall k, In k pre -> exists j, array_index k = Some j /\ (j < i)%N.
Proof.
  induction pre as [|p pre IH]; intros key post i Hord Hi k Hk; [contradiction|].
  simpl in Hord. apply andb_prop in Hord as [Hp Hord].
  destruct Hk as [<-|Hk]; [|eauto].
  assert (Hin : In key (pre ++ key :: post)) by (apply in_app_iff; right; now left).
  destruct (array_index p) as [j|]; rewrite forallb_forall in Hp;
    specialize (Hp _ Hin); rewrite Hi in Hp; [|discriminate].
  exists j. split; [reflexivity|now apply N.ltb_lt].
Qed.

(** Storing the keys of a cell in enumeration order appends them. *)
Lemma prop_store_append pre key post v ps :
  List.NoDup (pre ++ key :: post) -> keys_ordered (pre ++ key :: post) = true ->
  (forall k, In k (map fst ps) -> In k pre) ->
  prop_store key v ps = ps ++ [(key, v)].
Proof.
  intros Hnd Hord Hps. unfold prop_store.
  rewrite prop_lookup_None.
  - destruct (array_index key) as [i|] eqn:Hi; [|reflexivity].
    apply prop_insert_index_append. intros k Hk.
    eapply keys_ordered_before; eauto.
  - apply NoDup_remove_2 in Hnd.
    intros Hin. apply Hnd. apply in_app_iff. left. auto.
Qed.

Lemma index_key_not_proto (i : N) : index_key i <> "__proto__".
Proof.
  unfold index_key. destruct (N.to_uint i); simpl; discriminate.
Qed.

Lemma obj_set_append kd keys pre key post v ps :
  List.NoDup keys -> keys_ordered keys = true ->
  match kd with
  | KArray len => (len < 4294967296)%N /\ keys = index_keys len
  | KObject => True
  end ->
  keys = pre ++ key :: post -> (forall k, In k (map fst ps) -> In k pre) ->
  key <> "__proto__" ->
  obj_set (JsObj kd ps) key v = Ret (JsObj kd (ps ++ [(key, v)])).
Proof.
  intros Hnd Hord Hkd Hkeys Hps Hproto.
  rewrite Hkeys in Hnd, Hord.
  destruct kd as [|len].
  - rewrite obj_set_store; [|now apply proto_write_ne|reflexivity].
    cbn [kind props kind_with].
    now rewrite (prop_store_append pre key post v ps Hnd Hord Hps).
  - destruct Hkd as [Hlen Hidx].
    assert (Hin : In key (index_keys len))
      by (rewrite <- Hidx, Hkeys; apply in_app_iff; right; now left).
    apply In_index_keys in Hin as (i & Hi & ->).
    rewrite obj_set_store;
      [|now apply proto_write_ne
       |apply length_write_ne, index_key_not_length].
    cbn [kind props kind_with].
    rewrite (prop_store_append pre _ post v ps Hnd Hord Hps).
    rewrite array_index_index_key by lia.
    now replace (N.max len (i + 1)) with len by lia.
Qed.

Lemma filter_not_proto_In k ks :
  In k (List.filter not_proto ks) -> In k ks /\ k <> "__proto__".
Proof.
  rewrite filter_In. intros [Hin Hk]. split; [exact Hin|].
  unfold not_proto in Hk. apply negb_true_iff in Hk. now apply String.eqb_neq.
Qed.

Lemma filter_all {A} (f : A -> bool) l : forallb f l = true -> List.filter f l = l.
Proof.
  induction l as [|x l IH]; cbn [forallb List.filter]; [reflexivity|].
  intros H. apply andb_prop in H as [-> H]. now rewrite IH.
Qed.

Lemma keys_ordered_filter f ks :
  keys_ordered ks = true -> keys_ordered (List.filter f ks) = true.
Proof.
  induction ks as [|k r IH]; cbn [keys_ordered List.filter]; [reflexivity|].
  intros H. apply andb_prop in H as [Hk Hr]. specialize (IH Hr).
  destruct (f k); [|exact IH]. cbn [keys_ordered]. rewrite IH, andb_true_r.
  destruct (array_index k); rewrite forallb_forall in *;
    intros x Hx; apply Hk; now apply filter_In in Hx as [Hx _].
Qed.

Lemma NoDup_filter_keys (f : string -> bool) ks :
  List.NoDup ks -> List.NoDup (List.filter f ks).
Proof. apply List.NoDup_filter. Qed.

Lemma index_keys_not_proto len : forallb not_proto (index_keys len) = true.
Proof.
  apply forallb_forall. intros k Hk. apply In_index_keys in Hk as (i & _ & ->).
  unfold not_proto. apply negb_true_iff, String.eqb_neq, index_key_not_proto.
Qed.

(** A copy lives in cells above the one it is stored in. *)
Lemma reify_from_not_below b n (h : heap) v t l :
  reify_from b n h v = Some t -> l < b -> strict_eq v (VRef l) = false.
Proof.
  destruct v as [| | | | |c]; try reflexivity.
  destruct n as [|n]; [discriminate|]. cbn [reify_from strict_eq].
  destruct (Nat.ltb_spec c b) as [|Hcb]; [discriminate|].
  intros _ Hl. apply Nat.eqb_neq. lia.
Qed.

(** The loops of [deepClone]: from a fresh cell at the end of [h0] holding
    the copies of the keys [pre], copying the keys [todo] gives the copies
    of them, each in cells of its own above the fresh cell. A key
    [__proto__] is copied and then not stored. *)
Lemma clone_loop sc fuel n (h0 : heap) l o kd (body : string -> M heap unit) :
  (forall (h : heap) v t, reify n h v = Some t ->
     exists copy cells t',
       deepClone sc fuel v h = (Ret copy, h ++ cells) /\
       reify_from (length h) n (h ++ cells) copy = Some t' /\
       (proto_free t = true -> t' = t) /\
       (sc = None -> proto_free t' = true)) ->
  h0 !! l = Some o ->
  (forall key ext, In key (own_keys o) ->
     body key (h0 ++ ext)
     = copy_prop (deepClone sc fuel) (VRef l) (VRef (length h0)) key (h0 ++ ext)) ->
  (forall pre key post v ps,
     own_keys o = pre ++ key :: post -> (forall k, In k (map fst ps) -> In k pre) ->
     key <> "__proto__" ->
     obj_set (JsObj kd ps) key v = Ret (JsObj kd (ps ++ [(key, v)]))) ->
  forall todo ts_todo pre ps ts_done ext,
    own_keys o = pre ++ todo -> map fst ps = List.filter not_proto pre ->
    Forall2 (fun k t => reify n h0 (obj_get o k) = Some t) todo ts_todo ->
    (h0 ++ ext) !! length h0 = Some (JsObj kd ps) ->
    Forall2 (fun p t => reify_from (S (length h0)) n (h0 ++ ext) (snd p) = Some t)
            ps ts_done ->
    exists ext' ps' ts',
      for_each todo body (h0 ++ ext) = (Ret tt, h0 ++ ext') /\
      (h0 ++ ext') !! length h0 = Some (JsObj kd ps') /\
      map fst ps' = List.filter not_proto (pre ++ todo) /\
      Forall2 (fun p t => reify_from (S (length h0)) n (h0 ++ ext') (snd p) = Some t)
              ps' (ts_done ++ ts') /\
      (forallb not_proto todo = true -> forallb proto_free ts_todo = true ->
       ts' = ts_todo) /\
      (sc = None -> forallb proto_free ts' = true).
Proof.
  intros IHc Hl Hbody Hset.
  induction todo as [|key todo IH];
    intros ts_todo pre ps ts_done ext Hkeys Hps Htodo Hdst Hdone.
  - destruct ts_todo; [|inversion Htodo].
    exists ext, ps, []. rewrite !app_nil_r. auto 10.
  - destruct ts_todo as [|t ts']; [inversion Htodo|].
    assert (Ht : reify n h0 (obj_get o key) = Some t) by now inversion Htodo.
    assert (Htodo' : Forall2 (fun k t => reify n h0 (obj_get o k) = Some t) todo ts')
      by now inversion Htodo.
    clear Htodo. cbn [for_each].
    assert (Hin : In key (own_keys o))
      by (rewrite Hkeys; apply in_app_iff; right; now left).
    unfold bind at 1. rewrite Hbody by exact Hin.
    unfold copy_prop.
    rewrite (bind_ret_intro _ _ _ _ _
               (get_prop_own _ _ _ _ (lookup_app_l_Some _ _ _ _ Hl) (has_own_In _ _ Hin))).
    destruct (IHc (h0 ++ ext) (obj_get o key) t)
      as (copy & cells & t' & Hclone & Hcopy & Hsame & Hfree');
      [now apply reify_from_app|].
    rewrite (bind_ret_intro _ _ _ _ _ Hclone).
    pose proof (lookup_lt_Some _ _ _ Hdst) as Hlt.
    assert (Hdst1 : ((h0 ++ ext) ++ cells) !! length h0 = Some (JsObj kd ps))
      by now apply lookup_app_l_Some.
    rewrite (set_prop_ref _ _ _ _ _ Hdst1).
    assert (Hself : strict_eq copy (VRef (length h0)) = false)
      by (eapply reify_from_not_below; [exact Hcopy|exact Hlt]).
    rewrite Hself, andb_false_r.
    assert (Hsub : forall k, In k (map fst ps) -> In k pre).
    { intros k Hk. rewrite Hps in Hk. now apply filter_not_proto_In in Hk as [Hk _]. }
    assert (Hdone1 : Forall2 (fun p t => reify_from (S (length h0)) n
                                          ((h0 ++ ext) ++ cells) (snd p) = Some t)
                             ps ts_done).
    { eapply List.Forall2_impl; [|exact Hdone]. intros p t0 Hp.
      now apply reify_from_app. }
    destruct (String.eqb_spec key "__proto__") as [Hproto|Hproto].
    + (* the setter of Object.prototype: nothing is stored *)
      assert (Hpw : proto_write (JsObj kd ps) key = true).
      { unfold proto_write, has_own, is_array. cbn [props kind]. subst key.
        rewrite prop_lookup_None.
        - now destruct kd.
        - intros Hk. rewrite Hps in Hk.
          now apply filter_not_proto_In in Hk as [_ Hk]. }
      unfold obj_set. rewrite Hpw.
      rewrite list_insert_id by exact Hdst1.
      destruct (IH ts' (pre ++ [key]) ps ts_done (ext ++ cells))
        as (ext' & ps' & ts'' & Hrun & Hdst' & Hps' & Hall & Hsame' & Hfree'').
      * now rewrite <- app_assoc.
      * rewrite List.filter_app. cbn [List.filter]. unfold not_proto at 2.
        subst key. cbn [String.eqb Ascii.eqb Bool.eqb negb]. now rewrite app_nil_r.
      * exact Htodo'.
      * now rewrite app_assoc.
      * now rewrite app_assoc.
      * exists ext', ps', ts''. rewrite <- !app_assoc in *.
        repeat split; auto.
        intros Hk. cbn [forallb] in Hk. apply andb_prop in Hk as [Hk _].
        unfold not_proto in Hk. subst key. discriminate.
    + rewrite (Hset _ _ _ copy _ Hkeys Hsub Hproto).
      set (cell := JsObj kd (ps ++ [(key, copy)])).
      assert (Hform : <[length h0 := cell]> ((h0 ++ ext) ++ cells)
                      = h0 ++ <[0 := cell]> (ext ++ cells)).
      { rewrite <- app_assoc, insert_app_r_alt by lia. now rewrite Nat.sub_diag. }
      assert (Hagree : forall l' o', S (length h0) <= l' ->
                ((h0 ++ ext) ++ cells) !! l' = Some o' ->
                <[length h0 := cell]> ((h0 ++ ext) ++ cells) !! l' = Some o').
      { intros l' o' Hl' Ho'. rewrite list_lookup_insert_ne by lia. exact Ho'. }
      destruct (IH ts' (pre ++ [key]) (ps ++ [(key, copy)]) (ts_done ++ [t'])
                  (<[0 := cell]> (ext ++ cells)))
        as (ext' & ps' & ts'' & Hrun & Hdst' & Hps' & Hall & Hsame' & Hfree'').
      * now rewrite <- app_assoc.
      * rewrite map_app, Hps, List.filter_app. cbn [List.filter map fst].
        unfold not_proto at 3. apply String.eqb_neq in Hproto. now rewrite Hproto.
      * exact Htodo'.
      * rewrite <- Hform. apply list_lookup_insert_eq. rewrite length_app. lia.
      * rewrite <- Hform. apply Forall2_app.
        -- eapply List.Forall2_impl; [|exact Hdone1]. intros p t0 Hp.
           eapply reify_from_weaken; [| |exact Hagree|exact Hp]; auto.
        -- constructor; [|constructor]. cbn [snd].
           apply (reify_from_weaken n n (length (h0 ++ ext)) (S (length h0))
                    ((h0 ++ ext) ++ cells) _ copy t');
             [lia|lia|intros; apply Hagree; [lia|assumption]|exact Hcopy].
      * exists ext', ps', (t' :: ts''). rewrite Hform, Hrun.
        rewrite <- !app_assoc in *. cbn [app] in *.
        repeat split; auto.
        -- intros Hk Hfree. cbn [forallb] in Hk, Hfree.
           apply andb_prop in Hk as [_ Hk]. apply andb_prop in Hfree as [Hfree1 Hfree].
           now rewrite (Hsame Hfree1), (Hsame' Hk Hfree).
        -- intros Hnone. cbn [forallb]. now rewrite (Hfree' Hnone), (Hfree'' Hnone).
Qed.

Lemma has_prop_own (h : heap) l o key :
  h !! l = Some o -> In key (own_keys o) ->
  has_prop (VRef l) key h = (Ret true, h).
Proof.
  intros Hl Hin. unfold has_prop, bind, deref, ret. rewrite Hl.
  destruct (prop_lookup_is_Some _ _ Hin) as [v ->]. reflexivity.
Qed.

Lemma forallb_combine_fields keys (ts : list json) :
  length keys = length ts ->
  forallb (fun kv : string * json =>
             match kv with (k, v) => not_proto k && proto_free v end)
          (combine keys ts) = true ->
  forallb not_proto keys = true /\ forallb proto_free ts = true.
Proof.
  revert ts. induction keys as [|k keys IH]; intros [|t ts]; cbn; try discriminate; auto.
  intros Hlen H. injection Hlen as Hlen.
  apply andb_prop in H as [Hkt H]. apply andb_prop in Hkt as [-> ->].
  destruct (IH _ Hlen H) as [-> ->]. auto.
Qed.

Lemma forallb_combine_proto_free keys (ts : list json) :
  forallb not_proto keys = true -> forallb proto_free ts = true ->
  forallb (fun kv : string * json =>
             match kv with (k, v) => not_proto k && proto_free v end)
          (combine keys ts) = true.
Proof.
  revert ts. induction keys as [|k keys IH]; intros [|t ts]; cbn; auto.
  intros Hk Ht. apply andb_prop in Hk as [-> Hk]. apply andb_prop in Ht as [-> Ht].
  now apply IH.
Qed.

Lemma forallb_filter_not_proto keys :
  forallb not_proto (List.filter not_proto keys) = true.
Proof.
  apply forallb_forall. intros k Hk. now apply filter_In in Hk as [_ Hk].
Qed.

Lemma is_leaf_proto_free t : is_leaf t = true -> proto_free t = true.
Proof. now destruct t. Qed.

(** [deepClone] returns on every value that stands for a document, and its
    copy stands for a document, in cells allocated for it: the same
    document when no object of it has a field named [__proto__]. Without
    [structuredClone], no object of the copy has such a field. *)
Lemma deepClone_document sc : structuredClone_sound sc ->
  forall fuel n (h : heap) v t,
    n < fuel -> reify n h v = Some t ->
    exists copy cells t',
      deepClone sc fuel v h = (Ret copy, h ++ cells) /\
      reify_from (length h) n (h ++ cells) copy = Some t' /\
      (proto_free t = true -> t' = t) /\
      (sc = None -> proto_free t' = true).
Proof.
  intros Hsc. induction fuel as [|fuel IH]; intros n h v t Hn Hv; [lia|].
  cbn [deepClone]. unfold bind at 1, try_structuredClone.
  assert (Hfallback :
    exists copy cells t',
      (if strict_eq v VNull || negb (typeof_object v) then ret v
       else o <- deref v ;;
            match kind o with
            | KArray len => array_map (deepClone sc fuel) v len
            | KObject =>
                cloned <- alloc empty_object ;;
                for_each (own_keys o) (fun key =>
                  item <- get_prop v key ;;
                  copy <- deepClone sc fuel item ;;
                  set_prop cloned key copy) ;;;
                ret cloned
            end) h = (Ret copy, h ++ cells) /\
      reify_from (length h) n (h ++ cells) copy = Some t' /\
      (proto_free t = true -> t' = t) /\
      (sc = None -> proto_free t' = true)).
  { destruct (is_ref v) eqn:Href.
    - destruct v as [| | | | |l]; try discriminate.
      destruct n as [|n]; [discriminate|].
      apply reify_from_ref_fields in Hv
        as (o & ts & Hl & _ & _ & Hfields & Hnd & Hord & Hkind).
      cbn [strict_eq typeof_object negb orb]. unfold bind at 1, deref. rewrite Hl.
      assert (IHc : forall (h' : heap) v' t0, reify n h' v' = Some t0 ->
                exists copy cells t',
                  deepClone sc fuel v' h' = (Ret copy, h' ++ cells) /\
                  reify_from (length h') n (h' ++ cells) copy = Some t' /\
                  (proto_free t0 = true -> t' = t0) /\
                  (sc = None -> proto_free t' = true))
        by (intros; apply IH; [lia|assumption]).
      assert (Hkd : match kind o with
                    | KArray len => (len < 4294967296)%N /\ own_keys o = index_keys len
                    | KObject => True
                    end).
      { destruct Hkind as [(len & -> & ? & ? & _)|[-> _]]; auto. }
      assert (Hset : forall pre key post v ps,
                own_keys o = pre ++ key :: post ->
                (forall k, In k (map fst ps) -> In k pre) ->
                key <> "__proto__" ->
                obj_set (JsObj (kind o) ps) key v
                = Ret (JsObj (kind o) (ps ++ [(key, v)])))
        by (intros; eapply obj_set_append; eauto).
      assert (Hstart : (h ++ [JsObj (kind o) []]) !! length h
                       = Some (JsObj (kind o) []))
        by apply lookup_snoc_last.
      assert (Hlen_ts : length (own_keys o) = length ts)
        by (eapply Forall2_length; exact Hfields).
      assert (Hfinish : forall ext' ps' ts',
                (h ++ ext') !! length h = Some (JsObj (kind o) ps') ->
                map fst ps' = List.filter not_proto (own_keys o) ->
                Forall2 (fun p t => reify_from (S (length h)) n (h ++ ext') (snd p) = Some t)
                        ps' ts' ->
                (forallb not_proto (own_keys o) = true ->
                 forallb proto_free ts = true -> ts' = ts) ->
                (sc = None -> forallb proto_free ts' = true) ->
                exists t',
                  reify_from (length h) (S n) (h ++ ext') (VRef (length h)) = Some t' /\
                  (proto_free t = true -> t' = t) /\
                  (sc = None -> proto_free t' = true)).
      { intros ext' ps' ts' Hcell Hkeys Hall Hsame Hclean.
        rewrite (reify_from_ref_intro _ _ _ _ _ ts' (Nat.le_refl _) Hcell).
        - unfold own_keys in *. cbn [kind props]. rewrite Hkeys.
          destruct Hkind as [(len & -> & Hlen & Hidx & ->)|[-> ->]].
          + apply N.ltb_lt in Hlen.
            rewrite Hidx, (filter_all _ _ (index_keys_not_proto len)) in *.
            rewrite Hlen, keys_eqb_refl. eexists. split; [reflexivity|].
            cbn [proto_free]. split; [|exact Hclean].
            intros Hfree. f_equal. apply Hsame; auto.
            apply index_keys_not_proto.
          + rewrite (keys_nodup_complete _ (NoDup_filter_keys _ _ Hnd)).
            rewrite (keys_ordered_filter _ _ Hord).
            eexists. split; [reflexivity|].
            cbn [proto_free]. split.
            * intros Hfree.
              apply forallb_combine_fields in Hfree as [Hk Hfree]; [|exact Hlen_ts].
              now rewrite (filter_all _ _ Hk), (Hsame Hk Hfree).
            * intros Hnone. apply forallb_combine_proto_free;
                [apply forallb_filter_not_proto|now apply Hclean].
        - cbn [props]. eapply List.Forall2_impl; [|exact Hall].
          intros p t0 Hp. eapply reify_from_weaken; [| | |exact Hp]; auto. }
      destruct (kind o) as [|len] eqn:Hko.
      + unfold bind at 1, alloc.
        destruct (clone_loop sc fuel n h l o KObject
                    (fun key => copy_prop (deepClone sc fuel) (VRef l) (VRef (length h)) key)
                    IHc Hl ltac:(reflexivity) Hset
                    (own_keys o) ts [] [] [] [empty_object]
                    eq_refl eq_refl Hfields Hstart ltac:(constructor))
          as (ext' & ps' & ts' & Hrun & Hcell & Hkeys & Hall & Hsame & Hclean).
        destruct (Hfinish ext' ps' ts' Hcell Hkeys Hall Hsame Hclean)
          as (t' & Ht' & Heq & Hfree).
        exists (VRef (length h)), ext', t'. unfold bind at 1.
        unfold copy_prop in Hrun. rewrite Hrun. auto.
      + unfold array_map, bind at 1, alloc.
        destruct Hkd as [Hlen Hidx].
        set (body := fun key : string =>
                       present <- has_prop (VRef l) key ;;
                       if present then
                         item <- get_prop (VRef l) key ;;
                         mapped <- deepClone sc fuel item ;;
                         set_prop (VRef (length h)) key mapped
                       else ret tt).
        assert (Hbody : forall key ext, In key (own_keys o) ->
                  body key (h ++ ext)
                  = copy_prop (deepClone sc fuel) (VRef l) (VRef (length h)) key
                      (h ++ ext)).
        { intros key ext Hin. unfold body, bind at 1.
          rewrite (has_prop_own _ _ _ _ (lookup_app_l_Some _ _ _ _ Hl) Hin).
          reflexivity. }
        destruct (clone_loop sc fuel n h l o (KArray len) body
                    IHc Hl Hbody Hset
                    (own_keys o) ts [] [] [] [JsObj (KArray len) []]
                    eq_refl eq_refl Hfields Hstart ltac:(constructor))
          as (ext' & ps' & ts' & Hrun & Hcell & Hkeys & Hall & Hsame & Hclean).
        destruct (Hfinish ext' ps' ts' Hcell Hkeys Hall Hsame Hclean)
          as (t' & Ht' & Heq & Hfree).
        exists (VRef (length h)), ext', t'. unfold bind at 1.
        rewrite <- Hidx, Hrun. auto.
    - assert (Hprim : strict_eq v VNull || negb (typeof_object v) = true).
      { destruct v; try reflexivity; discriminate. }
      rewrite Hprim. exists v, [], t. rewrite app_nil_r. split; [reflexivity|].
      split; [|split; [reflexivity|]].
      + rewrite <- Hv. now apply reify_from_prim.
      + intros _. apply is_leaf_proto_free.
        eapply reify_from_prim_leaf; eauto. }
  destruct sc as [f|]; [|exact Hfallback].
  destruct (f h v) as [[copy cells]|] eqn:Hf; [|exact Hfallback].
  exists copy, cells, t. split; [reflexivity|]. split; [|split; [reflexivity|discriminate]].
  eapply Hsc; eauto.
Qed.

(** The copy made by [deepClone] of a value that stands for a document it
    copies in full stands for the same document, in cells allocated for
    it. *)
Lemma deepClone_reify sc : structuredClone_sound sc ->
  forall fuel n (h : heap) v t,
    n < fuel -> reify n h v = Some t -> copied_in_full sc t ->
    exists copy cells,
      deepClone sc fuel v h = (Ret copy, h ++ cells) /\
      reify_from (length h) n (h ++ cells) copy = Some t.
Proof.
  intros Hsc fuel n h v t Hn Hv [(f & -> & Htotal)|Hfree].
  - destruct fuel as [|fuel]; [lia|].
    destruct (Htotal _ _ _ _ Hv) as [[copy cells] Hf].
    exists copy, cells. cbn [deepClone]. unfold bind, try_structuredClone.
    rewrite Hf. split; [reflexivity|]. eapply Hsc; eauto.
  - destruct (deepClone_document sc Hsc fuel n h v t Hn Hv)
      as (copy & cells & t' & Hrun & Hcopy & Hsame & _).
    exists copy, cells. split; [exact Hrun|]. now rewrite <- (Hsame Hfree).
Qed.

(** The two together: [deepClone] returns on every document; its copy
    stands for a document, and for the same one when the document is
    copied in full. *)
Lemma deepClone_copy sc : structuredClone_sound sc ->
  forall fuel n (h : heap) v t,
    n < fuel -> reify n h v = Some t ->
    exists copy cells t',
      deepClone sc fuel v h = (Ret copy, h ++ cells) /\
      reify_from (length h) n (h ++ cells) copy = Some t' /\
      (copied_in_full sc t -> t' = t).
Proof.
  intros Hsc fuel n h v t Hn Hv.
  destruct (deepClone_document sc Hsc fuel n h v t Hn Hv)
    as (copy & cells & t' & Hrun & Hcopy & Hsame & _).
  exists copy, cells, t'. split; [exact Hrun|]. split; [exact Hcopy|].
  intros Hfull.
  destruct (deepClone_reify sc Hsc fuel n h v t Hn Hv Hfull)
    as (copy2 & cells2 & Hrun2 & Hcopy2).
  rewrite Hrun in Hrun2. injection Hrun2 as <- Hcells.
  apply app_inv_head in Hcells as <-. congruence.
Qed.


Lemma structuredClone_sound_absent : structuredClone_sound None.
Proof. intros f h v copy cells depth t Hf. discriminate. Qed.



(** [deepEqual] has no value that equals [NaN], so a document must not
    hold it; no JSON text denotes it. *)
Example deepEqual_nan :
  deepEqual 1 (VNum S754_nan) (VNum S754_nan) [] = (Ret false, []).
Proof. reflexivity. Qed.

(* ================================================================== *)
(** * The history store: what the operations do *)
(* ================================================================== *)

Lemma push_eq sc fuel state w :
  StoreHistory.push sc fuel state w =
    let (r, h') := deepClone sc fuel state (hw_heap w) in
    match r with
    | Ret copy => (Ret tt, HWorld (appended (truncated (hw_history w)) copy) h')
    | _ => (rethrow r tt, HWorld (truncated (hw_history w)) h')
    end.
Proof.
  destruct w as [[st i m] h].
  unfold StoreHistory.push, truncated, appended, bind, this, gets, set_stack,
    set_index, modify, in_heap, zoom, ret.
  cbn [hw_history hw_heap stack index maxSize].
  destruct (i <? len st - 1)%Z; cbn [hw_history hw_heap stack index maxSize];
    destruct (deepClone sc fuel state h) as [[copy|e| |] h'];
    cbn [hw_history hw_heap stack index maxSize rethrow]; try reflexivity;
    match goal with |- context [(?a >? ?b)%Z] => destruct (a >? b)%Z end;
    reflexivity.
Qed.

Lemma undo_eq sc fuel w :
  StoreHistory.undo sc fuel w =
    let s := hw_history w in
    if StoreHistory.canUndo s then
      let (r, h') := deepClone sc fuel (at_index (stack s) (index s - 1)) (hw_heap w) in
      (r, HWorld (History (stack s) (index s - 1) (maxSize s)) h')
    else (Ret VNull, w).
Proof.
  destruct w as [[st i m] h].
  unfold StoreHistory.undo, bind, this, gets, set_stack,
    set_index, modify, in_heap, zoom, ret.
  cbn [hw_history hw_heap stack index maxSize].
  destruct (StoreHistory.canUndo _); reflexivity.
Qed.

Lemma redo_eq sc fuel w :
  StoreHistory.redo sc fuel w =
    let s := hw_history w in
    if StoreHistory.canRedo s then
      let (r, h') := deepClone sc fuel (at_index (stack s) (index s + 1)) (hw_heap w) in
      (r, HWorld (History (stack s) (index s + 1) (maxSize s)) h')
    else (Ret VNull, w).
Proof.
  destruct w as [[st i m] h].
  unfold StoreHistory.redo, bind, this, gets, set_stack,
    set_index, modify, in_heap, zoom, ret.
  cbn [hw_history hw_heap stack index maxSize].
  destruct (StoreHistory.canRedo _); reflexivity.
Qed.

Lemma clear_eq w :
  StoreHistory.clear w
  = (Ret tt, HWorld (History [] (-1) (maxSize (hw_history w))) (hw_heap w)).
Proof. reflexivity. Qed.

Lemma init_eq sc fuel state w :
  StoreHistory.init sc fuel state w
  = StoreHistory.push sc fuel state
      (HWorld (History [] (-1) (maxSize (hw_history w))) (hw_heap w)).
Proof. reflexivity. Qed.

(* ================================================================== *)
(** * The history store: invariant *)
(* ================================================================== *)

Lemma len_nil_iff (l : list val) : len l = 0%Z <-> l = [].
Proof. unfold len. destruct l; simpl; split; intros; try lia; congruence. Qed.

Lemma len_slice_to (i : Z) (l : list val) :
  (-1 <= i < len l)%Z -> len (slice_to (i + 1) l) = (i + 1)%Z.
Proof.
  unfold slice_to, len. intros H.
  destruct (Z.ltb_spec (i + 1) 0); [lia|].
  rewrite length_firstn. lia.
Qed.

Lemma truncated_inv s : history_inv s -> history_inv (truncated s).
Proof.
  unfold truncated. destruct (Z.ltb_spec (index s) (len (stack s) - 1)); [|auto].
  intros (Hi & He & Hm). unfold history_inv. cbn [stack index maxSize].
  assert (Hlen := len_slice_to _ _ Hi). rewrite Hlen. repeat split; try lia.
  - intros H'. apply He in H'. rewrite H' in *. unfold len in *. simpl in *. lia.
  - intros H'. apply len_nil_iff in H'. lia.
Qed.

Lemma truncated_top s :
  history_inv s -> index (truncated s) = (len (stack (truncated s)) - 1)%Z.
Proof.
  unfold truncated. intros (Hi & _).
  destruct (Z.ltb_spec (index s) (len (stack s) - 1)); cbn [stack index]; [|lia].
  rewrite len_slice_to; lia.
Qed.

Lemma truncated_maxSize s : maxSize (truncated s) = maxSize s.
Proof. unfold truncated. now destruct (index s <? len (stack s) - 1)%Z. Qed.

Lemma len_app_one (l : list val) x : len (l ++ [x]) = (len l + 1)%Z.
Proof. unfold len. rewrite length_app. simpl. lia. Qed.

Lemma len_shift (l : list val) : l <> [] -> len (shift l) = (len l - 1)%Z.
Proof. unfold len. destruct l; [congruence|]. simpl. lia. Qed.

Lemma appended_inv s copy :
  (len (stack s) <= maxSize s)%Z -> history_inv (appended s copy).
Proof.
  intros Hm. unfold appended, history_inv. cbn zeta.
  pose proof (len_app_one (stack s) copy) as Hl.
  assert (Hnn : (0 <= len (stack s))%Z) by (unfold len; lia).
  destruct (Z.gtb_spec (len (stack s ++ [copy])) (maxSize s));
    cbn [stack index maxSize].
  - rewrite len_shift by (now destruct (stack s)). repeat split; try lia.
    + intros H'. apply len_nil_iff. rewrite len_shift by (now destruct (stack s)). lia.
    + intros H'. apply len_nil_iff in H'.
      rewrite len_shift in H' by (now destruct (stack s)). lia.
  - split; [lia|]. split; [|lia]. split; intros H'.
    + exfalso. lia.
    + now destruct (stack s).
Qed.

Lemma appended_maxSize s copy : maxSize (appended s copy) = maxSize s.
Proof.
  unfold appended. cbn zeta.
  now destruct (len (stack s ++ [copy]) >? maxSize s)%Z.
Qed.

(** Every operation keeps the invariant and [maxSize], whatever its
    outcome. *)
Lemma run_op_inv sc fuel op w :
  history_inv (hw_history w) ->
  history_inv (hw_history (snd (run_op StoreHistory.store sc fuel op w))) /\
  maxSize (hw_history (snd (run_op StoreHistory.store sc fuel op w)))
  = maxSize (hw_history w).
Proof.
  intros Hinv.
  assert (Hpush : forall state w0, history_inv (hw_history w0) ->
            history_inv (hw_history (snd (StoreHistory.push sc fuel state w0))) /\
            maxSize (hw_history (snd (StoreHistory.push sc fuel state w0)))
            = maxSize (hw_history w0)).
  { intros state w0 H0. rewrite push_eq.
    pose proof (truncated_inv _ H0) as Ht.
    destruct (deepClone sc fuel state (hw_heap w0)) as [[copy|e| |] h'];
      cbn [snd hw_history]; rewrite ?appended_maxSize, ?truncated_maxSize;
      (split; [|reflexivity]); try exact Ht.
    apply appended_inv. rewrite truncated_maxSize.
    destruct Ht as (_ & _ & Ht). now rewrite truncated_maxSize in Ht. }
  assert (Hbind : forall (m : M hworld unit) w0,
            snd ((m ;;; ret VUndefined) w0) = snd (m w0)).
  { intros m w0. unfold bind, ret. now destruct (m w0) as [[| | |] ?]. }
  destruct op as [state| | | |state]; cbn [run_op StoreHistory.store hs_push
    hs_undo hs_redo hs_clear hs_init].
  - rewrite Hbind. now apply Hpush.
  - rewrite undo_eq. cbn zeta. unfold StoreHistory.canUndo.
    destruct (Z.gtb_spec (index (hw_history w)) 0); [|auto].
    destruct (deepClone _ _ _ _) as [r h']. cbn [snd hw_history maxSize].
    split; [|reflexivity]. destruct Hinv as (Hi & He & Hm).
    unfold history_inv. cbn [stack index maxSize]. repeat split; try lia.
    intros H'. apply He in H'. lia.
  - rewrite redo_eq. cbn zeta. unfold StoreHistory.canRedo.
    destruct (Z.ltb_spec (index (hw_history w)) (len (stack (hw_history w)) - 1));
      [|auto].
    destruct (deepClone _ _ _ _) as [r h']. cbn [snd hw_history maxSize].
    split; [|reflexivity]. destruct Hinv as (Hi & He & Hm).
    unfold history_inv. cbn [stack index maxSize]. repeat split; try lia.
    intros H'. apply len_nil_iff in H'. lia.
  - rewrite Hbind, clear_eq. cbn [snd hw_history maxSize]. split; [|reflexivity].
    destruct Hinv as (Hi & He & Hm). unfold history_inv, len in *.
    cbn [stack index maxSize length]. repeat split; lia.
  - rewrite Hbind, init_eq.
    destruct (Hpush state (HWorld (History [] (-1) (maxSize (hw_history w))) (hw_heap w)))
      as [H1 H2]; [|split; [exact H1|exact H2]].
    destruct Hinv as (Hi & He & Hm). unfold history_inv, len in *.
    cbn [hw_history stack index maxSize length]. repeat split; lia.
Qed.

Lemma run_ops_inv sc fuel ops : forall w,
  history_inv (hw_history w) ->
  history_inv (hw_history (snd (run_ops StoreHistory.store sc fuel ops w))) /\
  maxSize (hw_history (snd (run_ops StoreHistory.store sc fuel ops w)))
  = maxSize (hw_history w).
Proof.
  induction ops as [|op rest IH]; intros w Hinv; cbn [run_ops]; [auto|].
  destruct (run_op_inv sc fuel op w Hinv) as [H1 H2].
  destruct (run_op StoreHistory.store sc fuel op w) as [r w1]. cbn [snd] in *.
  destruct (IH w1 H1) as [H3 H4].
  destruct (run_ops StoreHistory.store sc fuel rest w1) as [rs w2]. cbn [snd] in *.
  split; [exact H3|congruence].
Qed.

(** C1. After every sequence of [push], [undo], [redo], [clear] and [init]
    from the empty history, whatever the outcome of each call:
    -1 <= index < length(stack), index = -1 exactly when the stack is empty,
    length(stack) <= maxSize, [canUndo] holds iff index > 0 and [canRedo]
    holds iff index < length(stack) - 1. *)
Theorem history_invariant
  (sc : option native_clone) (fuel : nat) (ops : list history_op)
  (m : Z) (h : heap) :
  (0 <= m)%Z ->
  let s := hw_history
             (snd (run_ops StoreHistory.store sc fuel ops
                     (HWorld (History [] (-1) m) h))) in
  (-1 <= index s < len (stack s))%Z /\
  (index s = (-1)%Z <-> stack s = []) /\
  (len (stack s) <= maxSize s)%Z /\
  maxSize s = m /\
  (StoreHistory.canUndo s = true <-> (index s > 0)%Z) /\
  (StoreHistory.canRedo s = true <-> (index s < len (stack s) - 1)%Z).
Proof.
  intros Hm s.
  destruct (run_ops_inv sc fuel ops (HWorld (History [] (-1) m) h))
    as [(Hi & He & Hl) Hmax].
  { unfold history_inv, len. cbn. repeat split; lia. }
  fold s in Hi, He, Hl, Hmax. repeat split; try tauto; try exact Hmax.
  - unfold StoreHistory.canUndo. intros H. apply Z.gtb_lt in H. lia.
  - unfold StoreHistory.canUndo. intros H. apply Z.gtb_lt. lia.
  - unfold StoreHistory.canRedo. intros H. now apply Z.ltb_lt in H.
  - unfold StoreHistory.canRedo. intros H. now apply Z.ltb_lt.
Qed.

Lemma history_invariant_witness :
  let s := hw_history
             (snd (run_ops StoreHistory.store None 5
                     [OpInit (VRef 0); OpPush (VRef 1); OpUndo; OpPush (VRef 2);
                      OpUndo; OpRedo; OpRedo; OpClear; OpUndo]
                     (HWorld (History [] (-1) 10) nested_heap))) in
  (-1 <= index s < len (stack s))%Z /\
  (index s = (-1)%Z <-> stack s = []) /\
  (len (stack s) <= maxSize s)%Z /\
  maxSize s = 10%Z /\
  (StoreHistory.canUndo s = true <-> (index s > 0)%Z) /\
  (StoreHistory.canRedo s = true <-> (index s < len (stack s) - 1)%Z).
Proof.
  apply (history_invariant None 5
           [OpInit (VRef 0); OpPush (VRef 1); OpUndo; OpPush (VRef 2);
            OpUndo; OpRedo; OpRedo; OpClear; OpUndo] 10 nested_heap).
  lia.
Defined.

(* ================================================================== *)
(** * The history store on JSON documents *)
(* ================================================================== *)

(** [push] of a document returns, and the entry it adds stands for a
    document: the same document when it is copied in full. *)
Lemma push_copy sc fuel n state t w :
  structuredClone_sound sc -> n < fuel ->
  reify n (hw_heap w) state = Some t ->
  exists copy cells t',
    StoreHistory.push sc fuel state w
    = (Ret tt, HWorld (appended (truncated (hw_history w)) copy)
                      (hw_heap w ++ cells)) /\
    reify n (hw_heap w ++ cells) copy = Some t' /\
    reify_from (length (hw_heap w)) n (hw_heap w ++ cells) copy = Some t' /\
    (copied_in_full sc t -> t' = t).
Proof.
  intros Hsc Hn Hs.
  destruct (deepClone_copy sc Hsc fuel n _ _ _ Hn Hs)
    as (copy & cells & t' & Hrun & Hc & Hsame).
  exists copy, cells, t'. rewrite push_eq, Hrun. split; [reflexivity|].
  split; [|split; [exact Hc|exact Hsame]].
  eapply reify_from_weaken; [| | |exact Hc]; auto. lia.
Qed.

Lemma push_reify sc fuel n state t w :
  structuredClone_sound sc -> n < fuel ->
  reify n (hw_heap w) state = Some t -> copied_in_full sc t ->
  exists copy cells,
    StoreHistory.push sc fuel state w
    = (Ret tt, HWorld (appended (truncated (hw_history w)) copy)
                      (hw_heap w ++ cells)) /\
    reify n (hw_heap w ++ cells) copy = Some t.
Proof.
  intros Hsc Hn Hs Hfull.
  destruct (push_copy sc fuel n state t w Hsc Hn Hs)
    as (copy & cells & t' & Hrun & Hc & _ & Hsame).
  exists copy, cells. split; [exact Hrun|]. now rewrite <- (Hsame Hfull).
Qed.

Lemma reify_app n (h ext : heap) v t :
  reify n h v = Some t -> reify n (h ++ ext) v = Some t.
Proof. apply reify_from_app. Qed.

Local Ltac eval_len :=
  unfold truncated, appended, len; simpl;
  repeat match goal with
         | |- context [Z.of_nat ?n] =>
             let v := eval compute in (Z.of_nat n) in change (Z.of_nat n) with v
         end; simpl.

Lemma push_on_empty m c :
  (1 <= m)%Z -> appended (truncated (History [] (-1) m)) c = History [c] 0 m.
Proof.
  intros Hm. eval_len. destruct (Z.gtb_spec 1 m); [lia|reflexivity].
Qed.






Lemma at_index_In (l : list val) (i : Z) :
  (0 <= i < len l)%Z -> In (at_index l i) l.
Proof.
  unfold at_index, len. intros H. destruct (Z.ltb_spec i 0); [lia|].
  apply nth_In. lia.
Qed.

Lemma clone_entry sc fuel depth (w : hworld) (i : Z) :
  structuredClone_sound sc -> depth < fuel ->
  Forall (fun e => is_Some (reify depth (hw_heap w) e)) (stack (hw_history w)) ->
  (0 <= i < len (stack (hw_history w)))%Z ->
  exists copy cells t t',
    deepClone sc fuel (at_index (stack (hw_history w)) i) (hw_heap w)
    = (Ret copy, hw_heap w ++ cells) /\
    reify depth (hw_heap w) (at_index (stack (hw_history w)) i) = Some t /\
    reify_from (length (hw_heap w)) depth (hw_heap w ++ cells) copy = Some t' /\
    (copied_in_full sc t -> t' = t).
Proof.
  intros Hsc Hn Hall Hi. rewrite List.Forall_forall in Hall.
  destruct (Hall _ (at_index_In _ _ Hi)) as [t Ht].
  destruct (deepClone_copy sc Hsc fuel depth _ _ _ Hn Ht)
    as (copy & cells & t' & Hrun & Hc & Hsame).
  exists copy, cells, t, t'. auto.
Qed.

Lemma clone_entry_in_full sc fuel depth (w : hworld) (i : Z) :
  structuredClone_sound sc -> depth < fuel ->
  Forall (document_in_full sc depth (hw_heap w)) (stack (hw_history w)) ->
  (0 <= i < len (stack (hw_history w)))%Z ->
  exists copy cells t,
    deepClone sc fuel (at_index (stack (hw_history w)) i) (hw_heap w)
    = (Ret copy, hw_heap w ++ cells) /\
    reify depth (hw_heap w) (at_index (stack (hw_history w)) i) = Some t /\
    reify_from (length (hw_heap w)) depth (hw_heap w ++ cells) copy = Some t.
Proof.
  intros Hsc Hn Hall Hi. rewrite List.Forall_forall in Hall.
  destruct (Hall _ (at_index_In _ _ Hi)) as (t & Ht & Hfull).
  destruct (deepClone_reify sc Hsc fuel depth _ _ _ Hn Ht Hfull)
    as (copy & cells & Hrun & Hc).
  exists copy, cells, t. auto.
Qed.

Lemma entries_in_full_app sc depth (h ext : heap) (st : list val) :
  Forall (document_in_full sc depth h) st ->
  Forall (document_in_full sc depth (h ++ ext)) st.
Proof.
  apply List.Forall_impl. intros e (t & Ht & Hfull). exists t.
  split; [now apply reify_app|exact Hfull].
Qed.

Lemma entries_in_full_reify sc depth (h : heap) (st : list val) :
  Forall (document_in_full sc depth h) st ->
  Forall (fun e => is_Some (reify depth h e)) st.
Proof. apply List.Forall_impl. intros e (t & Ht & _). eauto. Qed.









(** Why the entries have to be copied in full: let the entry below the
    current one be the document [{"__proto__": 5}], as [structuredClone] or
    [JSON.parse] make it, and let [structuredClone] be missing when
    [undo()] is called. The loop of [deepClone] assigns the field with
    [cloned["__proto__"] = 5], which stores nothing: [undo()] returns
    [{}]. The store itself does not get there: without [structuredClone]
    its entries are copies made by that loop. *)
Lemma undo_drops_proto_field :
  let h := [JsObj KObject [("__proto__", num 5)]; empty_object] in
  let w := HWorld (History [VRef 0; VRef 1] 1 10) h in
  history_inv (hw_history w) /\
  StoreHistory.canUndo (hw_history w) = true /\
  reify 1 h (VRef 0) = Some (JObj [("__proto__", JNum (num_of_N 5))]) /\
  StoreHistory.undo None 2 w
    = (Ret (VRef 2), HWorld (History [VRef 0; VRef 1] 0 10) (h ++ [empty_object])) /\
  reify 1 (h ++ [empty_object]) (VRef 2) = Some (JObj []) /\
  deepEqual 2 (VRef 0) (VRef 2) (h ++ [empty_object])
    = (Ret false, h ++ [empty_object]).
Proof.
  cbv zeta. split; [|repeat split].
  unfold history_inv, len. simpl. repeat split; try lia; discriminate.
Qed.

(* ================================================================== *)
(** * The history store: eviction *)
(* ================================================================== *)













(* ================================================================== *)
(** * The two registrations of the history store *)
(* ================================================================== *)

Lemma run_op_agree sc fuel op w :
  run_op StoreHistory.store sc fuel op w = run_op UndoRedoHistory.store sc fuel op w.
Proof. destruct op; reflexivity. Qed.

(** C10. On every sequence of calls, from every state, the history store of
    store.js and the history store of undo_redo.js return the same values
    and reach the same state (stack, index, maxSize and heap); they are
    created equal, and [canUndo] and [canRedo] answer alike. *)
Theorem history_stores_agree
  (sc : option native_clone) (fuel : nat) (ops : list history_op) (w : hworld) :
  run_ops StoreHistory.store sc fuel ops w
  = run_ops UndoRedoHistory.store sc fuel ops w /\
  StoreHistory.initial = UndoRedoHistory.initial /\
  (forall s, StoreHistory.canUndo s = UndoRedoHistory.canUndo s /\
             StoreHistory.canRedo s = UndoRedoHistory.canRedo s).
Proof.
  split; [|split; [reflexivity|intros s; split; reflexivity]].
  revert w. induction ops as [|op rest IH]; intros w; cbn [run_ops]; [reflexivity|].
  rewrite run_op_agree.
  destruct (run_op UndoRedoHistory.store sc fuel op w) as [r w1].
  now rewrite IH.
Qed.

(* ================================================================== *)
(** * deepEqual returns on documents *)
(* ================================================================== *)

Lemma keys_equal_total (fuel n : nat) (h : heap) la lb oa ob keysB :
  (forall a b, is_Some (reify n h a) -> is_Some (reify n h b) ->
               exists r, deepEqual fuel a b h = (Ret r, h)) ->
  h !! la = Some oa -> h !! lb = Some ob ->
  (forall k, In k keysB ->
     has_own ob k = true /\ is_Some (reify n h (obj_get ob k))) ->
  forall ks,
    (forall k, In k ks ->
       has_own oa k = true /\ is_Some (reify n h (obj_get oa k))) ->
    exists r,
      keys_equal (deepEqual fuel) keysB (VRef la) (VRef lb) ks h = (Ret r, h).
Proof.
  intros IH Ha Hb HB ks. induction ks as [|k ks IHks]; intros HA.
  - eexists. reflexivity.
  - cbn [keys_equal].
    destruct (existsb (String.eqb k) keysB) eqn:Hin; cbn [negb];
      [|eexists; reflexivity].
    apply existsb_eqb_In in Hin.
    destruct (HA k (or_introl eq_refl)) as [Hoa Hra].
    destruct (HB k Hin) as [Hob Hrb].
    rewrite (get_prop_pair h la lb oa ob k Ha Hb Hoa Hob).
    destruct (IH (obj_get oa k) (obj_get ob k) Hra Hrb) as [r Hr].
    rewrite (bind_ret_intro _ _ _ _ _ Hr).
    destruct r; cbn [negb]; [|eexists; reflexivity].
    apply IHks. intros k' Hk'. apply HA. now right.
Qed.

Lemma reify_fields_is_Some n (h : heap) l t :
  reify (S n) h (VRef l) = Some t ->
  exists o, h !! l = Some o /\
            forall k, In k (own_keys o) ->
              has_own o k = true /\ is_Some (reify n h (obj_get o k)).
Proof.
  intros H. apply reify_from_ref_fields in H
    as (o & ts & Hl & _ & _ & Hf & _ & _ & _).
  exists o. split; [exact Hl|]. intros k Hk. split; [now apply has_own_In|].
  clear -Hf Hk. induction Hf as [|k' t' ks ts' Hk' _ IH]; [contradiction|].
  destruct Hk as [<-|Hk]; [unfold reify; rewrite Hk'; eauto|auto].
Qed.

(** [deepEqual] returns a boolean on any two documents. *)
Lemma deepEqual_total fuel : forall n (h : heap) a b,
  n < fuel -> is_Some (reify n h a) -> is_Some (reify n h b) ->
  exists r, deepEqual fuel a b h = (Ret r, h).
Proof.
  induction fuel as [|fuel IH]; intros n h a b Hn [ta Ha] [tb Hb]; [lia|].
  cbn [deepEqual].
  destruct (is_ref a && is_ref b) eqn:Hrefs.
  2:{ unfold reify in *.
      destruct a; try (rewrite reify_from_prim_eq in Ha by reflexivity);
        try discriminate;
        destruct b; try (rewrite reify_from_prim_eq in Hb by reflexivity);
        try discriminate; cbn;
        repeat match goal with
               | |- context [if ?c then _ else _] => destruct c
               end; eexists; reflexivity. }
  destruct a as [| | | | |la]; try discriminate.
  destruct b as [| | | | |lb]; try discriminate.
  destruct n as [|n]; [discriminate|].
  cbn [strict_eq orb typeof_object negb].
  destruct (Nat.eqb la lb); [eexists; reflexivity|].
  destruct (reify_fields_is_Some _ _ _ _ Ha) as (oa & Hla & Hfa).
  destruct (reify_fields_is_Some _ _ _ _ Hb) as (ob & Hlb & Hfb).
  unfold bind at 1, deref. rewrite Hla. unfold bind at 1. rewrite Hlb.
  destruct (negb (Bool.eqb (is_array oa) (is_array ob))); [eexists; reflexivity|].
  cbn zeta.
  destruct (negb (Nat.eqb (length (own_keys oa)) (length (own_keys ob))));
    [eexists; reflexivity|].
  eapply (keys_equal_total fuel n); eauto.
  intros a b Ha' Hb'. apply (IH n); [lia|assumption|assumption].
Qed.

(* ================================================================== *)
(** * The card store: the debounced change check *)
(* ================================================================== *)

Lemma same_documents_trans w1 w2 w3 :
  same_documents w1 w2 -> same_documents w2 w3 -> same_documents w1 w3.
Proof.
  unfold same_documents. intros (A1 & A2 & A3 & A4) (B1 & B2 & B3 & B4).
  repeat split; congruence.
Qed.

Lemma checkChanges_eq w :
  timers_consistent w ->
  checkChanges w =
    (Ret tt,
     CWorld (Card (data (cw_card w)) (originalData (cw_card w)) true
                  (Some (cw_next_timer w)))
            (cw_heap w) (cw_now w)
            [Timer (cw_next_timer w) (cw_now w + 500)]
            (Pos.succ (cw_next_timer w)) (cw_fired w)).
Proof.
  destruct w as [[d o c [id|]] h now ts next fired]; unfold timers_consistent;
    cbn [cw_card _checkChangesTimer cw_timers].
  - intros [->|[due ->]]; [reflexivity|].
    unfold checkChanges, bind, set_hasChanges, set_card, gets,
      modify, clearTimeout, setTimeout, set_checkChangesTimer. cbn.
    now rewrite Pos.eqb_refl.
  - intros ->. reflexivity.
Qed.

Lemma checkChanges_armed w :
  timers_consistent w ->
  armed (snd (checkChanges w)) /\ same_documents w (snd (checkChanges w)) /\
  cw_now (snd (checkChanges w)) = cw_now w.
Proof.
  intros H. rewrite (checkChanges_eq w H). cbn [snd].
  unfold armed, same_documents. cbn. eauto 10.
Qed.

Lemma armed_consistent w : armed w -> timers_consistent w.
Proof.
  intros (_ & id & Hid & Hts). unfold timers_consistent. rewrite Hid. eauto.
Qed.

(** A wait shorter than the delay runs nothing. *)
Lemma wait_short fuel g w :
  armed w -> (g < 500)%N ->
  wait fuel g w
  = CWorld (cw_card w) (cw_heap w) (cw_now w + g) (cw_timers w)
           (cw_next_timer w) (cw_fired w).
Proof.
  intros (_ & id & _ & Hts) Hg. unfold wait. rewrite Hts.
  cbn [length run_timers]. rewrite Hts. cbn [next_due timer_due].
  destruct (N.leb_spec (cw_now w + 500) (cw_now w + g)); [lia|].
  now rewrite Hts.
Qed.

(** A wait of at least the delay runs the callback, once, when it is due. *)
Lemma wait_fires fuel q w b :
  armed w -> (500 <= q)%N ->
  deepEqual fuel (data (cw_card w)) (originalData (cw_card w)) (cw_heap w)
  = (Ret b, cw_heap w) ->
  exists id,
    wait fuel q w
    = CWorld (Card (data (cw_card w)) (originalData (cw_card w)) (negb b) None)
             (cw_heap w) (cw_now w + q) [] (cw_next_timer w)
             (cw_fired w ++ [Timer id (cw_now w + 500)]).
Proof.
  intros (_ & id & _ & Hts) Hq Heq. exists id. unfold wait. rewrite Hts.
  cbn [length run_timers]. rewrite Hts. cbn [next_due timer_due timer_id].
  destruct (N.leb_spec (cw_now w + 500) (cw_now w + q)); [|lia].
  replace (N.max (cw_now w) (cw_now w + 500)) with (cw_now w + 500)%N by lia.
  unfold remove_timer. cbn [List.filter timer_id]. rewrite Pos.eqb_refl. cbn [negb].
  unfold checkChanges_callback, bind, gets, in_card_heap, zoom, set_hasChanges,
    set_checkChangesTimer, set_card, modify.
  cbn [cw_card cw_heap cw_now cw_timers cw_next_timer cw_fired].
  rewrite Heq. reflexivity.
Qed.

Lemma burst_armed fuel gaps : forall w,
  armed w -> Forall (fun g => (g < 500)%N) gaps ->
  let w' := run_events fuel (flat_map (fun g => [Wait g; CallCheckChanges]) gaps) w in
  armed w' /\ same_documents w w'.
Proof.
  induction gaps as [|g gaps IH]; intros w Hw Hg.
  - cbn. split; [exact Hw|]. unfold same_documents. auto.
  - assert (Hg1 : (g < 500)%N) by now inversion Hg.
    assert (Hgs : Forall (fun g => (g < 500)%N) gaps) by now inversion Hg.
    cbn [flat_map app run_events fold_left run_event].
    rewrite (wait_short fuel g w Hw Hg1).
    set (w1 := CWorld (cw_card w) (cw_heap w) (cw_now w + g) (cw_timers w)
                      (cw_next_timer w) (cw_fired w)).
    assert (Hc1 : timers_consistent w1) by (apply armed_consistent in Hw; exact Hw).
    destruct (checkChanges_armed w1 Hc1) as (Ha & Hs & _).
    destruct (IH _ Ha Hgs) as (Ha' & Hs').
    split; [exact Ha'|].
    apply (same_documents_trans w w1); [now unfold same_documents|].
    now apply (same_documents_trans w1 (snd (checkChanges w1))).
Qed.

(** C9. Every call of [checkChanges] sets [hasChanges] at once. After calls
    less than 500 ms apart the flag is set, nothing has been recomputed and
    a single timeout is pending, due 500 ms after the last call; when 500 ms
    or more then pass without a call, the callback runs exactly once, at
    that time, and sets [hasChanges] to the negation of
    [deepEqual(data, originalData)]. *)
Theorem checkChanges_debounce
  (fuel depth : nat) (w : cworld) (gaps : list N) (quiet : N) :
  timers_consistent w ->
  Forall (fun g => (g < 500)%N) gaps -> (500 <= quiet)%N ->
  depth < fuel ->
  is_Some (reify depth (cw_heap w) (data (cw_card w))) ->
  is_Some (reify depth (cw_heap w) (originalData (cw_card w))) ->
  let w1 := run_events fuel (burst gaps) w in
  let w2 := wait fuel quiet w1 in
  (forall w0, hasChanges (cw_card (snd (checkChanges w0))) = true) /\
  hasChanges (cw_card w1) = true /\
  cw_fired w1 = cw_fired w /\
  (exists id, _checkChangesTimer (cw_card w1) = Some id /\
              cw_timers w1 = [Timer id (cw_now w1 + 500)]) /\
  (exists id same,
     deepEqual fuel (data (cw_card w)) (originalData (cw_card w)) (cw_heap w)
     = (Ret same, cw_heap w) /\
     cw_fired w2 = cw_fired w ++ [Timer id (cw_now w1 + 500)] /\
     hasChanges (cw_card w2) = negb same /\
     _checkChangesTimer (cw_card w2) = None /\
     cw_timers w2 = []).
Proof.
  intros Hw Hgaps Hquiet Hfuel Hd Ho w1 w2.
  destruct (checkChanges_armed w Hw) as (Ha0 & Hs0 & _).
  destruct (burst_armed fuel gaps _ Ha0 Hgaps) as (Ha1 & Hs1).
  change (run_events fuel (flat_map (fun g => [Wait g; CallCheckChanges]) gaps)
            (snd (checkChanges w))) with w1 in Ha1, Hs1.
  assert (Hs : same_documents w w1)
    by now apply (same_documents_trans w (snd (checkChanges w))).
  destruct Hs as (Hdata & Horig & Hheap & Hfired).
  destruct (deepEqual_total fuel depth _ _ _ Hfuel Hd Ho) as [same Heq].
  split; [|split; [exact (proj1 Ha1)|split; [exact Hfired|split; [exact (proj2 Ha1)|]]]].
  - intros [[d o c t] h now ts next fired].
    unfold checkChanges, bind, set_hasChanges, set_card, gets, modify,
      clearTimeout, setTimeout, set_checkChangesTimer. cbn.
    destruct t; reflexivity.
  - destruct (wait_fires fuel quiet w1 same Ha1 Hquiet) as [id Hwait].
    { now rewrite Hdata, Horig, Hheap. }
    exists id, same. fold w2 in Hwait. rewrite Hwait.
    cbn [cw_card cw_fired cw_timers hasChanges _checkChangesTimer].
    rewrite Hfired. auto.
Qed.

Lemma checkChanges_debounce_witness :
  let w1 := run_events 5 (burst [100; 499; 20]%N) sample_cworld in
  let w2 := wait 5 500 w1 in
  (forall w0, hasChanges (cw_card (snd (checkChanges w0))) = true) /\
  hasChanges (cw_card w1) = true /\
  cw_fired w1 = [] /\
  (exists id, _checkChangesTimer (cw_card w1) = Some id /\
              cw_timers w1 = [Timer id (cw_now w1 + 500)]) /\
  (exists id same,
     deepEqual 5 (VRef 0) (VRef 2) (cw_heap sample_cworld)
     = (Ret same, cw_heap sample_cworld) /\
     cw_fired w2 = [] ++ [Timer id (cw_now w1 + 500)] /\
     hasChanges (cw_card w2) = negb same /\
     _checkChangesTimer (cw_card w2) = None /\
     cw_timers w2 = []).
Proof.
  apply (checkChanges_debounce 5 3 sample_cworld [100; 499; 20]%N 500).
  - reflexivity.
  - repeat constructor.
  - lia.
  - lia.
  - eexists. reflexivity.
  - eexists. reflexivity.
Defined.

(* ================================================================== *)
(** * deepClone only allocates *)
(* ================================================================== *)

Lemma extends_heap_ret {A} (h : heap) (a : A) (P : A -> Prop) :
  P a -> extends_heap h (ret a) P.
Proof.
  intros Ha ext r s' H. injection H as <- <-. split; [eauto|].
  intros a' Hr. now injection Hr as <-.
Qed.

Lemma extends_heap_fail {A} (h : heap) (o : outcome A) (P : A -> Prop) :
  (forall a, o <> Ret a) -> extends_heap h (fail o) P.
Proof.
  intros Ho ext r s' H. injection H as <- <-. split; [eauto|].
  intros a Hr. now destruct (Ho a).
Qed.

Lemma extends_heap_bind {A B} (h : heap) (m : M heap A) (f : A -> M heap B)
  (P : A -> Prop) (Q : B -> Prop) :
  extends_heap h m P -> (forall a, P a -> extends_heap h (f a) Q) ->
  extends_heap h (bind m f) Q.
Proof.
  intros Hm Hf ext r s' H. unfold bind in H.
  destruct (m (h ++ ext)) as [[a|e| |] s1] eqn:Hrun;
    destruct (Hm _ _ _ Hrun) as [[ext1 ->] Hp].
  - exact (Hf a (Hp a eq_refl) _ _ _ H).
  - injection H as <- <-. split; [eauto|discriminate].
  - injection H as <- <-. split; [eauto|discriminate].
  - injection H as <- <-. split; [eauto|discriminate].
Qed.

Lemma extends_heap_weaken {A} (h : heap) (m : M heap A) (P Q : A -> Prop) :
  extends_heap h m P -> (forall a, P a -> Q a) -> extends_heap h m Q.
Proof.
  intros Hm Hpq ext r s' H. destruct (Hm _ _ _ H) as [He Hp]. split; auto.
Qed.

Lemma extends_heap_get_prop (h : heap) base key :
  extends_heap h (get_prop base key) (fun _ => True).
Proof.
  intros ext r s' H. apply get_prop_heap in H as ->. split; eauto.
Qed.

Lemma extends_heap_deref (h : heap) v :
  extends_heap h (deref v) (fun _ => True).
Proof.
  intros ext r s' H. unfold deref in H. split; [|auto].
  destruct v; try (injection H as <- <-; eauto).
  destruct ((h ++ ext) !! l); injection H as <- <-; eauto.
Qed.

Lemma extends_heap_has_prop (h : heap) v key :
  extends_heap h (has_prop v key) (fun _ => True).
Proof.
  unfold has_prop. eapply extends_heap_bind; [apply extends_heap_deref|].
  intros o _. now apply extends_heap_ret.
Qed.

Lemma extends_heap_alloc (h : heap) o :
  extends_heap h (alloc o) (fun v => exists l, v = VRef l /\ length h <= l).
Proof.
  intros ext r s' H. unfold alloc in H. injection H as <- <-. split.
  - exists (ext ++ [o]). now rewrite app_assoc.
  - intros a Ha. injection Ha as <-. eexists. split; [reflexivity|].
    rewrite length_app. lia.
Qed.

Lemma extends_heap_set_prop (h : heap) l key v :
  length h <= l -> extends_heap h (set_prop (VRef l) key v) (fun _ => True).
Proof.
  intros Hl ext r s' H. unfold set_prop in H. split; [|auto].
  destruct ((h ++ ext) !! l) as [o|]; [|injection H as <- <-; eauto].
  destruct (proto_write o key && strict_eq v (VRef l));
    [injection H as <- <-; eauto|].
  destruct (obj_set o key v) as [o'| | |]; injection H as <- <-; eauto.
  exists (<[l - length h := o']> ext). now rewrite insert_app_r_alt.
Qed.

Lemma extends_heap_for_each {A} (h : heap) (l : list A) (body : A -> M heap unit) :
  (forall x, extends_heap h (body x) (fun _ => True)) ->
  extends_heap h (for_each l body) (fun _ => True).
Proof.
  intros Hbody. induction l as [|x r IH]; cbn [for_each].
  - now apply extends_heap_ret.
  - eapply extends_heap_bind; [apply Hbody|]. intros _ _. exact IH.
Qed.

Lemma extends_heap_try_structuredClone (h : heap) sc obj :
  extends_heap h (try_structuredClone sc obj) (fun _ => True).
Proof.
  intros ext r s' H. unfold try_structuredClone in H. split; [|auto].
  destruct sc as [f|]; [|injection H as <- <-; eauto].
  destruct (f (h ++ ext) obj) as [[copy cells]|]; injection H as <- <-; [|eauto].
  exists (ext ++ cells). now rewrite app_assoc.
Qed.

Lemma deepClone_extends sc fuel : forall (h : heap) v,
  extends_heap h (deepClone sc fuel v) (fun _ => True).
Proof.
  induction fuel as [|fuel IH]; intros h v; cbn [deepClone].
  - now apply extends_heap_fail.
  - eapply extends_heap_bind; [apply extends_heap_try_structuredClone|].
    intros [copy|] _; [now apply extends_heap_ret|].
    destruct (strict_eq v VNull || negb (typeof_object v));
      [now apply extends_heap_ret|].
    eapply extends_heap_bind; [apply extends_heap_deref|]. intros o _.
    destruct (kind o) as [|len].
    + eapply extends_heap_bind; [apply extends_heap_alloc|].
      intros cloned (l & -> & Hl).
      eapply extends_heap_bind; [|intros; now apply extends_heap_ret].
      apply extends_heap_for_each. intros key.
      eapply extends_heap_bind; [apply extends_heap_get_prop|]. intros item _.
      eapply extends_heap_bind; [apply IH|]. intros copy _.
      now apply extends_heap_set_prop.
    + unfold array_map.
      eapply extends_heap_bind; [apply extends_heap_alloc|].
      intros result (l & -> & Hl).
      eapply extends_heap_bind; [|intros; now apply extends_heap_ret].
      apply extends_heap_for_each. intros key.
      eapply extends_heap_bind; [apply extends_heap_has_prop|]. intros present _.
      destruct present; [|now apply extends_heap_ret].
      eapply extends_heap_bind; [apply extends_heap_get_prop|]. intros item _.
      eapply extends_heap_bind; [apply IH|]. intros copy _.
      now apply extends_heap_set_prop.
Qed.

(** X1. Whatever value it is given, with or without [structuredClone], and
    however it ends, [deepClone] changes no cell that exists before the
    call: the heap after it is the heap before it followed by new cells. *)
Theorem deepClone_only_allocates
  (sc : option native_clone) (fuel : nat) (v : val) (h : heap) :
  exists cells, snd (deepClone sc fuel v h) = h ++ cells.
Proof.
  destruct (deepClone sc fuel v h) as [r h'] eqn:Hrun.
  destruct (deepClone_extends sc fuel h v [] r h') as [[ext ->] _].
  - now rewrite app_nil_r.
  - eauto.
Qed.

(* ================================================================== *)
(** * deepEqual only reads *)
(* ================================================================== *)

Lemma keys_equal_heap (equal : val -> val -> M heap bool) keysB (h : heap) a b :
  (forall x y, snd (equal x y h) = h) ->
  forall keysA, snd (keys_equal equal keysB a b keysA h) = h.
Proof.
  intros Heq. induction keysA as [|key rest IH]; cbn [keys_equal]; [reflexivity|].
  destruct (negb (existsb (String.eqb key) keysB)); [reflexivity|].
  unfold bind.
  destruct (get_prop a key h) as [[x| | |] h1] eqn:Hx;
    apply get_prop_heap in Hx as ->; [|reflexivity..].
  destruct (get_prop b key h) as [[y| | |] h1] eqn:Hy;
    apply get_prop_heap in Hy as ->; [|reflexivity..].
  specialize (Heq x y). destruct (equal x y h) as [[same| | |] h1];
    cbn [snd] in Heq; subst h1; [|reflexivity..].
  destruct (negb same); [reflexivity|exact IH].
Qed.

(** [deepEqual] leaves the heap as it is. *)
Lemma deepEqual_heap fuel : forall a b (h : heap), snd (deepEqual fuel a b h) = h.
Proof.
  induction fuel as [|fuel IH]; intros a b h; cbn [deepEqual]; [reflexivity|].
  destruct (strict_eq a b); [reflexivity|].
  destruct (strict_eq a VNull || strict_eq b VNull); [reflexivity|].
  destruct (negb (typeof_object a) || negb (typeof_object b)); [reflexivity|].
  unfold bind at 1, deref.
  destruct a as [| | | | |la]; try reflexivity.
  destruct (h !! la) as [oa|]; [|reflexivity].
  unfold bind at 1.
  destruct b as [| | | | |lb]; try reflexivity.
  destruct (h !! lb) as [ob|]; [|reflexivity].
  destruct (negb (Bool.eqb (is_array oa) (is_array ob))); [reflexivity|].
  cbn zeta.
  destruct (negb (length (own_keys oa) =? length (own_keys ob))%nat); [reflexivity|].
  apply keys_equal_heap. intros x y. apply IH.
Qed.

(** The loop of [deepEqual] reads properties that both objects own: it
    returns a boolean when the comparisons it makes do. *)
Lemma keys_equal_closed (equal : val -> val -> M heap bool)
  (h : heap) la lb oa ob :
  h !! la = Some oa -> h !! lb = Some ob ->
  forall keysA,
    (forall key, In key keysA -> In key (own_keys oa)) ->
    (forall key, In key keysA ->
       (exists same, equal (obj_get oa key) (obj_get ob key) h = (Ret same, h)) \/
       equal (obj_get oa key) (obj_get ob key) h = (OutOfFuel, h)) ->
    (exists same,
       keys_equal equal (own_keys ob) (VRef la) (VRef lb) keysA h = (Ret same, h)) \/
    keys_equal equal (own_keys ob) (VRef la) (VRef lb) keysA h = (OutOfFuel, h).
Proof.
  intros Ha Hb. induction keysA as [|key rest IH]; intros Hown Hsup; cbn [keys_equal].
  - left. eexists. reflexivity.
  - destruct (existsb (String.eqb key) (own_keys ob)) eqn:Hin; cbn [negb];
      [|left; eexists; reflexivity].
    apply existsb_eqb_In in Hin.
    rewrite (get_prop_pair h la lb oa ob key Ha Hb);
      [|apply has_own_In, Hown; now left|now apply has_own_In].
    destruct (Hsup key (or_introl eq_refl)) as [[same Hr]|Hr].
    + rewrite (bind_ret_intro _ _ _ _ _ Hr).
      destruct (negb same); [left; eexists; reflexivity|].
      apply IH; intros k Hk; [apply Hown|apply Hsup]; now right.
    + right. unfold bind. now rewrite Hr.
Qed.

(** In a heap without dangling references [deepEqual] returns a boolean,
    unless the recursion goes deeper than its bound. *)
Lemma deepEqual_closed fuel : forall a b (h : heap),
  heap_closed h = true -> val_closed h a = true -> val_closed h b = true ->
  (exists same, deepEqual fuel a b h = (Ret same, h)) \/
  deepEqual fuel a b h = (OutOfFuel, h).
Proof.
  induction fuel as [|fuel IH]; intros a b h Hh Hca Hcb; [now right|].
  destruct (deepEqual (S fuel) a b h) as [r h'] eqn:Hr. cbn [deepEqual] in Hr.
  destruct (strict_eq a b); [injection Hr as <- <-; left; eauto|].
  destruct (strict_eq a VNull || strict_eq b VNull) eqn:Hnull;
    [injection Hr as <- <-; left; eauto|].
  destruct (negb (typeof_object a) || negb (typeof_object b)) eqn:Hty;
    [injection Hr as <- <-; left; eauto|].
  destruct a as [| | | | |la]; try discriminate;
    destruct b as [| | | | |lb]; try discriminate.
  cbn [val_closed] in Hca, Hcb. apply Nat.ltb_lt in Hca, Hcb.
  destruct (lookup_lt_is_Some_2 h la Hca) as [oa Ha].
  destruct (lookup_lt_is_Some_2 h lb Hcb) as [ob Hb].
  unfold bind at 1, deref in Hr. rewrite Ha in Hr.
  unfold bind at 1 in Hr. rewrite Hb in Hr.
  destruct (negb (Bool.eqb (is_array oa) (is_array ob)));
    [injection Hr as <- <-; left; eauto|].
  cbn zeta in Hr.
  destruct (negb (length (own_keys oa) =? length (own_keys ob))%nat);
    [injection Hr as <- <-; left; eauto|].
  destruct (keys_equal_closed (deepEqual fuel) h la lb oa ob Ha Hb (own_keys oa))
    as [[same Hk]|Hk]; [auto| |rewrite Hk in Hr; injection Hr as <- <-; eauto
                       |rewrite Hk in Hr; injection Hr as <- <-; now right].
  intros key _. apply IH; [exact Hh| |].
  - apply obj_get_closed. eapply heap_closed_lookup; eauto.
  - apply obj_get_closed. eapply heap_closed_lookup; eauto.
Qed.

(** X2. Whatever values it is given and however deep it may look,
    [deepEqual] leaves the heap as it is. In a heap without dangling
    references it reads own properties only, and returns a boolean unless
    the recursion exceeds the bound given to it; beyond any bound, as on a
    cyclic value, the program ends with a [RangeError]. *)
Theorem deepEqual_reads_only (fuel : nat) (a b : val) (h : heap) :
  snd (deepEqual fuel a b h) = h /\
  (heap_closed h = true -> val_closed h a = true -> val_closed h b = true ->
   (exists same, deepEqual fuel a b h = (Ret same, h)) \/
   deepEqual fuel a b h = (OutOfFuel, h)).
Proof.
  split; [apply deepEqual_heap|apply deepEqual_closed].
Qed.

Lemma deepEqual_reads_only_witness :
  (exists same, deepEqual 4 (VRef 0) (VRef 1) nested_heap = (Ret same, nested_heap)) \/
  deepEqual 4 (VRef 0) (VRef 1) nested_heap = (OutOfFuel, nested_heap).
Proof.
  apply (deepEqual_reads_only 4 (VRef 0) (VRef 1) nested_heap); reflexivity.
Defined.

(* ================================================================== *)
(** * What deepEqual decides *)
(* ================================================================== *)

Lemma Forall2_In_combine {A B} (P : A -> B -> Prop) ks ts k t :
  Forall2 P ks ts -> In (k, t) (combine ks ts) -> P k t.
Proof.
  induction 1 as [|k' t' ks ts Hkt _ IH]; simpl; [contradiction|].
  intros [H|H]; [now injection H as <- <-|auto].
Qed.

Lemma Forall2_In_l_combine {A B} (P : A -> B -> Prop) ks ts k :
  Forall2 P ks ts -> In k ks -> exists t, In (k, t) (combine ks ts) /\ P k t.
Proof.
  induction 1 as [|k' t' ks ts Hkt _ IH]; simpl; [contradiction|].
  intros [<-|H].
  - exists t'. auto.
  - destruct (IH H) as (t & Hin & Hp). exists t. auto.
Qed.

(** Two lists read through the same keys are related element by element
    when their elements are related key by key. *)
Lemma Forall2_pointwise {K A} (fa fb : K -> option A) (E : A -> A -> Prop) ks :
  forall xs ys,
  Forall2 (fun k x => fa k = Some x) ks xs ->
  Forall2 (fun k y => fb k = Some y) ks ys ->
  (forall k, In k ks -> forall x y, fa k = Some x -> fb k = Some y -> E x y) <->
  Forall2 E xs ys.
Proof.
  induction ks as [|k ks IH]; intros xs ys Hx Hy;
    inversion Hx as [|? x ? xs' Hkx Hx']; inversion Hy as [|? y ? ys' Hky Hy']; subst.
  - split; [constructor|contradiction].
  - split.
    + intros H. constructor.
      * apply (H k); [now left|assumption|assumption].
      * apply (IH _ _ Hx' Hy'). intros k' Hk'. apply H. now right.
    + intros H. inversion H as [|? ? ? ? He Hrest]; subst.
      intros k' [<-|Hk'] x' y' Hx'' Hy''.
      * congruence.
      * eapply (proj2 (IH _ _ Hx' Hy')); eauto.
Qed.

Lemma json_equiv_leaf x y : json_equiv x y -> is_leaf x = is_leaf y.
Proof. now destruct 1. Qed.

Lemma deepEqual_prims fuel a b (h : heap) :
  is_ref a = false -> is_ref b = false ->
  deepEqual (S fuel) a b h = (Ret (strict_eq a b), h).
Proof.
  intros Ha Hb. cbn [deepEqual].
  destruct a; try discriminate; destruct b; try discriminate; cbn;
    repeat match goal with
           | |- context [if ?c then _ else _] => destruct c
           end; reflexivity.
Qed.

Lemma deepEqual_ref_prim fuel l b (h : heap) :
  is_ref b = false ->
  deepEqual (S fuel) (VRef l) b h = (Ret false, h) /\
  deepEqual (S fuel) b (VRef l) h = (Ret false, h).
Proof. intros Hb. destruct b; try discriminate; split; reflexivity. Qed.

(** On primitives that stand for documents, [===] holds exactly between
    equal leaves, a zero being equal to the zero of the other sign. *)
Lemma strict_eq_prim_equiv a b n (h : heap) ta tb :
  is_ref a = false -> is_ref b = false ->
  reify n h a = Some ta -> reify n h b = Some tb ->
  strict_eq a b = true <-> json_equiv ta tb.
Proof.
  unfold reify. intros Ha Hb.
  rewrite (reify_from_prim_eq _ _ _ _ Ha), (reify_from_prim_eq _ _ _ _ Hb).
  destruct a, b; try discriminate;
    repeat match goal with
           | |- context [num_is_finite ?x] => destruct (num_is_finite x) eqn:?
           end;
    try discriminate; intros H1 H2; simplify_eq; cbn;
    (split; [intros H|intros H; inversion H; subst]); try discriminate;
    try (constructor; assumption); try assumption; try reflexivity.
  - apply Bool.eqb_prop in H. subst. constructor.
  - apply Bool.eqb_reflx.
  - apply String.eqb_eq in H. subst. constructor.
  - apply String.eqb_refl.
Qed.

(** A document is related to itself: its numbers are finite. *)
Lemma reify_equiv_refl n : forall b (h : heap) v t,
  reify_from b n h v = Some t -> json_equiv t t.
Proof.
  induction n as [|n IH]; intros b h v t Hr.
  - destruct v; cbn in Hr; simplify_eq; try constructor.
    destruct (num_is_finite x) eqn:Hf; simplify_eq. constructor.
    now apply SFeqb_refl_finite.
  - destruct (is_ref v) eqn:Hv.
    + destruct v as [| | | | |l]; try discriminate.
      apply reify_from_ref_inv in Hr
        as (_ & o & ts & _ & Hts & _ & _ & Hk).
      assert (Hall : Forall (fun t' => json_equiv t' t') ts).
      { clear Hk. induction Hts as [|p t' ps ts Hp _ IHts]; constructor; eauto. }
      destruct Hk as [(len & _ & _ & _ & ->)|[_ ->]].
      * constructor. clear Hts. induction Hall; constructor; auto.
      * constructor; [reflexivity|]. intros k x Hin. exists x. split; [exact Hin|].
        rewrite List.Forall_forall in Hall. apply Hall.
        eapply in_combine_r; eauto.
    + rewrite (reify_from_prim_eq _ _ _ _ Hv) in Hr.
      destruct v; try discriminate; simplify_eq; try constructor.
      destruct (num_is_finite x) eqn:Hf; simplify_eq. constructor.
      now apply SFeqb_refl_finite.
Qed.

(** The loop of [deepEqual] returns [true] when every key of [keysA] is
    among [keysB] and holds equal values on both sides. *)
Lemma keys_equal_decides (equal : val -> val -> M heap bool) keysB
  (h : heap) la lb oa ob (R : string -> Prop) :
  h !! la = Some oa -> h !! lb = Some ob ->
  (forall k, In k keysB -> has_own ob k = true) ->
  forall ks,
    (forall k, In k ks -> has_own oa k = true) ->
    (forall k, In k ks -> In k keysB ->
       exists same, equal (obj_get oa k) (obj_get ob k) h = (Ret same, h) /\
                    (same = true <-> R k)) ->
    exists s, keys_equal equal keysB (VRef la) (VRef lb) ks h = (Ret s, h) /\
              (s = true <-> forall k, In k ks -> In k keysB /\ R k).
Proof.
  intros Ha Hb HownB. induction ks as [|key rest IH]; intros HownA Heq;
    cbn [keys_equal].
  - exists true. split; [reflexivity|]. split; [contradiction|reflexivity].
  - destruct (existsb (String.eqb key) keysB) eqn:Hin; cbn [negb].
    + apply existsb_eqb_In in Hin.
      destruct (Heq key (or_introl eq_refl) Hin) as (same & Hrun & Hsame).
      rewrite (get_prop_pair h la lb oa ob key Ha Hb
                 (HownA key (or_introl eq_refl)) (HownB key Hin)).
      rewrite (bind_ret_intro _ _ _ _ _ Hrun).
      destruct same; cbn [negb].
      * destruct IH as (s & Hs & Hiff);
          [intros k Hk; apply HownA; now right|intros k Hk; apply Heq; now right|].
        exists s. split; [exact Hs|]. rewrite Hiff. split.
        -- intros H k [<-|Hk]; [split; [exact Hin|now apply Hsame]|auto].
        -- intros H k Hk. apply H. now right.
      * exists false. split; [reflexivity|]. split; [discriminate|].
        intros H. destruct (H key (or_introl eq_refl)) as [_ Hr].
        apply Hsame in Hr. discriminate.
    + exists false. split; [reflexivity|]. split; [discriminate|].
      intros H. destruct (H key (or_introl eq_refl)) as [Hk _].
      apply existsb_eqb_In in Hk. congruence.
Qed.

Lemma length_index_keys len : length (index_keys len) = N.to_nat len.
Proof. unfold index_keys. now rewrite length_map, length_seq. Qed.

Lemma deepEqual_decides fuel : forall n (h : heap) a b ta tb,
  n < fuel -> reify n h a = Some ta -> reify n h b = Some tb ->
  exists same, deepEqual fuel a b h = (Ret same, h) /\
               (same = true <-> json_equiv ta tb).
Proof.
  induction fuel as [|fuel IH]; intros n h a b ta tb Hn Ha Hb; [lia|].
  destruct (is_ref a) eqn:Hra; destruct (is_ref b) eqn:Hrb.
  - destruct a as [| | | | |la]; try discriminate.
    destruct b as [| | | | |lb]; try discriminate.
    unfold reify in Ha, Hb. destruct n as [|n]; [discriminate|].
    pose proof Ha as Ha0. pose proof Hb as Hb0.
    apply reify_from_ref_fields in Ha
      as (oa & tsa & Hla & _ & _ & Hfa & Hnda & _ & Hka).
    apply reify_from_ref_fields in Hb
      as (ob & tsb & Hlb & _ & _ & Hfb & Hndb & _ & Hkb).
    cbn [deepEqual strict_eq].
    destruct (Nat.eqb_spec la lb) as [->|Hne].
    { exists true. split; [reflexivity|]. split; [intros _|reflexivity].
      rewrite Ha0 in Hb0. injection Hb0 as <-. eapply reify_equiv_refl; eauto. }
    cbn [orb typeof_object negb]. unfold bind at 1, deref. rewrite Hla.
    unfold bind at 1. rewrite Hlb.
    assert (Hlena : length (own_keys oa) = length tsa)
      by (eapply Forall2_length; exact Hfa).
    assert (Hlenb : length (own_keys ob) = length tsb)
      by (eapply Forall2_length; exact Hfb).
    set (R := fun k => forall x y,
                reify n h (obj_get oa k) = Some x ->
                reify n h (obj_get ob k) = Some y -> json_equiv x y).
    assert (Hsub : forall k, In k (own_keys oa) -> In k (own_keys ob) ->
              exists same,
                deepEqual fuel (obj_get oa k) (obj_get ob k) h = (Ret same, h) /\
                (same = true <-> R k)).
    { intros k Hka' Hkb'.
      destruct (Forall2_In_l_combine _ _ _ _ Hfa Hka') as (x & _ & Hx).
      destruct (Forall2_In_l_combine _ _ _ _ Hfb Hkb') as (y & _ & Hy).
      destruct (IH n h _ _ x y ltac:(lia) Hx Hy) as (same & Hrun & Hiff).
      exists same. split; [exact Hrun|]. rewrite Hiff. unfold R, reify. split.
      - intros He x' y' Hx' Hy'. congruence.
      - intros He. now apply He. }
    destruct (keys_equal_decides (deepEqual fuel) (own_keys ob) h la lb oa ob R
                Hla Hlb (has_own_In ob) (own_keys oa) (has_own_In oa) Hsub)
      as (s & Hrun & Hs).
    unfold is_array.
    destruct Hka as [(lena & Hkinda & _ & Hkeysa & ->)|[Hkinda ->]];
      destruct Hkb as [(lenb & Hkindb & _ & Hkeysb & ->)|[Hkindb ->]];
      rewrite Hkinda, Hkindb; cbn [Bool.eqb negb].
    + destruct (Nat.eqb_spec (length (own_keys oa)) (length (own_keys ob)))
        as [Hlen|Hlen]; cbn [negb].
      * exists s. split; [exact Hrun|]. rewrite Hs.
        assert (Hsame : own_keys oa = own_keys ob).
        { rewrite Hkeysa, Hkeysb in *. rewrite !length_index_keys in Hlen.
          f_equal. lia. }
        rewrite <- Hsame in Hfb. split.
        -- intros H. constructor.
           apply (Forall2_pointwise (fun k => reify n h (obj_get oa k))
                    (fun k => reify n h (obj_get ob k)) json_equiv _ _ _ Hfa Hfb).
           intros k Hk. now apply H.
        -- intros H. inversion H as [| | | |? ? Hall|]; subst.
           intros k Hk. split; [now rewrite <- Hsame|].
           exact (proj2 (Forall2_pointwise (fun k => reify n h (obj_get oa k))
                    (fun k => reify n h (obj_get ob k)) json_equiv _ _ _ Hfa Hfb)
                    Hall k Hk).
      * exists false. split; [reflexivity|]. split; [discriminate|].
        intros H. inversion H as [| | | |? ? Hall|]; subst.
        apply Forall2_length in Hall. congruence.
    + exists false. split; [reflexivity|]. split; [discriminate|].
      intros H. inversion H.
    + exists false. split; [reflexivity|]. split; [discriminate|].
      intros H. inversion H.
    + destruct (Nat.eqb_spec (length (own_keys oa)) (length (own_keys ob)))
        as [Hlen|Hlen]; cbn [negb].
      * exists s. split; [exact Hrun|]. rewrite Hs. split.
        -- intros H. constructor; [rewrite !length_combine; lia|].
           intros k x Hin.
           pose proof (Forall2_In_combine _ _ _ _ _ Hfa Hin) as Hx.
           destruct (H k (in_combine_l _ _ _ _ Hin)) as [Hkb' Hr].
           destruct (Forall2_In_l_combine _ _ _ _ Hfb Hkb') as (y & Hy & Hry).
           exists y. split; [exact Hy|]. now apply Hr.
        -- intros H. inversion H as [| | | | |? ? _ Hall]; subst.
           intros k Hk.
           destruct (Forall2_In_l_combine _ _ _ _ Hfa Hk) as (x & Hx & Hrx).
           destruct (Hall k x Hx) as (y & Hy & He).
           split; [eapply in_combine_l; eauto|].
           pose proof (Forall2_In_combine _ _ _ _ _ Hfb Hy) as Hry.
           intros x' y' Hx' Hy'. unfold reify in Hx', Hy'. cbn beta in Hrx, Hry.
           congruence.
      * exists false. split; [reflexivity|]. split; [discriminate|].
        intros H. inversion H as [| | | | |? ? Hl _]; subst.
        rewrite !length_combine in Hl. lia.
  - destruct a as [| | | | |la]; try discriminate.
    exists false. split; [now apply deepEqual_ref_prim|].
    split; [discriminate|]. intros H. apply json_equiv_leaf in H.
    apply reify_from_ref_leaf in Ha. apply reify_from_prim_leaf in Hb; congruence.
  - destruct b as [| | | | |lb]; try discriminate.
    exists false. split; [now apply deepEqual_ref_prim|].
    split; [discriminate|]. intros H. apply json_equiv_leaf in H.
    apply reify_from_ref_leaf in Hb. apply reify_from_prim_leaf in Ha; congruence.
  - exists (strict_eq a b). split; [now apply deepEqual_prims|].
    eapply strict_eq_prim_equiv; eauto.
Qed.

(** X3. On two values that stand for JSON documents, [deepEqual] returns,
    and it returns [true] exactly when the two documents are the same up to
    the order of the fields of their objects and the sign of a zero. *)
Theorem deepEqual_json_equiv
  (fuel depth : nat) (h : heap) (a b : val) (ta tb : json) :
  depth < fuel -> reify depth h a = Some ta -> reify depth h b = Some tb ->
  exists same, deepEqual fuel a b h = (Ret same, h) /\
               (same = true <-> json_equiv ta tb).
Proof. apply deepEqual_decides. Qed.

(** [{a: 1, b: [0]}] against [{b: [-0], a: 1}]. *)
Lemma deepEqual_json_equiv_witness :
  let h := [ JsObj KObject [("a", num 1); ("b", VRef 1)];
             JsObj (KArray 1) [("0", VNum (S754_zero false))];
             JsObj KObject [("b", VRef 3); ("a", num 1)];
             JsObj (KArray 1) [("0", VNum (S754_zero true))] ] in
  exists same, deepEqual 3 (VRef 0) (VRef 2) h = (Ret same, h) /\
    (same = true <->
     json_equiv (JObj [("a", JNum (num_of_N 1)); ("b", JArr [JNum (S754_zero false)])])
                (JObj [("b", JArr [JNum (S754_zero true)]); ("a", JNum (num_of_N 1))])).
Proof.
  intros h. apply (deepEqual_json_equiv 3 2 h (VRef 0) (VRef 2)).
  - lia.
  - reflexivity.
  - reflexivity.
Defined.

(* ================================================================== *)
(** * deepEqual is an equivalence on documents *)
(* ================================================================== *)

Lemma SFeqb_sym x y : SFeqb x y = SFeqb y x.
Proof.
  unfold SFeqb, SFcompare.
  destruct x as [sx|sx| |sx mx ex], y as [sy|sy| |sy my ey];
    try reflexivity; try (destruct sx, sy; reflexivity);
    try (destruct sx; reflexivity); try (destruct sy; reflexivity).
  destruct sx, sy; try reflexivity;
    rewrite (Z.compare_antisym ex ey); destruct (ex ?= ey)%Z; cbn; try reflexivity;
    change (Pos.compare_cont Eq my mx) with (Pos.compare my mx);
    change (Pos.compare_cont Eq mx my) with (Pos.compare mx my);
    rewrite (Pos.compare_antisym mx my);
    destruct (Pos.compare mx my); reflexivity.
Qed.

Lemma SFeqb_finite_eq sx mx ex sy my ey :
  SFeqb (S754_finite sx mx ex) (S754_finite sy my ey) = true ->
  sx = sy /\ mx = my /\ ex = ey.
Proof.
  unfold SFeqb, SFcompare.
  destruct sx, sy; try discriminate;
    destruct (Z.compare_spec ex ey); try discriminate;
    destruct (Pos.compare_cont Eq mx my) eqn:Hm; try discriminate;
    apply Pos.compare_eq in Hm; auto.
Qed.

Lemma SFeqb_trans x y z : SFeqb x y = true -> SFeqb y z = true -> SFeqb x z = true.
Proof.
  destruct x as [sx|sx| |sx mx ex], y as [sy|sy| |sy my ey],
           z as [sz|sz| |sz mz ez];
    try reflexivity; try discriminate;
    try (destruct sx, sy, sz; try reflexivity; discriminate);
    try (destruct sx, sy; discriminate); try (destruct sy, sz; discriminate);
    try (destruct sx; discriminate); try (destruct sy; discriminate);
    try (destruct sz; discriminate).
  intros H1 H2. apply SFeqb_finite_eq in H1 as (-> & -> & ->). exact H2.
Qed.

Lemma Forall2_flip_with {A} (E E' : A -> A -> Prop) (P Q : A -> Prop) xs ys :
  Forall2 E xs ys -> Forall P xs -> Forall Q ys ->
  (forall x y, P x -> Q y -> E x y -> E' y x) -> Forall2 E' ys xs.
Proof.
  intros H. induction H as [|x y xs ys He _ IH]; intros Hp Hq Himp; [constructor|].
  inversion Hp; inversion Hq; subst. constructor; auto.
Qed.

Lemma Forall2_trans_with {A} (E : A -> A -> Prop) (P Q R : A -> Prop) xs :
  forall ys zs,
  Forall2 E xs ys -> Forall2 E ys zs -> Forall P xs -> Forall Q ys -> Forall R zs ->
  (forall x y z, P x -> Q y -> R z -> E x y -> E y z -> E x z) -> Forall2 E xs zs.
Proof.
  induction xs as [|x xs IH]; intros ys zs H1 H2 Hp Hq Hr Himp;
    inversion H1; subst; inversion H2; subst; [constructor|].
  inversion Hp; inversion Hq; inversion Hr; subst. constructor; eauto.
Qed.

Lemma reify_values_Forall b n (h : heap) (ps : list (string * val)) ts :
  Forall2 (fun p t => reify_from b n h (snd p) = Some t) ps ts ->
  Forall (fun t => exists v, reify_from b n h v = Some t) ts.
Proof. induction 1; constructor; eauto. Qed.

Lemma reify_equiv_sym n : forall ba (ha : heap) a bb (hb : heap) b ta tb,
  reify_from ba n ha a = Some ta -> reify_from bb n hb b = Some tb ->
  json_equiv ta tb -> json_equiv tb ta.
Proof.
  induction n as [|n IH]; intros ba ha a bb hb b ta tb Ha Hb He;
    (destruct (is_ref a) eqn:Hra; destruct (is_ref b) eqn:Hrb;
     [ destruct a as [| | | | |la]; try discriminate;
       destruct b as [| | | | |lb]; try discriminate
     | destruct a as [| | | | |la]; try discriminate;
       apply json_equiv_leaf in He; apply reify_from_ref_leaf in Ha;
       apply reify_from_prim_leaf in Hb; congruence
     | destruct b as [| | | | |lb]; try discriminate;
       apply json_equiv_leaf in He; apply reify_from_ref_leaf in Hb;
       apply reify_from_prim_leaf in Ha; congruence
     | rewrite (reify_from_prim_eq _ _ _ _ Hra) in Ha;
       rewrite (reify_from_prim_eq _ _ _ _ Hrb) in Hb;
       destruct a, b; try discriminate;
       repeat match goal with
              | H : context [num_is_finite ?x] |- _ => destruct (num_is_finite x)
              end; simplify_eq; inversion He; subst; constructor;
       now rewrite SFeqb_sym ]).
  apply reify_from_ref_fields in Ha
    as (oa & tsa & _ & _ & Hpa & Hfa & Hnda & _ & Hka).
    apply reify_from_ref_fields in Hb
      as (ob & tsb & _ & _ & Hpb & Hfb & Hndb & _ & Hkb).
    assert (Hlena : length (own_keys oa) = length tsa)
      by (eapply Forall2_length; exact Hfa).
    assert (Hlenb : length (own_keys ob) = length tsb)
      by (eapply Forall2_length; exact Hfb).
    destruct Hka as [(lena & _ & _ & _ & ->)|[_ ->]];
      destruct Hkb as [(lenb & _ & _ & _ & ->)|[_ ->]];
      inversion He as [| | | |? ? Hall|? ? Hlen Hall]; subst.
    + constructor.
      eapply Forall2_flip_with;
        [exact Hall|eapply reify_values_Forall; eauto
        |eapply reify_values_Forall; eauto|].
      intros x y [vx Hx] [vy Hy] Hxy. exact (IH _ _ _ _ _ _ _ _ Hx Hy Hxy).
    + rewrite !length_combine in Hlen.
      assert (Hincl : incl (own_keys oa) (own_keys ob)).
      { intros k Hk.
        destruct (Forall2_In_l_combine _ _ _ _ Hfa Hk) as (x & Hx & _).
        destruct (Hall k x Hx) as (y & Hy & _). eapply in_combine_l; eauto. }
      assert (Hincl' : incl (own_keys ob) (own_keys oa))
        by (apply NoDup_length_incl; [exact Hnda|lia|exact Hincl]).
      constructor; [rewrite !length_combine; lia|].
      intros k y Hy.
      pose proof (Forall2_In_combine _ _ _ _ _ Hfb Hy) as Hry.
      destruct (Forall2_In_l_combine _ _ _ _ Hfa
                  (Hincl' k (in_combine_l _ _ _ _ Hy))) as (x & Hx & Hrx).
      destruct (Hall k x Hx) as (y' & Hy' & He').
      pose proof (Forall2_In_combine _ _ _ _ _ Hfb Hy') as Hry'.
      cbn beta in *. assert (y' = y) as -> by congruence.
      exists x. split; [exact Hx|]. exact (IH _ _ _ _ _ _ _ _ Hrx Hry He').
Qed.

Lemma reify_equiv_trans n :
  forall ba (ha : heap) a bb (hb : heap) b bc (hc : heap) c ta tb tc,
  reify_from ba n ha a = Some ta -> reify_from bb n hb b = Some tb ->
  reify_from bc n hc c = Some tc ->
  json_equiv ta tb -> json_equiv tb tc -> json_equiv ta tc.
Proof.
  induction n as [|n IH];
    intros ba ha a bb hb b bc hc c ta tb tc Ha Hb Hc H1 H2.
  - destruct a; try discriminate; destruct b; try discriminate;
      destruct c; try discriminate; cbn in Ha, Hb, Hc;
      repeat match goal with
             | H : context [num_is_finite ?x] |- _ => destruct (num_is_finite x)
             end; simplify_eq; inversion H1; subst; inversion H2; subst;
      constructor; eapply SFeqb_trans; eauto.
  - destruct (is_leaf tb) eqn:Hleaf.
    + pose proof (json_equiv_leaf _ _ H1) as L1.
      pose proof (json_equiv_leaf _ _ H2) as L2.
      destruct ta; try (rewrite Hleaf in L1; discriminate);
        destruct tb; try discriminate;
        destruct tc; try (rewrite Hleaf in L2; discriminate);
        inversion H1; subst; inversion H2; subst; constructor;
        eapply SFeqb_trans; eauto.
    + assert (Href : forall bx (hx : heap) x tx, reify_from bx (S n) hx x = Some tx ->
                is_leaf tx = false -> exists l, x = VRef l).
      { intros bx hx x tx Hx Hl. destruct (is_ref x) eqn:Hr.
        - destruct x; try discriminate. eauto.
        - apply reify_from_prim_leaf in Hx; congruence. }
      pose proof (json_equiv_leaf _ _ H1) as L1.
      pose proof (json_equiv_leaf _ _ H2) as L2.
      destruct (Href _ _ _ _ Ha ltac:(congruence)) as [la ->].
      destruct (Href _ _ _ _ Hb Hleaf) as [lb ->].
      destruct (Href _ _ _ _ Hc ltac:(congruence)) as [lc ->].
      apply reify_from_ref_fields in Ha
        as (oa & tsa & _ & _ & Hpa & Hfa & _ & _ & Hka).
      apply reify_from_ref_fields in Hb
        as (ob & tsb & _ & _ & Hpb & Hfb & _ & _ & Hkb).
      apply reify_from_ref_fields in Hc
        as (oc & tsc & _ & _ & Hpc & Hfc & _ & _ & Hkc).
      destruct Hka as [(lena & _ & _ & _ & ->)|[_ ->]];
        destruct Hkb as [(lenb & _ & _ & _ & ->)|[_ ->]];
        destruct Hkc as [(lenc & _ & _ & _ & ->)|[_ ->]];
        inversion H1 as [| | | |? ? Hall1|? ? Hlen1 Hall1]; subst;
        inversion H2 as [| | | |? ? Hall2|? ? Hlen2 Hall2]; subst.
      * constructor.
        eapply Forall2_trans_with;
          [exact Hall1|exact Hall2|eapply reify_values_Forall; eauto
          |eapply reify_values_Forall; eauto|eapply reify_values_Forall; eauto|].
        intros x y z [vx Hx] [vy Hy] [vz Hz] Hxy Hyz.
        exact (IH _ _ _ _ _ _ _ _ _ _ _ _ Hx Hy Hz Hxy Hyz).
      * constructor; [congruence|].
        intros k x Hx. destruct (Hall1 k x Hx) as (y & Hy & Hxy).
        destruct (Hall2 k y Hy) as (z & Hz & Hyz).
        exists z. split; [exact Hz|].
        pose proof (Forall2_In_combine _ _ _ _ _ Hfa Hx) as Hx'.
        pose proof (Forall2_In_combine _ _ _ _ _ Hfb Hy) as Hy'.
        pose proof (Forall2_In_combine _ _ _ _ _ Hfc Hz) as Hz'.
        exact (IH _ _ _ _ _ _ _ _ _ _ _ _ Hx' Hy' Hz' Hxy Hyz).
Qed.

(** X4. On values that stand for JSON documents, [deepEqual] is an
    equivalence: it holds of a document and itself, does not depend on
    the order of its two arguments, and holds of [a] and [c] when it holds
    of [a] and [b] and of [b] and [c]. *)
Theorem deepEqual_equivalence
  (fuel depth : nat) (h : heap) (a b c : val) (ta tb tc : json) :
  depth < fuel ->
  reify depth h a = Some ta -> reify depth h b = Some tb ->
  reify depth h c = Some tc ->
  deepEqual fuel a a h = (Ret true, h) /\
  deepEqual fuel a b h = deepEqual fuel b a h /\
  (deepEqual fuel a b h = (Ret true, h) ->
   deepEqual fuel b c h = (Ret true, h) ->
   deepEqual fuel a c h = (Ret true, h)).
Proof.
  intros Hfuel Ha Hb Hc.
  destruct (deepEqual_decides fuel depth h a b ta tb Hfuel Ha Hb) as (sab & Hab & Eab).
  destruct (deepEqual_decides fuel depth h b a tb ta Hfuel Hb Ha) as (sba & Hba & Eba).
  destruct (deepEqual_decides fuel depth h b c tb tc Hfuel Hb Hc) as (sbc & Hbc & Ebc).
  destruct (deepEqual_decides fuel depth h a c ta tc Hfuel Ha Hc) as (sac & Hac & Eac).
  split; [|split].
  - eapply deepEqual_reify; eauto.
  - rewrite Hab, Hba. f_equal. f_equal.
    destruct sab, sba; try reflexivity.
    + symmetry. apply Eba. eapply reify_equiv_sym; [exact Ha|exact Hb|]. now apply Eab.
    + apply Eab. eapply reify_equiv_sym; [exact Hb|exact Ha|]. now apply Eba.
  - rewrite Hab, Hbc, Hac. intros H1 H2. injection H1 as ->. injection H2 as ->.
    f_equal. f_equal. apply Eac.
    eapply reify_equiv_trans; [exact Ha|exact Hb|exact Hc| |].
    + now apply Eab.
    + now apply Ebc.
Qed.

Lemma deepEqual_equivalence_witness :
  deepEqual 4 (VRef 0) (VRef 0) nested_heap = (Ret true, nested_heap) /\
  deepEqual 4 (VRef 0) (VRef 1) nested_heap = deepEqual 4 (VRef 1) (VRef 0) nested_heap /\
  (deepEqual 4 (VRef 0) (VRef 1) nested_heap = (Ret true, nested_heap) ->
   deepEqual 4 (VRef 1) (VRef 2) nested_heap = (Ret true, nested_heap) ->
   deepEqual 4 (VRef 0) (VRef 2) nested_heap = (Ret true, nested_heap)).
Proof.
  eapply (deepEqual_equivalence 4 3 nested_heap (VRef 0) (VRef 1) (VRef 2));
    [lia|reflexivity|reflexivity|reflexivity].
Defined.

(* ================================================================== *)
(** * What setByPath leaves alone *)
(* ================================================================== *)

Lemma In_prop_replace k v ps : forall k' w,
  In (k', w) (prop_replace k v ps) -> In (k', w) ps \/ (k' = k /\ w = v).
Proof.
  induction ps as [|[k0 w0] r IH]; intros k' w; simpl; [contradiction|].
  destruct (String.eqb_spec k k0) as [->|Hne]; simpl.
  - intros [H|H]; [injection H as <- <-; auto|auto].
  - intros [H|H]; [auto|]. destruct (IH _ _ H); auto.
Qed.

Lemma In_prop_insert_index i k v ps : forall k' w,
  In (k', w) (prop_insert_index i k v ps) -> In (k', w) ps \/ (k' = k /\ w = v).
Proof.
  induction ps as [|[k0 w0] r IH]; intros k' w; simpl.
  - intros [H|[]]. injection H as <- <-. auto.
  - destruct (array_index k0) as [j|]; [destruct (j <? i)%N|]; simpl.
    + intros [H|H]; [auto|]. destruct (IH _ _ H); auto.
    + intros [H|H]; [injection H as <- <-; auto|auto].
    + intros [H|H]; [injection H as <- <-; auto|auto].
Qed.

Lemma In_prop_store k v ps k' w :
  In (k', w) (prop_store k v ps) -> In (k', w) ps \/ (k' = k /\ w = v).
Proof.
  unfold prop_store. destruct (prop_lookup k ps).
  - apply In_prop_replace.
  - destruct (array_index k).
    + apply In_prop_insert_index.
    + rewrite in_app_iff. intros [H|[H|[]]]; [auto|]. injection H as <- <-. auto.
Qed.

Lemma In_truncate n ps kv : In kv (truncate n ps) -> In kv ps.
Proof. unfold truncate. rewrite filter_In. tauto. Qed.

(** An assignment adds no value but the one assigned. *)
Lemma obj_set_In o key v o' k w :
  obj_set o key v = Ret o' -> In (k, w) (props o') ->
  In (k, w) (props o) \/ (k = key /\ w = v).
Proof.
  unfold obj_set. destruct (proto_write o key).
  { intros H. injection H as <-. auto. }
  destruct (length_write o key).
  { destruct (to_number v) as [x|]; [|discriminate].
    destruct (array_length x) as [n|]; [|discriminate].
    intros H. injection H as <-. cbn [props]. intros Hin. left.
    eapply In_truncate; eauto. }
  intros H. injection H as <-. apply In_prop_store.
Qed.

Lemma set_prop_frame cur key v e r e' :
  on_heap (set_prop cur key v) e = (r, e') ->
  length (env_heap e') = length (env_heap e) /\
  forall l0, cur <> VRef l0 -> env_heap e' !! l0 = env_heap e !! l0.
Proof.
  unfold on_heap, zoom, set_prop.
  destruct cur as [| | | | |l].
  1-2: intros H; injection H as <- <-; auto.
  1-3: destruct (String.eqb key "__proto__"); intros H; injection H as <- <-; auto.
  destruct (env_heap e !! l) as [o|]; [|intros H; injection H as <- <-; auto].
  destruct (proto_write o key && strict_eq v (VRef l));
    [intros H; injection H as <- <-; auto|].
  destruct (obj_set o key v) as [o'| | |]; intros H; injection H as <- <-; auto.
  cbn [env_heap]. split; [apply length_insert|].
  intros l0 Hl0. apply list_lookup_insert_ne. congruence.
Qed.

(** What a primitive holds is primitive, and nothing can be stored in it. *)
Lemma get_prop_prim cur key (h : heap) c h' :
  is_ref cur = false -> get_prop cur key h = (Ret c, h') ->
  is_ref c = false /\
  forall v (h2 : heap), set_prop cur key v h2 = (Throw TypeError, h2).
Proof.
  unfold get_prop, inherited_read, set_prop, named_in.
  destruct cur as [| |b|x|s|l]; try discriminate; intros _;
    rewrite existsb_app;
    destruct (existsb (String.eqb key) Object_prototype) eqn:Ho;
    rewrite ?orb_true_r; try discriminate;
    (assert (Hk : String.eqb key "__proto__" = false);
     [destruct (String.eqb_spec key "__proto__") as [->|]; [discriminate|reflexivity]|]);
    rewrite Hk, orb_false_r;
    match goal with |- context [existsb ?f ?l] => destruct (existsb f l) end;
    try discriminate; intros H; injection H as <- <-; split; auto.
  unfold string_get. destruct (String.eqb key "length"); [reflexivity|].
  destruct (array_index key); [|reflexivity].
  now destruct (String.get (N.to_nat n) s).
Qed.

(** One iteration on a value that is not an object: it does not go on, and
    it changes no cell. *)
Lemma setByPath_step_prim upto key nextKey cur ac e r e1 :
  is_ref cur = false ->
  setByPath_step upto key nextKey cur ac e = (r, e1) ->
  (forall next, r <> Ret (Some next)) /\
  length (env_heap e) <= length (env_heap e1) /\
  (forall l0, l0 < length (env_heap e) -> env_heap e1 !! l0 = env_heap e !! l0).
Proof.
  intros Hcur. destruct e as [h con].
  destruct (get_prop cur key h) as [rg hg] eqn:Hg.
  pose proof (get_prop_heap _ _ _ _ _ Hg) as ->.
  unfold setByPath_step, bind, on_heap, zoom, alloc, console_warn, modify, ret.
  cbn [env_heap env_console]. rewrite Hg.
  destruct rg as [c| | |];
    try (intros H; injection H as <- <-; repeat split; auto; discriminate).
  destruct (get_prop_prim _ _ _ _ _ Hcur Hg) as [Hc Hset].
  destruct c; try discriminate; destruct ac;
    repeat first
      [ progress cbn [strict_eq typeof_object negb andb orb env_heap env_console]
      | rewrite Hg | rewrite Hset ];
    intros H; injection H as <- <-; cbn [env_heap];
    (split; [discriminate|]);
    (split; [rewrite ?length_app; lia|]);
    intros l0 Hl0; now rewrite ?lookup_app_l by lia.
Qed.

(** One iteration, whatever its arguments and however it ends: no cell but
    the current one is changed, and when the loop goes on it goes on into a
    value of the current object or into a fresh container stored in it. *)
Lemma setByPath_step_frame upto key nextKey cur ac e r e1 :
  setByPath_step upto key nextKey cur ac e = (r, e1) ->
  length (env_heap e) <= length (env_heap e1) /\
  (forall l0, l0 < length (env_heap e) -> cur <> VRef l0 ->
              env_heap e1 !! l0 = env_heap e !! l0) /\
  (forall next, r = Ret (Some next) ->
     exists l o, cur = VRef l /\ env_heap e !! l = Some o /\
       ((exists c, next = VRef c /\ obj_get o key = VRef c /\ e1 = e) \/
        (next = VRef (length (env_heap e)) /\
         exists o', obj_set o key next = Ret o' /\
           env_heap e1 = <[l := o']> (env_heap e ++ [container_for nextKey])))).
Proof.
  destruct (is_ref cur) eqn:Hcur.
  2:{ intros H. apply (setByPath_step_prim _ _ _ _ _ _ _ _ Hcur) in H
        as (Hr & Hlen & Hframe).
      split; [exact Hlen|]. split; [auto|]. intros next ->. now destruct (Hr next). }
  destruct cur as [| | | | |l]; try discriminate.
  destruct (env_heap e !! l) as [o|] eqn:Hl.
  - pose proof (lookup_lt_Some _ _ _ Hl) as Hlt.
    destruct (reads_prototype o key) eqn:Hr.
    { assert (Hg : get_prop (VRef l) key (env_heap e) = (Unsupported, env_heap e))
        by (apply get_prop_inherited; unfold inherited_read; now rewrite Hl).
      unfold setByPath_step, bind, on_heap, zoom. rewrite Hg.
      intros H. injection H as <- <-. cbn [env_heap].
      repeat split; auto. discriminate. }
    destruct ac.
    + rewrite (setByPath_step_create _ _ _ _ _ _ Hl), Hr.
      assert (Hfresh : forall con r e1,
        match obj_set o key (VRef (length (env_heap e))) with
        | Ret o' =>
            (Ret (Some (VRef (length (env_heap e)))),
             Env (<[l := o']> (env_heap e ++ [container_for nextKey])) con)
        | r' => (rethrow r' None, Env (env_heap e ++ [container_for nextKey]) con)
        end = (r, e1) ->
        length (env_heap e) <= length (env_heap e1) /\
        (forall l0, l0 < length (env_heap e) -> VRef l <> VRef l0 ->
                    env_heap e1 !! l0 = env_heap e !! l0) /\
        (forall next, r = Ret (Some next) ->
           exists l1 o1, VRef l = VRef l1 /\ env_heap e !! l1 = Some o1 /\
             ((exists c, next = VRef c /\ obj_get o1 key = VRef c /\ e1 = e) \/
              (next = VRef (length (env_heap e)) /\
               exists o', obj_set o1 key next = Ret o' /\
                 env_heap e1 = <[l1 := o']> (env_heap e ++ [container_for nextKey]))))).
      { intros con r0 e0.
        destruct (obj_set o key (VRef (length (env_heap e)))) as [o'| | |] eqn:Hs;
          intros H; injection H as <- <-; cbn [env_heap rethrow];
          try (split; [rewrite length_app; lia|]; split;
               [intros l0 Hl0 Hne; now apply lookup_app_l|intros next Hn; discriminate]).
        split; [rewrite length_insert, length_app; lia|]. split.
        - intros l0 Hl0 Hne. rewrite list_lookup_insert_ne by congruence.
          now apply lookup_app_l.
        - intros next Hn. injection Hn as <-. exists l, o.
          split; [reflexivity|]. split; [exact Hl|]. right.
          split; [reflexivity|]. exists o'. auto. }
      destruct (obj_get o key) eqn:Hc; cbn zeta; try apply Hfresh.
      intros H. injection H as <- <-. split; [lia|]. split; [auto|].
      intros next Hn. injection Hn as <-. exists l, o.
      split; [reflexivity|]. split; [exact Hl|]. left. eauto.
    + rewrite (setByPath_step_no_create _ _ _ _ _ (obj_get o key))
        by now apply get_prop_ref.
      destruct (obj_get o key) eqn:Hc; intros H; injection H as <- <-;
        cbn [env_heap]; (split; [lia|]); (split; [auto|]);
        intros next Hn; try discriminate.
      injection Hn as <-. exists l, o.
      split; [reflexivity|]. split; [exact Hl|]. left. eauto.
  - unfold setByPath_step, bind, on_heap, zoom, get_prop, inherited_read. rewrite Hl.
    intros H. injection H as <- <-. repeat split; auto; intros ? ?; discriminate.
Qed.

(** The cells [setByPath] may change are the cells it can reach from the
    document, and the cells it allocates: with [Q] closed under the
    references held in the heap and holding of the document and of every
    new cell, no cell outside [Q] is changed. *)
Lemma setByPath_loop_frame (Q : loc -> Prop) keys :
  forall done cur value ac e r e',
  (forall l, length (env_heap e) <= l -> Q l) ->
  (forall l o k c, Q l -> env_heap e !! l = Some o -> In (k, VRef c) (props o) ->
                   Q c) ->
  (forall l, cur = VRef l -> Q l) ->
  setByPath_loop done keys cur value ac e = (r, e') ->
  forall l0, ~ Q l0 -> env_heap e' !! l0 = env_heap e !! l0.
Proof.
  induction keys as [|key rest IH];
    intros done cur value ac e r e' Hnew Hclosed Hcur Hrun l0 Hl0.
  - cbn [setByPath_loop] in Hrun. apply set_prop_frame in Hrun as [_ Hrun].
    apply Hrun. intros ->. apply Hl0. now apply Hcur.
  - destruct rest as [|nextKey rest'].
    + cbn [setByPath_loop] in Hrun. apply set_prop_frame in Hrun as [_ Hrun].
      apply Hrun. intros ->. apply Hl0. now apply Hcur.
    + cbn [setByPath_loop] in Hrun. unfold bind at 1 in Hrun.
      destruct (setByPath_step (done ++ [key]) key nextKey cur ac e)
        as [ro e1] eqn:Hstep.
      apply setByPath_step_frame in Hstep as (Hlen & Hframe & Hnext).
      assert (Hlt : l0 < length (env_heap e)).
      { destruct (Nat.lt_ge_cases l0 (length (env_heap e))); [assumption|].
        destruct Hl0. now apply Hnew. }
      assert (Hne : cur <> VRef l0) by (intros ->; apply Hl0; now apply Hcur).
      assert (Hsame : env_heap e1 !! l0 = env_heap e !! l0) by now apply Hframe.
      destruct ro as [[next|]| | |];
        try (injection Hrun as <- <-; exact Hsame).
      rewrite <- Hsame.
      destruct (Hnext next eq_refl) as (l & o & -> & Hl & Hcase).
      pose proof (Hcur l eq_refl) as Hql.
      apply (IH _ _ _ _ _ _ _) with (l0 := l0) in Hrun; auto.
      * intros l1 Hl1. apply Hnew. lia.
      * intros l1 o1 k c Hq1 Hl1 Hin.
        destruct Hcase as [(c0 & _ & _ & ->)|(Hf & o' & Hs & He1)]; [eauto|].
        rewrite He1 in Hl1.
        pose proof (lookup_lt_Some _ _ _ Hl) as Hllt.
        destruct (Nat.eq_dec l1 l) as [->|Hl1l].
        -- rewrite list_lookup_insert_eq in Hl1
             by (rewrite length_app; simpl; lia).
           injection Hl1 as <-.
           destruct (obj_set_In _ _ _ _ _ _ Hs Hin) as [Hold|[_ Hv]]; [eauto|].
           rewrite Hf in Hv. injection Hv as ->. now apply Hnew.
        -- rewrite list_lookup_insert_ne in Hl1 by congruence.
           destruct (Nat.lt_ge_cases l1 (length (env_heap e))) as [Hlt1|Hge1].
           ++ rewrite lookup_app_l in Hl1 by assumption. eauto.
           ++ destruct (Nat.eq_dec l1 (length (env_heap e))) as [->|Hne1].
              ** rewrite lookup_snoc_last in Hl1. injection Hl1 as <-.
                 rewrite container_for_props in Hin. contradiction.
              ** apply lookup_lt_Some in Hl1. rewrite length_app in Hl1.
                 simpl in Hl1. lia.
      * intros l1 Hn. destruct Hcase as [(c0 & Hc & Hg & _)|(Hf & _)].
        -- rewrite Hc in Hn. injection Hn as <-.
           exact (Hclosed _ _ _ _ Hql Hl (obj_get_ref_In _ _ _ Hg)).
        -- rewrite Hf in Hn. injection Hn as <-. now apply Hnew.
Qed.

(** For a document read from [h] above [b]: the cells of [h] below [b], and
    the cells that follow [h], are out of the reach of [setByPath]. *)
Lemma setByPath_frame_reify b n (h : heap) d t :
  reify_from b n h d = Some t -> b <= length h ->
  forall ext path value ac con,
    let e' := snd (setByPath d path value ac (Env (h ++ ext) con)) in
    forall l, l < b \/ length h <= l < length (h ++ ext) ->
              env_heap e' !! l = (h ++ ext) !! l.
Proof.
  intros Hd Hb ext path value ac con e' l Hl. subst e'.
  destruct (setByPath d path value ac (Env (h ++ ext) con)) as [r e'] eqn:Hrun.
  cbn [snd]. unfold setByPath in Hrun.
  set (Q := fun l => (exists m t', reify_from b m h (VRef l) = Some t') \/
                     length (h ++ ext) <= l).
  apply (setByPath_loop_frame Q) with (l0 := l) in Hrun; [exact Hrun| | | |].
  - intros l1 Hl1. now right.
  - intros l1 o k c [(m & t' & Hr)|Hge] Hl1 Hin; cbn [env_heap] in Hl1.
    + destruct m as [|m]; [discriminate|].
      apply reify_from_ref_inv in Hr as (_ & o1 & ts & Ho1 & Hts & _).
      rewrite (lookup_app_l_Some _ _ _ _ Ho1) in Hl1. injection Hl1 as <-.
      left. exists m.
      clear -Hts Hin. induction Hts as [|p t' ps ts Hp _ IH]; [contradiction|].
      destruct Hin as [->|Hin]; [eauto|auto].
    + apply lookup_lt_Some in Hl1. lia.
  - intros l1 ->. left. eauto.
  - intros [(m & t' & Hr)|Hge].
    + destruct m as [|m]; [discriminate|].
      apply reify_from_ref_inv in Hr as (Hbl & o1 & ts & Ho1 & _).
      apply lookup_lt_Some in Ho1. lia.
    + rewrite length_app in *. lia.
Qed.

(** X5. A copy made by [deepClone] of a JSON document shares no cell with
    it. Whatever [setByPath] then does through the copy, with any path,
    value and setting of [autoCreate], and whether it returns or throws:
    as long as it stays within plain data, that is, does not step through a
    property found on a built-in prototype such as [__proto__] or
    [constructor], every cell that was there before the copy is unchanged,
    and the original stands for the same document as before. *)
Theorem deepClone_setByPath_independent
  (sc : option native_clone) (fuel depth : nat) (h : heap) (d : val) (t : json) :
  structuredClone_sound sc -> depth < fuel -> reify depth h d = Some t ->
  exists copy h1,
    deepClone sc fuel d h = (Ret copy, h1) /\
    forall path value autoCreate con,
      let run := setByPath copy path value autoCreate (Env h1 con) in
      fst run <> Unsupported ->
      (forall l, l < length h -> env_heap (snd run) !! l = h !! l) /\
      reify depth (env_heap (snd run)) d = Some t.
Proof.
  intros Hsc Hfuel Hd.
  destruct (deepClone_copy sc Hsc fuel depth h d t Hfuel Hd)
    as (copy & cells & t' & Hrun & Hcopy & _).
  exists copy, (h ++ cells). split; [exact Hrun|].
  intros path value ac con run _.
  assert (Hsame : forall l, l < length h -> env_heap (snd run) !! l = h !! l).
  { intros l Hl. subst run.
    pose proof (setByPath_frame_reify _ _ _ _ _ Hcopy
                  ltac:(rewrite length_app; lia) [] path value ac con l
                  (or_introl Hl)) as H.
    rewrite app_nil_r in H. cbn zeta in H. rewrite H. now apply lookup_app_l. }
  split; [exact Hsame|].
  eapply reify_from_weaken; [| | |exact Hd]; auto.
  intros l o _ Hl. rewrite Hsame by (eapply lookup_lt_Some; eauto). exact Hl.
Qed.

Lemma deepClone_setByPath_independent_witness :
  exists copy h1,
    deepClone None 4 (VRef 0) nested_heap = (Ret copy, h1) /\
    forall path value autoCreate con,
      let run := setByPath copy path value autoCreate (Env h1 con) in
      fst run <> Unsupported ->
      (forall l, l < 3 -> env_heap (snd run) !! l = nested_heap !! l) /\
      reify 3 (env_heap (snd run)) (VRef 0)
      = Some (JObj [("0", JStr "z");
                    ("a", JArr [JNum (num_of_N 1); JObj [("b", JNull)]])]).
Proof.
  apply (deepClone_setByPath_independent None 4 3 nested_heap (VRef 0));
    [exact structuredClone_sound_absent | lia | reflexivity].
Defined.

(* ================================================================== *)
(** * Paths and keys *)
(* ================================================================== *)

Lemma string_app_assoc (a b c : string) : ((a ++ b) ++ c = a ++ (b ++ c))%string.
Proof. induction a as [|x a IH]; simpl; [reflexivity|]. now rewrite IH. Qed.

Lemma string_app_nil_r (a : string) : (a ++ "" = a)%string.
Proof. induction a as [|x a IH]; simpl; [reflexivity|]. now rewrite IH. Qed.

Lemma occurs_app c (a b : string) :
  occurs c (a ++ b) = occurs c a || occurs c b.
Proof.
  induction a as [|x a IH]; cbn [occurs append]; [reflexivity|].
  now rewrite IH, orb_assoc.
Qed.

Lemma digits_plain ds :
  forallb is_digit (list_ascii_of_string ds) = true ->
  occurs "." ds = false /\ occurs "[" ds = false.
Proof.
  induction ds as [|c ds IH]; cbn [occurs forallb list_ascii_of_string]; [auto|].
  intros H. apply andb_prop in H as [Hc Hds]. destruct (IH Hds) as [-> ->].
  rewrite !orb_false_r.
  split.
  - destruct (Ascii.eqb_spec "." c) as [<-|]; [vm_compute in Hc; discriminate|reflexivity].
  - destruct (Ascii.eqb_spec "[" c) as [<-|]; [vm_compute in Hc; discriminate|reflexivity].
Qed.

Lemma all_digits_forallb ds :
  all_digits ds = true ->
  forallb is_digit (list_ascii_of_string ds) = true /\ ds <> "".
Proof. destruct ds; [discriminate|]. intros H. split; [exact H|discriminate]. Qed.

(** Outside brackets, the characters up to the next opening bracket are
    copied. *)
Lemma replace_brackets_plain p : forall s,
  occurs "[" p = false ->
  replace_brackets None (p ++ s) = (p ++ replace_brackets None s)%string.
Proof.
  induction p as [|c p IH]; intros s; cbn [occurs append replace_brackets];
    [reflexivity|].
  intros H. apply orb_false_elim in H as [Hc Hp].
  rewrite Ascii.eqb_sym in Hc. rewrite Hc. now rewrite IH.
Qed.

(** After an opening bracket, digits are collected. *)
Lemma replace_brackets_digits ds : forall acc s,
  forallb is_digit (list_ascii_of_string ds) = true ->
  replace_brackets (Some acc) (ds ++ s) = replace_brackets (Some (acc ++ ds)%string) s.
Proof.
  induction ds as [|c ds IH]; intros acc s;
    cbn [forallb list_ascii_of_string append replace_brackets].
  - now rewrite string_app_nil_r.
  - intros H. apply andb_prop in H as [Hc Hds]. rewrite Hc.
    rewrite IH by exact Hds. now rewrite string_app_assoc.
Qed.

(** [[ds]] with at least one digit is replaced by [.ds]. *)
Lemma replace_brackets_index ds s :
  all_digits ds = true ->
  replace_brackets None (String "[" (ds ++ String "]" s))
  = String "." (ds ++ replace_brackets None s).
Proof.
  intros H. apply all_digits_forallb in H as [Hds Hne].
  cbn [replace_brackets]. rewrite Ascii.eqb_refl.
  rewrite (replace_brackets_digits ds "" _ Hds). cbn [append replace_brackets].
  change (is_digit "]") with false. cbn iota. rewrite Ascii.eqb_refl.
  apply String.eqb_neq in Hne. rewrite Hne. reflexivity.
Qed.

Lemma split_dots_plain s : forall cur,
  occurs "." s = false -> split_dots cur s = [(cur ++ s)%string].
Proof.
  induction s as [|c s IH]; intros cur; cbn [occurs split_dots].
  - now rewrite string_app_nil_r.
  - intros H. apply orb_false_elim in H as [Hc Hs].
    rewrite Ascii.eqb_sym in Hc. rewrite Hc, IH by exact Hs.
    now rewrite string_app_assoc.
Qed.

Lemma split_dots_dot s1 : forall cur s2,
  occurs "." s1 = false ->
  split_dots cur (s1 ++ String "." s2) = (cur ++ s1)%string :: split_dots "" s2.
Proof.
  induction s1 as [|c s1 IH]; intros cur s2; cbn [occurs append split_dots].
  - rewrite Ascii.eqb_refl. now rewrite string_app_nil_r.
  - intros H. apply orb_false_elim in H as [Hc Hs].
    rewrite Ascii.eqb_sym in Hc. rewrite Hc, IH by exact Hs.
    now rewrite string_app_assoc.
Qed.

Lemma split_dots_nonempty s : forall cur, split_dots cur s <> [].
Proof.
  induction s as [|c s IH]; intros cur; cbn [split_dots]; [discriminate|].
  destruct (Ascii.eqb c "."); [discriminate|apply IH].
Qed.

Lemma plain_key_inv k :
  plain_key k = true -> occurs "." k = false /\ occurs "[" k = false.
Proof.
  unfold plain_key. intros H. apply andb_prop in H as [H1 H2].
  now apply negb_true_iff in H1, H2.
Qed.

Lemma join_dots_cons k k' ks :
  join_dots (k :: k' :: ks) = (k ++ String "." (join_dots (k' :: ks)))%string.
Proof. reflexivity. Qed.

Lemma occurs_join_dots ks :
  Forall (fun k => plain_key k = true) ks -> occurs "[" (join_dots ks) = false.
Proof.
  induction 1 as [|k ks Hk _ IH]; [reflexivity|].
  apply plain_key_inv in Hk as [_ Hk].
  destruct ks as [|k' ks]; [exact Hk|].
  rewrite join_dots_cons, occurs_app, Hk. cbn [occurs orb]. exact IH.
Qed.

Lemma split_dots_join_dots ks :
  ks <> [] -> Forall (fun k => plain_key k = true) ks ->
  split_dots "" (join_dots ks) = ks.
Proof.
  intros Hne H. induction H as [|k ks Hk _ IH]; [congruence|].
  apply plain_key_inv in Hk as [Hk _].
  destruct ks as [|k' ks].
  - cbn [join_dots String.concat]. now rewrite split_dots_plain.
  - rewrite join_dots_cons, split_dots_dot by exact Hk.
    cbn [append]. f_equal. apply IH. discriminate.
Qed.

(** X6. Keys joined with dots are read back by the path parser of
    [getByPath] and [setByPath]: for a non-empty list of keys, none of which
    holds a dot or an opening bracket, parsing [keys.join('.')] gives the
    keys, so that [getByPath] follows exactly these keys. *)
Theorem path_keys_join_dots (ks : list string) :
  ks <> [] -> Forall (fun k => plain_key k = true) ks ->
  path_keys (join_dots ks) = ks /\
  forall obj h, getByPath obj (join_dots ks) h = getByPath_loop ks obj h.
Proof.
  intros Hne Hks.
  assert (Hp : path_keys (join_dots ks) = ks).
  { unfold path_keys.
    pose proof (replace_brackets_plain (join_dots ks) "" (occurs_join_dots ks Hks)) as H.
    rewrite string_app_nil_r in H. cbn [replace_brackets] in H.
    rewrite string_app_nil_r in H. rewrite H.
    now apply split_dots_join_dots. }
  split; [exact Hp|]. intros obj h. unfold getByPath. now rewrite Hp.
Qed.

Lemma path_keys_join_dots_witness :
  path_keys (join_dots ["data"; "tags"; "0"]) = ["data"; "tags"; "0"] /\
  forall obj h, getByPath obj (join_dots ["data"; "tags"; "0"]) h
                = getByPath_loop ["data"; "tags"; "0"] obj h.
Proof.
  apply (path_keys_join_dots ["data"; "tags"; "0"]);
    [discriminate|repeat constructor].
Defined.

(** X7. A bracketed index is the same as a dotted one: for digits [ds],
    after a prefix without an opening bracket, the paths [p[ds]q] and
    [p.ds q] have the same keys, and [getByPath] and [setByPath] do the same
    with both. *)
Theorem bracket_index_is_dotted (p ds q : string) :
  occurs "[" p = false -> all_digits ds = true ->
  let bracketed := (p ++ String "[" (ds ++ String "]" q))%string in
  let dotted := (p ++ String "." (ds ++ q))%string in
  path_keys bracketed = path_keys dotted /\
  (forall obj h, getByPath obj bracketed h = getByPath obj dotted h) /\
  (forall obj value autoCreate e,
     setByPath obj bracketed value autoCreate e
     = setByPath obj dotted value autoCreate e).
Proof.
  intros Hp Hds bracketed dotted.
  assert (Hk : path_keys bracketed = path_keys dotted).
  { unfold path_keys, bracketed, dotted.
    rewrite !replace_brackets_plain by exact Hp.
    rewrite replace_brackets_index by exact Hds.
    destruct (all_digits_forallb _ Hds) as [Hd _].
    destruct (digits_plain _ Hd) as [_ Hb].
    change (String "." (ds ++ q)) with ("." ++ (ds ++ q))%string.
    rewrite (replace_brackets_plain "." (ds ++ q)) by reflexivity.
    now rewrite (replace_brackets_plain ds q) by exact Hb. }
  split; [exact Hk|]. split.
  - intros obj h. unfold getByPath. now rewrite Hk.
  - intros obj value ac e. unfold setByPath. now rewrite Hk.
Qed.

Lemma bracket_index_is_dotted_witness :
  path_keys "data.entries[12].keys" = path_keys "data.entries.12.keys" /\
  (forall obj h, getByPath obj "data.entries[12].keys" h
                 = getByPath obj "data.entries.12.keys" h) /\
  (forall obj value autoCreate e,
     setByPath obj "data.entries[12].keys" value autoCreate e
     = setByPath obj "data.entries.12.keys" value autoCreate e).
Proof.
  apply (bracket_index_is_dotted "data.entries" "12" ".keys"); reflexivity.
Defined.

(** X8. A path that starts with a bracketed index has an empty first key:
    on an object or array without a property of the empty name, [getByPath]
    returns [undefined] for it, whatever the object holds at that index. *)
Theorem getByPath_leading_bracket (h : heap) (l : loc) (o : jsobj) (ds q : string) :
  h !! l = Some o -> prop_lookup "" (props o) = None -> all_digits ds = true ->
  hd_error (path_keys (String "[" (ds ++ String "]" q))) = Some "" /\
  getByPath (VRef l) (String "[" (ds ++ String "]" q)) h = (Ret VUndefined, h).
Proof.
  intros Hl Hnone Hds.
  assert (Hk : exists rest, rest <> [] /\
             path_keys (String "[" (ds ++ String "]" q)) = "" :: rest).
  { unfold path_keys. rewrite replace_brackets_index by exact Hds.
    cbn [split_dots]. rewrite Ascii.eqb_refl.
    eexists. split; [|reflexivity]. apply split_dots_nonempty. }
  destruct Hk as (rest & Hne & Hk). rewrite Hk. split; [reflexivity|].
  unfold getByPath. rewrite Hk.
  rewrite (getByPath_loop_cons_ref _ _ _ _ _ Hl)
    by (apply reads_prototype_name; reflexivity).
  assert (Hu : obj_get o "" = VUndefined).
  { unfold obj_get. rewrite Hnone. now destruct (kind o). }
  rewrite Hu. apply getByPath_loop_undefined.
Qed.

(** On [["x"]], the path [[0]] does not reach the element. *)
Lemma getByPath_leading_bracket_witness :
  hd_error (path_keys "[0]") = Some "" /\
  getByPath (VRef 1) "[0]" sample_heap = (Ret VUndefined, sample_heap).
Proof.
  apply (getByPath_leading_bracket sample_heap 1
           (JsObj (KArray 1) [("0", VStr "x")]) "0" ""); reflexivity.
Defined.

(* ================================================================== *)
(** * setByPath and the other properties of the document *)
(* ================================================================== *)

Lemma prop_lookup_truncate n k ps :
  array_index k = None -> prop_lookup k (truncate n ps) = prop_lookup k ps.
Proof.
  intros Hk. induction ps as [|[k' w] r IH]; [reflexivity|].
  cbn [truncate List.filter fst prop_lookup].
  destruct (String.eqb_spec k k') as [<-|Hne].
  - rewrite Hk. cbn [prop_lookup]. now rewrite String.eqb_refl.
  - fold (truncate n r).
    destruct (match array_index k' with Some i => (i <? n)%N | None => true end);
      [cbn [prop_lookup]; apply String.eqb_neq in Hne; now rewrite Hne|exact IH].
Qed.

(** An assignment to an own property leaves the other properties as they
    are; an assignment to the [length] of an array may delete elements. *)
Lemma obj_set_lookup_ne o key v o' k :
  obj_set o key v = Ret o' -> k <> key -> length_write o key = false ->
  prop_lookup k (props o') = prop_lookup k (props o).
Proof.
  unfold obj_set. intros Hs Hk Hlw. rewrite Hlw in Hs.
  destruct (proto_write o key); injection Hs as <-; [reflexivity|].
  cbn [props]. now apply prop_lookup_store_ne.
Qed.

Lemma setByPath_loop_cons done key nextKey rest cur value ac :
  setByPath_loop done (key :: nextKey :: rest) cur value ac
  = (r <- setByPath_step (done ++ [key]) key nextKey cur ac ;;
     match r with
     | None => ret tt
     | Some next => setByPath_loop (done ++ [key]) (nextKey :: rest) next value ac
     end).
Proof. reflexivity. Qed.

(** X9. In a heap without cycles, [setByPath] changes no property held in
    the cell of the document (the fields of an object, the elements of an
    array) but the one named by the first key of the path, whatever the
    value, the setting of [autoCreate] and the way the call ends; unless
    the document is an array and the first key is [length], an assignment
    that deletes elements. *)
Theorem setByPath_other_properties
  (e : env) (l : loc) (o : jsobj) (path : string) (value : val)
  (autoCreate : bool) (k : string) :
  acyclic (env_heap e) -> env_heap e !! l = Some o ->
  hd_error (path_keys path) <> Some k ->
  (is_array o = true -> hd_error (path_keys path) <> Some "length") ->
  exists o',
    env_heap (snd (setByPath (VRef l) path value autoCreate e)) !! l = Some o' /\
    prop_lookup k (props o') = prop_lookup k (props o).
Proof.
  intros [rank Hrank] Hl Hk Hlength. unfold setByPath.
  destruct (path_keys path) as [|key rest] eqn:Hkeys.
  { now destruct (split_dots_nonempty (replace_brackets None path) ""). }
  assert (Hkey : k <> key) by (intros ->; now apply Hk).
  assert (Hlw : length_write o key = false).
  { unfold length_write. destruct (is_array o); [|reflexivity].
    destruct (String.eqb_spec key "length") as [->|]; [|reflexivity].
    now destruct (Hlength eq_refl). }
  pose proof (lookup_lt_Some _ _ _ Hl) as Hlt.
  assert (Hlast :
    exists o',
      env_heap (snd (on_heap (set_prop (VRef l) key value) e)) !! l = Some o' /\
      prop_lookup k (props o') = prop_lookup k (props o)).
  { unfold on_heap, zoom. rewrite (set_prop_ref _ _ _ _ _ Hl).
    destruct (proto_write o key && strict_eq value (VRef l));
      [exists o; auto|].
    destruct (obj_set o key value) as [o'| | |] eqn:Hs; cbn [snd env_heap rethrow];
      try (exists o; split; [exact Hl|reflexivity]).
    exists o'. split; [now apply list_lookup_insert_eq|].
    eapply obj_set_lookup_ne; eauto. }
  destruct rest as [|nextKey rest']; [exact Hlast|].
  rewrite setByPath_loop_cons. unfold bind at 1.
  destruct (setByPath_step ([] ++ [key]) key nextKey (VRef l) autoCreate e)
    as [ro e1] eqn:Hstep.
  pose proof Hstep as Hstep'.
  apply setByPath_step_frame in Hstep as (Hlen & Hframe & Hnext).
  assert (Hcell : exists o1, env_heap e1 !! l = Some o1 /\
            prop_lookup k (props o1) = prop_lookup k (props o) /\
            (forall l1 o2 k2 c, l1 <> l -> env_heap e1 !! l1 = Some o2 ->
               In (k2, VRef c) (props o2) ->
               l1 < length (env_heap e) /\ env_heap e !! l1 = Some o2)).
  { assert (Hsame : env_heap e1 = env_heap e ->
              exists o1, env_heap e1 !! l = Some o1 /\
                prop_lookup k (props o1) = prop_lookup k (props o) /\
                (forall l1 o2 k2 c, l1 <> l -> env_heap e1 !! l1 = Some o2 ->
                   In (k2, VRef c) (props o2) ->
                   l1 < length (env_heap e) /\ env_heap e !! l1 = Some o2)).
    { intros He. rewrite He. exists o. split; [exact Hl|]. split; [reflexivity|].
      intros l1 o2 k2 c _ Hl1 _. split; [eapply lookup_lt_Some; eauto|exact Hl1]. }
    destruct autoCreate.
    - rewrite (setByPath_step_create _ _ _ _ _ _ Hl) in Hstep'.
      destruct (reads_prototype o key);
        [injection Hstep' as <- <-; now apply Hsame|].
      assert (Hfresh : forall con : list string,
        match obj_set o key (VRef (length (env_heap e))) with
        | Ret o' =>
            (Ret (Some (VRef (length (env_heap e)))),
             Env (<[l := o']> (env_heap e ++ [container_for nextKey])) con)
        | r' => (rethrow r' None, Env (env_heap e ++ [container_for nextKey]) con)
        end = (ro, e1) ->
        exists o1, env_heap e1 !! l = Some o1 /\
          prop_lookup k (props o1) = prop_lookup k (props o) /\
          (forall l1 o2 k2 c, l1 <> l -> env_heap e1 !! l1 = Some o2 ->
             In (k2, VRef c) (props o2) ->
             l1 < length (env_heap e) /\ env_heap e !! l1 = Some o2)).
      { intros con.
        assert (Hother : forall (h1 : heap) l1 o2 k2 c,
                  (h1 = env_heap e ++ [container_for nextKey]) ->
                  h1 !! l1 = Some o2 -> In (k2, VRef c) (props o2) ->
                  l1 < length (env_heap e) /\ env_heap e !! l1 = Some o2).
        { intros h1 l1 o2 k2 c -> Hl1 Hin.
          destruct (Nat.lt_ge_cases l1 (length (env_heap e))) as [Hl1lt|Hge].
          - rewrite lookup_app_l in Hl1 by assumption. auto.
          - destruct (Nat.eq_dec l1 (length (env_heap e))) as [->|Hne1].
            + rewrite lookup_snoc_last in Hl1. injection Hl1 as <-.
              rewrite container_for_props in Hin. contradiction.
            + apply lookup_lt_Some in Hl1. rewrite length_app in Hl1.
              simpl in Hl1. lia. }
        destruct (obj_set o key (VRef (length (env_heap e)))) as [o'| | |] eqn:Hs;
          intros H; injection H as <- <-; cbn [env_heap];
          try (exists o; split; [now apply lookup_app_l_Some|]; split; [reflexivity|];
               intros l1 o2 k2 c _ Hl1 Hin; eapply Hother; eauto).
        exists o'. split.
        { apply list_lookup_insert_eq. rewrite length_app. lia. }
        split; [eapply obj_set_lookup_ne; eauto|].
        intros l1 o2 k2 c Hne Hl1 Hin.
        rewrite list_lookup_insert_ne in Hl1 by congruence.
        eapply Hother; eauto. }
      destruct (obj_get o key); cbn zeta in Hstep';
        try (eapply Hfresh; exact Hstep').
      injection Hstep' as <- <-. now apply Hsame.
    - destruct (reads_prototype o key) eqn:Hr.
      + assert (Hg : get_prop (VRef l) key (env_heap e) = (Unsupported, env_heap e))
          by (apply get_prop_inherited; unfold inherited_read; now rewrite Hl).
        unfold setByPath_step, bind, on_heap, zoom in Hstep'. rewrite Hg in Hstep'.
        injection Hstep' as <- <-. now apply Hsame.
      + rewrite (setByPath_step_no_create _ _ _ _ _ (obj_get o key)) in Hstep'
          by now apply get_prop_ref.
        apply Hsame.
        destruct (obj_get o key); injection Hstep' as <- <-; reflexivity. }
  destruct Hcell as (o1 & Hl1 & Hk1 & Hothers).
  destruct ro as [[next|]| | |];
    [|unfold ret; cbn [snd]; exists o1; split; assumption ..].
  destruct (setByPath_loop ([] ++ [key]) (nextKey :: rest') next value
              autoCreate e1) as [r e'] eqn:Hrun.
  cbn [snd]. exists o1. split; [|exact Hk1]. rewrite <- Hl1.
  set (Q := fun l1 => rank l1 < rank l \/ length (env_heap e) <= l1).
  destruct (Hnext next eq_refl) as (l0 & o0 & Hl0 & Ho0 & Hcase).
  injection Hl0 as <-. rewrite Hl in Ho0. injection Ho0 as <-.
  apply (setByPath_loop_frame Q) with (l0 := l) in Hrun;
    [exact Hrun| | | |].
  - intros l1 Hge. right. lia.
  - intros l1 o2 k2 c Hq Hlk Hin.
    assert (Hne : l1 <> l).
    { intros ->. destruct Hq as [Hq|Hq]; lia. }
    destruct (Hothers _ _ _ _ Hne Hlk Hin) as [Hlt1 Hlk'].
    left. destruct Hq as [Hq|Hq]; [|lia].
    pose proof (Hrank _ _ _ _ Hlk' Hin). lia.
  - intros l1 Hn. destruct Hcase as [(c & Hc & Hg & _)|(Hf & _)].
    + rewrite Hc in Hn. injection Hn as <-. left.
      exact (Hrank _ _ _ _ Hl (obj_get_ref_In _ _ _ Hg)).
    + rewrite Hf in Hn. injection Hn as <-. now right.
  - intros [Hq|Hq]; lia.
Qed.

Lemma setByPath_other_properties_witness :
  exists o',
    env_heap (snd (setByPath (VRef 0) "tags[1]" (VStr "y") true sample_env)) !! 0
    = Some o' /\
    prop_lookup "name" (props o')
    = prop_lookup "name" [("name", VStr "A"); ("tags", VRef 1)].
Proof.
  apply (setByPath_other_properties sample_env 0
           (JsObj KObject [("name", VStr "A"); ("tags", VRef 1)])
           "tags[1]" (VStr "y") true "name").
  - exists (fun l => match l with 0 => 1 | _ => 0 end).
    intros [|[|l]] o k c Ho Hin; simpl in Ho; try discriminate;
      injection Ho as <-; simpl in Hin;
      repeat (destruct Hin as [Hin|Hin]; [try discriminate|]);
      try contradiction.
    injection Hin as <- <-. lia.
  - reflexivity.
  - discriminate.
  - discriminate.
Defined.

(* ================================================================== *)
(** * The history store: the current entry *)
(* ================================================================== *)

Lemma appended_top s copy :
  index (appended s copy) = (len (stack (appended s copy)) - 1)%Z.
Proof.
  unfold appended. cbn zeta.
  destruct (len (stack s ++ [copy]) >? maxSize s)%Z; cbn [stack index]; [|reflexivity].
  rewrite len_shift by (now destruct (stack s)). lia.
Qed.

Lemma at_index_last (l : list val) x : at_index (l ++ [x]) (len l) = x.
Proof.
  unfold at_index, len. destruct (Z.ltb_spec (Z.of_nat (length l)) 0); [lia|].
  rewrite Nat2Z.id. rewrite app_nth2 by lia. now rewrite Nat.sub_diag.
Qed.

Lemma appended_current s copy :
  (1 <= maxSize s)%Z ->
  at_index (stack (appended s copy)) (index (appended s copy)) = copy.
Proof.
  intros Hm. unfold appended. cbn zeta.
  pose proof (len_app_one (stack s) copy) as Hl.
  destruct (Z.gtb_spec (len (stack s ++ [copy])) (maxSize s)); cbn [stack index].
  - destruct (stack s) as [|x st] eqn:Hst.
    + unfold len in *. simpl in *. lia.
    + cbn [app shift tl].
      assert (E : forall z, z = len st -> at_index (st ++ [copy]) z = copy)
        by (intros z ->; apply at_index_last).
      apply E. unfold len. simpl. rewrite length_app. simpl. lia.
  - replace (len (stack s ++ [copy]) - 1)%Z with (len (stack s)) by lia.
    apply at_index_last.
Qed.

(** X10. From any state of the history, a [push] of a JSON document
    returns and leaves the pointer on the last entry, so that [canRedo] is
    false; when [maxSize] is at least 1 and the document is one that
    [deepClone] copies in full, the entry under the pointer is a copy that
    stands for the pushed document. *)
Theorem push_makes_current
  (sc : option native_clone) (fuel depth : nat) (w : hworld) (state : val) (t : json) :
  structuredClone_sound sc -> depth < fuel ->
  reify depth (hw_heap w) state = Some t ->
  exists w',
    StoreHistory.push sc fuel state w = (Ret tt, w') /\
    let s' := hw_history w' in
    index s' = (len (stack s') - 1)%Z /\
    StoreHistory.canRedo s' = false /\
    maxSize s' = maxSize (hw_history w) /\
    ((1 <= maxSize (hw_history w))%Z -> copied_in_full sc t ->
     reify depth (hw_heap w') (at_index (stack s') (index s')) = Some t).
Proof.
  intros Hsc Hfuel Hs.
  destruct (push_copy sc fuel depth state t w Hsc Hfuel Hs)
    as (copy & cells & t' & Hrun & Hcopy & _ & Hsame).
  eexists. split; [exact Hrun|]. cbn [hw_history hw_heap].
  pose proof (appended_top (truncated (hw_history w)) copy) as Htop.
  split; [exact Htop|]. split; [|split].
  - unfold StoreHistory.canRedo. rewrite Htop. apply Z.ltb_irrefl.
  - now rewrite appended_maxSize, truncated_maxSize.
  - intros Hm Hfull. rewrite appended_current;
      [now rewrite Hcopy, (Hsame Hfull)|].
    now rewrite truncated_maxSize.
Qed.

Lemma push_makes_current_witness :
  exists w',
    StoreHistory.push None 4 (VRef 1) two_entries = (Ret tt, w') /\
    let s' := hw_history w' in
    index s' = (len (stack s') - 1)%Z /\
    StoreHistory.canRedo s' = false /\
    maxSize s' = 10%Z /\
    ((1 <= 10)%Z ->
     copied_in_full None (JArr [JNum (num_of_N 1); JObj [("b", JNull)]]) ->
     reify 3 (hw_heap w') (at_index (stack s') (index s'))
     = Some (JArr [JNum (num_of_N 1); JObj [("b", JNull)]])).
Proof.
  apply (push_makes_current None 4 3 two_entries (VRef 1));
    [exact structuredClone_sound_absent | lia | reflexivity].
Defined.

(** X11. [init] forgets what the history held: from any state, [init] of a
    JSON document that [deepClone] copies in full leaves exactly one entry,
    a copy that stands for the document, with the pointer on it, and
    neither undo nor redo is possible. *)
Theorem init_single_entry
  (sc : option native_clone) (fuel depth : nat) (w : hworld) (state : val) (t : json) :
  structuredClone_sound sc -> depth < fuel ->
  (1 <= maxSize (hw_history w))%Z ->
  reify depth (hw_heap w) state = Some t -> copied_in_full sc t ->
  exists copy cells,
    StoreHistory.init sc fuel state w
    = (Ret tt, HWorld (History [copy] 0 (maxSize (hw_history w)))
                      (hw_heap w ++ cells)) /\
    reify depth (hw_heap w ++ cells) copy = Some t /\
    StoreHistory.canUndo (History [copy] 0 (maxSize (hw_history w))) = false /\
    StoreHistory.canRedo (History [copy] 0 (maxSize (hw_history w))) = false.
Proof.
  intros Hsc Hfuel Hm Hs Hfull. rewrite init_eq.
  destruct (push_reify sc fuel depth state t
              (HWorld (History [] (-1) (maxSize (hw_history w))) (hw_heap w))
              Hsc Hfuel Hs Hfull) as (copy & cells & Hrun & Hcopy).
  cbn [hw_history hw_heap] in Hrun, Hcopy.
  rewrite (push_on_empty _ copy Hm) in Hrun.
  exists copy, cells. split; [exact Hrun|]. split; [exact Hcopy|].
  split; reflexivity.
Qed.

Lemma init_single_entry_witness :
  exists copy cells,
    StoreHistory.init None 4 (VRef 0) two_entries
    = (Ret tt, HWorld (History [copy] 0 10) (nested_heap ++ cells)) /\
    reify 3 (nested_heap ++ cells) copy
    = Some (JObj [("0", JStr "z");
                  ("a", JArr [JNum (num_of_N 1); JObj [("b", JNull)]])]) /\
    StoreHistory.canUndo (History [copy] 0 10) = false /\
    StoreHistory.canRedo (History [copy] 0 10) = false.
Proof.
  apply (init_single_entry None 4 3 two_entries (VRef 0));
    [exact structuredClone_sound_absent | lia | simpl; lia | reflexivity
    | right; reflexivity].
Defined.

(* ================================================================== *)
(** * The history store: undo and redo undo each other *)
(* ================================================================== *)

Lemma entries_reify_app depth (h ext : heap) (st : list val) :
  Forall (fun e => is_Some (reify depth h e)) st ->
  Forall (fun e => is_Some (reify depth (h ++ ext) e)) st.
Proof.
  apply List.Forall_impl. intros e [t Ht]. exists t. now apply reify_app.
Qed.

(** X12. On a history whose entries are documents that [deepClone] copies
    in full: when undo is possible, [undo()] followed by [redo()] brings
    the history back to where it was, and the document [redo()] returns
    stands for the same document as the entry that was current before; the
    same holds of [redo()] followed by [undo()] when redo is possible. *)
Theorem undo_redo_inverse
  (sc : option native_clone) (fuel depth : nat) (w : hworld) :
  let s := hw_history w in
  structuredClone_sound sc -> depth < fuel -> history_inv s ->
  Forall (document_in_full sc depth (hw_heap w)) (stack s) ->
  (StoreHistory.canUndo s = true ->
   exists c1 w1 c2 w2 t,
     StoreHistory.undo sc fuel w = (Ret c1, w1) /\
     StoreHistory.redo sc fuel w1 = (Ret c2, w2) /\
     hw_history w2 = s /\
     reify depth (hw_heap w) (at_index (stack s) (index s)) = Some t /\
     reify depth (hw_heap w2) c2 = Some t) /\
  (StoreHistory.canRedo s = true ->
   exists c1 w1 c2 w2 t,
     StoreHistory.redo sc fuel w = (Ret c1, w1) /\
     StoreHistory.undo sc fuel w1 = (Ret c2, w2) /\
     hw_history w2 = s /\
     reify depth (hw_heap w) (at_index (stack s) (index s)) = Some t /\
     reify depth (hw_heap w2) c2 = Some t).
Proof.
  intros s Hsc Hfuel Hinv Hfull.
  destruct w as [[st i m] h]. cbn [hw_history] in s. subst s.
  destruct Hinv as (Hi & Hnil & _). cbn [stack index maxSize hw_heap] in *.
  pose proof (entries_in_full_reify _ _ _ _ Hfull) as Hall.
  assert (Hstep : forall j h0, (0 <= j < len st)%Z ->
            Forall (document_in_full sc depth h0) st ->
            exists copy cells t,
              deepClone sc fuel (at_index st j) h0 = (Ret copy, h0 ++ cells) /\
              reify depth h0 (at_index st j) = Some t /\
              reify depth (h0 ++ cells) copy = Some t).
  { intros j h0 Hj Hall0.
    destruct (clone_entry_in_full sc fuel depth (HWorld (History st i m) h0) j
                Hsc Hfuel Hall0 Hj)
      as (copy & cells & t & Hrun & Ht & Hc).
    exists copy, cells, t. cbn [hw_history hw_heap stack] in *.
    split; [exact Hrun|]. split; [exact Ht|].
    eapply reify_from_weaken; [| | |exact Hc]; auto. lia. }
  split; intros Hcan.
  - unfold StoreHistory.canUndo in Hcan. cbn [index] in Hcan. apply Z.gtb_lt in Hcan.
    destruct (Hstep (i - 1)%Z h ltac:(lia) Hfull) as (c1 & cells1 & t1 & Hrun1 & _ & _).
    destruct (Hstep i (h ++ cells1) ltac:(lia) (entries_in_full_app _ _ _ _ _ Hfull))
      as (c2 & cells2 & t & Hrun2 & Ht & Hc2).
    exists c1, (HWorld (History st (i - 1) m) (h ++ cells1)),
           c2, (HWorld (History st i m) ((h ++ cells1) ++ cells2)), t.
    split; [|split; [|split; [reflexivity|split]]].
    + rewrite undo_eq. cbn [hw_history hw_heap stack index maxSize].
      unfold StoreHistory.canUndo. cbn [index].
      destruct (Z.gtb_spec i 0); [|lia]. now rewrite Hrun1.
    + rewrite redo_eq. cbn [hw_history hw_heap stack index maxSize].
      unfold StoreHistory.canRedo. cbn [index stack].
      destruct (Z.ltb_spec (i - 1) (len st - 1)); [|lia].
      replace (i - 1 + 1)%Z with i by lia. now rewrite Hrun2.
    + destruct (List.Forall_forall (fun e => is_Some (reify depth h e)) st) as [Hf _].
      destruct (Hf Hall _ (at_index_In st i ltac:(lia))) as [t' Ht'].
      rewrite Ht'. apply (reify_app _ _ cells1) in Ht'. congruence.
    + exact Hc2.
  - unfold StoreHistory.canRedo in Hcan. cbn [index stack] in Hcan.
    apply Z.ltb_lt in Hcan.
    destruct (Hstep (i + 1)%Z h ltac:(lia) Hfull) as (c1 & cells1 & t1 & Hrun1 & _ & _).
    assert (Hi0 : (0 <= i)%Z \/ i = (-1)%Z) by lia.
    destruct Hi0 as [Hi0|Hi0].
    + destruct (Hstep i (h ++ cells1) ltac:(lia) (entries_in_full_app _ _ _ _ _ Hfull))
        as (c2 & cells2 & t & Hrun2 & Ht & Hc2).
      exists c1, (HWorld (History st (i + 1) m) (h ++ cells1)),
             c2, (HWorld (History st i m) ((h ++ cells1) ++ cells2)), t.
      split; [|split; [|split; [reflexivity|split]]].
      * rewrite redo_eq. cbn [hw_history hw_heap stack index maxSize].
        unfold StoreHistory.canRedo. cbn [index stack].
        destruct (Z.ltb_spec i (len st - 1)); [|lia]. now rewrite Hrun1.
      * rewrite undo_eq. cbn [hw_history hw_heap stack index maxSize].
        unfold StoreHistory.canUndo. cbn [index].
        destruct (Z.gtb_spec (i + 1) 0); [|lia].
        replace (i + 1 - 1)%Z with i by lia. now rewrite Hrun2.
      * destruct (List.Forall_forall (fun e => is_Some (reify depth h e)) st) as [Hf _].
        destruct (Hf Hall _ (at_index_In st i ltac:(lia))) as [t' Ht'].
        rewrite Ht'. apply (reify_app _ _ cells1) in Ht'. congruence.
      * exact Hc2.
    + exfalso. destruct Hnil as [Hnil _]. specialize (Hnil Hi0). subst st.
      unfold len in Hcan. simpl in Hcan. lia.
Qed.

Lemma undo_redo_inverse_witness :
  exists c1 w1 c2 w2 t,
    StoreHistory.undo None 4 two_entries = (Ret c1, w1) /\
    StoreHistory.redo None 4 w1 = (Ret c2, w2) /\
    hw_history w2 = History [VRef 2; VRef 1] 1 10 /\
    reify 3 nested_heap (VRef 1) = Some t /\
    reify 3 (hw_heap w2) c2 = Some t.
Proof.
  refine (proj1 (undo_redo_inverse None 4 3 two_entries
                   structuredClone_sound_absent _ _ _) eq_refl).
  - lia.
  - unfold history_inv, two_entries, len. simpl. repeat split; try lia; discriminate.
  - repeat constructor; eexists; (split; [reflexivity|right; reflexivity]).
Defined.

(* ================================================================== *)
(** * The history store: snapshots are independent *)
(* ================================================================== *)

(** X13. The entry that [push] adds does not share a cell with the
    document pushed: when the document is one that [deepClone] copies in
    full, whatever [setByPath] then does through that document, the entry
    under the pointer still stands for the document as it was when it was
    pushed. *)
Theorem push_snapshot_independent
  (sc : option native_clone) (fuel depth : nat) (w : hworld) (state : val) (t : json) :
  structuredClone_sound sc -> depth < fuel ->
  (1 <= maxSize (hw_history w))%Z ->
  reify depth (hw_heap w) state = Some t -> copied_in_full sc t ->
  exists w',
    StoreHistory.push sc fuel state w = (Ret tt, w') /\
    forall path value autoCreate con,
      let e' := snd (setByPath state path value autoCreate (Env (hw_heap w') con)) in
      reify depth (env_heap e')
            (at_index (stack (hw_history w')) (index (hw_history w'))) = Some t.
Proof.
  intros Hsc Hfuel Hm Hs Hfull.
  destruct (deepClone_reify sc Hsc fuel depth _ _ _ Hfuel Hs Hfull)
    as (copy & cells & Hrun & Hcopy).
  eexists. split; [rewrite push_eq, Hrun; reflexivity|].
  cbn [hw_history hw_heap]. intros path value ac con.
  rewrite appended_current by now rewrite truncated_maxSize.
  eapply reify_from_weaken; [| | |exact Hcopy]; [lia|lia|].
  intros l o Hl Ho.
  rewrite (setByPath_frame_reify 0 depth (hw_heap w) state t Hs ltac:(lia)
             cells path value ac con l); [exact Ho|].
  right. split; [exact Hl|]. eapply lookup_lt_Some; eauto.
Qed.

Lemma push_snapshot_independent_witness :
  exists w',
    StoreHistory.push None 4 (VRef 0) sample_hworld = (Ret tt, w') /\
    forall path value autoCreate con,
      let e' := snd (setByPath (VRef 0) path value autoCreate (Env (hw_heap w') con)) in
      reify 3 (env_heap e')
            (at_index (stack (hw_history w')) (index (hw_history w')))
      = Some (JObj [("0", JStr "z");
                    ("a", JArr [JNum (num_of_N 1); JObj [("b", JNull)]])]).
Proof.
  apply (push_snapshot_independent None 4 3 sample_hworld (VRef 0));
    [exact structuredClone_sound_absent | lia | simpl; lia | reflexivity
    | right; reflexivity].
Defined.

(** [undo] and [redo], when possible, on a history of documents. *)
Lemma undo_redo_frame_helper sc fuel depth (w : hworld) :
  structuredClone_sound sc -> depth < fuel -> history_inv (hw_history w) ->
  Forall (fun e => is_Some (reify depth (hw_heap w) e)) (stack (hw_history w)) ->
  forall op, (op = OpUndo /\ StoreHistory.canUndo (hw_history w) = true) \/
             (op = OpRedo /\ StoreHistory.canRedo (hw_history w) = true) ->
  exists copy cells t,
    run_op StoreHistory.store sc fuel op w
    = (Ret copy,
       HWorld (History (stack (hw_history w))
                       (match op with
                        | OpUndo => index (hw_history w) - 1
                        | _ => index (hw_history w) + 1
                        end)
                       (maxSize (hw_history w)))
              (hw_heap w ++ cells)) /\
    reify_from (length (hw_heap w)) depth (hw_heap w ++ cells) copy = Some t.
Proof.
  intros Hsc Hfuel (Hi & _ & _) Hall op [[-> Hcan]|[-> Hcan]]; cbn [run_op hs_undo hs_redo StoreHistory.store].
  - rewrite undo_eq. cbn zeta. rewrite Hcan.
    unfold StoreHistory.canUndo in Hcan. apply Z.gtb_lt in Hcan.
    destruct (clone_entry sc fuel depth w (index (hw_history w) - 1) Hsc Hfuel Hall)
      as (copy & cells & t & t' & Hrun & _ & Hc & _); [lia|].
    rewrite Hrun. exists copy, cells, t'. auto.
  - rewrite redo_eq. cbn zeta. rewrite Hcan.
    unfold StoreHistory.canRedo in Hcan. apply Z.ltb_lt in Hcan.
    destruct (clone_entry sc fuel depth w (index (hw_history w) + 1) Hsc Hfuel Hall)
      as (copy & cells & t & t' & Hrun & _ & Hc & _); [lia|].
    rewrite Hrun. exists copy, cells, t'. auto.
Qed.

(** X14. What [undo] and [redo] return does not share a cell with the
    history: whatever [setByPath] then does through the returned document,
    every entry of the stack stands for the same document as before. *)
Theorem undo_redo_result_independent
  (sc : option native_clone) (fuel depth : nat) (w : hworld) :
  let s := hw_history w in
  structuredClone_sound sc -> depth < fuel -> history_inv s ->
  Forall (fun e => is_Some (reify depth (hw_heap w) e)) (stack s) ->
  forall op, (op = OpUndo /\ StoreHistory.canUndo s = true) \/
             (op = OpRedo /\ StoreHistory.canRedo s = true) ->
  exists copy w',
    run_op StoreHistory.store sc fuel op w = (Ret copy, w') /\
    stack (hw_history w') = stack s /\
    forall path value autoCreate con,
      let e' := snd (setByPath copy path value autoCreate (Env (hw_heap w') con)) in
      Forall (fun entry => reify depth (env_heap e') entry
                           = reify depth (hw_heap w) entry) (stack s).
Proof.
  intros s Hsc Hfuel Hinv Hall op Hop.
  destruct (undo_redo_frame_helper sc fuel depth w Hsc Hfuel Hinv Hall op Hop)
    as (copy & cells & t & Hrun & Hcopy).
  exists copy. eexists. split; [exact Hrun|]. split; [reflexivity|].
  cbn [hw_heap]. intros path value ac con.
  rewrite List.Forall_forall in Hall. apply List.Forall_forall.
  intros entry Hin. destruct (Hall _ Hin) as [te Hte]. rewrite Hte.
  eapply reify_from_weaken; [| | |exact Hte]; [lia|lia|].
  intros l o _ Ho.
  pose proof (setByPath_frame_reify _ _ _ _ _ Hcopy
                ltac:(rewrite length_app; lia) [] path value ac con l
                (or_introl (lookup_lt_Some _ _ _ Ho))) as H.
  rewrite app_nil_r in H. cbn zeta in H. rewrite H. now apply lookup_app_l_Some.
Qed.

Lemma undo_redo_result_independent_witness :
  exists copy w',
    run_op StoreHistory.store None 4 OpUndo two_entries = (Ret copy, w') /\
    stack (hw_history w') = [VRef 2; VRef 1] /\
    forall path value autoCreate con,
      let e' := snd (setByPath copy path value autoCreate (Env (hw_heap w') con)) in
      Forall (fun entry => reify 3 (env_heap e') entry = reify 3 nested_heap entry)
             [VRef 2; VRef 1].
Proof.
  apply (undo_redo_result_independent None 4 3 two_entries
           structuredClone_sound_absent).
  - lia.
  - unfold history_inv, two_entries, len. simpl. repeat split; try lia; discriminate.
  - repeat constructor; eexists; reflexivity.
  - left. split; reflexivity.
Defined.

(* ================================================================== *)
(** * The history store: undo after undo *)
(* ================================================================== *)

Lemma undo_walk sc fuel depth : structuredClone_sound sc -> depth < fuel ->
  forall k (st : list val) (i m : Z) (h : heap) (off : nat),
    (Z.of_nat k <= i < len st)%Z ->
    Forall (document_in_full sc depth h) st ->
    exists rs cells,
      run_ops StoreHistory.store sc fuel (repeat OpUndo k) (HWorld (History st i m) h)
      = (rs, HWorld (History st (i - Z.of_nat k) m) (h ++ cells)) /\
      Forall2 (fun r j =>
                 exists c t, r = Ret c /\
                   reify depth (h ++ cells) c = Some t /\
                   reify depth h (at_index st (i + Z.of_nat off - Z.of_nat j)) = Some t)
              rs (seq (S off) k).
Proof.
  intros Hsc Hfuel. induction k as [|k IH]; intros st i m h off Hi Hfull.
  - exists [], []. cbn [repeat run_ops seq]. rewrite app_nil_r, Z.sub_0_r.
    split; [reflexivity|constructor].
  - pose proof (entries_in_full_reify _ _ _ _ Hfull) as Hall.
    cbn [repeat run_ops run_op hs_undo StoreHistory.store seq].
    rewrite undo_eq. cbn [hw_history hw_heap stack index maxSize].
    unfold StoreHistory.canUndo. cbn [index].
    destruct (Z.gtb_spec i 0); [|lia].
    destruct (clone_entry_in_full sc fuel depth (HWorld (History st i m) h) (i - 1)
                Hsc Hfuel Hfull ltac:(cbn; lia))
      as (copy & cells & t & Hrun & Ht & Hc).
    cbn [hw_history hw_heap stack] in Hrun, Ht, Hc. rewrite Hrun.
    destruct (IH st (i - 1)%Z m (h ++ cells) (S off) ltac:(lia)
                (entries_in_full_app _ _ _ _ _ Hfull)) as (rs & cells' & Hrest & Hrs).
    rewrite Hrest. exists (Ret copy :: rs), (cells ++ cells').
    rewrite app_assoc. split; [f_equal; f_equal; f_equal; lia|].
    constructor.
    + exists copy, t. split; [reflexivity|]. split.
      * apply reify_app. eapply reify_from_weaken; [| | |exact Hc]; auto. lia.
      * rewrite <- Ht. f_equal. f_equal. lia.
    + eapply List.Forall2_impl; [|exact Hrs].
      intros r j (c & t' & -> & Hc' & Ht'). exists c, t'.
      split; [reflexivity|]. split; [exact Hc'|].
      rewrite List.Forall_forall in Hall.
      replace (i + Z.of_nat off - Z.of_nat j)%Z
        with (i - 1 + Z.of_nat (S off) - Z.of_nat j)%Z by lia.
      destruct (reify depth h (at_index st (i - 1 + Z.of_nat (S off) - Z.of_nat j)))
        as [t0|] eqn:Hr0.
      * apply (reify_app _ _ cells) in Hr0. congruence.
      * exfalso.
        set (x := at_index st (i - 1 + Z.of_nat (S off) - Z.of_nat j)) in *.
        assert (Hx : is_ref x = false \/ In x st).
        { unfold x, at_index.
          destruct (_ <? 0)%Z; [now left|].
          destruct (nth_in_or_default
                      (Z.to_nat (i - 1 + Z.of_nat (S off) - Z.of_nat j)) st VUndefined)
            as [Hn|Hn]; [now right|left; now rewrite Hn]. }
        destruct Hx as [Hx|Hx].
        -- unfold reify in Hr0, Ht'.
           rewrite (reify_from_prim x 0 0 depth depth h (h ++ cells) Hx) in Hr0.
           congruence.
        -- destruct (Hall _ Hx) as [t0 Ht0]. congruence.
Qed.

(** X15. On a history of JSON documents that [deepClone] copies in full,
    [k] calls of [undo()] in a row, with [k] at most the index, walk back
    one entry at a time: the [j]-th call returns a copy of the entry [j]
    places before the pointer, the stack is left as it is, and the pointer
    ends [k] places back. After as many calls as the index, [undo()]
    returns [null]. *)
Theorem undo_walks_back
  (sc : option native_clone) (fuel depth k : nat) (w : hworld) :
  let s := hw_history w in
  structuredClone_sound sc -> depth < fuel -> history_inv s ->
  Forall (document_in_full sc depth (hw_heap w)) (stack s) ->
  (Z.of_nat k <= index s)%Z ->
  exists rs w',
    run_ops StoreHistory.store sc fuel (repeat OpUndo k) w = (rs, w') /\
    hw_history w' = History (stack s) (index s - Z.of_nat k) (maxSize s) /\
    Forall2 (fun r j =>
               exists c t, r = Ret c /\
                 reify depth (hw_heap w') c = Some t /\
                 reify depth (hw_heap w) (at_index (stack s) (index s - Z.of_nat j))
                 = Some t)
            rs (seq 1 k) /\
    (Z.of_nat k = index s -> StoreHistory.undo sc fuel w' = (Ret VNull, w')).
Proof.
  intros s Hsc Hfuel (Hi & _ & _) Hall Hk.
  destruct w as [[st i m] h]. cbn [hw_history] in s. subst s.
  cbn [stack index maxSize hw_heap] in *.
  destruct (undo_walk sc fuel depth Hsc Hfuel k st i m h 0 ltac:(lia) Hall)
    as (rs & cells & Hrun & Hrs).
  exists rs. eexists. split; [exact Hrun|]. split; [reflexivity|]. split.
  - cbn [hw_heap]. eapply List.Forall2_impl; [|exact Hrs].
    intros r j (c & t & -> & Hc & Ht). exists c, t.
    rewrite Z.add_0_r in Ht. auto.
  - intros He. rewrite undo_eq. cbn [hw_history index].
    unfold StoreHistory.canUndo. cbn [index].
    destruct (Z.gtb_spec (i - Z.of_nat k) 0); [lia|reflexivity].
Qed.

Lemma undo_walks_back_witness :
  exists rs w',
    run_ops StoreHistory.store None 4 (repeat OpUndo 1) two_entries = (rs, w') /\
    hw_history w' = History [VRef 2; VRef 1] (1 - 1) 10 /\
    Forall2 (fun r j =>
               exists c t, r = Ret c /\
                 reify 3 (hw_heap w') c = Some t /\
                 reify 3 nested_heap (at_index [VRef 2; VRef 1] (1 - Z.of_nat j))
                 = Some t)
            rs (seq 1 1) /\
    (Z.of_nat 1 = 1%Z -> StoreHistory.undo None 4 w' = (Ret VNull, w')).
Proof.
  apply (undo_walks_back None 4 3 1 two_entries structuredClone_sound_absent).
  - lia.
  - unfold history_inv, two_entries, len. simpl. repeat split; try lia; discriminate.
  - repeat constructor; eexists; (split; [reflexivity|right; reflexivity]).
  - simpl. lia.
Defined.

(* ================================================================== *)
(** * createEmptyCard *)
(* ================================================================== *)

Lemma alloc_app (h ext : heap) o :
  alloc o (h ++ ext) = (Ret (VRef (length h + length ext)), h ++ (ext ++ [o])).
Proof. unfold alloc. now rewrite length_app, app_assoc. Qed.

Lemma set_prop_app (h ext : heap) i o key v o' :
  ext !! i = Some o -> proto_write o key = false -> obj_set o key v = Ret o' ->
  set_prop (VRef (length h + i)) key v (h ++ ext) = (Ret tt, h ++ <[i := o']> ext).
Proof.
  intros Hi Hp Hs. unfold set_prop.
  rewrite lookup_app_r by lia.
  replace (length h + i - length h) with i by lia. rewrite Hi, Hp, Hs.
  cbn [andb]. rewrite insert_app_r_alt by lia.
  now replace (length h + i - length h) with i by lia.
Qed.

Lemma reify_from_app_ref (h cells : heap) n i o ts :
  cells !! i = Some o ->
  Forall2 (fun v t => reify_from (length h) n (h ++ cells) v = Some t)
          (map snd (props o)) ts ->
  reify_from (length h) (S n) (h ++ cells) (VRef (length h + i)) =
    match kind o with
    | KArray len =>
        if (len <? 4294967296)%N && keys_eqb (own_keys o) (index_keys len)
        then Some (JArr ts) else None
    | KObject =>
        if keys_nodup (own_keys o) && keys_ordered (own_keys o)
        then Some (JObj (combine (own_keys o) ts)) else None
    end.
Proof.
  intros Hi Hts. apply reify_from_ref_intro; [lia| |].
  - rewrite lookup_app_r by lia. now replace (length h + i - length h) with i by lia.
  - now apply Forall2_fmap_l in Hts.
Qed.

(** A new card: fresh cells that stand for the document of an empty
    card. *)
Lemma createEmptyCard_eq (h : heap) :
  exists cells,
    createEmptyCard h = (Ret (VRef (length h)), h ++ cells) /\
    reify_from (length h) 3 (h ++ cells) (VRef (length h)) = Some empty_card_json.
Proof.
  eexists. split.
  - unfold createEmptyCard.
    rewrite <- (app_nil_r h) at 1.
    repeat first
      [ progress (unfold bind at 1)
      | rewrite alloc_app; cbn [length app Nat.add]
      | erewrite set_prop_app;
          [|reflexivity|reflexivity|lazy -[Nat.add length]; reflexivity];
        cbn [list_insert insert] ].
    unfold ret. rewrite Nat.add_0_r. reflexivity.
  - match goal with |- reify_from _ _ (_ ++ ?c) _ = _ => set (cells := c) end.
    assert (Harr : forall i, In i [2; 3; 4; 6; 7] ->
              reify_from (length h) 1 (h ++ cells) (VRef (length h + i))
              = Some (JArr [])).
    { intros i Hi.
      assert (Hc : cells !! i = Some empty_array)
        by (repeat (destruct Hi as [<-|Hi]; [reflexivity|]); contradiction).
      now rewrite (reify_from_app_ref h cells 0 i _ [] Hc) by constructor. }
    assert (Hext : reify_from (length h) 1 (h ++ cells) (VRef (length h + 5))
                   = Some (JObj [])).
    { now rewrite (reify_from_app_ref h cells 0 5 empty_object []) by
          first [reflexivity|constructor]. }
    pose proof (Harr 2 ltac:(simpl; tauto)) as H2.
    pose proof (Harr 3 ltac:(simpl; tauto)) as H3.
    pose proof (Harr 4 ltac:(simpl; tauto)) as H4.
    pose proof (Harr 6 ltac:(simpl; tauto)) as H6.
    pose proof (Harr 7 ltac:(simpl; tauto)) as H7.
    assert (Hdata : exists t,
              reify_from (length h) 2 (h ++ cells) (VRef (length h + 1)) = Some t /\
              JObj [("spec", JStr "chara_card_v3"); ("spec_version", JStr "3.0");
                    ("data", t)] = empty_card_json).
    { eexists. split.
      - erewrite (reify_from_app_ref h cells 1 1); [|reflexivity|].
        + lazy -[Nat.add length]. reflexivity.
        + cbn [props map snd].
          repeat (first [apply Forall2_nil
                        |apply Forall2_cons; [first [eassumption|reflexivity]|]]).
      - reflexivity. }
    destruct Hdata as (t & Ht & <-).
    replace (VRef (length h)) with (VRef (length h + 0)) by (f_equal; lia).
    erewrite (reify_from_app_ref h cells 2 0); cycle 1.
    + reflexivity.
    + cbn [props map snd].
      repeat (first [apply Forall2_nil
                    |apply Forall2_cons; [first [eassumption|reflexivity]|]]).
    + lazy -[Nat.add length]. reflexivity.
Qed.

(* ================================================================== *)
(** * The card store: settling *)
(* ================================================================== *)

(** With nothing changed and the two documents equal, the flag stays
    [false] whatever time passes: a check that is still pending finds
    nothing. *)
Lemma wait_clean fuel dt w :
  timers_consistent w -> hasChanges (cw_card w) = false ->
  deepEqual fuel (data (cw_card w)) (originalData (cw_card w)) (cw_heap w)
  = (Ret true, cw_heap w) ->
  hasChanges (cw_card (wait fuel dt w)) = false /\
  data (cw_card (wait fuel dt w)) = data (cw_card w) /\
  originalData (cw_card (wait fuel dt w)) = originalData (cw_card w) /\
  cw_heap (wait fuel dt w) = cw_heap w.
Proof.
  destruct w as [[d o c t] h now ts next fired]. unfold timers_consistent.
  cbn [cw_card cw_heap cw_timers _checkChangesTimer hasChanges data originalData].
  intros Hts -> Heq.
  assert (Hcases : ts = [] \/ exists id due, ts = [Timer id due]).
  { destruct t as [id|]; [destruct Hts as [->|[due ->]]|]; eauto. }
  clear Hts. destruct Hcases as [->|(id & due & ->)].
  - unfold wait. cbn. auto.
  - unfold wait. cbn [cw_timers length run_timers next_due timer_due cw_now].
    destruct (N.leb_spec due (now + dt)); [|cbn; auto].
    unfold checkChanges_callback, bind, gets, in_card_heap, zoom, set_hasChanges,
      set_checkChangesTimer, set_card, modify.
    cbn [cw_card cw_heap cw_now cw_timers cw_next_timer cw_fired data originalData
         snd fst].
    rewrite Heq. cbn. auto.
Qed.

Lemma separated_deepEqual fuel depth (h : heap) d o t :
  depth < fuel -> separated depth h d o t t ->
  deepEqual fuel d o h = (Ret true, h).
Proof.
  intros Hfuel (h0 & ext & -> & [[Hd Ho]|[Ho Hd]]);
    apply (deepEqual_reify fuel _ _ _ t depth Hfuel);
    try (now apply reify_app);
    (eapply reify_from_weaken; [| | |eassumption]; auto; lia).
Qed.

(** Through the current document, [setByPath] does not reach the
    original. *)
Lemma separated_setByPath depth (h : heap) d o tc t path value ac con :
  separated depth h d o tc t ->
  reify depth (env_heap (snd (setByPath d path value ac (Env h con)))) o = Some t.
Proof.
  intros (h0 & ext & -> & [[Hd Ho]|[Ho Hd]]).
  - eapply reify_from_weaken; [| | |exact Ho]; [lia|lia|].
    intros l x Hl Hx.
    rewrite (setByPath_frame_reify 0 depth h0 d tc Hd ltac:(lia)
               ext path value ac con l); [exact Hx|].
    right. split; [exact Hl|]. eapply lookup_lt_Some; eauto.
  - eapply reify_from_weaken; [| | |exact Ho]; [lia|lia|].
    intros l x _ Hx.
    pose proof (setByPath_frame_reify _ _ _ _ _ Hd
                  ltac:(rewrite length_app; lia) [] path value ac con l
                  (or_introl (lookup_lt_Some _ _ _ Hx))) as H.
    rewrite app_nil_r in H. cbn zeta in H. rewrite H. now apply lookup_app_l_Some.
Qed.

(** A call on the heap of the store. *)
Lemma store_heap_intro {A} (m : M heap A) (s : sworld) r h' :
  m (cw_heap (sw_world s)) = (r, h') ->
  store_heap m s
  = (r, SWorld (CWorld (cw_card (sw_world s)) h' (cw_now (sw_world s))
                       (cw_timers (sw_world s)) (cw_next_timer (sw_world s))
                       (cw_fired (sw_world s)))
               (sw_source s) (sw_console s)).
Proof.
  unfold store_heap, in_store, in_card_heap, zoom. intros ->. reflexivity.
Qed.

Local Ltac store_step :=
  erewrite bind_ret_intro by (lazy; reflexivity).

Local Ltac store_call H :=
  erewrite bind_ret_intro by (apply store_heap_intro; exact H);
  cbn [sw_world sw_source sw_console cw_card cw_heap cw_now cw_timers
       cw_next_timer cw_fired data originalData hasChanges _checkChangesTimer].

Lemma initNew_run sc fuel (s : sworld) copy cells cells' :
  createEmptyCard (cw_heap (sw_world s))
  = (Ret (VRef (length (cw_heap (sw_world s)))), cw_heap (sw_world s) ++ cells) ->
  deepClone sc fuel (VRef (length (cw_heap (sw_world s))))
            (cw_heap (sw_world s) ++ cells)
  = (Ret copy, (cw_heap (sw_world s) ++ cells) ++ cells') ->
  CardStore.initNew sc fuel s
  = (Ret tt,
     SWorld (CWorld (Card (VRef (length (cw_heap (sw_world s)))) copy false
                          (_checkChangesTimer (cw_card (sw_world s))))
                    ((cw_heap (sw_world s) ++ cells) ++ cells')
                    (cw_now (sw_world s)) (cw_timers (sw_world s))
                    (cw_next_timer (sw_world s)) (cw_fired (sw_world s)))
            (CardSource VNull VNull VNull VNull None) (sw_console s)).
Proof.
  destruct s as [[[d o c tm] h now ts next fired] [f1 f2 f3 f4 f5] con].
  cbn [sw_world sw_source sw_console cw_card cw_heap cw_now cw_timers
       cw_next_timer cw_fired data originalData hasChanges _checkChangesTimer].
  intros Hnew Hclone. unfold CardStore.initNew.
  store_call Hnew. store_step. store_step. store_call Hclone.
  repeat store_step. reflexivity.
Qed.

Lemma loadCard_run sc fuel (s : sworld) l ob file img copy cells' :
  is_nullish (default_arg file VNull) = true ->
  cw_heap (sw_world s) !! l = Some ob ->
  deepClone sc fuel (obj_get ob "card") (cw_heap (sw_world s))
  = (Ret copy, cw_heap (sw_world s) ++ cells') ->
  CardStore.loadCard sc fuel (VRef l) file img s
  = (Ret tt,
     SWorld (CWorld (Card (obj_get ob "card") copy false
                          (_checkChangesTimer (cw_card (sw_world s))))
                    (cw_heap (sw_world s) ++ cells')
                    (cw_now (sw_world s)) (cw_timers (sw_world s))
                    (cw_next_timer (sw_world s)) (cw_fired (sw_world s)))
            (CardSource (default_arg file VNull) (obj_get ob "source_format")
                        (default_arg img VNull) VNull None)
            (sw_console s)).
Proof.
  destruct s as [[[d o c tm] h now ts next fired] [f1 f2 f3 f4 f5] con].
  cbn [sw_world sw_source sw_console cw_card cw_heap cw_now cw_timers
       cw_next_timer cw_fired data originalData hasChanges _checkChangesTimer].
  intros Hfile Hl Hclone.
  assert (Hl' : (h ++ cells') !! l = Some ob) by now apply lookup_app_l_Some.
  assert (Hget : get_prop (VRef l) "card" h = (Ret (obj_get ob "card"), h))
    by (apply get_prop_ref; [exact Hl|now apply reads_prototype_name]).
  assert (Hget' : get_prop (VRef l) "source_format" (h ++ cells')
                  = (Ret (obj_get ob "source_format"), h ++ cells'))
    by (apply get_prop_ref; [exact Hl'|now apply reads_prototype_name]).
  assert (Himage : file_is_image (default_arg file VNull) (h ++ cells')
                   = (Ret false, h ++ cells'))
    by (unfold file_is_image; now rewrite Hfile).
  unfold CardStore.loadCard. cbn zeta.
  set (file' := default_arg file VNull) in *.
  set (img' := default_arg img VNull) in *.
  set (c1 := obj_get ob "card") in *.
  set (fmt := obj_get ob "source_format") in *.
  clearbody file' img'.
  pose proof Hget as H1. fold c1 in H1.
  pose proof Hget' as H2. fold fmt in H2.
  clearbody c1 fmt.
  store_call H1. store_step. store_call H1. store_call Hclone.
  store_step. store_step. store_call H2. store_step. store_step.
  store_call Himage. repeat store_step. reflexivity.
Qed.

Lemma markSaved_run sc fuel (s : sworld) copy cells' :
  deepClone sc fuel (data (cw_card (sw_world s))) (cw_heap (sw_world s))
  = (Ret copy, cw_heap (sw_world s) ++ cells') ->
  CardStore.markSaved sc fuel s
  = (Ret tt,
     SWorld (CWorld (Card (data (cw_card (sw_world s))) copy false
                          (_checkChangesTimer (cw_card (sw_world s))))
                    (cw_heap (sw_world s) ++ cells')
                    (cw_now (sw_world s)) (cw_timers (sw_world s))
                    (cw_next_timer (sw_world s)) (cw_fired (sw_world s)))
            (CardSource (sourceFile (sw_source s)) (sourceFormat (sw_source s))
                        (imageDataUrl (sw_source s)) (imageFile (sw_source s))
                        (Some (cw_now (sw_world s))))
            (sw_console s)).
Proof.
  destruct s as [[[d o c tm] h now ts next fired] [f1 f2 f3 f4 f5] con].
  cbn [sw_world sw_source sw_console cw_card cw_heap cw_now cw_timers
       cw_next_timer cw_fired data originalData hasChanges _checkChangesTimer
       sourceFile sourceFormat imageDataUrl imageFile].
  intros Hclone. unfold CardStore.markSaved.
  store_step. store_call Hclone. repeat store_step. reflexivity.
Qed.

Lemma reset_run sc fuel (s : sworld) copy cells' :
  truthy (originalData (cw_card (sw_world s))) = true ->
  deepClone sc fuel (originalData (cw_card (sw_world s))) (cw_heap (sw_world s))
  = (Ret copy, cw_heap (sw_world s) ++ cells') ->
  CardStore.reset sc fuel s
  = (Ret tt,
     SWorld (CWorld (Card copy (originalData (cw_card (sw_world s))) false
                          (_checkChangesTimer (cw_card (sw_world s))))
                    (cw_heap (sw_world s) ++ cells')
                    (cw_now (sw_world s)) (cw_timers (sw_world s))
                    (cw_next_timer (sw_world s)) (cw_fired (sw_world s)))
            (sw_source s) (sw_console s)).
Proof.
  destruct s as [[[d o c tm] h now ts next fired] src con].
  cbn [sw_world sw_source sw_console cw_card cw_heap cw_now cw_timers
       cw_next_timer cw_fired data originalData hasChanges _checkChangesTimer].
  intros Htruthy Hclone. unfold CardStore.reset.
  store_step.
  cbn [sw_world sw_source sw_console cw_card cw_heap cw_now cw_timers
       cw_next_timer cw_fired data originalData hasChanges _checkChangesTimer].
  rewrite Htruthy.
  store_call Hclone. repeat store_step. reflexivity.
Qed.

Lemma clear_run (s : sworld) :
  CardStore.clear s
  = (Ret tt,
     SWorld (CWorld (Card VNull VNull false
                          (_checkChangesTimer (cw_card (sw_world s))))
                    (cw_heap (sw_world s))
                    (cw_now (sw_world s)) (cw_timers (sw_world s))
                    (cw_next_timer (sw_world s)) (cw_fired (sw_world s)))
            (CardSource VNull VNull VNull VNull None) (sw_console s)).
Proof.
  destruct s as [[[d o c tm] h now ts next fired] [f1 f2 f3 f4 f5] con].
  unfold CardStore.clear. repeat store_step. reflexivity.
Qed.

(** What the methods that settle the store leave behind. *)
Lemma run_settle_result sc fuel depth (s : sworld) (op : card_settle) :
  structuredClone_sound sc -> depth < fuel -> 3 <= depth ->
  settle_ready depth s op ->
  exists s' tc to,
    run_settle sc fuel op s = (Ret tt, s') /\
    hasChanges (cw_card (sw_world s')) = false /\
    _checkChangesTimer (cw_card (sw_world s'))
    = _checkChangesTimer (cw_card (sw_world s)) /\
    cw_timers (sw_world s') = cw_timers (sw_world s) /\
    separated depth (cw_heap (sw_world s'))
              (data (cw_card (sw_world s'))) (originalData (cw_card (sw_world s')))
              tc to /\
    (settle_in_full sc depth s op -> tc = to).
Proof.
  intros Hsc Hfuel Hdepth Hready.
  destruct op as [|pr file img| | |]; cbn [run_settle settle_in_full].
  - (* initNew *)
    destruct (createEmptyCard_eq (cw_heap (sw_world s))) as (cells & Hnew & Hdoc).
    assert (Hdoc' : reify depth (cw_heap (sw_world s) ++ cells)
                          (VRef (length (cw_heap (sw_world s))))
                    = Some empty_card_json).
    { eapply reify_from_weaken; [| | |exact Hdoc]; auto. lia. }
    destruct (deepClone_reify sc Hsc fuel depth _ _ _ Hfuel Hdoc')
      as (copy & cells' & Hclone & Hcopy); [right; reflexivity|].
    eexists. exists empty_card_json, empty_card_json.
    split; [exact (initNew_run sc fuel s copy cells cells' Hnew Hclone)|].
    cbn [sw_world cw_card cw_heap cw_timers data originalData hasChanges
         _checkChangesTimer].
    split; [reflexivity|]. split; [reflexivity|]. split; [reflexivity|].
    split; [|reflexivity].
    exists (cw_heap (sw_world s) ++ cells), cells'. split; [reflexivity|].
    left. auto.
  - (* loadCard *)
    destruct Hready as (Hfile & l & ob & -> & Hl & [t Ht]).
    destruct (deepClone_copy sc Hsc fuel depth _ _ _ Hfuel Ht)
      as (copy & cells' & t' & Hclone & Hcopy & Hsame).
    eexists. exists t, t'.
    split; [exact (loadCard_run sc fuel s l ob file img copy cells' Hfile Hl Hclone)|].
    cbn [sw_world cw_card cw_heap cw_timers data originalData hasChanges
         _checkChangesTimer].
    split; [reflexivity|]. split; [reflexivity|]. split; [reflexivity|]. split.
    + exists (cw_heap (sw_world s)), cells'. split; [reflexivity|]. left. auto.
    + intros Hfull. destruct (Hfull l ob eq_refl Hl) as (t0 & Ht0 & Hfull0).
      symmetry. apply Hsame. congruence.
  - (* markSaved *)
    destruct Hready as [t Ht].
    destruct (deepClone_copy sc Hsc fuel depth _ _ _ Hfuel Ht)
      as (copy & cells' & t' & Hclone & Hcopy & Hsame).
    eexists. exists t, t'.
    split; [exact (markSaved_run sc fuel s copy cells' Hclone)|].
    cbn [sw_world cw_card cw_heap cw_timers data originalData hasChanges
         _checkChangesTimer].
    split; [reflexivity|]. split; [reflexivity|]. split; [reflexivity|]. split.
    + exists (cw_heap (sw_world s)), cells'. split; [reflexivity|]. left. auto.
    + intros (t0 & Ht0 & Hfull0). symmetry. apply Hsame. congruence.
  - (* reset *)
    destruct Hready as [Htruthy [t Ht]].
    destruct (deepClone_copy sc Hsc fuel depth _ _ _ Hfuel Ht)
      as (copy & cells' & t' & Hclone & Hcopy & Hsame).
    eexists. exists t', t.
    split; [exact (reset_run sc fuel s copy cells' Htruthy Hclone)|].
    cbn [sw_world cw_card cw_heap cw_timers data originalData hasChanges
         _checkChangesTimer].
    split; [reflexivity|]. split; [reflexivity|]. split; [reflexivity|]. split.
    + exists (cw_heap (sw_world s)), cells'. split; [reflexivity|]. right. auto.
    + intros (t0 & Ht0 & Hfull0). apply Hsame. congruence.
  - (* clear *)
    eexists. exists JNull, JNull. split; [exact (clear_run s)|].
    cbn [sw_world cw_card cw_heap cw_timers data originalData hasChanges
         _checkChangesTimer].
    split; [reflexivity|]. split; [reflexivity|]. split; [reflexivity|].
    split; [|reflexivity].
    exists (cw_heap (sw_world s)), []. split; [now rewrite app_nil_r|]. left.
    split; [now destruct depth|now destruct depth].
Qed.

(** X16. [initNew], [loadCard] of a parsed card, [markSaved], [reset] to an
    existing original and [clear] return and leave [hasChanges] false; and
    when the document they copy is one that [deepClone] copies in full, the
    flag stays false however much time passes afterwards, also when a check
    scheduled by an earlier [checkChanges] is still pending and runs: it
    finds the current document equal to the original. *)
Theorem settle_stays_clean
  (sc : option native_clone) (fuel depth : nat) (s : sworld) (op : card_settle) :
  structuredClone_sound sc -> depth < fuel -> 3 <= depth ->
  timers_consistent (sw_world s) -> settle_ready depth s op ->
  exists s',
    run_settle sc fuel op s = (Ret tt, s') /\
    hasChanges (cw_card (sw_world s')) = false /\
    (settle_in_full sc depth s op ->
     forall dt, hasChanges (cw_card (sw_world (store_wait fuel dt s'))) = false).
Proof.
  intros Hsc Hfuel Hdepth Htimers Hready.
  destruct (run_settle_result sc fuel depth s op Hsc Hfuel Hdepth Hready)
    as (s' & tc & to & Hrun & Hclean & Htm & Hts & Hsep & Hsame).
  exists s'. split; [exact Hrun|]. split; [exact Hclean|].
  intros Hfull dt. rewrite (Hsame Hfull) in Hsep.
  unfold store_wait. cbn [sw_world].
  apply wait_clean; [|exact Hclean|eapply separated_deepEqual; eauto].
  unfold timers_consistent in *. now rewrite Htm, Hts.
Qed.

Lemma updateField_eq path value s :
  CardStore.updateField path value s =
    let w := sw_world s in
    let c := cw_card w in
    if truthy (data c) then
      let (r, e') := setByPath (data c) path value true
                       (Env (cw_heap w) (sw_console s)) in
      let w1 := CWorld c (env_heap e') (cw_now w) (cw_timers w)
                       (cw_next_timer w) (cw_fired w) in
      match r with
      | Ret _ =>
          let (r2, w2) := checkChanges w1 in
          (r2, SWorld w2 (sw_source s) (env_console e'))
      | _ => (rethrow r tt, SWorld w1 (sw_source s) (env_console e'))
      end
    else (Ret tt, s).
Proof.
  destruct s as [[c h now ts next fired] src con].
  unfold CardStore.updateField, bind, in_store, store_env, zoom, gets.
  cbn [sw_world sw_source sw_console cw_card cw_heap cw_now cw_timers
       cw_next_timer cw_fired].
  destruct (truthy (data c)); cbn [negb]; [|reflexivity].
  cbn [sw_world sw_source sw_console cw_card cw_heap cw_now cw_timers
       cw_next_timer cw_fired].
  destruct (setByPath (data c) path value true (Env h con)) as [[[]|e| |] e'];
    cbn [sw_world sw_source sw_console cw_card cw_heap cw_now cw_timers
         cw_next_timer cw_fired rethrow]; reflexivity.
Qed.

(** [checkChanges] touches the flag and the timer, nothing else. *)
Lemma checkChanges_documents w :
  data (cw_card (snd (checkChanges w))) = data (cw_card w) /\
  originalData (cw_card (snd (checkChanges w))) = originalData (cw_card w) /\
  cw_heap (snd (checkChanges w)) = cw_heap w.
Proof.
  destruct w as [[d o c [id|]] h now ts next fired]; cbn; auto.
Qed.

Lemma settle_stays_clean_witness :
  exists s',
    run_settle None 4 Reset sample_sworld = (Ret tt, s') /\
    hasChanges (cw_card (sw_world s')) = false /\
    forall dt, hasChanges (cw_card (sw_world (store_wait 4 dt s'))) = false.
Proof.
  destruct (settle_stays_clean None 4 3 sample_sworld Reset
              structuredClone_sound_absent) as (s' & Hrun & Hclean & Hwait).
  - lia.
  - lia.
  - reflexivity.
  - split; [reflexivity|]. eexists. reflexivity.
  - exists s'. split; [exact Hrun|]. split; [exact Hclean|].
    apply Hwait. eexists. split; [reflexivity|right; reflexivity].
Defined.

(** X17. After [initNew], [loadCard], [markSaved], [reset] or [clear], the
    original document shares no cell with the current one: whatever
    [updateField] then does, with any path and value and however it ends,
    [originalData] is the same value and stands for the same document. *)
Theorem settle_original_independent
  (sc : option native_clone) (fuel depth : nat) (s : sworld) (op : card_settle) :
  structuredClone_sound sc -> depth < fuel -> 3 <= depth ->
  settle_ready depth s op ->
  exists s' t,
    run_settle sc fuel op s = (Ret tt, s') /\
    reify depth (cw_heap (sw_world s')) (originalData (cw_card (sw_world s')))
    = Some t /\
    forall path value,
      let s'' := snd (CardStore.updateField path value s') in
      originalData (cw_card (sw_world s'')) = originalData (cw_card (sw_world s')) /\
      reify depth (cw_heap (sw_world s'')) (originalData (cw_card (sw_world s')))
      = Some t.
Proof.
  intros Hsc Hfuel Hdepth Hready.
  destruct (run_settle_result sc fuel depth s op Hsc Hfuel Hdepth Hready)
    as (s' & tc & t & Hrun & _ & _ & _ & Hsep & _).
  exists s', t. split; [exact Hrun|].
  assert (Ho : reify depth (cw_heap (sw_world s'))
                 (originalData (cw_card (sw_world s'))) = Some t).
  { destruct Hsep as (h0 & ext & -> & [[_ Ho]|[Ho _]]).
    - eapply reify_from_weaken; [| | |exact Ho]; auto. lia.
    - now apply reify_app. }
  split; [exact Ho|]. intros path value s''. subst s''.
  rewrite updateField_eq. cbn zeta.
  destruct (truthy (data (cw_card (sw_world s')))); [|auto].
  pose proof (separated_setByPath depth _ _ _ tc t path value true (sw_console s') Hsep)
    as Hset.
  destruct (setByPath (data (cw_card (sw_world s'))) path value true
              (Env (cw_heap (sw_world s')) (sw_console s'))) as [r e'].
  cbn [snd] in Hset.
  destruct r as [[]|e| |]; cbn [snd sw_world cw_card cw_heap rethrow]; auto.
  match goal with
  | |- context [checkChanges ?w] =>
      destruct (checkChanges_documents w) as (_ & Ho' & Hh');
      destruct (checkChanges w) as [r2 w2]
  end.
  cbn [snd sw_world cw_card cw_heap] in *. now rewrite Ho', Hh'.
Qed.

Lemma settle_original_independent_witness :
  exists s' t,
    run_settle None 4 MarkSaved sample_sworld = (Ret tt, s') /\
    reify 3 (cw_heap (sw_world s')) (originalData (cw_card (sw_world s')))
    = Some t /\
    forall path value,
      let s'' := snd (CardStore.updateField path value s') in
      originalData (cw_card (sw_world s'')) = originalData (cw_card (sw_world s')) /\
      reify 3 (cw_heap (sw_world s'')) (originalData (cw_card (sw_world s')))
      = Some t.
Proof.
  apply (settle_original_independent None 4 3 sample_sworld MarkSaved
           structuredClone_sound_absent).
  - lia.
  - lia.
  - eexists. reflexivity.
Defined.

(* ================================================================== *)
(** * The card store: updateField and getField *)
(* ================================================================== *)

Lemma getField_eq path s :
  CardStore.getField path s =
    let w := sw_world s in
    if truthy (data (cw_card w)) then
      let (r, h') := getByPath (data (cw_card w)) path (cw_heap w) in
      (r, SWorld (CWorld (cw_card w) h' (cw_now w) (cw_timers w)
                         (cw_next_timer w) (cw_fired w))
                 (sw_source s) (sw_console s))
    else (Ret VUndefined, s).
Proof.
  destruct s as [[c h now ts next fired] src con].
  unfold CardStore.getField, bind, store_heap, in_store, in_card_heap, zoom, gets.
  cbn [sw_world sw_source sw_console cw_card cw_heap cw_now cw_timers
       cw_next_timer cw_fired].
  destruct (truthy (data c)); cbn [negb]; [|reflexivity].
  cbn [sw_world sw_source sw_console cw_card cw_heap cw_now cw_timers
       cw_next_timer cw_fired].
  now destruct (getByPath (data c) path h).
Qed.

(** X18. With no card ([data] is [null], or any falsy value),
    [updateField] does nothing at all and [getField] returns [undefined].
    With a card that is an object without cycles, and a path whose last
    segment is neither [length] nor [__proto__]: whenever [updateField]
    returns, [getField] of the same path then returns the value, and the
    store is marked changed with one check pending, due in 500 ms; and
    [updateField] does return when no segment of the path is [length] or
    the name of a property of [Object.prototype] or [Array.prototype]. *)
Theorem updateField_getField (s : sworld) (path : string) (value : val) :
  let w := sw_world s in
  (truthy (data (cw_card w)) = false ->
   CardStore.updateField path value s = (Ret tt, s) /\
   CardStore.getField path s = (Ret VUndefined, s)) /\
  (forall l depth,
     data (cw_card w) = VRef l ->
     within_depth depth (cw_heap w) (VRef l) = true ->
     last (path_keys path) "" <> "length" ->
     last (path_keys path) "" <> "__proto__" ->
     timers_consistent w ->
     (forall s',
        CardStore.updateField path value s = (Ret tt, s') ->
        CardStore.getField path s' = (Ret value, s') /\
        hasChanges (cw_card (sw_world s')) = true /\
        armed (sw_world s') /\
        sw_source s' = sw_source s) /\
     (forallb data_key (path_keys path) = true ->
      exists s', CardStore.updateField path value s = (Ret tt, s'))).
Proof.
  intros w. subst w. split.
  - intros Hd. rewrite updateField_eq, getField_eq. cbn zeta. now rewrite Hd.
  - intros l depth Hd Hdepth Hlast1 Hlast2 Htimers.
    destruct s as [[c h now ts next fired] src con].
    cbn [sw_world sw_source sw_console cw_card cw_heap] in *.
    assert (Hupd : forall e',
              setByPath (VRef l) path value true (Env h con) = (Ret tt, e') ->
              CardStore.updateField path value
                (SWorld (CWorld c h now ts next fired) src con)
              = (Ret tt,
                 SWorld (CWorld (Card (data c) (originalData c) true (Some next))
                                (env_heap e') now [Timer next (now + 500)]
                                (Pos.succ next) fired)
                        src (env_console e'))).
    { intros e' Hset. rewrite updateField_eq. cbn zeta.
      cbn [sw_world sw_source sw_console cw_card cw_heap cw_now cw_timers
           cw_next_timer cw_fired].
      rewrite Hd. cbn [truthy]. rewrite Hset.
      rewrite (checkChanges_eq (CWorld c (env_heap e') now ts next fired) Htimers).
      cbn [cw_card cw_heap cw_now cw_timers cw_next_timer cw_fired].
      now rewrite ?Hd. }
    split.
    + intros s' Hrun.
      destruct (setByPath (VRef l) path value true (Env h con)) as [r e'] eqn:Hset.
      assert (r = Ret tt) as ->.
      { rewrite updateField_eq in Hrun. cbn zeta in Hrun.
        cbn [sw_world sw_source sw_console cw_card cw_heap cw_now cw_timers
             cw_next_timer cw_fired] in Hrun.
        rewrite Hd in Hrun. cbn [truthy] in Hrun. rewrite Hset in Hrun.
        destruct r as [[]|err| |]; [reflexivity|discriminate..]. }
      rewrite (Hupd e' eq_refl) in Hrun. injection Hrun as <-.
      unfold setByPath in Hset.
      destruct (setByPath_loop_existing (path_keys path) depth [] l value
                  (Env h con) e' Hdepth
                  (path_keys_nonempty path) Hlast1 Hlast2 Hset) as (Hget & _ & _).
      split; [|split; [reflexivity|split; [|reflexivity]]].
      * rewrite getField_eq. cbn zeta.
        cbn [sw_world sw_source sw_console cw_card cw_heap cw_now cw_timers
             cw_next_timer cw_fired data].
        rewrite Hd. cbn [truthy].
        unfold getByPath. rewrite Hget. reflexivity.
      * unfold armed. cbn. eauto.
    + intros Hkeys.
      destruct (setByPath_loop_total (path_keys path) depth [] l value (Env h con)
                  Hdepth Hkeys) as [e' Hset].
      eexists. apply Hupd. exact Hset.
Qed.

Lemma updateField_getField_witness :
  exists s',
    CardStore.updateField "tags[2]" (VStr "z") sample_sworld = (Ret tt, s') /\
    CardStore.getField "tags[2]" s' = (Ret (VStr "z"), s') /\
    hasChanges (cw_card (sw_world s')) = true /\
    armed (sw_world s') /\
    sw_source s' = sw_source sample_sworld.
Proof.
  destruct (proj2 (updateField_getField sample_sworld "tags[2]" (VStr "z"))
              0 2 eq_refl eq_refl) as [Hget Hret];
    [discriminate|discriminate|reflexivity|].
  destruct (Hret eq_refl) as [s' Hrun].
  exists s'. split; [exact Hrun|exact (Hget s' Hrun)].
Defined.

(* ================================================================== *)
(** * The ui store: the progress is kept within 0 and 100 *)
(* ================================================================== *)

Lemma math_max_zero p :
  num_is_nan p = false ->
  math_max (S754_zero false) p = if SFltb (S754_zero false) p then p else S754_zero false.
Proof. intros Hp. unfold math_max. rewrite Hp. now destruct p as [[]|[]| |]. Qed.

Lemma math_min_hundred m :
  num_is_nan m = false ->
  math_min (num_of_N 100) m = if SFltb m (num_of_N 100) then m else num_of_N 100.
Proof. intros Hm. unfold math_min. rewrite Hm. now destruct m as [[]|[]| |]. Qed.

Lemma SFltb_leb x y : SFltb x y = true -> SFleb x y = true.
Proof. unfold SFltb, SFleb. now destruct (SFcompare x y) as [[]|]. Qed.

Lemma SFltb_not_nan x y : SFltb x y = true -> num_is_nan x = false /\ num_is_nan y = false.
Proof. unfold SFltb. destruct x, y; try discriminate; auto. Qed.

(** The value [setProgress] stores for a number [p]. *)
Lemma clamp_range p :
  let r := math_min (num_of_N 100) (math_max (S754_zero false) p) in
  (num_is_nan p = true -> r = S754_nan) /\
  (num_is_nan p = false ->
   SFleb (S754_zero false) r = true /\ SFleb r (num_of_N 100) = true /\
   (SFltb (S754_zero false) p = true -> SFltb p (num_of_N 100) = true -> r = p) /\
   (SFltb (S754_zero false) p = false -> r = S754_zero false) /\
   (SFltb (S754_zero false) p = true -> SFltb p (num_of_N 100) = false ->
    r = num_of_N 100)).
Proof.
  intros r. subst r. split.
  - destruct p; try discriminate. reflexivity.
  - intros Hp. rewrite (math_max_zero p Hp).
    destruct (SFltb (S754_zero false) p) eqn:H0.
    + rewrite (math_min_hundred p Hp).
      destruct (SFltb p (num_of_N 100)) eqn:H100.
      * repeat split; auto using SFltb_leb; discriminate.
      * repeat split; try reflexivity; try discriminate; congruence.
    + rewrite (math_min_hundred (S754_zero false) eq_refl).
      repeat split; try reflexivity; discriminate.
Qed.

(** X19. [setProgress] with a number stores a number between 0 and 100:
    the number itself when it lies strictly between them, 0 when it is not
    above 0 (a negative number, minus infinity, either zero), 100 when it is
    not below 100 (infinity too). Only [NaN] is stored as it is. The other
    fields of the store are left alone. *)
Theorem setProgress_clamps (u : ui) (p : spec_float) :
  exists r,
    UiStore.setProgress (VNum p) u
    = (Ret tt, Ui (currentPage u) (sidebarOpen u) (mobileMenuOpen u)
                  (globalLoading u) (loadingMessage u) (VNum r)
                  (modalOpen u) (modalType u) (modalData u)) /\
    (num_is_nan p = true -> r = S754_nan) /\
    (num_is_nan p = false ->
     SFleb (S754_zero false) r = true /\ SFleb r (num_of_N 100) = true /\
     (SFltb (S754_zero false) p = true -> SFltb p (num_of_N 100) = true -> r = p) /\
     (SFltb (S754_zero false) p = false -> r = S754_zero false) /\
     (SFltb (S754_zero false) p = true -> SFltb p (num_of_N 100) = false ->
      r = num_of_N 100)).
Proof.
  exists (math_min (num_of_N 100) (math_max (S754_zero false) p)).
  split; [reflexivity|]. apply clamp_range.
Qed.

(** 150 is stored as 100, -5 as 0, 42 as itself. *)
Example setProgress_scenario :
  loadingProgress (snd (UiStore.setProgress (num 150) UiStore.initial)) = num 100 /\
  loadingProgress
    (snd (UiStore.setProgress (VNum (SFopp (num_of_N 5))) UiStore.initial)) = num 0 /\
  loadingProgress (snd (UiStore.setProgress (num 42) UiStore.initial)) = num 42.
Proof. repeat split; vm_compute; reflexivity. Qed.

(* ================================================================== *)
(** * The toast store *)
(* ================================================================== *)

Lemma show_eq message type duration w :
  ToastStore.show message type duration w =
    let id := nextId (tw_toast w) in
    let d := default 3000%N duration in
    (Ret id,
     TWorld (Toast (items (tw_toast w)
                    ++ [ToastItem id message (default_arg type (VStr "info")) d])
                   (next_id id))
            (tw_now w)
            (if (0 <? d)%N
             then tw_timers w ++ [ToastTimer (tw_next_timer w) (tw_now w + d) id]
             else tw_timers w)
            (if (0 <? d)%N then Pos.succ (tw_next_timer w) else tw_next_timer w)).
Proof.
  destruct w as [[its nid] now ts next].
  unfold ToastStore.show, ToastStore.schedule_dismiss, bind, gets, modify, ret.
  cbn [tw_toast tw_now tw_timers tw_next_timer items nextId].
  now destruct (0 <? default 3000%N duration)%N.
Qed.

Lemma In_remove_first id l it : In it (remove_first id l) -> In it l.
Proof.
  induction l as [|x r IH]; simpl; [auto|].
  destruct (item_id x =? id)%N; simpl; intuition.
Qed.

Lemma remove_first_ids id l x :
  In x (map item_id (remove_first id l)) -> In x (map item_id l).
Proof.
  rewrite !in_map_iff. intros (it & <- & Hin). exists it.
  split; [reflexivity|]. eapply In_remove_first; eauto.
Qed.

Lemma remove_first_NoDup id l :
  List.NoDup (map item_id l) -> List.NoDup (map item_id (remove_first id l)).
Proof.
  induction l as [|x r IH]; simpl; [auto|].
  intros H. inversion H as [|? ? Hnotin Hnd]; subst.
  destruct (item_id x =? id)%N; [exact Hnd|].
  simpl. constructor; [|auto]. intros Hin. apply Hnotin.
  eapply remove_first_ids; eauto.
Qed.

(** With distinct identifiers, removing the first item of an identifier
    removes every item of it. *)
Lemma remove_first_filter id l :
  List.NoDup (map item_id l) ->
  remove_first id l = List.filter (fun it => negb (item_id it =? id)%N) l.
Proof.
  induction l as [|x r IH]; simpl; [reflexivity|].
  intros H. inversion H as [|? ? Hnotin Hnd]; subst.
  destruct (N.eqb_spec (item_id x) id) as [He|Hne]; simpl.
  - symmetry. apply forallb_filter_id. apply forallb_forall.
    intros it Hit. apply negb_true_iff, N.eqb_neq. intros Heq.
    apply Hnotin. rewrite He, <- Heq. now apply in_map.
  - f_equal. auto.
Qed.

Lemma remove_first_other id id' l :
  id' <> id -> In id (map item_id l) -> In id (map item_id (remove_first id' l)).
Proof.
  intros Hne. induction l as [|x r IH]; simpl; [auto|].
  destruct (N.eqb_spec (item_id x) id') as [He|Hx]; simpl.
  - intros [H|H]; [congruence|exact H].
  - intros [H|H]; auto.
Qed.

Lemma update_first_ids id message type l :
  map item_id (update_first id message type l) = map item_id l.
Proof.
  induction l as [|x r IH]; simpl; [reflexivity|].
  destruct (item_id x =? id)%N; simpl; [reflexivity|]. now rewrite IH.
Qed.

Lemma next_id_le n : (n <= next_id n)%N.
Proof. unfold next_id. destruct (n <? 9007199254740992)%N; lia. Qed.

Lemma next_id_lt n : (n < 9007199254740992)%N -> next_id n = (n + 1)%N.
Proof. unfold next_id. intros H. apply N.ltb_lt in H. now rewrite H. Qed.

Lemma next_toast_timer_In ts t : next_toast_timer ts = Some t -> In t ts.
Proof.
  revert t. induction ts as [|x r IH]; simpl; [discriminate|].
  intros t. destruct (next_toast_timer r) as [u|].
  - destruct (tt_due u <? tt_due x)%N; intros H; injection H as <-; auto.
  - intros H. injection H as <-. auto.
Qed.

Lemma next_toast_timer_min ts t :
  next_toast_timer ts = Some t -> forall u, In u ts -> (tt_due t <= tt_due u)%N.
Proof.
  revert t. induction ts as [|x r IH]; simpl; [discriminate|].
  intros t Ht u [<-|Hu].
  - destruct (next_toast_timer r) as [v|].
    + destruct (N.ltb_spec (tt_due v) (tt_due x)); injection Ht as <-; lia.
    + injection Ht as <-. lia.
  - destruct (next_toast_timer r) as [v|] eqn:Hr.
    + specialize (IH v eq_refl u Hu).
      destruct (N.ltb_spec (tt_due v) (tt_due x)); injection Ht as <-; lia.
    + destruct r; [contradiction|]. simpl in Hr.
      destruct (next_toast_timer r); [destruct (_ <? _)%N|]; discriminate.
Qed.

Lemma next_toast_timer_None ts : next_toast_timer ts = None -> ts = [].
Proof.
  destruct ts as [|x r]; [reflexivity|]. simpl.
  destruct (next_toast_timer r); [destruct (_ <? _)%N|]; discriminate.
Qed.

Lemma filter_timer_length (ts : list toast_timer) t :
  List.NoDup (map tt_id ts) -> In t ts ->
  S (length (List.filter (fun u => negb (Pos.eqb (tt_id u) (tt_id t))) ts))
  = length ts.
Proof.
  induction ts as [|x r IH]; simpl; [contradiction|].
  intros H Hin. inversion H as [|? ? Hnotin Hnd]; subst.
  destruct Hin as [->|Hin].
  - rewrite Pos.eqb_refl. simpl. f_equal.
    f_equal. apply forallb_filter_id. apply forallb_forall.
    intros u Hu. apply negb_true_iff, Pos.eqb_neq. intros He.
    apply Hnotin. rewrite <- He. now apply in_map.
  - destruct (Pos.eqb_spec (tt_id x) (tt_id t)) as [He|Hne]; simpl.
    + exfalso. apply Hnotin. rewrite He. now apply in_map.
    + f_equal. auto.
Qed.

Lemma filter_NoDup_map {A B} (f : A -> B) (p : A -> bool) l :
  List.NoDup (map f l) -> List.NoDup (map f (List.filter p l)).
Proof.
  induction l as [|x r IH]; simpl; [auto|].
  intros H. inversion H as [|? ? Hnotin Hnd]; subst.
  destruct (p x); simpl; [|auto]. constructor; [|auto].
  intros Hin. apply Hnotin. apply in_map_iff in Hin as (y & Hy & Hiny).
  apply List.filter_In in Hiny as [Hiny _]. rewrite <- Hy. now apply in_map.
Qed.

(** The event loop keeps the invariant, does not add an item and leaves
    [nextId] as it is; every timeout that was due has run, and its toast
    is gone. *)
Lemma run_toast_timers_spec until : forall n w,
  toast_inv w -> length (tw_timers w) <= n ->
  let w' := run_toast_timers n until w in
  toast_inv w' /\
  nextId (tw_toast w') = nextId (tw_toast w) /\
  tw_next_timer w' = tw_next_timer w /\
  (forall it, In it (items (tw_toast w')) -> In it (items (tw_toast w))) /\
  (forall t, In t (tw_timers w') -> In t (tw_timers w) /\ (until < tt_due t)%N) /\
  (forall t, In t (tw_timers w) -> (tt_due t <= until)%N ->
             ~ In (tt_toast t) (map item_id (items (tw_toast w')))) /\
  (forall id, In id (map item_id (items (tw_toast w))) ->
              (forall t, In t (tw_timers w) -> tt_toast t <> id) ->
              In id (map item_id (items (tw_toast w')))).
Proof.
  induction n as [|n IH]; intros w Hinv Hlen.
  - destruct (tw_timers w) eqn:Hts; [|simpl in Hlen; lia].
    cbn [run_toast_timers]. cbn zeta. rewrite Hts.
    split; [exact Hinv|]. split; [reflexivity|]. split; [reflexivity|].
    split; [auto|]. split; [intros t []|]. split; [intros t []|auto].
  - cbn [run_toast_timers]. cbn zeta.
    destruct (next_toast_timer (tw_timers w)) as [t0|] eqn:Hnext.
    + pose proof (next_toast_timer_In _ _ Hnext) as Hin0.
      pose proof (next_toast_timer_min _ _ Hnext) as Hmin.
      destruct (N.leb_spec (tt_due t0) until) as [Hdue|Hdue].
      * destruct Hinv as (Hnd & Hlt & Htl & Htnd & Htid).
        set (ts' := List.filter (fun u => negb (Pos.eqb (tt_id u) (tt_id t0)))
                                (tw_timers w)).
        set (w1 := snd (ToastStore.dismiss (tt_toast t0)
                          (TWorld (tw_toast w) (N.max (tw_now w) (tt_due t0)) ts'
                                  (tw_next_timer w)))).
        assert (Hw1 : w1 = TWorld (Toast (remove_first (tt_toast t0) (items (tw_toast w)))
                                         (nextId (tw_toast w)))
                                  (N.max (tw_now w) (tt_due t0)) ts' (tw_next_timer w))
          by reflexivity.
        assert (Hsub : forall u, In u ts' -> In u (tw_timers w))
          by (intros u Hu; apply List.filter_In in Hu; tauto).
        assert (Hinv1 : toast_inv w1).
        { rewrite Hw1. unfold toast_inv.
          cbn [tw_toast tw_timers tw_next_timer items nextId].
          split; [now apply remove_first_NoDup|].
          split; [|split; [|split]].
          - rewrite List.Forall_forall in *. intros it Hit.
            apply Hlt. eapply In_remove_first; eauto.
          - rewrite List.Forall_forall in *. intros u Hu. auto.
          - now apply filter_NoDup_map.
          - rewrite List.Forall_forall in *. intros u Hu. auto. }
        assert (Hlen1 : length (tw_timers w1) <= n).
        { rewrite Hw1. cbn [tw_timers].
          pose proof (filter_timer_length _ _ Htnd Hin0). fold ts' in H. lia. }
        destruct (IH w1 Hinv1 Hlen1) as (Hi & Hn & Hnt & Hits & Hts & Hfired & Hkept).
        fold ts' w1. split; [exact Hi|]. split; [now rewrite Hn, Hw1|].
        split; [now rewrite Hnt, Hw1|]. split; [|split; [|split]].
        -- intros it Hit. apply Hits in Hit. rewrite Hw1 in Hit.
           cbn [tw_toast items] in Hit. eapply In_remove_first; eauto.
        -- intros u Hu. destruct (Hts u Hu) as [Hu1 Hu2]. split; [|exact Hu2].
           rewrite Hw1 in Hu1. cbn [tw_timers] in Hu1. auto.
        -- intros u Hu Hudue Habs.
           destruct (Pos.eqb_spec (tt_id u) (tt_id t0)) as [He|Hne].
           ++ assert (u = t0) as ->.
              { clear -Htnd Hu Hin0 He. induction (tw_timers w) as [|x r IHr];
                  [contradiction|].
                simpl in Htnd. inversion Htnd as [|? ? Hnotin Hnd']; subst.
                destruct Hu as [->|Hu]; destruct Hin0 as [->|Hin0]; auto.
                - exfalso. apply Hnotin. rewrite He. now apply in_map.
                - exfalso. apply Hnotin. rewrite <- He. now apply in_map. }
              apply in_map_iff in Habs as (it & Hid & Hit).
              apply Hits in Hit. rewrite Hw1 in Hit. cbn [tw_toast items] in Hit.
              rewrite (remove_first_filter _ _ Hnd) in Hit.
              apply List.filter_In in Hit as [_ Hit].
              apply negb_true_iff, N.eqb_neq in Hit. congruence.
           ++ apply (Hfired u); [|exact Hudue|exact Habs].
              rewrite Hw1. cbn [tw_timers]. apply List.filter_In.
              split; [exact Hu|]. now apply negb_true_iff, Pos.eqb_neq.
        -- intros id Hid Hno. apply Hkept.
           ++ rewrite Hw1. cbn [tw_toast items].
              apply remove_first_other; [|exact Hid].
              now apply Hno.
           ++ intros u Hu. rewrite Hw1 in Hu. cbn [tw_timers] in Hu. auto.
      * split; [exact Hinv|]. split; [reflexivity|]. split; [reflexivity|].
        split; [auto|]. split; [|split; [|auto]].
        -- intros u Hu. split; [exact Hu|]. specialize (Hmin _ Hu). lia.
        -- intros u Hu Hudue. specialize (Hmin _ Hu). lia.
    + apply next_toast_timer_None in Hnext.
      split; [exact Hinv|]. split; [reflexivity|]. split; [reflexivity|].
      split; [auto|]. rewrite Hnext.
      split; [intros t []|]. split; [intros t []|auto].
Qed.

Lemma toast_wait_spec dt w :
  toast_inv w ->
  let w' := toast_wait dt w in
  toast_inv w' /\
  nextId (tw_toast w') = nextId (tw_toast w) /\
  (forall t, In t (tw_timers w') -> In t (tw_timers w)) /\
  (forall t, In t (tw_timers w) -> (tt_due t <= tw_now w + dt)%N ->
             ~ In (tt_toast t) (map item_id (items (tw_toast w')))) /\
  (forall id, In id (map item_id (items (tw_toast w))) ->
              (forall t, In t (tw_timers w) -> tt_toast t <> id) ->
              In id (map item_id (items (tw_toast w')))).
Proof.
  intros Hinv.
  destruct (run_toast_timers_spec (tw_now w + dt) (length (tw_timers w)) w Hinv
              (Nat.le_refl _)) as (Hi & Hn & Hnt & _ & Hts & Hfired & Hkept).
  unfold toast_wait. cbn zeta. cbn [tw_toast tw_timers tw_next_timer].
  split; [|split; [exact Hn|split; [|split; [exact Hfired|exact Hkept]]]].
  - exact Hi.
  - intros t Ht. now apply Hts.
Qed.

Lemma show_inv message type duration w :
  toast_inv w -> (nextId (tw_toast w) < 9007199254740992)%N ->
  toast_inv (snd (ToastStore.show message type duration w)).
Proof.
  intros (Hnd & Hlt & Htl & Htnd & Htid) Hnext.
  rewrite show_eq. cbn zeta. cbn [snd]. unfold toast_inv.
  cbn [tw_toast tw_timers tw_next_timer items nextId].
  rewrite (next_id_lt _ Hnext).
  rewrite List.Forall_forall in Hlt, Htl, Htid.
  split; [|split; [|split; [|split]]];
    try (destruct (0 <? default 3000%N duration)%N);
    try apply List.Forall_forall.
  - rewrite map_app. cbn [map item_id].
    apply List.NoDup_app; [exact Hnd|repeat constructor; auto|].
    intros x Hx [<-|[]]. apply in_map_iff in Hx as (it & Hid & Hit).
    specialize (Hlt it Hit). lia.
  - rewrite map_app. cbn [map item_id].
    apply List.NoDup_app; [exact Hnd|repeat constructor; auto|].
    intros x Hx [<-|[]]. apply in_map_iff in Hx as (it & Hid & Hit).
    specialize (Hlt it Hit). lia.
  - intros it Hit. apply in_app_iff in Hit as [Hit|[<-|[]]].
    + specialize (Hlt it Hit). lia.
    + cbn [item_id]. lia.
  - intros it Hit. apply in_app_iff in Hit as [Hit|[<-|[]]].
    + specialize (Hlt it Hit). lia.
    + cbn [item_id]. lia.
  - intros t Ht. apply in_app_iff in Ht as [Ht|[<-|[]]].
    + specialize (Htl t Ht). lia.
    + cbn [tt_toast]. lia.
  - intros t Ht. specialize (Htl t Ht). lia.
  - rewrite map_app. cbn [map tt_id].
    apply List.NoDup_app; [exact Htnd|repeat constructor; auto|].
    intros x Hx [<-|[]]. apply in_map_iff in Hx as (t & Hid & Ht).
    specialize (Htid t Ht). lia.
  - exact Htnd.
  - intros t Ht. apply in_app_iff in Ht as [Ht|[<-|[]]].
    + specialize (Htid t Ht). lia.
    + cbn [tt_id]. lia.
  - exact Htid.
Qed.

Lemma run_toast_timers_nextId until n : forall w,
  nextId (tw_toast (run_toast_timers n until w)) = nextId (tw_toast w).
Proof.
  induction n as [|n IH]; intros w; cbn [run_toast_timers]; [reflexivity|].
  destruct (next_toast_timer (tw_timers w)) as [t|]; [|reflexivity].
  destruct (tt_due t <=? until)%N; [|reflexivity].
  cbn zeta. now rewrite IH.
Qed.

Lemma run_toast_op_nextId op w :
  (nextId (tw_toast w) <= nextId (tw_toast (run_toast_op op w)))%N.
Proof.
  destruct op; cbn [run_toast_op];
    unfold ToastStore.success, ToastStore.error, ToastStore.loading,
      ToastStore.info;
    try (rewrite show_eq; cbn zeta; cbn [snd tw_toast nextId]; apply next_id_le);
    try (cbn; lia).
  unfold toast_wait. cbn zeta. cbn [tw_toast].
  rewrite run_toast_timers_nextId. lia.
Qed.

Lemma run_toast_ops_nextId ops : forall w,
  (nextId (tw_toast w) <= nextId (tw_toast (run_toast_ops ops w)))%N.
Proof.
  unfold run_toast_ops.
  induction ops as [|op ops IH]; intros w; cbn [fold_left]; [lia|].
  specialize (IH (run_toast_op op w)).
  pose proof (run_toast_op_nextId op w). lia.
Qed.

Lemma run_toast_op_inv op w :
  toast_inv w -> (nextId (tw_toast w) < 9007199254740992)%N ->
  toast_inv (run_toast_op op w).
Proof.
  intros Hinv Hnext.
  destruct op; cbn [run_toast_op];
    unfold ToastStore.success, ToastStore.error, ToastStore.loading,
      ToastStore.info;
    try (now apply show_inv).
  - destruct Hinv as (Hnd & Hlt & Hrest). unfold toast_inv.
    cbn. split; [now apply remove_first_NoDup|]. split; [|exact Hrest].
    rewrite List.Forall_forall in *. intros it Hit. apply Hlt.
    eapply In_remove_first; eauto.
  - destruct Hinv as (Hnd & Hlt & Hrest). unfold toast_inv.
    cbn [snd ToastStore.update modify tw_toast tw_timers tw_next_timer items nextId].
    rewrite update_first_ids. split; [exact Hnd|]. split; [|exact Hrest].
    clear -Hlt. induction (items (tw_toast w)) as [|x r IH]; cbn [update_first];
      [constructor|].
    inversion Hlt; subst.
    destruct (item_id x =? id)%N; constructor; auto.
  - destruct Hinv as (Hnd & Hlt & Hrest). unfold toast_inv. cbn.
    split; [constructor|]. split; [constructor|exact Hrest].
  - now apply toast_wait_spec.
Qed.

Lemma run_toast_ops_inv ops : forall w,
  toast_inv w ->
  (nextId (tw_toast (run_toast_ops ops w)) < 9007199254740992)%N ->
  toast_inv (run_toast_ops ops w).
Proof.
  unfold run_toast_ops.
  induction ops as [|op ops IH]; intros w Hinv Hnext; cbn [fold_left] in *;
    [exact Hinv|].
  apply IH; [|exact Hnext].
  apply run_toast_op_inv; [exact Hinv|].
  pose proof (run_toast_ops_nextId ops (run_toast_op op w)) as H1.
  pose proof (run_toast_op_nextId op w) as H2.
  unfold run_toast_ops in H1. lia.
Qed.

(** X20. Toast identifiers are unique. Through any calls on the toast
    store and any passing of time, as long as [nextId] stays below 2^53,
    no two toasts of [items] have the same identifier, and the identifier
    that the next [show] returns belongs to the toast it adds and to no
    toast that was there. *)
Theorem toast_ids_unique (ops : list toast_op) (w : tworld) :
  toast_inv w ->
  (nextId (tw_toast (run_toast_ops ops w)) < 9007199254740992)%N ->
  let w1 := run_toast_ops ops w in
  List.NoDup (map item_id (items (tw_toast w1))) /\
  forall message type duration,
    exists id w2,
      ToastStore.show message type duration w1 = (Ret id, w2) /\
      ~ In id (map item_id (items (tw_toast w1))) /\
      map item_id (items (tw_toast w2))
      = map item_id (items (tw_toast w1)) ++ [id].
Proof.
  intros Hinv Hnext w1.
  pose proof (run_toast_ops_inv ops w Hinv Hnext) as Hinv1. fold w1 in Hinv1.
  split; [apply Hinv1|].
  intros message type duration. rewrite show_eq. cbn zeta.
  eexists; eexists. split; [reflexivity|].
  cbn [tw_toast items]. split.
  - destruct Hinv1 as (_ & Hlt & _). rewrite List.Forall_forall in Hlt.
    intros Hin. apply in_map_iff in Hin as (it & Hid & Hit).
    specialize (Hlt it Hit). lia.
  - rewrite map_app. reflexivity.
Qed.

Lemma toast_ids_unique_witness :
  let ops := [TSuccess (VStr "saved") None; TLoading (VStr "exporting");
              TWait 1000; TDismiss 2; TError (VStr "failed") None] in
  let w1 := run_toast_ops ops sample_tworld in
  List.NoDup (map item_id (items (tw_toast w1))) /\
  forall message type duration,
    exists id w2,
      ToastStore.show message type duration w1 = (Ret id, w2) /\
      ~ In id (map item_id (items (tw_toast w1))) /\
      map item_id (items (tw_toast w2))
      = map item_id (items (tw_toast w1)) ++ [id].
Proof.
  intros ops.
  apply (toast_ids_unique ops sample_tworld).
  - unfold toast_inv, sample_tworld. cbn.
    repeat split; constructor.
  - vm_compute. reflexivity.
Defined.

(** X21. [dismiss] removes the toast of the given identifier and nothing
    else. When the toasts have distinct identifiers, the items left are
    the other toasts, in their order; no toast of that identifier is left,
    a call with an identifier that no toast has changes nothing, and
    neither [nextId] nor a pending timeout is touched. *)
Theorem dismiss_removes (id : N) (w : tworld) :
  List.NoDup (map item_id (items (tw_toast w))) ->
  exists w',
    ToastStore.dismiss id w = (Ret tt, w') /\
    items (tw_toast w')
    = List.filter (fun it => negb (item_id it =? id)%N) (items (tw_toast w)) /\
    ~ In id (map item_id (items (tw_toast w'))) /\
    (~ In id (map item_id (items (tw_toast w))) ->
     items (tw_toast w') = items (tw_toast w)) /\
    nextId (tw_toast w') = nextId (tw_toast w) /\
    tw_timers w' = tw_timers w /\ tw_now w' = tw_now w.
Proof.
  intros Hnd. eexists. split; [reflexivity|].
  cbn [tw_toast items nextId tw_timers tw_now].
  rewrite (remove_first_filter _ _ Hnd).
  split; [reflexivity|]. split; [|split; [|auto]].
  - intros Hin. apply in_map_iff in Hin as (it & Hid & Hit).
    apply List.filter_In in Hit as [_ Hit].
    apply negb_true_iff, N.eqb_neq in Hit. congruence.
  - intros Hno. apply forallb_filter_id. apply forallb_forall.
    intros it Hit. apply negb_true_iff, N.eqb_neq. intros He.
    apply Hno. rewrite <- He. now apply in_map.
Qed.

Lemma dismiss_removes_witness :
  let w := run_toast_ops [TLoading (VStr "a"); TLoading (VStr "b");
                          TLoading (VStr "c")] sample_tworld in
  exists w',
    ToastStore.dismiss 2 w = (Ret tt, w') /\
    items (tw_toast w')
    = List.filter (fun it => negb (item_id it =? 2)%N) (items (tw_toast w)) /\
    ~ In 2%N (map item_id (items (tw_toast w'))) /\
    (~ In 2%N (map item_id (items (tw_toast w))) ->
     items (tw_toast w') = items (tw_toast w)) /\
    nextId (tw_toast w') = nextId (tw_toast w) /\
    tw_timers w' = tw_timers w /\ tw_now w' = tw_now w.
Proof.
  intros w. apply (dismiss_removes 2 w).
  vm_compute. repeat constructor; simpl; intuition discriminate.
Defined.

(** X22. A toast shown with a positive duration dismisses itself. Once
    at least [duration] milliseconds have passed after [show], the toast
    it added is no longer in [items], whatever else was on display; the
    toasts that were there without a pending timeout are still there. *)
Theorem show_auto_dismiss (message type : val) (duration dt : N) (w : tworld) :
  toast_inv w ->
  (nextId (tw_toast w) < 9007199254740992)%N ->
  (0 < duration)%N -> (duration <= dt)%N ->
  exists id w1,
    ToastStore.show message type (Some duration) w = (Ret id, w1) /\
    In id (map item_id (items (tw_toast w1))) /\
    ~ In id (map item_id (items (tw_toast (toast_wait dt w1)))) /\
    forall id', In id' (map item_id (items (tw_toast w))) ->
                (forall t, In t (tw_timers w) -> tt_toast t <> id') ->
                In id' (map item_id (items (tw_toast (toast_wait dt w1)))).
Proof.
  intros Hinv Hnext Hpos Hle.
  pose proof (show_inv message type (Some duration) w Hinv Hnext) as Hinv1.
  revert Hinv1. rewrite show_eq. cbn zeta. cbn [snd].
  change (default 3000%N (Some duration)) with duration.
  apply N.ltb_lt in Hpos. rewrite Hpos. apply N.ltb_lt in Hpos.
  intros Hinv1. eexists; eexists. split; [reflexivity|].
  destruct (toast_wait_spec dt _ Hinv1) as (_ & _ & _ & Hfired & Hkept).
  cbn [tw_toast tw_timers tw_now items] in Hfired, Hkept.
  split; [|split].
  - cbn [tw_toast items]. rewrite map_app. apply in_app_iff. right. now left.
  - apply (Hfired (ToastTimer (tw_next_timer w) (tw_now w + duration)
                              (nextId (tw_toast w)))).
    + apply in_app_iff. right. now left.
    + cbn [tt_due]. lia.
  - intros id' Hin Hno. apply Hkept.
    + rewrite map_app. apply in_app_iff. now left.
    + intros t Ht. apply in_app_iff in Ht as [Ht|[<-|[]]]; [now apply Hno|].
      cbn [tt_toast]. destruct Hinv as (_ & Hlt & _).
      rewrite List.Forall_forall in Hlt.
      apply in_map_iff in Hin as (it & Hid & Hit).
      specialize (Hlt it Hit). lia.
Qed.

Lemma show_auto_dismiss_witness :
  let w := run_toast_ops [TLoading (VStr "exporting");
                          TSuccess (VStr "saved") None] sample_tworld in
  exists id w1,
    ToastStore.show (VStr "copied") VUndefined (Some 1500%N) w = (Ret id, w1) /\
    In id (map item_id (items (tw_toast w1))) /\
    ~ In id (map item_id (items (tw_toast (toast_wait 1500 w1)))) /\
    forall id', In id' (map item_id (items (tw_toast w))) ->
                (forall t, In t (tw_timers w) -> tt_toast t <> id') ->
                In id' (map item_id (items (tw_toast (toast_wait 1500 w1)))).
Proof.
  intros w. apply (show_auto_dismiss (VStr "copied") VUndefined 1500 1500 w).
  - unfold toast_inv. vm_compute.
    repeat split; repeat constructor; simpl; intuition discriminate.
  - vm_compute. reflexivity.
  - lia.
  - lia.
Defined.

Lemma run_toast_op_keeps id op w :
  toast_inv w -> keeps_toast id op = true ->
  (id < nextId (tw_toast w))%N ->
  In id (map item_id (items (tw_toast w))) ->
  (forall t, In t (tw_timers w) -> tt_toast t <> id) ->
  In id (map item_id (items (tw_toast (run_toast_op op w)))) /\
  (forall t, In t (tw_timers (run_toast_op op w)) -> tt_toast t <> id).
Proof.
  intros Hinv Hkeep Hlt Hin Hno.
  assert (Hshow : forall message type duration,
    In id (map item_id (items (tw_toast (snd (ToastStore.show message type duration w))))) /\
    (forall t, In t (tw_timers (snd (ToastStore.show message type duration w))) ->
               tt_toast t <> id)).
  { intros message type duration. rewrite show_eq. cbn zeta.
    cbn [snd tw_toast tw_timers items]. split.
    - rewrite map_app. apply in_app_iff. now left.
    - destruct (0 <? default 3000%N duration)%N; [|exact Hno].
      intros t Ht. apply in_app_iff in Ht as [Ht|[<-|[]]]; [now apply Hno|].
      cbn [tt_toast]. lia. }
  destruct op; cbn [run_toast_op keeps_toast] in *;
    unfold ToastStore.success, ToastStore.error, ToastStore.loading,
      ToastStore.info;
    try apply Hshow.
  - apply negb_true_iff, N.eqb_neq in Hkeep.
    cbn [snd ToastStore.dismiss modify tw_toast tw_timers items].
    split; [|exact Hno]. now apply remove_first_other.
  - cbn [snd ToastStore.update modify tw_toast tw_timers items].
    rewrite update_first_ids. split; assumption.
  - discriminate.
  - destruct (toast_wait_spec dt w Hinv) as (_ & _ & Hts & _ & Hkept).
    split; [now apply Hkept|]. intros t Ht. apply Hno. now apply Hts.
Qed.

Lemma run_toast_ops_keeps id ops : forall w,
  toast_inv w -> forallb (keeps_toast id) ops = true ->
  (nextId (tw_toast (run_toast_ops ops w)) < 9007199254740992)%N ->
  (id < nextId (tw_toast w))%N ->
  In id (map item_id (items (tw_toast w))) ->
  (forall t, In t (tw_timers w) -> tt_toast t <> id) ->
  In id (map item_id (items (tw_toast (run_toast_ops ops w)))).
Proof.
  unfold run_toast_ops.
  induction ops as [|op ops IH]; intros w Hinv Hkeep Hnext Hlt Hin Hno;
    cbn [fold_left forallb] in *; [exact Hin|].
  apply andb_true_iff in Hkeep as [Hk Hks].
  pose proof (run_toast_ops_nextId ops (run_toast_op op w)) as H1.
  pose proof (run_toast_op_nextId op w) as H2.
  unfold run_toast_ops in H1.
  destruct (run_toast_op_keeps id op w Hinv Hk Hlt Hin Hno) as [Hin' Hno'].
  apply IH; auto.
  - apply run_toast_op_inv; [exact Hinv|lia].
  - lia.
Qed.

(** X23. A [loading] toast stays until it is dismissed. Its duration is
    0, so no timeout is set for it: through any later calls on the store
    other than [clear] and a [dismiss] of its own identifier, [update]
    of it included, and through any passing of time, it remains in
    [items], as long as [nextId] stays below 2^53. *)
Theorem loading_persists (message : val) (ops : list toast_op) (w : tworld) :
  toast_inv w ->
  (nextId (tw_toast (run_toast_ops ops (snd (ToastStore.loading message w))))
   < 9007199254740992)%N ->
  exists id w1,
    ToastStore.loading message w = (Ret id, w1) /\
    tw_timers w1 = tw_timers w /\
    (forallb (keeps_toast id) ops = true ->
     In id (map item_id (items (tw_toast (run_toast_ops ops w1))))).
Proof.
  intros Hinv Hnext.
  pose proof (run_toast_ops_nextId ops (snd (ToastStore.loading message w))) as Hmono.
  assert (Hw : (nextId (tw_toast w) < 9007199254740992)%N).
  { pose proof (run_toast_op_nextId (TLoading message) w) as H.
    cbn [run_toast_op] in H. lia. }
  pose proof (show_inv message (VStr "loading") (Some 0%N) w Hinv Hw) as Hinv1.
  revert Hnext Hmono Hinv1. unfold ToastStore.loading. rewrite show_eq.
  cbn zeta. cbn [snd]. change (default 3000%N (Some 0%N)) with 0%N.
  change (0 <? 0)%N with false. cbv iota.
  intros Hnext Hmono Hinv1.
  eexists; eexists. split; [reflexivity|]. split; [reflexivity|].
  intros Hkeep. apply run_toast_ops_keeps; auto.
  - cbn [tw_toast nextId]. rewrite (next_id_lt _ Hw). lia.
  - cbn [tw_toast items]. rewrite map_app. apply in_app_iff. right. now left.
  - cbn [tw_timers]. intros t Ht. destruct Hinv as (_ & _ & Htl & _).
    rewrite List.Forall_forall in Htl. specialize (Htl t Ht). lia.
Qed.

Lemma loading_persists_witness :
  let ops := [TSuccess (VStr "saved") (Some 500%N); TWait 400;
              TUpdate 1 (VStr "almost done") VUndefined; TDismiss 2;
              TWait 100000] in
  exists id w1,
    ToastStore.loading (VStr "exporting") sample_tworld = (Ret id, w1) /\
    tw_timers w1 = tw_timers sample_tworld /\
    (forallb (keeps_toast id) ops = true ->
     In id (map item_id (items (tw_toast (run_toast_ops ops w1))))).
Proof.
  intros ops.
  apply (loading_persists (VStr "exporting") ops sample_tworld).
  - unfold toast_inv, sample_tworld. cbn. repeat split; constructor.
  - vm_compute. reflexivity.
Defined.

(* ================================================================== *)
(** * undo_redo.js: the toolbar and recordState *)
(* ================================================================== *)

(** Values that stand for the same document are both truthy or both
    falsy. *)
Lemma truthy_reify b n (h : heap) v b' n' (h' : heap) v' t :
  reify_from b n h v = Some t -> reify_from b' n' h' v' = Some t ->
  truthy v = truthy v'.
Proof.
  intros Hv Hv'.
  destruct (is_ref v) eqn:Ev; destruct (is_ref v') eqn:Ev'.
  - destruct v; try discriminate. destruct v'; try discriminate. reflexivity.
  - destruct v; try discriminate.
    apply reify_from_ref_leaf in Hv. apply reify_from_prim_leaf in Hv'; auto.
    congruence.
  - destruct v'; try discriminate.
    apply reify_from_ref_leaf in Hv'. apply reify_from_prim_leaf in Hv; auto.
    congruence.
  - rewrite (reify_from_prim_eq _ _ _ _ Ev) in Hv.
    rewrite (reify_from_prim_eq _ _ _ _ Ev') in Hv'.
    destruct v; try discriminate; destruct v'; try discriminate;
      repeat match goal with
             | H : (if ?c then _ else _) = Some _ |- _ =>
                 destruct c; [|discriminate]
             end; congruence.
Qed.

(** The block that [undo] and [redo] of the toolbar run on a truthy state:
    the card store gets the state, a change check is scheduled and an
    [info] toast is shown. *)
Lemma toolbar_show_state state message a :
  exists a',
    (on_card (set_data state) ;;;
     on_card (in_store checkChanges) ;;;
     on_toast (ToastStore.info (VStr message) None) ;;;
     ret tt) a = (Ret tt, a') /\
    app_heap a' = app_heap a /\
    data (app_card a') = state /\
    originalData (app_card a') = originalData (app_card a) /\
    hasChanges (app_card a') = true /\
    aw_history a' = aw_history a /\
    sw_source (aw_card a') = sw_source (aw_card a) /\
    items (tw_toast (aw_toast a'))
    = items (tw_toast (aw_toast a))
      ++ [ToastItem (nextId (tw_toast (aw_toast a))) (VStr message)
                    (VStr "info") 3000].
Proof.
  destruct a as [[[[d o c tm] h now ts next fired] src con] hist tw].
  set (w0 := CWorld (Card state o c tm) h now ts next fired).
  pose proof (checkChanges_documents w0) as (Hd & Ho & Hh).
  assert (Hc : hasChanges (cw_card (snd (checkChanges w0))) = true)
    by (destruct tm; reflexivity).
  assert (Hr : fst (checkChanges w0) = Ret tt) by (destruct tm; reflexivity).
  destruct (checkChanges w0) as [r w1] eqn:Hcheck. cbn [fst snd] in *. subst r.
  exists (AWorld (SWorld w1 src con) hist
                 (snd (ToastStore.show (VStr message) (VStr "info") (Some 3000%N) tw))).
  split.
  - erewrite bind_ret_intro; cycle 1.
    { unfold on_card, zoom, set_data, in_store, zoom, bind, gets, set_card, modify.
      cbn [aw_card aw_history aw_toast sw_world sw_source sw_console cw_card
           data originalData hasChanges _checkChangesTimer cw_heap cw_now
           cw_timers cw_next_timer cw_fired].
      reflexivity. }
    erewrite bind_ret_intro; cycle 1.
    { unfold on_card, zoom, in_store, zoom.
      cbn [aw_card aw_history aw_toast sw_world sw_source sw_console].
      fold w0. rewrite Hcheck. reflexivity. }
    erewrite bind_ret_intro; cycle 1.
    { unfold on_toast, zoom, ToastStore.info.
      cbn [aw_card aw_history aw_toast].
      rewrite show_eq. cbn zeta. reflexivity. }
    rewrite show_eq. reflexivity.
  - rewrite show_eq. cbn zeta. unfold app_heap, app_card.
    cbn [aw_card aw_history aw_toast sw_world sw_source sw_console cw_card
         cw_heap tw_toast items snd].
    subst w0. cbn [cw_card cw_heap data originalData] in *.
    repeat split; auto.
Qed.

Lemma documents_app depth (h ext : heap) (st : list val) :
  documents depth h st -> documents depth (h ++ ext) st.
Proof.
  unfold documents. rewrite !List.Forall_forall. intros H e He.
  destruct (H e He) as [Ht [t Hr]]. split; [exact Ht|].
  exists t. now apply reify_app.
Qed.

Lemma documents_entries depth (h : heap) (st : list val) :
  documents depth h st -> Forall (fun e => is_Some (reify depth h e)) st.
Proof.
  unfold documents. rewrite !List.Forall_forall. intros H e He. now apply H.
Qed.

Lemma recordState_eq sc fuel a :
  recordState StoreHistory.store sc fuel a =
    if truthy (data (app_card a)) then
      let (r, w') := StoreHistory.push sc fuel (data (app_card a)) (history_world a) in
      (r, put_history_world w' a)
    else (Ret tt, a).
Proof.
  unfold recordState, bind, gets. destruct (truthy (data (app_card a)));
    reflexivity.
Qed.

(** The toolbar's [undo] and [redo] when the history store returns a
    truthy state. *)
Lemma toolbar_restore (step : M hworld val) message a state w' :
  step (history_world a) = (Ret state, w') -> truthy state = true ->
  exists a',
    (state <- on_history step ;;
     if truthy state then
       on_card (set_data state) ;;;
       on_card (in_store checkChanges) ;;;
       on_toast (ToastStore.info (VStr message) None) ;;;
       ret tt
     else ret tt) a = (Ret tt, a') /\
    app_heap a' = hw_heap w' /\
    data (app_card a') = state /\
    originalData (app_card a') = originalData (app_card a) /\
    hasChanges (app_card a') = true /\
    aw_history a' = hw_history w' /\
    sw_source (aw_card a') = sw_source (aw_card a) /\
    items (tw_toast (aw_toast a'))
    = items (tw_toast (aw_toast a))
      ++ [ToastItem (nextId (tw_toast (aw_toast a))) (VStr message)
                    (VStr "info") 3000].
Proof.
  intros Hstep Htruthy.
  destruct (toolbar_show_state state message (put_history_world w' a))
    as (a' & Hrun & Hh & Hd & Ho & Hc & Hhist & Hsrc & Hitems).
  exists a'. split.
  - erewrite bind_ret_intro; cycle 1.
    { unfold on_history, zoom. rewrite Hstep. reflexivity. }
    rewrite Htruthy. exact Hrun.
  - rewrite Hh, Hd, Ho, Hc, Hhist, Hsrc, Hitems.
    destruct a as [[[cd h now ts next fired] src con] hist tw].
    repeat split; reflexivity.
Qed.

Lemma toolbar_undo_run sc fuel depth a t :
  structuredClone_sound sc -> depth < fuel ->
  (0 < index (aw_history a))%Z ->
  truthy (at_index (stack (aw_history a)) (index (aw_history a) - 1)) = true ->
  reify depth (app_heap a)
        (at_index (stack (aw_history a)) (index (aw_history a) - 1)) = Some t ->
  copied_in_full sc t ->
  exists a' cells,
    Toolbar.undo StoreHistory.store sc fuel a = (Ret tt, a') /\
    app_heap a' = app_heap a ++ cells /\
    reify_from (length (app_heap a)) depth (app_heap a') (data (app_card a'))
    = Some t /\
    aw_history a' = History (stack (aw_history a)) (index (aw_history a) - 1)
                            (maxSize (aw_history a)) /\
    originalData (app_card a') = originalData (app_card a) /\
    hasChanges (app_card a') = true /\
    sw_source (aw_card a') = sw_source (aw_card a) /\
    items (tw_toast (aw_toast a'))
    = items (tw_toast (aw_toast a))
      ++ [ToastItem (nextId (tw_toast (aw_toast a))) (VStr "已撤销")
                    (VStr "info") 3000].
Proof.
  intros Hsc Hfuel Hi Htr Ht Hfull.
  assert (Hcan : StoreHistory.canUndo (aw_history a) = true)
    by (unfold StoreHistory.canUndo; apply Z.gtb_lt; lia).
  destruct (deepClone_reify sc Hsc fuel depth _ _ _ Hfuel Ht Hfull)
    as (copy & cells & Hrun & Hc).
  assert (Htruthy : truthy copy = true).
  { rewrite <- Htr. symmetry. eapply truthy_reify; eauto. }
  destruct (toolbar_restore (StoreHistory.undo sc fuel) "已撤销" a copy
              (HWorld (History (stack (aw_history a)) (index (aw_history a) - 1)
                               (maxSize (aw_history a)))
                      (app_heap a ++ cells)))
    as (a' & Hundo & Hh & Hd & Ho & Hch & Hhist & Hsrc & Hitems);
    [|exact Htruthy|].
  { rewrite undo_eq. cbn zeta. cbn [history_world hw_history hw_heap].
    rewrite Hcan, Hrun. reflexivity. }
  exists a', cells. split.
  - unfold Toolbar.undo, Toolbar.canUndo.
    erewrite bind_ret_intro by reflexivity.
    cbn [hs_canUndo StoreHistory.store]. rewrite Hcan. cbn [negb].
    exact Hundo.
  - cbn [hw_heap hw_history] in Hh, Hhist. rewrite Hh, Hd. auto 10.
Qed.

Lemma toolbar_redo_run sc fuel depth a t :
  structuredClone_sound sc -> depth < fuel ->
  (index (aw_history a) < len (stack (aw_history a)) - 1)%Z ->
  truthy (at_index (stack (aw_history a)) (index (aw_history a) + 1)) = true ->
  reify depth (app_heap a)
        (at_index (stack (aw_history a)) (index (aw_history a) + 1)) = Some t ->
  copied_in_full sc t ->
  exists a' cells,
    Toolbar.redo StoreHistory.store sc fuel a = (Ret tt, a') /\
    app_heap a' = app_heap a ++ cells /\
    reify_from (length (app_heap a)) depth (app_heap a') (data (app_card a'))
    = Some t /\
    aw_history a' = History (stack (aw_history a)) (index (aw_history a) + 1)
                            (maxSize (aw_history a)) /\
    originalData (app_card a') = originalData (app_card a) /\
    hasChanges (app_card a') = true /\
    sw_source (aw_card a') = sw_source (aw_card a) /\
    items (tw_toast (aw_toast a'))
    = items (tw_toast (aw_toast a))
      ++ [ToastItem (nextId (tw_toast (aw_toast a))) (VStr "已重做")
                    (VStr "info") 3000].
Proof.
  intros Hsc Hfuel Hi Htr Ht Hfull.
  assert (Hcan : StoreHistory.canRedo (aw_history a) = true)
    by (unfold StoreHistory.canRedo; apply Z.ltb_lt; lia).
  destruct (deepClone_reify sc Hsc fuel depth _ _ _ Hfuel Ht Hfull)
    as (copy & cells & Hrun & Hc).
  assert (Htruthy : truthy copy = true).
  { rewrite <- Htr. symmetry. eapply truthy_reify; eauto. }
  destruct (toolbar_restore (StoreHistory.redo sc fuel) "已重做" a copy
              (HWorld (History (stack (aw_history a)) (index (aw_history a) + 1)
                               (maxSize (aw_history a)))
                      (app_heap a ++ cells)))
    as (a' & Hredo & Hh & Hd & Ho & Hch & Hhist & Hsrc & Hitems);
    [|exact Htruthy|].
  { rewrite redo_eq. cbn zeta. cbn [history_world hw_history hw_heap].
    rewrite Hcan, Hrun. reflexivity. }
  exists a', cells. split.
  - unfold Toolbar.redo, Toolbar.canRedo.
    erewrite bind_ret_intro by reflexivity.
    cbn [hs_canRedo StoreHistory.store]. rewrite Hcan. cbn [negb].
    exact Hredo.
  - cbn [hw_heap hw_history] in Hh, Hhist. rewrite Hh, Hd. auto 10.
Qed.

Lemma documents_at depth (h : heap) (st : list val) (i : Z) :
  documents depth h st -> (0 <= i < len st)%Z ->
  truthy (at_index st i) = true /\ is_Some (reify depth h (at_index st i)).
Proof.
  unfold documents. rewrite List.Forall_forall. intros H Hi.
  apply H. now apply at_index_In.
Qed.

Lemma document_in_full_at sc depth (h : heap) (st : list val) (i : Z) t :
  Forall (document_in_full sc depth h) st -> (0 <= i < len st)%Z ->
  reify depth h (at_index st i) = Some t -> copied_in_full sc t.
Proof.
  rewrite List.Forall_forall. intros H Hi Ht.
  destruct (H _ (at_index_In _ _ Hi)) as (t' & Ht' & Hfull). congruence.
Qed.

(** X24. The toolbar. When the history cannot undo, [undo()] of the
    toolbar changes nothing and shows no toast. When it can, on a history
    of documents that [deepClone] copies in full, it moves the pointer one
    entry back, puts in [card.data] a copy of that entry made of fresh
    cells, marks the card changed and shows one toast; [redo()] right after
    it puts in [card.data] a copy of the entry the pointer was on and
    leaves the history as it was. *)
Theorem toolbar_undo_redo
  (sc : option native_clone) (fuel depth : nat) (a : aworld) :
  structuredClone_sound sc -> depth < fuel ->
  history_inv (aw_history a) ->
  documents depth (app_heap a) (stack (aw_history a)) ->
  Forall (document_in_full sc depth (app_heap a)) (stack (aw_history a)) ->
  let s := aw_history a in
  (StoreHistory.canUndo s = false ->
   Toolbar.undo StoreHistory.store sc fuel a = (Ret tt, a)) /\
  (StoreHistory.canUndo s = true ->
   exists a1 a2 previous current,
     reify depth (app_heap a) (at_index (stack s) (index s - 1)) = Some previous /\
     reify depth (app_heap a) (at_index (stack s) (index s)) = Some current /\
     Toolbar.undo StoreHistory.store sc fuel a = (Ret tt, a1) /\
     reify_from (length (app_heap a)) depth (app_heap a1) (data (app_card a1))
     = Some previous /\
     stack (aw_history a1) = stack s /\
     index (aw_history a1) = (index s - 1)%Z /\
     hasChanges (app_card a1) = true /\
     map item_message (items (tw_toast (aw_toast a1)))
     = map item_message (items (tw_toast (aw_toast a))) ++ [VStr "已撤销"] /\
     Toolbar.redo StoreHistory.store sc fuel a1 = (Ret tt, a2) /\
     reify_from (length (app_heap a1)) depth (app_heap a2) (data (app_card a2))
     = Some current /\
     aw_history a2 = s).
Proof.
  intros Hsc Hfuel (Hi & _ & _) Hdocs Hfull s. subst s. split.
  - intros Hcan. unfold Toolbar.undo, Toolbar.canUndo.
    erewrite bind_ret_intro by reflexivity.
    cbn [hs_canUndo StoreHistory.store]. now rewrite Hcan.
  - intros Hcan. unfold StoreHistory.canUndo in Hcan. apply Z.gtb_lt in Hcan.
    destruct (documents_at _ _ _ (index (aw_history a) - 1) Hdocs)
      as [Htp [previous Hp]]; [lia|].
    destruct (documents_at _ _ _ (index (aw_history a)) Hdocs)
      as [Htc [current Hc]]; [lia|].
    assert (Hfp : copied_in_full sc previous)
      by (eapply document_in_full_at; [exact Hfull| |exact Hp]; lia).
    assert (Hfc : copied_in_full sc current)
      by (eapply document_in_full_at; [exact Hfull| |exact Hc]; lia).
    destruct (toolbar_undo_run sc fuel depth a previous Hsc Hfuel Hcan Htp Hp Hfp)
      as (a1 & cells & Hundo & Hh1 & Hd1 & Hhist1 & _ & Hch1 & _ & Hitems1).
    destruct (toolbar_redo_run sc fuel depth a1 current Hsc Hfuel)
      as (a2 & cells2 & Hredo & Hh2 & Hd2 & Hhist2 & _);
      try (rewrite Hhist1; cbn [stack index]).
    + lia.
    + now replace (index (aw_history a) - 1 + 1)%Z with (index (aw_history a)) by lia.
    + replace (index (aw_history a) - 1 + 1)%Z with (index (aw_history a)) by lia.
      rewrite Hh1. now apply reify_app.
    + exact Hfc.
    + exists a1, a2, previous, current.
      rewrite Hhist1 in Hhist2. cbn [stack index maxSize] in Hhist2.
      replace (index (aw_history a) - 1 + 1)%Z with (index (aw_history a))
        in Hhist2 by lia.
      rewrite Hhist1, Hitems1, map_app. cbn [stack index map item_message].
      destruct (aw_history a); auto 15.
Qed.

Lemma toolbar_undo_redo_witness :
  let a := AWorld sample_sworld (hw_history two_entries) sample_tworld in
  let s := aw_history a in
  (StoreHistory.canUndo s = false ->
   Toolbar.undo StoreHistory.store None 4 a = (Ret tt, a)) /\
  (StoreHistory.canUndo s = true ->
   exists a1 a2 previous current,
     reify 3 (app_heap a) (at_index (stack s) (index s - 1)) = Some previous /\
     reify 3 (app_heap a) (at_index (stack s) (index s)) = Some current /\
     Toolbar.undo StoreHistory.store None 4 a = (Ret tt, a1) /\
     reify_from (length (app_heap a)) 3 (app_heap a1) (data (app_card a1))
     = Some previous /\
     stack (aw_history a1) = stack s /\
     index (aw_history a1) = (index s - 1)%Z /\
     hasChanges (app_card a1) = true /\
     map item_message (items (tw_toast (aw_toast a1)))
     = map item_message (items (tw_toast (aw_toast a))) ++ [VStr "已撤销"] /\
     Toolbar.redo StoreHistory.store None 4 a1 = (Ret tt, a2) /\
     reify_from (length (app_heap a1)) 3 (app_heap a2) (data (app_card a2))
     = Some current /\
     aw_history a2 = s).
Proof.
  intros a.
  apply (toolbar_undo_redo None 4 3 a structuredClone_sound_absent).
  - lia.
  - unfold history_inv, len. simpl. repeat split; try lia; discriminate.
  - repeat constructor; eexists; reflexivity.
  - repeat constructor; eexists; (split; [reflexivity|right; reflexivity]).
Defined.

(* ================================================================== *)
(** * An edit between two recorded states *)
(* ================================================================== *)

Lemma appended_shape s c :
  (1 <= maxSize s)%Z ->
  exists older, appended s c = History (older ++ [c]) (len older) (maxSize s).
Proof.
  intros Hm. unfold appended. cbn zeta.
  pose proof (len_app_one (stack s) c) as Hl.
  destruct (Z.gtb_spec (len (stack s ++ [c])) (maxSize s)).
  - destruct (stack s) as [|x st].
    + unfold len in *. simpl in *. lia.
    + exists st. cbn [app shift tl]. f_equal.
      unfold len in *. cbn [app length] in *. rewrite length_app in *.
      cbn [length] in *. lia.
  - exists (stack s). f_equal. lia.
Qed.

Lemma appended_shape2 older c0 c1 m :
  (2 <= m)%Z ->
  exists older',
    appended (truncated (History (older ++ [c0]) (len older) m)) c1
    = History (older' ++ [c0; c1]) (len older' + 1) m.
Proof.
  intros Hm.
  assert (Ht : truncated (History (older ++ [c0]) (len older) m)
               = History (older ++ [c0]) (len older) m).
  { unfold truncated. cbn [stack index maxSize].
    rewrite len_app_one. destruct (Z.ltb_spec (len older) (len older + 1 - 1));
      [lia|reflexivity]. }
  rewrite Ht. unfold appended. cbn zeta. cbn [stack index maxSize].
  pose proof (len_app_one (older ++ [c0]) c1) as Hl.
  pose proof (len_app_one older c0) as Hl0.
  destruct (Z.gtb_spec (len ((older ++ [c0]) ++ [c1])) m).
  - destruct older as [|x st].
    + unfold len in *. simpl in *. lia.
    + exists st. cbn [app shift tl]. rewrite <- app_assoc. cbn [app]. f_equal.
      unfold len in *. cbn [app length] in *. rewrite !length_app in *.
      cbn [length] in *. lia.
  - exists older. rewrite <- app_assoc. cbn [app]. f_equal.
    rewrite <- app_assoc in Hl. cbn [app] in Hl. lia.
Qed.

Lemma at_index_before_last (l : list val) x y : at_index (l ++ [x; y]) (len l) = x.
Proof.
  unfold at_index, len. destruct (Z.ltb_spec (Z.of_nat (length l)) 0); [lia|].
  rewrite Nat2Z.id. rewrite app_nth2 by lia. now rewrite Nat.sub_diag.
Qed.

Lemma at_index_last2 (l : list val) x y : at_index (l ++ [x; y]) (len l + 1) = y.
Proof.
  replace (l ++ [x; y]) with ((l ++ [x]) ++ [y]) by (now rewrite <- app_assoc).
  rewrite <- (len_app_one l x). apply at_index_last.
Qed.

(** [updateField] keeps [data] and [originalData], and the cells that the
    document does not reach. *)
Lemma updateField_frame depth (h ext : heap) path value s t :
  cw_heap (sw_world s) = h ++ ext ->
  reify depth h (data (cw_card (sw_world s))) = Some t ->
  let s' := snd (CardStore.updateField path value s) in
  data (cw_card (sw_world s')) = data (cw_card (sw_world s)) /\
  originalData (cw_card (sw_world s')) = originalData (cw_card (sw_world s)) /\
  forall l o, length h <= l -> (h ++ ext) !! l = Some o ->
              cw_heap (sw_world s') !! l = Some o.
Proof.
  intros Hh Hd. rewrite updateField_eq. cbn zeta.
  destruct (truthy (data (cw_card (sw_world s)))).
  - pose proof (setByPath_frame_reify 0 depth h _ t Hd ltac:(lia) ext path value
                  true (sw_console s)) as Hframe. cbn zeta in Hframe.
    rewrite Hh.
    destruct (setByPath (data (cw_card (sw_world s))) path value true
                (Env (h ++ ext) (sw_console s))) as [r e'].
    cbn [snd] in Hframe.
    assert (Hkeep : forall l o, length h <= l -> (h ++ ext) !! l = Some o ->
                                env_heap e' !! l = Some o).
    { intros l o Hl Ho. rewrite Hframe; [exact Ho|]. right. split; [exact Hl|].
      eapply lookup_lt_Some; eauto. }
    destruct r as [[]|e| |]; cbn [snd sw_world cw_card cw_heap rethrow]; auto.
    pose proof (checkChanges_documents
                  (CWorld (cw_card (sw_world s)) (env_heap e') (cw_now (sw_world s))
                          (cw_timers (sw_world s)) (cw_next_timer (sw_world s))
                          (cw_fired (sw_world s)))) as (H1 & H2 & H3).
    destruct (checkChanges _) as [r2 w2]. cbn [snd sw_world cw_card cw_heap] in *.
    rewrite H1, H2, H3. auto.
  - cbn [snd]. rewrite Hh. auto.
Qed.

Lemma len_app_two (l : list val) x y : len (l ++ [x; y]) = (len l + 2)%Z.
Proof. unfold len. rewrite length_app. cbn [length]. lia. Qed.

Lemma recordState_run sc fuel depth a t :
  structuredClone_sound sc -> depth < fuel ->
  truthy (data (app_card a)) = true ->
  reify depth (app_heap a) (data (app_card a)) = Some t ->
  copied_in_full sc t ->
  exists copy cells,
    recordState StoreHistory.store sc fuel a
    = (Ret tt,
       put_history_world
         (HWorld (appended (truncated (aw_history a)) copy) (app_heap a ++ cells))
         a) /\
    reify_from (length (app_heap a)) depth (app_heap a ++ cells) copy = Some t.
Proof.
  intros Hsc Hfuel Htr Ht Hfull.
  destruct (deepClone_reify sc Hsc fuel depth _ _ _ Hfuel Ht Hfull)
    as (copy & cells & Hrun & Hc).
  exists copy, cells. split; [|exact Hc].
  rewrite recordState_eq, Htr, push_eq. cbn [history_world hw_heap hw_history].
  rewrite Hrun. reflexivity.
Qed.

Lemma on_card_snd {A} (m : M sworld A) a :
  snd (on_card m a) = AWorld (snd (m (aw_card a))) (aw_history a) (aw_toast a).
Proof. unfold on_card, zoom. now destruct (m (aw_card a)). Qed.

(** X25. Undo takes back an edit. With a card on display, when the
    state is recorded, a field is then set with [updateField], which
    returns, and the state is recorded again, [undo()] of the toolbar puts
    back in [card.data] the document as it was before the edit, and
    [redo()] after it the document as the edit left it; nothing is left to
    redo. This holds for documents that [deepClone] copies in full, from
    any history whose [maxSize] is at least 2, also when recording evicts
    an entry. *)
Theorem edit_undo_redo
  (sc : option native_clone) (fuel depth : nat) (a a2 : aworld)
  (path : string) (value : val) (before after : json) :
  structuredClone_sound sc -> depth < fuel ->
  (2 <= maxSize (aw_history a))%Z ->
  truthy (data (app_card a)) = true ->
  reify depth (app_heap a) (data (app_card a)) = Some before ->
  copied_in_full sc before ->
  let a1 := snd (recordState StoreHistory.store sc fuel a) in
  on_card (CardStore.updateField path value) a1 = (Ret tt, a2) ->
  reify depth (app_heap a2) (data (app_card a2)) = Some after ->
  copied_in_full sc after ->
  exists a3 a4 a5,
    recordState StoreHistory.store sc fuel a = (Ret tt, a1) /\
    recordState StoreHistory.store sc fuel a2 = (Ret tt, a3) /\
    Toolbar.undo StoreHistory.store sc fuel a3 = (Ret tt, a4) /\
    reify depth (app_heap a4) (data (app_card a4)) = Some before /\
    Toolbar.redo StoreHistory.store sc fuel a4 = (Ret tt, a5) /\
    reify depth (app_heap a5) (data (app_card a5)) = Some after /\
    StoreHistory.canRedo (aw_history a5) = false.
Proof.
  intros Hsc Hfuel Hm Htr Hbefore Hfull1.
  destruct (recordState_run sc fuel depth a before Hsc Hfuel Htr Hbefore Hfull1)
    as (c0 & cells0 & Hrec1 & Hc0).
  intros a1 Hupd Hafter Hfull2.
  assert (Ha1 : a1 = put_history_world
                       (HWorld (appended (truncated (aw_history a)) c0)
                               (app_heap a ++ cells0)) a)
    by (subst a1; now rewrite Hrec1).
  rewrite <- Ha1 in Hrec1. clearbody a1. subst a1.
  destruct (appended_shape (truncated (aw_history a)) c0) as [older Hold];
    [rewrite truncated_maxSize; lia|].
  rewrite truncated_maxSize in Hold.
  (* the edit *)
  set (a1 := put_history_world _ a) in *.
  destruct (updateField_frame depth (app_heap a) cells0 path value (aw_card a1)
              before eq_refl Hbefore) as (Hd2 & _ & Hframe).
  assert (Ha2 : a2 = AWorld (snd (CardStore.updateField path value (aw_card a1)))
                            (aw_history a1) (aw_toast a1))
    by (rewrite <- on_card_snd, Hupd; reflexivity).
  assert (Hdata2 : data (app_card a2) = data (app_card a))
    by (rewrite Ha2; exact Hd2).
  assert (Hhist2 : aw_history a2 = History (older ++ [c0]) (len older)
                                           (maxSize (aw_history a)))
    by (rewrite Ha2; exact Hold).
  assert (Hkeep : forall l o, length (app_heap a) <= l ->
                    (app_heap a ++ cells0) !! l = Some o ->
                    app_heap a2 !! l = Some o)
    by (rewrite Ha2; exact Hframe).
  clear Ha2 Hd2 Hframe Hupd.
  (* the second record *)
  assert (Htr2 : truthy (data (app_card a2)) = true) by now rewrite Hdata2.
  destruct (recordState_run sc fuel depth a2 after Hsc Hfuel Htr2 Hafter Hfull2)
    as (c1 & cells1 & Hrec2 & Hc1).
  rewrite Hhist2 in Hrec2.
  destruct (appended_shape2 older c0 c1 (maxSize (aw_history a)) Hm)
    as [older' Hold'].
  rewrite Hold' in Hrec2.
  set (a3 := put_history_world _ a2) in Hrec2.
  assert (Hh3 : app_heap a3 = app_heap a2 ++ cells1) by reflexivity.
  assert (Hhist3 : aw_history a3
                   = History (older' ++ [c0; c1]) (len older' + 1)
                             (maxSize (aw_history a))) by reflexivity.
  assert (Hc0' : reify depth (app_heap a3) c0 = Some before).
  { rewrite Hh3. apply reify_app.
    eapply reify_from_weaken; [| | |exact Hc0]; [lia|lia|exact Hkeep]. }
  assert (Hc1' : reify depth (app_heap a3) c1 = Some after).
  { rewrite Hh3. eapply reify_from_weaken; [| | |exact Hc1]; auto. lia. }
  assert (Ht0 : truthy c0 = true)
    by (rewrite <- Htr; symmetry; eapply truthy_reify; eauto).
  assert (Ht1 : truthy c1 = true)
    by (rewrite <- Htr2; symmetry; eapply truthy_reify; eauto).
  clearbody a3.
  pose proof (Zle_0_nat (length older')) as Hlen. fold (len older') in Hlen.
  (* undo *)
  destruct (toolbar_undo_run sc fuel depth a3 before Hsc Hfuel)
    as (a4 & cells2 & Hundo & Hh4 & Hd4 & Hhist4 & _);
    try (rewrite Hhist3; cbn [stack index];
         replace (len older' + 1 - 1)%Z with (len older') by lia;
         rewrite ?at_index_before_last); auto; [lia|].
  rewrite Hhist3 in Hhist4. cbn [stack index maxSize] in Hhist4.
  replace (len older' + 1 - 1)%Z with (len older') in Hhist4 by lia.
  (* redo *)
  destruct (toolbar_redo_run sc fuel depth a4 after Hsc Hfuel)
    as (a5 & cells3 & Hredo & Hh5 & Hd5 & Hhist5 & _);
    try (rewrite Hhist4; cbn [stack index]; rewrite ?at_index_last2); auto.
  { rewrite len_app_two. lia. }
  { rewrite Hh4. now apply reify_app. }
  exists a3, a4, a5.
  split; [exact Hrec1|]. split; [exact Hrec2|]. split; [exact Hundo|].
  split; [eapply reify_from_weaken; [| | |exact Hd4]; auto; lia|].
  split; [exact Hredo|].
  split; [eapply reify_from_weaken; [| | |exact Hd5]; auto; lia|].
  rewrite Hhist5, Hhist4. unfold StoreHistory.canRedo. cbn [stack index].
  rewrite len_app_two. apply Z.ltb_ge. lia.
Qed.

Lemma edit_undo_redo_witness :
  let a := sample_aworld in
  let a1 := snd (recordState StoreHistory.store None 4 a) in
  let a2 := snd (on_card (CardStore.updateField "tags[2]" (VStr "z")) a1) in
  exists a3 a4 a5,
    recordState StoreHistory.store None 4 a = (Ret tt, a1) /\
    recordState StoreHistory.store None 4 a2 = (Ret tt, a3) /\
    Toolbar.undo StoreHistory.store None 4 a3 = (Ret tt, a4) /\
    reify 3 (app_heap a4) (data (app_card a4))
    = Some (JObj [("name", JStr "A"); ("tags", JArr [JStr "x"; JStr "y"])]) /\
    Toolbar.redo StoreHistory.store None 4 a4 = (Ret tt, a5) /\
    reify 3 (app_heap a5) (data (app_card a5))
    = Some (JObj [("name", JStr "A");
                  ("tags", JArr [JStr "x"; JStr "y"; JStr "z"])]) /\
    StoreHistory.canRedo (aw_history a5) = false.
Proof.
  intros a a1 a2.
  apply (edit_undo_redo None 4 3 a a2 "tags[2]" (VStr "z")
           (JObj [("name", JStr "A"); ("tags", JArr [JStr "x"; JStr "y"])])
           (JObj [("name", JStr "A");
                  ("tags", JArr [JStr "x"; JStr "y"; JStr "z"])])
           structuredClone_sound_absent).
  - lia.
  - simpl. lia.
  - reflexivity.
  - reflexivity.
  - right. reflexivity.
  - vm_compute. reflexivity.
  - vm_compute. reflexivity.
  - right. reflexivity.
Defined.
